(** * sjtu::map: a red-black tree with parent links (src/map.hpp)

    The container is embedded as the C++ code is written: nodes live in a
    heap indexed by addresses, every node carries [left], [right] and
    [parent] links, and every member function is a computation over the
    memory ([world]) that may return, throw one of the two exceptions of
    exceptions.hpp, or fault (a null or dangling dereference, which is
    undefined behaviour in C++).  Loops and recursions take a fuel
    argument. *)

From stdpp Require Import gmap list sorting.
From iris.bi Require Import bi.
From iris.proofmode Require Import proofmode coq_tactics reduction environments.


(** Addresses of nodes and of map objects. *)
Abbreviation ptr := positive.
Abbreviation addr := positive.

(** exceptions.hpp: the two exception classes the container throws. *)
Inductive exn := invalid_iterator | index_out_of_bound.

(** [size_t] is an unsigned 64-bit integer: arithmetic on [node_count]
    wraps modulo [2^64]. *)
Definition size_t_modulus : N := 2 ^ 64.
Definition size_t_wrap (n : N) : N := (n mod size_t_modulus)%N.

Section map.

Context {Key T : Type}.
(** [Compare comp]: the ordering predicate; [T_default] is [T()]. *)
Variable comp : Key → Key → bool.
Variable T_default : T.

(** [struct Node]: [color] is [true] for RED and [false] for BLACK. *)
Record Node := mkNode {
  data : Key * T;
  color : bool;
  left : option ptr;
  right : option ptr;
  parent : option ptr
}.

(** The data members of a [map] object ([comp] is the section variable). *)
Record map := Map {
  root : option ptr;
  node_count : N
}.

(** The memory: the nodes allocated with [new] and the live map objects. *)
Record world := World {
  nodes : gmap ptr Node;
  objs : gmap addr map
}.

(** [iterator] and [const_iterator] have the same two members. *)
Record iterator := Iter {
  owner : option addr;
  cur : option ptr
}.

(** ** Computations *)

Inductive result (A : Type) :=
| Ok (a : A) (w : world)
| Throw (e : exn) (w : world)
| Fault
| OutOfFuel.
Global Arguments Ok {A} a w.
Global Arguments Throw {A} e w.
Global Arguments Fault {A}.
Global Arguments OutOfFuel {A}.

Definition M (A : Type) := world → result A.

Definition ret {A} (a : A) : M A := fun w => Ok a w.
Definition bind {A B} (m : M A) (k : A → M B) : M B := fun w =>
  match m w with
  | Ok a w' => k a w'
  | Throw e w' => Throw e w'
  | Fault => Fault
  | OutOfFuel => OutOfFuel
  end.
Definition throw {A} (e : exn) : M A := fun w => Throw e w.
Definition fault {A} : M A := fun _ => Fault.
Definition out_of_fuel {A} : M A := fun _ => OutOfFuel.

Notation "'let!' x ':=' m 'in' k" := (bind m (fun x => k))
  (at level 10, x binder, m at level 100, k at level 200).
Notation "m ';;;' k" := (bind m (fun _ => k))
  (at level 100, k at level 200, right associativity).

(** Reading and writing a node through a pointer. *)
Definition load (p : ptr) : M Node := fun w =>
  match nodes w !! p with
  | Some n => Ok n w
  | None => Fault
  end.
Definition store (p : ptr) (n : Node) : M unit := fun w =>
  match nodes w !! p with
  | Some _ => Ok tt (World (<[p := n]> (nodes w)) (objs w))
  | None => Fault
  end.

Definition get_data (p : ptr) : M (Key * T) := let! n := load p in ret (data n).
Definition get_color (p : ptr) : M bool := let! n := load p in ret (color n).
Definition get_left (p : ptr) : M (option ptr) := let! n := load p in ret (left n).
Definition get_right (p : ptr) : M (option ptr) := let! n := load p in ret (right n).
Definition get_parent (p : ptr) : M (option ptr) := let! n := load p in ret (parent n).

Definition set_second (p : ptr) (v : T) : M unit :=
  let! n := load p in store p (mkNode (fst (data n), v) (color n) (left n) (right n) (parent n)).
Definition set_color (p : ptr) (c : bool) : M unit :=
  let! n := load p in store p (mkNode (data n) c (left n) (right n) (parent n)).
Definition set_left (p : ptr) (q : option ptr) : M unit :=
  let! n := load p in store p (mkNode (data n) (color n) q (right n) (parent n)).
Definition set_right (p : ptr) (q : option ptr) : M unit :=
  let! n := load p in store p (mkNode (data n) (color n) (left n) q (parent n)).
Definition set_parent (p : ptr) (q : option ptr) : M unit :=
  let! n := load p in store p (mkNode (data n) (color n) (left n) (right n) q).

(** [new Node(d)]: some address that is not live; the constructor colours
    the node red and clears its three links. *)
Definition new_Node (d : Key * T) : M ptr := fun w =>
  let p := fresh (dom (nodes w)) in
  Ok p (World (<[p := mkNode d true None None None]> (nodes w)) (objs w)).
(** [delete x]. *)
Definition delete_Node (p : ptr) : M unit := fun w =>
  match nodes w !! p with
  | Some _ => Ok tt (World (delete p (nodes w)) (objs w))
  | None => Fault
  end.

(** The members [root] and [node_count] of the object at [this]. *)
Definition load_map (this : addr) : M map := fun w =>
  match objs w !! this with
  | Some m => Ok m w
  | None => Fault
  end.
Definition store_map (this : addr) (m : map) : M unit := fun w =>
  match objs w !! this with
  | Some _ => Ok tt (World (nodes w) (<[this := m]> (objs w)))
  | None => Fault
  end.
Definition get_root (this : addr) : M (option ptr) := let! m := load_map this in ret (root m).
Definition set_root (this : addr) (r : option ptr) : M unit :=
  let! m := load_map this in store_map this (Map r (node_count m)).
Definition get_node_count (this : addr) : M N := let! m := load_map this in ret (node_count m).
Definition set_node_count (this : addr) (n : N) : M unit :=
  let! m := load_map this in store_map this (Map (root m) n).
(** [++node_count] and [--node_count] on a [size_t]. *)
Definition incr_node_count (this : addr) : M unit :=
  let! n := get_node_count this in set_node_count this (size_t_wrap (n + 1)).
Definition decr_node_count (this : addr) : M unit :=
  let! n := get_node_count this in set_node_count this (size_t_wrap (n + size_t_modulus - 1)).

(** ** Private helpers (map.hpp lines 37-192) *)

Definition is_red (x : option ptr) : M bool :=
  match x with
  | None => ret false
  | Some p => get_color p
  end.
Definition is_black (x : option ptr) : M bool :=
  match x with
  | None => ret true
  | Some p => let! c := get_color p in ret (negb c)
  end.

Fixpoint min_node_loop (fuel : nat) (x : ptr) : M ptr :=
  let! l := get_left x in
  match l with
  | None => ret x
  | Some l' =>
      match fuel with
      | O => out_of_fuel
      | S fuel' => min_node_loop fuel' l'
      end
  end.
Definition min_node (fuel : nat) (x : option ptr) : M (option ptr) :=
  match x with
  | None => ret None
  | Some p => let! m := min_node_loop fuel p in ret (Some m)
  end.

Fixpoint max_node_loop (fuel : nat) (x : ptr) : M ptr :=
  let! r := get_right x in
  match r with
  | None => ret x
  | Some r' =>
      match fuel with
      | O => out_of_fuel
      | S fuel' => max_node_loop fuel' r'
      end
  end.
Definition max_node (fuel : nat) (x : option ptr) : M (option ptr) :=
  match x with
  | None => ret None
  | Some p => let! m := max_node_loop fuel p in ret (Some m)
  end.

Definition eq_key (a b : Key) : bool := negb (comp a b) && negb (comp b a).

Fixpoint find_node_loop (fuel : nat) (key : Key) (cur : option ptr) : M (option ptr) :=
  match cur with
  | None => ret None
  | Some c =>
      match fuel with
      | O => out_of_fuel
      | S fuel' =>
          let! d := get_data c in
          if comp key (fst d) then let! l := get_left c in find_node_loop fuel' key l
          else if comp (fst d) key then let! r := get_right c in find_node_loop fuel' key r
          else ret (Some c)
      end
  end.
Definition find_node (this : addr) (fuel : nat) (key : Key) : M (option ptr) :=
  let! cur := get_root this in find_node_loop fuel key cur.

(** The link of [xp] that holds [x] is redirected to [y] (lines 70-72,
    82-84 and 115-117). *)
Definition left_rotate (this : addr) (x : ptr) : M unit :=
  let! yo := get_right x in
  match yo with
  | None => fault
  | Some y =>
      let! yl := get_left y in
      set_right x yl;;;
      let! yl := get_left y in
      match yl with Some b => set_parent b (Some x) | None => ret tt end;;;
      let! xp := get_parent x in
      set_parent y xp;;;
      let! xp := get_parent x in
      match xp with
      | None => set_root this (Some y)
      | Some p =>
          let! pl := get_left p in
          if decide (Some x = pl) then set_left p (Some y) else set_right p (Some y)
      end;;;
      set_left y (Some x);;;
      set_parent x (Some y)
  end.

Definition right_rotate (this : addr) (x : ptr) : M unit :=
  let! yo := get_left x in
  match yo with
  | None => fault
  | Some y =>
      let! yr := get_right y in
      set_left x yr;;;
      let! yr := get_right y in
      match yr with Some b => set_parent b (Some x) | None => ret tt end;;;
      let! xp := get_parent x in
      set_parent y xp;;;
      let! xp := get_parent x in
      match xp with
      | None => set_root this (Some y)
      | Some p =>
          let! pr := get_right p in
          if decide (Some x = pr) then set_right p (Some y) else set_left p (Some y)
      end;;;
      set_right y (Some x);;;
      set_parent x (Some y)
  end.

(** [insert_fix]: one pass of the [while] body (lines 91-109); the result
    is the value of [z] when the body ends. *)
Definition insert_fix_body (this : addr) (z : ptr) : M ptr :=
  let! po := get_parent z in
  match po with
  | None => fault
  | Some p =>
  let! go := get_parent p in
  match go with
  | None => fault
  | Some g =>
  let! gl := get_left g in
  if decide (Some p = gl) then
    let! u := get_right g in
    let! ur := is_red u in
    if ur then
      set_color p false;;;
      match u with Some u' => set_color u' false | None => fault end;;;
      set_color g true;;;
      ret g
    else
      let! pr := get_right p in
      let! zpg :=
        (if decide (Some z = pr) then
           left_rotate this p;;;
           let! po' := get_parent p in
           match po' with
           | None => fault
           | Some p' => let! go' := get_parent p' in ret (p, p', go')
           end
         else ret (z, p, Some g)) in
      let '(z', p', go') := zpg in
      set_color p' false;;;
      match go' with
      | None => fault
      | Some g' => set_color g' true;;; right_rotate this g'
      end;;;
      ret z'
  else
    let! u := get_left g in
    let! ur := is_red u in
    if ur then
      set_color p false;;;
      match u with Some u' => set_color u' false | None => fault end;;;
      set_color g true;;;
      ret g
    else
      let! pl := get_left p in
      let! zpg :=
        (if decide (Some z = pl) then
           right_rotate this p;;;
           let! po' := get_parent p in
           match po' with
           | None => fault
           | Some p' => let! go' := get_parent p' in ret (p, p', go')
           end
         else ret (z, p, Some g)) in
      let '(z', p', go') := zpg in
      set_color p' false;;;
      match go' with
      | None => fault
      | Some g' => set_color g' true;;; left_rotate this g'
      end;;;
      ret z'
  end
  end.

Fixpoint insert_fix_loop (this : addr) (fuel : nat) (z : ptr) : M unit :=
  let! po := get_parent z in
  let! c := match po with None => ret false | Some p => get_color p end in
  if c then
    match fuel with
    | O => out_of_fuel
    | S fuel' => let! z' := insert_fix_body this z in insert_fix_loop this fuel' z'
    end
  else ret tt.

Definition blacken_root (this : addr) : M unit :=
  let! r := get_root this in
  match r with
  | Some r' => set_color r' false
  | None => ret tt
  end.

Definition insert_fix (this : addr) (fuel : nat) (z : ptr) : M unit :=
  insert_fix_loop this fuel z;;;
  blacken_root this.

Definition transplant (this : addr) (u : ptr) (v : option ptr) : M unit :=
  let! up := get_parent u in
  match up with
  | None => set_root this v
  | Some p =>
      let! pl := get_left p in
      if decide (Some u = pl) then set_left p v else set_right p v
  end;;;
  match v with
  | Some v' => let! up := get_parent u in set_parent v' up
  | None => ret tt
  end.

(** [o ? o->left : nullptr] and its two siblings. *)
Definition opt_left (o : option ptr) : M (option ptr) :=
  match o with Some p => get_left p | None => ret None end.
Definition opt_right (o : option ptr) : M (option ptr) :=
  match o with Some p => get_right p | None => ret None end.
Definition opt_parent (o : option ptr) : M (option ptr) :=
  match o with Some p => get_parent p | None => ret None end.

(** [erase_fix], lines 130-146: the rest of the left branch of the loop
    body once the sibling [w] of [x] is black (cases 2 to 4). *)
Definition erase_fix_left_black (this : addr) (x_parent w : option ptr)
  : M (option ptr * option ptr) :=
  let! wl := opt_left w in
  let! b1 := is_black wl in
  let! b2 := (if b1 then let! wr := opt_right w in is_black wr else ret false) in
  if b2 then
    match w with Some w' => set_color w' true | None => ret tt end;;;
    let! xpp := opt_parent x_parent in
    ret (x_parent, xpp)
  else
    let! wr := opt_right w in
    let! b3 := is_black wr in
    let! w :=
      (if b3 then
         match w with
         | Some w' =>
             let! wl := get_left w' in
             match wl with Some wl' => set_color wl' false | None => ret tt end
         | None => ret tt
         end;;;
         match w with
         | Some w' => set_color w' true;;; right_rotate this w'
         | None => ret tt
         end;;;
         opt_right x_parent
       else ret w) in
    match w with
    | Some w' =>
        let! c := match x_parent with Some xp => get_color xp | None => ret false end in
        set_color w' c
    | None => ret tt
    end;;;
    match x_parent with Some xp => set_color xp false | None => ret tt end;;;
    match w with
    | Some w' =>
        let! wr := get_right w' in
        match wr with Some wr' => set_color wr' false | None => ret tt end
    | None => ret tt
    end;;;
    match x_parent with Some xp => left_rotate this xp | None => ret tt end;;;
    let! r := get_root this in
    ret (r, None).

(** Lines 154-170: the mirror image, for the right branch. *)
Definition erase_fix_right_black (this : addr) (x_parent w : option ptr)
  : M (option ptr * option ptr) :=
  let! wr := opt_right w in
  let! b1 := is_black wr in
  let! b2 := (if b1 then let! wl := opt_left w in is_black wl else ret false) in
  if b2 then
    match w with Some w' => set_color w' true | None => ret tt end;;;
    let! xpp := opt_parent x_parent in
    ret (x_parent, xpp)
  else
    let! wl := opt_left w in
    let! b3 := is_black wl in
    let! w :=
      (if b3 then
         match w with
         | Some w' =>
             let! wr := get_right w' in
             match wr with Some wr' => set_color wr' false | None => ret tt end
         | None => ret tt
         end;;;
         match w with
         | Some w' => set_color w' true;;; left_rotate this w'
         | None => ret tt
         end;;;
         opt_left x_parent
       else ret w) in
    match w with
    | Some w' =>
        let! c := match x_parent with Some xp => get_color xp | None => ret false end in
        set_color w' c
    | None => ret tt
    end;;;
    match x_parent with Some xp => set_color xp false | None => ret tt end;;;
    match w with
    | Some w' =>
        let! wl := get_left w' in
        match wl with Some wl' => set_color wl' false | None => ret tt end
    | None => ret tt
    end;;;
    match x_parent with Some xp => right_rotate this xp | None => ret tt end;;;
    let! r := get_root this in
    ret (r, None).

(** [erase_fix]: one pass of the [while] body (lines 123-171); the result
    is the pair [(x, x_parent)] when the body ends.  Lines 125-129 and
    149-153 are case 1, which makes the sibling black. *)
Definition erase_fix_body (this : addr) (x x_parent : option ptr)
  : M (option ptr * option ptr) :=
  let! xl := opt_left x_parent in
  if decide (x = xl) then
    let! w := opt_right x_parent in
    let! wred := is_red w in
    let! w :=
      (if wred then
         match w with Some w' => set_color w' false | None => fault end;;;
         match x_parent with
         | Some xp => set_color xp true;;; left_rotate this xp
         | None => ret tt
         end;;;
         opt_right x_parent
       else ret w) in
    erase_fix_left_black this x_parent w
  else
    let! w := opt_left x_parent in
    let! wred := is_red w in
    let! w :=
      (if wred then
         match w with Some w' => set_color w' false | None => fault end;;;
         match x_parent with
         | Some xp => set_color xp true;;; right_rotate this xp
         | None => ret tt
         end;;;
         opt_left x_parent
       else ret w) in
    erase_fix_right_black this x_parent w.

Fixpoint erase_fix_loop (this : addr) (fuel : nat) (x x_parent : option ptr)
  : M (option ptr) :=
  let! r := get_root this in
  let! c := (if decide (x ≠ r) then is_black x else ret false) in
  if c then
    match fuel with
    | O => out_of_fuel
    | S fuel' =>
        let! xs := erase_fix_body this x x_parent in
        erase_fix_loop this fuel' (fst xs) (snd xs)
    end
  else ret x.

Definition erase_fix (this : addr) (fuel : nat) (x x_parent : option ptr) : M unit :=
  let! x' := erase_fix_loop this fuel x x_parent in
  match x' with
  | Some p => set_color p false
  | None => ret tt
  end.

Fixpoint clear_node (fuel : nat) (x : option ptr) : M unit :=
  match x with
  | None => ret tt
  | Some p =>
      match fuel with
      | O => out_of_fuel
      | S fuel' =>
          let! l := get_left p in
          clear_node fuel' l;;;
          let! r := get_right p in
          clear_node fuel' r;;;
          delete_Node p
      end
  end.

Fixpoint clone_subtree (this : addr) (fuel : nat) (parent other : option ptr)
  : M (option ptr) :=
  match other with
  | None => ret None
  | Some o =>
      match fuel with
      | O => out_of_fuel
      | S fuel' =>
          let! d := get_data o in
          let! x := new_Node d in
          let! c := get_color o in
          set_color x c;;;
          set_parent x parent;;;
          let! ol := get_left o in
          let! l := clone_subtree this fuel' (Some x) ol in
          set_left x l;;;
          let! or := get_right o in
          let! r := clone_subtree this fuel' (Some x) or in
          set_right x r;;;
          incr_node_count this;;;
          ret (Some x)
      end
  end.

(** ** Iterators (lines 196-332) *)

Fixpoint next_node_loop (fuel : nat) (x : ptr) (p : option ptr) : M (option ptr) :=
  match p with
  | None => ret None
  | Some p' =>
      let! pr := get_right p' in
      if decide (Some x = pr) then
        match fuel with
        | O => out_of_fuel
        | S fuel' => let! pp := get_parent p' in next_node_loop fuel' p' pp
        end
      else ret p
  end.
Definition next_node (fuel : nat) (x : option ptr) : M (option ptr) :=
  match x with
  | None => ret None
  | Some x' =>
      let! r := get_right x' in
      match r with
      | Some _ => min_node fuel r
      | None => let! p := get_parent x' in next_node_loop fuel x' p
      end
  end.

Fixpoint prev_node_loop (fuel : nat) (x : ptr) (p : option ptr) : M (option ptr) :=
  match p with
  | None => ret None
  | Some p' =>
      let! pl := get_left p' in
      if decide (Some x = pl) then
        match fuel with
        | O => out_of_fuel
        | S fuel' => let! pp := get_parent p' in prev_node_loop fuel' p' pp
        end
      else ret p
  end.
Definition prev_node (fuel : nat) (x : option ptr) : M (option ptr) :=
  match x with
  | None => ret None
  | Some x' =>
      let! l := get_left x' in
      match l with
      | Some _ => max_node fuel l
      | None => let! p := get_parent x' in prev_node_loop fuel x' p
      end
  end.

(** [iterator()]: the default-constructed cursor. *)
Definition iterator_default : iterator := Iter None None.

(** [operator++()]; the result is the iterator after the call. *)
Definition iter_incr (fuel : nat) (it : iterator) : M iterator :=
  match owner it with
  | None => throw invalid_iterator
  | Some _ =>
      match cur it with
      | None => throw invalid_iterator
      | Some _ =>
          let! nxt := next_node fuel (cur it) in
          ret (Iter (owner it) nxt)
      end
  end.

(** [operator--()]. *)
Definition iter_decr (fuel : nat) (it : iterator) : M iterator :=
  match owner it with
  | None => throw invalid_iterator
  | Some o =>
      match cur it with
      | None =>
          let! r := get_root o in
          match r with
          | None => throw invalid_iterator
          | Some _ =>
              let! m := max_node fuel r in
              ret (Iter (owner it) m)
          end
      | Some _ =>
          let! prv := prev_node fuel (cur it) in
          match prv with
          | None => throw invalid_iterator
          | Some _ => ret (Iter (owner it) prv)
          end
      end
  end.

(** [operator++(int)] and [operator--(int)]: the returned copy and the
    iterator after the call. *)
Definition iter_post_incr (fuel : nat) (it : iterator) : M (iterator * iterator) :=
  let! it' := iter_incr fuel it in ret (it, it').
Definition iter_post_decr (fuel : nat) (it : iterator) : M (iterator * iterator) :=
  let! it' := iter_decr fuel it in ret (it, it').

(** [operator*()]: the reference to [cur->data] is the address of the
    node that holds it. *)
Definition iter_deref (it : iterator) : M ptr :=
  match cur it with
  | None => throw invalid_iterator
  | Some p => let! _ := load p in ret p
  end.

(** [operator->()], declared [noexcept]: [&cur->data] without a test. *)
Definition iter_arrow (it : iterator) : M ptr :=
  match cur it with
  | None => fault
  | Some p => let! _ := load p in ret p
  end.

(** [operator==] and [operator!=]. *)
Definition iter_eq (a b : iterator) : bool :=
  bool_decide (owner a = owner b) && bool_decide (cur a = cur b).
Definition iter_neq (a b : iterator) : bool := negb (iter_eq a b).

(** ** The public interface (lines 334-460) *)

(** [map()]: a map object comes to life at [this]. *)
Definition map_ctor (this : addr) : M unit := fun w =>
  match objs w !! this with
  | Some _ => Fault
  | None => Ok tt (World (nodes w) (<[this := Map None 0]> (objs w)))
  end.

(** [map(const map &other)]. *)
Definition map_copy_ctor (this : addr) (fuel : nat) (other : addr) : M unit :=
  map_ctor this;;;
  let! r := get_root other in
  let! c := clone_subtree this fuel None r in
  set_root this c.

Definition map_clear (this : addr) (fuel : nat) : M unit :=
  let! r := get_root this in
  clear_node fuel r;;;
  set_root this None;;;
  set_node_count this 0.

(** [operator=(const map &other)]. *)
Definition map_assign (this : addr) (fuel : nat) (other : addr) : M unit :=
  if decide (this = other) then ret tt
  else
    map_clear this fuel;;;
    let! r := get_root other in
    let! c := clone_subtree this fuel None r in
    set_root this c.

(** [~map()]: the object at [this] is gone afterwards. *)
Definition map_dtor (this : addr) (fuel : nat) : M unit :=
  map_clear this fuel;;;
  fun w => Ok tt (World (nodes w) (delete this (objs w))).

(** [at(key)], both overloads: the reference to [x->data.second] is the
    address of the node. *)
Definition map_at (this : addr) (fuel : nat) (key : Key) : M ptr :=
  let! x := find_node this fuel key in
  match x with
  | None => throw index_out_of_bound
  | Some p => ret p
  end.

(** The descent of lines 362-368 and 397-403: [inl cur] when an
    equivalent key is met, [inr parent] when [cur] runs off the tree. *)
Fixpoint descend (fuel : nat) (key : Key) (cur parent : option ptr)
  : M (ptr + option ptr) :=
  match cur with
  | None => ret (inr parent)
  | Some c =>
      match fuel with
      | O => out_of_fuel
      | S fuel' =>
          let! d := get_data c in
          if comp key (fst d) then let! l := get_left c in descend fuel' key l (Some c)
          else if comp (fst d) key then let! r := get_right c in descend fuel' key r (Some c)
          else ret (inl c)
      end
  end.

(** Lines 369-374 and 404-409: the new node is linked below [parent]. *)
Definition link_new (this : addr) (value : Key * T) (parent : option ptr) : M ptr :=
  let! z := new_Node value in
  set_parent z parent;;;
  match parent with
  | None => set_root this (Some z)
  | Some p =>
      let! zd := get_data z in
      let! pd := get_data p in
      if comp (fst zd) (fst pd) then set_left p (Some z) else set_right p (Some z)
  end;;;
  incr_node_count this;;;
  ret z.

(** [operator[](key)], the mutable overload. *)
Definition map_index (this : addr) (fuel : nat) (key : Key) : M ptr :=
  let! r := get_root this in
  let! d := descend fuel key r None in
  match d with
  | inl c => ret c
  | inr parent =>
      let! z := link_new this (key, T_default) parent in
      insert_fix this fuel z;;;
      ret z
  end.

(** [operator[](key) const]. *)
Definition map_index_const (this : addr) (fuel : nat) (key : Key) : M ptr :=
  map_at this fuel key.

Definition map_begin (this : addr) (fuel : nat) : M iterator :=
  let! r := get_root this in
  let! m := min_node fuel r in
  ret (Iter (Some this) m).
Definition map_end (this : addr) : iterator := Iter (Some this) None.

Definition map_empty (this : addr) : M bool :=
  let! n := get_node_count this in ret (bool_decide (n = 0%N)).
Definition map_size (this : addr) : M N := get_node_count this.

Definition map_insert (this : addr) (fuel : nat) (value : Key * T)
  : M (iterator * bool) :=
  let! r := get_root this in
  let! d := descend fuel (fst value) r None in
  match d with
  | inl c => ret (Iter (Some this) (Some c), false)
  | inr parent =>
      let! z := link_new this value parent in
      insert_fix this fuel z;;;
      ret (Iter (Some this) (Some z), true)
  end.

(** Lines 423-448 of [erase]: [z] is unlinked; the result is
    [(y_original_color, x, x_parent)]. *)
Definition erase_unlink (this : addr) (fuel : nat) (z : ptr)
  : M (bool * option ptr * option ptr) :=
  let! zc := get_color z in
  let! zl := get_left z in
  match zl with
  | None =>
      let! x := get_right z in
      let! x_parent := get_parent z in
      let! zr := get_right z in
      transplant this z zr;;;
      ret (zc, x, x_parent)
  | Some _ =>
      let! zr := get_right z in
      match zr with
      | None =>
          let! x := get_left z in
          let! x_parent := get_parent z in
          let! zl := get_left z in
          transplant this z zl;;;
          ret (zc, x, x_parent)
      | Some _ =>
          let! yo := min_node fuel zr in
          match yo with
          | None => fault
          | Some y =>
              let! yc := get_color y in
              let! x := get_right y in
              let! yp := get_parent y in
              let! x_parent :=
                (if decide (yp = Some z) then
                   match x with Some x' => set_parent x' (Some y) | None => ret tt end;;;
                   ret (Some y)
                 else
                   let! yp := get_parent y in
                   let! yr := get_right y in
                   transplant this y yr;;;
                   let! zr := get_right z in
                   set_right y zr;;;
                   let! yr := get_right y in
                   match yr with Some r => set_parent r (Some y) | None => ret tt end;;;
                   ret yp) in
              transplant this z (Some y);;;
              let! zl := get_left z in
              set_left y zl;;;
              let! yl := get_left y in
              match yl with Some l => set_parent l (Some y) | None => ret tt end;;;
              let! zc := get_color z in
              set_color y zc;;;
              ret (yc, x, x_parent)
          end
      end
  end.

(** Lines 416-454 of [erase]: the node [z] is removed. *)
Definition erase_node (this : addr) (fuel : nat) (z : ptr) : M unit :=
  let! u := erase_unlink this fuel z in
  let '(y_original_color, x, x_parent) := u in
  delete_Node z;;;
  decr_node_count this;;;
  (if y_original_color then ret tt else erase_fix this fuel x x_parent);;;
  blacken_root this.

Definition map_erase (this : addr) (fuel : nat) (pos : iterator) : M unit :=
  if bool_decide (owner pos ≠ Some this) || bool_decide (cur pos = None)
  then throw invalid_iterator
  else
    match cur pos with
    | None => fault
    | Some z => erase_node this fuel z
    end.

Definition map_count (this : addr) (fuel : nat) (key : Key) : M N :=
  let! x := find_node this fuel key in
  ret (match x with Some _ => 1%N | None => 0%N end).

Definition map_find (this : addr) (fuel : nat) (key : Key) : M iterator :=
  let! x := find_node this fuel key in
  ret (Iter (Some this) x).

(** Reading and writing through a reference returned by [at],
    [operator[]], [operator*] or [operator->]. *)
Definition ref_data (r : ptr) : M (Key * T) := get_data r.
Definition ref_assign (r : ptr) (v : T) : M unit := set_second r v.

(** The client loop from [begin()] to [end()]: while [it != end()], read
    the entry [it] refers to and advance with [++it].  The result lists the
    nodes visited and their entries, in the order of the visits. *)
Fixpoint iterate (this : addr) (fuel : nat) (it : iterator)
  : M (list (ptr * (Key * T))) :=
  if iter_neq it (map_end this) then
    match fuel with
    | O => out_of_fuel
    | S fuel' =>
        let! r := iter_deref it in
        let! d := ref_data r in
        let! it' := iter_incr fuel it in
        let! rest := iterate this fuel' it' in
        ret ((r, d) :: rest)
    end
  else ret [].
Definition traverse (this : addr) (fuel : nat) : M (list (ptr * (Key * T))) :=
  let! b := map_begin this fuel in
  iterate this fuel b.

End map.


Notation "'let!' x ':=' m 'in' k" := (bind m (fun x => k))
  (at level 10, x binder, m at level 100, k at level 200).
Notation "m ';;;' k" := (bind m (fun _ => k))
  (at level 100, k at level 200, right associativity).


(** * A separation logic over the memory

    Assertions are predicates on pieces of memory that stay true when the
    piece grows.  They form a [bi], so the Iris proof mode applies. *)

Section logic.
Context {Key T : Type}.
Notation world := (world (Key:=Key) (T:=T)).

Definition wempty : world := World ∅ ∅.
Definition wdisj (w1 w2 : world) : Prop :=
  nodes w1 ##ₘ nodes w2 ∧ objs w1 ##ₘ objs w2.
Definition wunion (w1 w2 : world) : world :=
  World (nodes w1 ∪ nodes w2) (objs w1 ∪ objs w2).
Definition wsub (w1 w2 : world) : Prop :=
  nodes w1 ⊆ nodes w2 ∧ objs w1 ⊆ objs w2.

Lemma world_eq (w1 w2 : world) :
  nodes w1 = nodes w2 → objs w1 = objs w2 → w1 = w2.
Proof. destruct w1, w2; simpl; congruence. Qed.

Lemma wsub_refl w : wsub w w.
Proof. split; done. Qed.
Lemma wsub_trans w1 w2 w3 : wsub w1 w2 → wsub w2 w3 → wsub w1 w3.
Proof. intros [??] [??]; split; by etrans. Qed.
Lemma wsub_empty w : wsub wempty w.
Proof. split; apply map_empty_subseteq. Qed.
Lemma wdisj_sym w1 w2 : wdisj w1 w2 → wdisj w2 w1.
Proof. intros [??]; split; done. Qed.
Lemma wdisj_empty_r w : wdisj w wempty.
Proof. split; apply map_disjoint_empty_r. Qed.
Lemma wunion_empty_r w : wunion w wempty = w.
Proof. apply world_eq; simpl; by rewrite right_id_L. Qed.
Lemma wunion_empty_l w : wunion wempty w = w.
Proof. apply world_eq; simpl; by rewrite left_id_L. Qed.
Lemma wunion_comm w1 w2 : wdisj w1 w2 → wunion w1 w2 = wunion w2 w1.
Proof. intros [??]. apply world_eq; simpl; by apply map_union_comm. Qed.
Lemma wunion_assoc w1 w2 w3 : wunion w1 (wunion w2 w3) = wunion (wunion w1 w2) w3.
Proof. apply world_eq; simpl; by rewrite assoc_L. Qed.
Lemma wdisj_union_l w1 w2 w3 :
  wdisj (wunion w1 w2) w3 ↔ wdisj w1 w3 ∧ wdisj w2 w3.
Proof. unfold wdisj; simpl. rewrite !map_disjoint_union_l. tauto. Qed.
Lemma wdisj_union_r w1 w2 w3 :
  wdisj w1 (wunion w2 w3) ↔ wdisj w1 w2 ∧ wdisj w1 w3.
Proof. unfold wdisj; simpl. rewrite !map_disjoint_union_r. tauto. Qed.
Lemma wsub_union_l w1 w2 : wsub w1 (wunion w1 w2).
Proof. split; simpl; apply map_union_subseteq_l. Qed.
Lemma wsub_union_r w1 w2 : wdisj w1 w2 → wsub w2 (wunion w1 w2).
Proof. intros [??]. split; simpl; by apply map_union_subseteq_r. Qed.
Lemma wsub_union_mono_r w1 w2 w3 :
  wdisj w2 w3 → wsub w1 w2 → wsub (wunion w1 w3) (wunion w2 w3).
Proof. intros [??] [??]. split; simpl; by apply map_union_mono_r. Qed.
Lemma wdisj_weak_l w1 w2 w3 : wdisj w2 w3 → wsub w1 w2 → wdisj w1 w3.
Proof. intros [??] [??]. split; by eapply map_disjoint_weaken_l. Qed.
(** Every larger memory splits into the smaller one and the rest. *)
Lemma wsub_split w1 w2 :
  wsub w1 w2 → ∃ d, wdisj w1 d ∧ w2 = wunion w1 d.
Proof.
  intros [Hn Ho].
  exists (World (nodes w2 ∖ nodes w1) (objs w2 ∖ objs w1)). split.
  - split; simpl; by apply map_disjoint_difference_r1.
  - apply world_eq; simpl; by rewrite map_difference_union.
Qed.

Record hprop := HProp {
  holds :> world → Prop;
  holds_mono w1 w2 : holds w1 → wsub w1 w2 → holds w2
}.
Global Arguments holds : simpl never.

Local Instance hprop_equiv : Equiv hprop := λ P Q, ∀ w, P w ↔ Q w.
Local Instance hprop_equivalence : Equivalence (≡@{hprop}).
Proof.
  split.
  - intros P w; reflexivity.
  - intros P Q H w; symmetry; apply H.
  - intros P Q R H1 H2 w; etrans; [apply H1|apply H2].
Qed.
Canonical Structure hpropO := discreteO hprop.

Record hprop_entails (P Q : hprop) : Prop :=
  { hprop_in_entails : ∀ w, P w → Q w }.

Program Definition hprop_emp : hprop := {| holds w := True |}.
Solve Obligations with done.
Program Definition hprop_pure (φ : Prop) : hprop := {| holds w := φ |}.
Solve Obligations with done.
Program Definition hprop_and (P Q : hprop) : hprop := {| holds w := P w ∧ Q w |}.
Next Obligation. intros P Q w1 w2 [??] ?; split; by eapply holds_mono. Qed.
Program Definition hprop_or (P Q : hprop) : hprop := {| holds w := P w ∨ Q w |}.
Next Obligation. intros P Q w1 w2 [?|?] ?; [left|right]; by eapply holds_mono. Qed.
Program Definition hprop_impl (P Q : hprop) : hprop :=
  {| holds w := ∀ w', wsub w w' → P w' → Q w' |}.
Next Obligation. intros P Q w1 w2 H ? w' ??. apply H; [by eapply wsub_trans|done]. Qed.
Program Definition hprop_forall {A} (Ψ : A → hprop) : hprop :=
  {| holds w := ∀ a, Ψ a w |}.
Next Obligation. intros A Ψ w1 w2 H ? a. by eapply holds_mono. Qed.
Program Definition hprop_exist {A} (Ψ : A → hprop) : hprop :=
  {| holds w := ∃ a, Ψ a w |}.
Next Obligation. intros A Ψ w1 w2 [a H] ?. exists a. by eapply holds_mono. Qed.
Program Definition hprop_sep (P Q : hprop) : hprop :=
  {| holds w := ∃ w1 w2, wdisj w1 w2 ∧ wsub (wunion w1 w2) w ∧ P w1 ∧ Q w2 |}.
Next Obligation.
  intros P Q w1 w2 (a & b & ? & ? & ? & ?) ?.
  exists a, b. split_and!; [done|by eapply wsub_trans|done..].
Qed.
Program Definition hprop_wand (P Q : hprop) : hprop :=
  {| holds w := ∀ w2, wdisj w w2 → P w2 → Q (wunion w w2) |}.
Next Obligation.
  intros P Q w1 w2 H Hsub w3 Hd HP.
  eapply holds_mono; [apply (H w3)|].
  - by eapply wdisj_weak_l.
  - done.
  - by apply wsub_union_mono_r.
Qed.
Definition hprop_persistently (P : hprop) : hprop :=
  hprop_pure (hprop_entails hprop_emp P).

Lemma hprop_bi_mixin :
  BiMixin hprop_entails hprop_emp hprop_pure hprop_and hprop_or hprop_impl
    (@hprop_forall) (@hprop_exist) hprop_sep hprop_wand.
Proof.
  split.
  - split.
    + intros P; by split.
    + intros P Q R [H1] [H2]; split; auto.
  - intros P Q; split.
    + intros H; split; split; intros w; apply H.
    + intros [[H1] [H2]] w; split; auto.
  - intros n φ1 φ2 Hφ w; simpl. done.
  - intros n P P' HP Q Q' HQ w; simpl. unfold holds; simpl. by rewrite (HP w) (HQ w).
  - intros n P P' HP Q Q' HQ w; simpl. unfold holds; simpl. by rewrite (HP w) (HQ w).
  - intros n P P' HP Q Q' HQ w; unfold holds; simpl.
    split; intros H w' ? ?; apply HQ, H; try done; by apply HP.
  - intros A n Φ1 Φ2 HΦ w; unfold holds; simpl. split; intros H a; by apply HΦ.
  - intros A n Φ1 Φ2 HΦ w; unfold holds; simpl.
    split; intros [a H]; exists a; by apply HΦ.
  - intros n P P' HP Q Q' HQ w; unfold holds; simpl.
    split; intros (a & b & ? & ? & ? & ?); exists a, b; split_and!; try done;
      first [by apply HP|by apply HQ].
  - intros n P P' HP Q Q' HQ w; unfold holds; simpl.
    split; intros H w2 ? ?; apply HQ, H; try done; by apply HP.
  - intros φ P Hφ; split; intros w _; done.
  - intros φ P H; split; intros w Hφ. by apply (H Hφ).
  - intros P Q; split; intros w [? ?]; done.
  - intros P Q; split; intros w [? ?]; done.
  - intros P Q R [H1] [H2]; split; intros w ?; split; auto.
  - intros P Q; split; intros w ?; by left.
  - intros P Q; split; intros w ?; by right.
  - intros P Q R [H1] [H2]; split; intros w [?|?]; auto.
  - intros P Q R [H]; split; intros w HP w' ? HQ. apply H.
    split; [by eapply holds_mono|done].
  - intros P Q R [H]; split; intros w [HP HQ]. apply (H w HP w); [apply wsub_refl|done].
  - intros A P Ψ H; split; intros w ? a. by apply H.
  - intros A Ψ a; split; intros w H. apply H.
  - intros A Ψ a; split; intros w H. by exists a.
  - intros A Φ Q H; split; intros w [a ?]. by apply (H a).
  - intros P P' Q Q' [H1] [H2]; split; intros w (a & b & ? & ? & ? & ?).
    exists a, b; split_and!; auto.
  - intros P; split; intros w HP. exists wempty, w. split_and!; try done.
    + apply wdisj_sym, wdisj_empty_r.
    + rewrite wunion_empty_l. apply wsub_refl.
  - intros P; split; intros w (a & b & Hd & Hs & _ & HP).
    eapply holds_mono; [exact HP|].
    eapply wsub_trans; [|exact Hs]. by apply wsub_union_r.
  - intros P Q; split; intros w (a & b & Hd & Hs & HP & HQ).
    exists b, a. split_and!; try done; [by apply wdisj_sym|].
    rewrite wunion_comm; [done|by apply wdisj_sym].
  - intros P Q R; split; intros w (ab & c & Hd & Hs & (a & b & Hd' & Hs' & HP & HQ) & HR).
    assert (wdisj (wunion a b) c) as [Hac Hbc]%wdisj_union_l
      by (by eapply wdisj_weak_l).
    exists a, (wunion b c). split_and!; try done.
    + by apply wdisj_union_r.
    + rewrite wunion_assoc. eapply wsub_trans; [|exact Hs].
      by apply wsub_union_mono_r.
    + exists b, c. split_and!; try done.
  - intros P Q R [H]; split; intros w HP w2 Hd HQ. apply H.
    exists w, w2. split_and!; try done.
  - intros P Q R [H]; split; intros w (a & b & Hd & Hs & HP & HQ).
    eapply holds_mono; [by apply (H a HP b)|done].
Qed.

Lemma hprop_bi_persistently_mixin :
  BiPersistentlyMixin hprop_entails hprop_emp hprop_and
    (@hprop_exist) hprop_sep hprop_persistently.
Proof.
  eapply bi_persistently_mixin_discrete, hprop_bi_mixin; [done|..|done].
  intros A Φ [H]. destruct (H wempty I) as [x Hx]. exists x.
  split; intros w _. eapply holds_mono; [exact Hx|apply wsub_empty].
Qed.

Lemma hprop_bi_later_mixin :
  BiLaterMixin hprop_entails hprop_pure hprop_or hprop_impl
    (@hprop_forall) (@hprop_exist) hprop_sep hprop_persistently id.
Proof. eapply bi_later_mixin_id, hprop_bi_mixin. done. Qed.

Canonical Structure hpropI : bi :=
  {| bi_ofe_mixin := ofe_mixin_of hprop;
     bi_bi_mixin := hprop_bi_mixin;
     bi_bi_persistently_mixin := hprop_bi_persistently_mixin;
     bi_bi_later_mixin := hprop_bi_later_mixin |}.

Global Instance hprop_affine : BiAffine hpropI.
Proof. intros P. split; intros w _. done. Qed.

Global Instance hprop_pure_forall : BiPureForall hpropI.
Proof. intros A φ. split; intros w H. exact H. Qed.

End logic.


(** * Points-to assertions and the weakest precondition *)

Section wp.
Context {Key T : Type}.
Notation world := (world (Key:=Key) (T:=T)).
Notation hprop := (hprop (Key:=Key) (T:=T)).
Notation Node := (Node (Key:=Key) (T:=T)).
Notation M := (M (Key:=Key) (T:=T)).

(** The node at [p] is [n]. *)
Program Definition pointsto (p : ptr) (n : Node) : hprop :=
  {| holds w := nodes w !! p = Some n |}.
Next Obligation.
  intros p n w1 w2 H [Hs _]; simpl in *. by eapply lookup_weaken.
Qed.
(** The map object at [a] is [m]. *)
Program Definition obj_at (a : addr) (m : map) : hprop :=
  {| holds w := objs w !! a = Some m |}.
Next Obligation.
  intros p n w1 w2 H [_ Hs]; simpl in *. by eapply lookup_weaken.
Qed.

(** [wp m Q]: whatever memory surrounds the piece at hand, [m] returns
    normally, leaves the surroundings alone, neither creates nor destroys
    a map object, and [Q] holds of the result and of what the piece has
    become. *)
Program Definition wp {A} (m : M A) (Q : A → hprop) : hprop :=
  {| holds h := ∀ hF, wdisj h hF →
       ∃ a h', m (wunion h hF) = Ok a (wunion h' hF) ∧ wdisj h' hF ∧
               dom (objs h') = dom (objs h) ∧ Q a h' |}.
Next Obligation.
  intros A m Q h1 h2 H Hsub hF Hd.
  destruct (wsub_split _ _ Hsub) as (d & Hd1 & ->).
  apply wdisj_union_l in Hd as [Hd2 Hd3].
  destruct (H (wunion d hF)) as (a & h' & Hr & Hd' & Hdom & HQ).
  { by apply wdisj_union_r. }
  apply wdisj_union_r in Hd' as [Hd4 Hd5].
  exists a, (wunion h' d). split_and!.
  - by rewrite -!wunion_assoc.
  - by apply wdisj_union_l.
  - simpl. by rewrite !dom_union_L Hdom.
  - eapply holds_mono; [exact HQ|apply wsub_union_l].
Qed.

End wp.

Notation "p ↦ n" := (pointsto p n) (at level 20, format "p  ↦  n") : bi_scope.
Notation "a ↦ₘ m" := (obj_at a m) (at level 20, format "a  ↦ₘ  m") : bi_scope.

Section rules.
Context {Key T : Type}.
Notation world := (world (Key:=Key) (T:=T)).
Notation hprop := (hprop (Key:=Key) (T:=T)).
Notation Node := (Node (Key:=Key) (T:=T)).
Notation M := (M (Key:=Key) (T:=T)).
Implicit Types P Q R : hprop.

Lemma hprop_entails_holds P Q : (P ⊢ Q) → ∀ w, P w → Q w.
Proof. intros [H]. exact H. Qed.

Lemma holds_sep P Q w :
  (P ∗ Q)%I w ↔ ∃ w1 w2, wdisj w1 w2 ∧ wsub (wunion w1 w2) w ∧ P w1 ∧ Q w2.
Proof. done. Qed.
Lemma holds_exist {A} (Ψ : A → hprop) w : (∃ a, Ψ a)%I w ↔ ∃ a, Ψ a w.
Proof. done. Qed.
Lemma holds_pure (φ : Prop) w : (⌜φ⌝ : hprop)%I w ↔ φ.
Proof. done. Qed.
Lemma holds_and P Q w : (P ∧ Q)%I w ↔ P w ∧ Q w.
Proof. done. Qed.
Lemma holds_emp w : (emp : hprop)%I w.
Proof. done. Qed.
Lemma holds_wand P Q w :
  (P -∗ Q)%I w ↔ ∀ w2, wdisj w w2 → P w2 → Q (wunion w w2).
Proof. done. Qed.

(** Adequacy: a triple proved in the logic describes a run of the code. *)
Lemma wp_adequacy {A} (m : M A) P (Q : A → hprop) w :
  (P ⊢ wp m Q) → P w →
  ∃ a w', m w = Ok a w' ∧ dom (objs w') = dom (objs w) ∧ Q a w'.
Proof.
  intros H HP. apply (hprop_entails_holds _ _ H) in HP.
  destruct (HP wempty) as (a & h' & Hr & _ & Hdom & HQ); [apply wdisj_empty_r|].
  rewrite !wunion_empty_r in Hr. eauto.
Qed.

Lemma wp_ret {A} (a : A) (Q : A → hprop) : Q a ⊢ wp (ret a) Q.
Proof.
  split; intros h HQ hF Hd. exists a, h. done.
Qed.

Lemma wp_bind {A B} (m : M A) (k : A → M B) (Q : B → hprop) :
  wp m (λ a, wp (k a) Q) ⊢ wp (bind m k) Q.
Proof.
  split; intros h H hF Hd.
  destruct (H hF Hd) as (a & h' & Hr & Hd' & Hdom & H').
  destruct (H' hF Hd') as (b & h'' & Hr' & Hd'' & Hdom' & HQ).
  exists b, h''. unfold bind. rewrite Hr. split_and!; try done. congruence.
Qed.

Lemma wp_wand {A} (m : M A) (Q Q' : A → hprop) :
  wp m Q -∗ (∀ a, Q a -∗ Q' a) -∗ wp m Q'.
Proof.
  apply bi.entails_wand, bi.wand_intro_r.
  split; intros h (h1 & h2 & Hd12 & Hsub & H1 & H2) hF Hd.
  destruct (wsub_split _ _ Hsub) as (d & Hdd & ->).
  apply wdisj_union_l in Hd as [Hd3 Hd4].
  apply wdisj_union_l in Hd3 as [Hd1 Hd2].
  apply wdisj_union_l in Hdd as [Hd5 Hd6].
  destruct (H1 (wunion h2 (wunion d hF))) as (a & h' & Hr & Hd' & Hdom & HQ).
  { rewrite !wdisj_union_r. done. }
  rewrite !wdisj_union_r in Hd'. destruct Hd' as (Hd7 & Hd8 & Hd9).
  exists a, (wunion (wunion h' h2) d). split_and!.
  - by rewrite -!wunion_assoc.
  - rewrite !wdisj_union_l. done.
  - simpl. by rewrite !dom_union_L Hdom.
  - eapply holds_mono; [|apply wsub_union_l].
    rewrite (wunion_comm h' h2); [|done].
    apply (H2 a h'); [by apply wdisj_sym|done].
Qed.

Lemma wp_mono {A} (m : M A) (Q Q' : A → hprop) :
  (∀ a, Q a ⊢ Q' a) → wp m Q ⊢ wp m Q'.
Proof.
  intros H. iIntros "Hwp". iApply (wp_wand with "Hwp").
  iIntros (a) "HQ". by iApply H.
Qed.

Lemma pointsto_excl p (n n' : Node) : p ↦ n -∗ p ↦ n' -∗ False.
Proof.
  apply bi.entails_wand, bi.wand_intro_r.
  split; intros h (h1 & h2 & [Hd _] & Hsub & H1 & H2).
  unfold holds in H1, H2; simpl in *.
  rewrite map_disjoint_spec in Hd. exact (Hd p n n' H1 H2).
Qed.

(** ** Rules for the primitive memory operations *)

Lemma wp_load p (n : Node) (Q : Node → hprop) :
  p ↦ n -∗ (p ↦ n -∗ Q n) -∗ wp (load p) Q.
Proof.
  apply bi.entails_wand, bi.wand_intro_r.
  split; intros h (h1 & h2 & Hd12 & Hsub & H1 & H2) hF Hd.
  exists n, h. split_and!; [|done|done|].
  - unfold load; simpl. erewrite lookup_union_Some_l; [done|].
    eapply lookup_weaken; [exact H1|].
    etrans; [|apply Hsub]. apply map_union_subseteq_l.
  - eapply holds_mono; [|exact Hsub].
    rewrite wunion_comm; [|done].
    apply (H2 h1); [by apply wdisj_sym|done].
Qed.

Lemma wp_store p (n n' : Node) (Q : unit → hprop) :
  p ↦ n -∗ (p ↦ n' -∗ Q tt) -∗ wp (store p n') Q.
Proof.
  apply bi.entails_wand, bi.wand_intro_r.
  split; intros h (h1 & h2 & Hd12 & Hsub & H1 & H2) hF Hd.
  assert (nodes h !! p = Some n) as Hp.
  { eapply lookup_weaken; [exact H1|].
    etrans; [|apply Hsub]. apply map_union_subseteq_l. }
  assert (nodes hF !! p = None) as HpF.
  { destruct Hd as [Hd _]. by eapply map_disjoint_Some_l. }
  assert (nodes h2 !! p = None) as Hp2.
  { destruct Hd12 as [Hd12 _]. eapply map_disjoint_Some_l; [exact Hd12|exact H1]. }
  exists tt, (World (<[p := n']> (nodes h)) (objs h)). split_and!.
  - unfold store; simpl. erewrite lookup_union_Some_l; [|done].
    f_equal. apply world_eq; simpl; [|done].
    by rewrite insert_union_l.
  - destruct Hd as [Hd1 Hd2]. split; simpl; [|done].
    by apply map_disjoint_insert_l_2.
  - done.
  - eapply holds_mono.
    + apply (H2 (World {[p := n']} ∅)).
      * split; simpl; [|apply map_disjoint_empty_r].
        by apply map_disjoint_singleton_r_2.
      * unfold holds; simpl. apply lookup_singleton_eq.
    + destruct Hsub as [Hs1 Hs2]. simpl in *. split; simpl.
      * apply map_subseteq_spec. intros q x Hq.
        apply lookup_union_Some_raw in Hq as [Hq|[_ Hq]].
        -- destruct (decide (p = q)) as [->|]; [congruence|].
           rewrite lookup_insert_ne; [|done].
           eapply lookup_weaken; [|exact Hs1].
           by apply lookup_union_Some_r; [apply Hd12|].
        -- apply lookup_singleton_Some in Hq as [<- <-].
           apply lookup_insert_eq.
      * rewrite right_id_L. etrans; [|exact Hs2].
        apply map_union_subseteq_r, Hd12.
Qed.

Lemma wp_new_Node d (Q : ptr → hprop) :
  (∀ p, p ↦ mkNode d true None None None -∗ Q p) ⊢ wp (new_Node d) Q.
Proof.
  split; intros h H hF Hd.
  set (p := fresh (dom (nodes (wunion h hF)))).
  assert (nodes (wunion h hF) !! p = None) as Hp.
  { apply not_elem_of_dom, is_fresh. }
  simpl in Hp. apply lookup_union_None in Hp as [Hp1 Hp2].
  exists p, (World (<[p := mkNode d true None None None]> (nodes h)) (objs h)).
  split_and!.
  - unfold new_Node. fold p. f_equal. apply world_eq; simpl; [|done].
    by rewrite insert_union_l.
  - destruct Hd as [Hd1 Hd2]. split; simpl; [|done].
    by apply map_disjoint_insert_l_2.
  - done.
  - eapply holds_mono.
    + apply (H p (World {[p := mkNode d true None None None]} ∅)).
      * split; simpl; [|apply map_disjoint_empty_r].
        by apply map_disjoint_singleton_r_2.
      * unfold holds; simpl. apply lookup_singleton_eq.
    + split; simpl.
      * by rewrite -insert_union_singleton_r.
      * by rewrite right_id_L.
Qed.

Lemma wp_delete_Node p (n : Node) (Q : unit → hprop) :
  p ↦ n -∗ Q tt -∗ wp (delete_Node p) Q.
Proof.
  apply bi.entails_wand, bi.wand_intro_r.
  split; intros h (h1 & h2 & Hd12 & Hsub & H1 & H2) hF Hd.
  assert (nodes h !! p = Some n) as Hp.
  { eapply lookup_weaken; [exact H1|].
    etrans; [|apply Hsub]. apply map_union_subseteq_l. }
  assert (nodes hF !! p = None) as HpF.
  { destruct Hd as [Hd _]. by eapply map_disjoint_Some_l. }
  assert (nodes h2 !! p = None) as Hp2.
  { destruct Hd12 as [Hd12 _]. eapply map_disjoint_Some_l; [exact Hd12|exact H1]. }
  exists tt, (World (delete p (nodes h)) (objs h)). split_and!.
  - unfold delete_Node; simpl. erewrite lookup_union_Some_l; [|done].
    f_equal. apply world_eq; simpl; [|done].
    rewrite delete_union. by rewrite (delete_id (nodes hF)).
  - destruct Hd as [Hd1 Hd2]. split; simpl; [|done].
    by apply map_disjoint_delete_l.
  - done.
  - eapply holds_mono; [exact H2|].
    destruct Hsub as [Hs1 Hs2]. simpl in *. split; simpl.
    + apply map_subseteq_spec. intros q x Hq.
      destruct (decide (p = q)) as [->|]; [congruence|].
      rewrite lookup_delete_ne; [|done].
      eapply lookup_weaken; [|exact Hs1].
      by apply lookup_union_Some_r; [apply Hd12|].
    + etrans; [|exact Hs2]. apply map_union_subseteq_r, Hd12.
Qed.

Lemma wp_load_map a (m : map) (Q : map → hprop) :
  a ↦ₘ m -∗ (a ↦ₘ m -∗ Q m) -∗ wp (load_map a) Q.
Proof.
  apply bi.entails_wand, bi.wand_intro_r.
  split; intros h (h1 & h2 & Hd12 & Hsub & H1 & H2) hF Hd.
  exists m, h. split_and!; [|done|done|].
  - unfold load_map; simpl. erewrite lookup_union_Some_l; [done|].
    eapply lookup_weaken; [exact H1|].
    etrans; [|apply Hsub]. apply map_union_subseteq_l.
  - eapply holds_mono; [|exact Hsub].
    rewrite wunion_comm; [|done].
    apply (H2 h1); [by apply wdisj_sym|done].
Qed.

Lemma wp_store_map a (m m' : map) (Q : unit → hprop) :
  a ↦ₘ m -∗ (a ↦ₘ m' -∗ Q tt) -∗ wp (store_map a m') Q.
Proof.
  apply bi.entails_wand, bi.wand_intro_r.
  split; intros h (h1 & h2 & Hd12 & Hsub & H1 & H2) hF Hd.
  assert (objs h !! a = Some m) as Hp.
  { eapply lookup_weaken; [exact H1|].
    etrans; [|apply Hsub]. apply map_union_subseteq_l. }
  assert (objs hF !! a = None) as HpF.
  { destruct Hd as [_ Hd]. by eapply map_disjoint_Some_l. }
  assert (objs h2 !! a = None) as Hp2.
  { destruct Hd12 as [_ Hd12]. eapply map_disjoint_Some_l; [exact Hd12|exact H1]. }
  exists tt, (World (nodes h) (<[a := m']> (objs h))). split_and!.
  - unfold store_map; simpl. erewrite lookup_union_Some_l; [|done].
    f_equal. apply world_eq; simpl; [done|].
    by rewrite insert_union_l.
  - destruct Hd as [Hd1 Hd2]. split; simpl; [done|].
    by apply map_disjoint_insert_l_2.
  - simpl. rewrite dom_insert_L. apply elem_of_dom_2 in Hp. set_solver.
  - eapply holds_mono.
    + apply (H2 (World ∅ {[a := m']})).
      * split; simpl; [apply map_disjoint_empty_r|].
        by apply map_disjoint_singleton_r_2.
      * unfold holds; simpl. apply lookup_singleton_eq.
    + destruct Hsub as [Hs1 Hs2]. simpl in *. split; simpl.
      * rewrite right_id_L. etrans; [|exact Hs1].
        apply map_union_subseteq_r, Hd12.
      * apply map_subseteq_spec. intros q x Hq.
        apply lookup_union_Some_raw in Hq as [Hq|[_ Hq]].
        -- destruct (decide (a = q)) as [->|]; [congruence|].
           rewrite lookup_insert_ne; [|done].
           eapply lookup_weaken; [|exact Hs2].
           by apply lookup_union_Some_r; [apply Hd12|].
        -- apply lookup_singleton_Some in Hq as [<- <-].
           apply lookup_insert_eq.
Qed.

End rules.


(** * Symbolic execution in the proof mode *)

Section tactics.
Context {Key T : Type}.
Notation hprop := (hprop (Key:=Key) (T:=T)).
Notation Node := (Node (Key:=Key) (T:=T)).

Lemma tac_wp_load Δ i p (n : Node) (Q : Node → hprop) :
  envs_lookup i Δ = Some (false, p ↦ n)%I →
  envs_entails Δ (Q n) →
  envs_entails Δ (wp (load p) Q).
Proof.
  rewrite envs_entails_unseal=> Hl HQ.
  rewrite {1}(envs_lookup_split _ _ _ _ Hl) /=.
  iIntros "[Hp Hc]". iApply (wp_load with "Hp"). iIntros "Hp".
  iApply HQ. by iApply "Hc".
Qed.

Lemma tac_wp_store Δ Δ' i p (n n' : Node) (Q : unit → hprop) :
  envs_lookup i Δ = Some (false, p ↦ n)%I →
  envs_simple_replace i false (Esnoc Enil i (p ↦ n')%I) Δ = Some Δ' →
  envs_entails Δ' (Q tt) →
  envs_entails Δ (wp (store p n') Q).
Proof.
  rewrite envs_entails_unseal=> Hl Hr HQ.
  rewrite (envs_simple_replace_sound _ _ _ _ _ _ Hl Hr) /=.
  iIntros "[Hp Hc]". iApply (wp_store with "Hp"). iIntros "Hp".
  iApply HQ. iApply "Hc". by iFrame.
Qed.

Lemma tac_wp_load_map Δ i a (m : map) (Q : map → hprop) :
  envs_lookup i Δ = Some (false, a ↦ₘ m)%I →
  envs_entails Δ (Q m) →
  envs_entails Δ (wp (load_map a) Q).
Proof.
  rewrite envs_entails_unseal=> Hl HQ.
  rewrite {1}(envs_lookup_split _ _ _ _ Hl) /=.
  iIntros "[Hp Hc]". iApply (wp_load_map with "Hp"). iIntros "Hp".
  iApply HQ. by iApply "Hc".
Qed.

Lemma tac_wp_get_root Δ i a (m : map) (Q : option ptr → hprop) :
  envs_lookup i Δ = Some (false, a ↦ₘ m)%I →
  envs_entails Δ (Q (root m)) →
  envs_entails Δ (wp (get_root a) Q).
Proof.
  rewrite envs_entails_unseal=> Hl HQ.
  rewrite {1}(envs_lookup_split _ _ _ _ Hl) /=.
  iIntros "[Hp Hc]". unfold get_root. iApply wp_bind.
  iApply (wp_load_map with "Hp"). iIntros "Hp". iApply wp_ret.
  iApply HQ. by iApply "Hc".
Qed.

Lemma tac_wp_store_map Δ Δ' i a (m m' : map) (Q : unit → hprop) :
  envs_lookup i Δ = Some (false, a ↦ₘ m)%I →
  envs_simple_replace i false (Esnoc Enil i (a ↦ₘ m')%I) Δ = Some Δ' →
  envs_entails Δ' (Q tt) →
  envs_entails Δ (wp (store_map a m') Q).
Proof.
  rewrite envs_entails_unseal=> Hl Hr HQ.
  rewrite (envs_simple_replace_sound _ _ _ _ _ _ Hl Hr) /=.
  iIntros "[Hp Hc]". iApply (wp_store_map with "Hp"). iIntros "Hp".
  iApply HQ. iApply "Hc". by iFrame.
Qed.

Lemma tac_wp_delete Δ Δ' i p (n : Node) (Q : unit → hprop) :
  envs_lookup i Δ = Some (false, p ↦ n)%I →
  envs_delete true i false Δ = Δ' →
  envs_entails Δ' (Q tt) →
  envs_entails Δ (wp (delete_Node p) Q).
Proof.
  rewrite envs_entails_unseal=> Hl <- HQ.
  rewrite (envs_lookup_sound _ _ _ _ Hl) /=.
  iIntros "[Hp Hc]". iApply (wp_delete_Node with "Hp"). by iApply HQ.
Qed.

End tactics.

(** The primitive operations, run against the hypotheses. *)
Ltac wp_prim :=
  lazymatch goal with
  | |- envs_entails _ (wp (ret _) _) => iApply wp_ret
  | |- envs_entails _ (wp (load _) _) =>
      eapply tac_wp_load; [iAssumptionCore|]
  | |- envs_entails _ (wp (store _ _) _) =>
      eapply tac_wp_store; [iAssumptionCore|pm_reflexivity|]
  | |- envs_entails _ (wp (get_root _) _) =>
      eapply tac_wp_get_root; [iAssumptionCore|]
  | |- envs_entails _ (wp (load_map _) _) =>
      eapply tac_wp_load_map; [iAssumptionCore|]
  | |- envs_entails _ (wp (store_map _ _) _) =>
      eapply tac_wp_store_map; [iAssumptionCore|pm_reflexivity|]
  | |- envs_entails _ (wp (delete_Node _) _) =>
      eapply tac_wp_delete; [iAssumptionCore|pm_reflexivity|]
  | |- envs_entails _ (wp (new_Node _) _) =>
      iApply wp_new_Node; iIntros (?) "?"
  end.

(** A read or a write of one member: it is run as a whole, or not at all. *)
Ltac wp_member :=
  iApply wp_bind; wp_prim; simpl; wp_prim.

(** One step: the head of the computation is run against the hypotheses. *)
Ltac wp_step :=
  lazymatch goal with
  | |- envs_entails _ (wp (bind _ _) _) => iApply wp_bind
  | |- envs_entails _ (wp (get_data _) _) => unfold get_data at 1; wp_member
  | |- envs_entails _ (wp (get_color _) _) => unfold get_color at 1; wp_member
  | |- envs_entails _ (wp (get_left _) _) => unfold get_left at 1; wp_member
  | |- envs_entails _ (wp (get_right _) _) => unfold get_right at 1; wp_member
  | |- envs_entails _ (wp (get_parent _) _) => unfold get_parent at 1; wp_member
  | |- envs_entails _ (wp (set_second _ _) _) => unfold set_second at 1; wp_member
  | |- envs_entails _ (wp (set_color _ _) _) => unfold set_color at 1; wp_member
  | |- envs_entails _ (wp (set_left _ _) _) => unfold set_left at 1; wp_member
  | |- envs_entails _ (wp (set_right _ _) _) => unfold set_right at 1; wp_member
  | |- envs_entails _ (wp (set_parent _ _) _) => unfold set_parent at 1; wp_member
  | |- envs_entails _ (wp (set_root _ _) _) => unfold set_root at 1; wp_member
  | |- envs_entails _ (wp (get_node_count _) _) =>
      unfold get_node_count at 1; wp_member
  | |- envs_entails _ (wp (set_node_count _ _) _) =>
      unfold set_node_count at 1; wp_member
  | |- envs_entails _ (wp (incr_node_count _) _) =>
      unfold incr_node_count at 1; iApply wp_bind;
      unfold get_node_count at 1; wp_member; simpl;
      unfold set_node_count at 1; wp_member
  | |- envs_entails _ (wp (decr_node_count _) _) =>
      unfold decr_node_count at 1; iApply wp_bind;
      unfold get_node_count at 1; wp_member; simpl;
      unfold set_node_count at 1; wp_member
  | |- envs_entails _ (wp (opt_left (Some _)) _) => unfold opt_left at 1
  | |- envs_entails _ (wp (opt_left None) _) => unfold opt_left at 1
  | |- envs_entails _ (wp (opt_right (Some _)) _) => unfold opt_right at 1
  | |- envs_entails _ (wp (opt_right None) _) => unfold opt_right at 1
  | |- envs_entails _ (wp (opt_parent (Some _)) _) => unfold opt_parent at 1
  | |- envs_entails _ (wp (opt_parent None) _) => unfold opt_parent at 1
  | |- envs_entails _ (wp (is_red (Some _)) _) => unfold is_red at 1
  | |- envs_entails _ (wp (is_red None) _) => unfold is_red at 1
  | |- envs_entails _ (wp (is_black (Some _)) _) => unfold is_black at 1
  | |- envs_entails _ (wp (is_black None) _) => unfold is_black at 1
  | |- envs_entails _ (wp (if decide (?a = ?a) then _ else _) _) =>
      rewrite (decide_True (P:=(a = a))); [|reflexivity]
  | _ => wp_prim
  end.
Ltac wp_run := repeat (wp_step; simpl).


(** * Trees and the memory that holds them *)

Section trees.
Context {Key T : Type}.
Notation hprop := (hprop (Key:=Key) (T:=T)).
Notation Node := (Node (Key:=Key) (T:=T)).

(** The shape the nodes of a map form: every node with its address,
    colour and entry. *)
Inductive tree :=
| Leaf
| Nd (c : bool) (l : tree) (p : ptr) (d : Key * T) (r : tree).

Definition root_of (t : tree) : option ptr :=
  match t with
  | Leaf => None
  | Nd _ _ p _ _ => Some p
  end.

(** A node with one child missing: the path from a subtree up to the
    root is a list of frames, the nearest ancestor first. *)
Inductive frame :=
| FL (c : bool) (p : ptr) (d : Key * T) (r : tree)
| FR (c : bool) (l : tree) (p : ptr) (d : Key * T).

Definition fill (f : frame) (t : tree) : tree :=
  match f with
  | FL c p d r => Nd c t p d r
  | FR c l p d => Nd c l p d t
  end.
Fixpoint plug (ctx : list frame) (t : tree) : tree :=
  match ctx with
  | [] => t
  | f :: ctx' => plug ctx' (fill f t)
  end.
Definition frame_ptr (f : frame) : ptr :=
  match f with
  | FL _ p _ _ => p
  | FR _ _ p _ => p
  end.
Definition ctx_par (ctx : list frame) : option ptr :=
  match ctx with
  | [] => None
  | f :: _ => Some (frame_ptr f)
  end.

(** [tree_at h par t]: the heap [h] holds the tree [t] below the parent
    link [par], every link of every node as the shape says. *)
Fixpoint tree_at (h : gmap ptr Node) (par : option ptr) (t : tree) : Prop :=
  match t with
  | Leaf => True
  | Nd c l p d r =>
      h !! p = Some (mkNode d c (root_of l) (root_of r) par) ∧
      tree_at h (Some p) l ∧ tree_at h (Some p) r
  end.

(** The same as an assertion that owns the nodes. *)
Fixpoint is_tree (par : option ptr) (t : tree) : hprop :=
  match t with
  | Leaf => emp
  | Nd c l p d r =>
      p ↦ mkNode d c (root_of l) (root_of r) par ∗
      is_tree (Some p) l ∗ is_tree (Some p) r
  end%I.

(** The ancestors of a hole, up to the [root] member of the map at [this]. *)
Fixpoint is_ctx (this : addr) (n : N) (ctx : list frame) (hole : option ptr) : hprop :=
  match ctx with
  | [] => this ↦ₘ Map hole n
  | FL c p d r :: ctx' =>
      p ↦ mkNode d c hole (root_of r) (ctx_par ctx') ∗
      is_tree (Some p) r ∗ is_ctx this n ctx' (Some p)
  | FR c l p d :: ctx' =>
      p ↦ mkNode d c (root_of l) hole (ctx_par ctx') ∗
      is_tree (Some p) l ∗ is_ctx this n ctx' (Some p)
  end%I.

Global Arguments is_ctx : simpl nomatch.

Definition is_map (this : addr) (n : N) (t : tree) : hprop :=
  (this ↦ₘ Map (root_of t) n ∗ is_tree None t)%I.

Lemma is_map_plug this n ctx t :
  is_map this n (plug ctx t) ⊣⊢
  is_ctx this n ctx (root_of t) ∗ is_tree (ctx_par ctx) t.
Proof.
  revert t. induction ctx as [|[c p d r|c l p d] ctx IH]; intros t; simpl.
  - done.
  - rewrite IH /=. iSplit.
    + iIntros "(Hc & Hp & Ht & Hr)". iFrame.
    + iIntros "((Hp & Hr & Hc) & Ht)". iFrame.
  - rewrite IH /=. iSplit.
    + iIntros "(Hc & Hp & Hl & Ht)". iFrame.
    + iIntros "((Hp & Hl & Hc) & Ht)". iFrame.
Qed.

Lemma is_map_plug_fold this n ctx t :
  is_ctx this n ctx (root_of t) -∗ is_tree (ctx_par ctx) t -∗
  is_ctx this n [] (root_of (plug ctx t)) ∗ is_tree None (plug ctx t).
Proof.
  iIntros "Hctx Ht". iApply (bi.equiv_entails_1_2 _ _ (is_map_plug this n ctx t)).
  iFrame.
Qed.

Lemma is_tree_root_ne par t x (n : Node) :
  is_tree par t -∗ x ↦ n -∗ ⌜root_of t ≠ Some x⌝.
Proof.
  iIntros "Ht Hx". destruct t as [|c l p d r]; simpl; [done|].
  iDestruct "Ht" as "(Hp & _)".
  destruct (decide (p = x)) as [->|]; [|iPureIntro; congruence].
  iDestruct (pointsto_excl with "Hp Hx") as %[].
Qed.

(** Rewriting the parent link of the root of a subtree. *)
Lemma wp_reparent par par' t (Q : unit → hprop) :
  is_tree par t -∗
  (is_tree par' t -∗ Q tt) -∗
  wp (match root_of t with Some b => set_parent b par' | None => ret tt end) Q.
Proof.
  iIntros "Ht HQ". destruct t as [|c l p d r]; simpl.
  - wp_run. by iApply "HQ".
  - iDestruct "Ht" as "(Hp & Hl & Hr)". wp_run. iApply "HQ". iFrame.
Qed.

Lemma wp_left_rotate this n ctx cx a x dx cy b y dy c (Q : unit → hprop) :
  is_ctx this n ctx (Some x) -∗
  is_tree (ctx_par ctx) (Nd cx a x dx (Nd cy b y dy c)) -∗
  (is_ctx this n ctx (Some y) -∗
   is_tree (ctx_par ctx) (Nd cy (Nd cx a x dx b) y dy c) -∗ Q tt) -∗
  wp (left_rotate this x) Q.
Proof.
  simpl. iIntros "Hctx (Hx & Ha & Hy & Hb & Hc) HQ". unfold left_rotate.
  wp_run. iApply (wp_reparent with "Hb"). iIntros "Hb".
  destruct ctx as [|[cp p dp r|cp l p dp] ctx]; simpl.
  - wp_run. iApply ("HQ" with "Hctx"). iFrame.
  - iDestruct "Hctx" as "(Hp & Hr & Hctx)". wp_run.
    iApply ("HQ" with "[Hp Hr Hctx]"); iFrame.
  - iDestruct "Hctx" as "(Hp & Hl & Hctx)".
    iDestruct (is_tree_root_ne with "Hl Hx") as %Hne.
    wp_run. rewrite decide_False; [|congruence]. wp_run.
    iApply ("HQ" with "[Hp Hl Hctx]"); iFrame.
Qed.

Lemma wp_right_rotate this n ctx cx a x dx cy b y dy c (Q : unit → hprop) :
  is_ctx this n ctx (Some x) -∗
  is_tree (ctx_par ctx) (Nd cx (Nd cy a y dy b) x dx c) -∗
  (is_ctx this n ctx (Some y) -∗
   is_tree (ctx_par ctx) (Nd cy a y dy (Nd cx b x dx c)) -∗ Q tt) -∗
  wp (right_rotate this x) Q.
Proof.
  simpl. iIntros "Hctx (Hx & (Hy & Ha & Hb) & Hc) HQ". unfold right_rotate.
  wp_run. iApply (wp_reparent with "Hb"). iIntros "Hb".
  destruct ctx as [|[cp p dp r|cp l p dp] ctx]; simpl.
  - wp_run. iApply ("HQ" with "Hctx"). iFrame.
  - iDestruct "Hctx" as "(Hp & Hr & Hctx)".
    iDestruct (is_tree_root_ne with "Hr Hx") as %Hne.
    wp_run. rewrite decide_False; [|congruence]. wp_run.
    iApply ("HQ" with "[Hp Hr Hctx]"); iFrame.
  - iDestruct "Hctx" as "(Hp & Hl & Hctx)". wp_run.
    iApply ("HQ" with "[Hp Hl Hctx]"); iFrame.
Qed.

(** Reading the colour of the root of a subtree. *)
Definition rcol (t : tree) : bool :=
  match t with
  | Leaf => false
  | Nd c _ _ _ _ => c
  end.

Lemma wp_is_red par t (Q : bool → hprop) :
  is_tree par t -∗ (is_tree par t -∗ Q (rcol t)) -∗ wp (is_red (root_of t)) Q.
Proof.
  iIntros "Ht HQ". destruct t as [|c l p d r]; simpl.
  - wp_run. by iApply "HQ".
  - iDestruct "Ht" as "(Hp & Hl & Hr)". wp_run. iApply "HQ". iFrame.
Qed.
Lemma wp_is_black par t (Q : bool → hprop) :
  is_tree par t -∗ (is_tree par t -∗ Q (negb (rcol t))) -∗
  wp (is_black (root_of t)) Q.
Proof.
  iIntros "Ht HQ". destruct t as [|c l p d r]; simpl.
  - wp_run. by iApply "HQ".
  - iDestruct "Ht" as "(Hp & Hl & Hr)". wp_run. iApply "HQ". iFrame.
Qed.

End trees.

(** Unfolds the ownership assertions, and nothing of the code. *)
Ltac tsimpl :=
  cbn [is_tree is_ctx is_map ctx_par frame_ptr root_of plug fill rcol].


(** * Colours, black heights and entries of trees and of paths *)

Section shape.
Context {Key T : Type}.
Notation tree := (tree (Key:=Key) (T:=T)).
Notation frame := (frame (Key:=Key) (T:=T)).
Implicit Types (t l r : tree) (f : frame) (ctx : list frame) (c : bool).

(** A black node adds one to the black height. *)
Definition cadd (c : bool) (n : nat) : nat := if c then n else S n.

(** The number of black nodes down the leftmost path. *)
Fixpoint bh (t : tree) : nat :=
  match t with
  | Leaf => 0
  | Nd c l _ _ _ => cadd c (bh l)
  end.
(** Both subtrees of every node have the same black height. *)
Fixpoint balanced (t : tree) : Prop :=
  match t with
  | Leaf => True
  | Nd _ l _ _ r => bh l = bh r ∧ balanced l ∧ balanced r
  end.
(** No red node has a red child. *)
Fixpoint nrr (t : tree) : Prop :=
  match t with
  | Leaf => True
  | Nd c l _ _ r => (c = true → rcol l = false ∧ rcol r = false) ∧ nrr l ∧ nrr r
  end.

(** The entries in symmetric order, each with the address of its node. *)
Fixpoint entries (t : tree) : list (ptr * (Key * T)) :=
  match t with
  | Leaf => []
  | Nd _ l p d r => entries l ++ (p, d) :: entries r
  end.
Definition ptrs (t : tree) : list ptr := (entries t).*1.

Definition frame_col (f : frame) : bool :=
  match f with FL c _ _ _ => c | FR c _ _ _ => c end.
Definition frame_sib (f : frame) : tree :=
  match f with FL _ _ _ r => r | FR _ l _ _ => l end.
Definition frame_data (f : frame) : Key * T :=
  match f with FL _ _ d _ => d | FR _ _ _ d => d end.

(** What a path needs so that a subtree of black height [n] (of root
    colour [c]) plugged into it gives a balanced tree (without two reds
    in a row). *)
Fixpoint ctx_bal (ctx : list frame) (n : nat) : Prop :=
  match ctx with
  | [] => True
  | f :: ctx' =>
      bh (frame_sib f) = n ∧ balanced (frame_sib f) ∧
      ctx_bal ctx' (cadd (frame_col f) n)
  end.
Fixpoint ctx_nrr (ctx : list frame) (c : bool) : Prop :=
  match ctx with
  | [] => True
  | f :: ctx' =>
      (frame_col f = true → c = false ∧ rcol (frame_sib f) = false) ∧
      nrr (frame_sib f) ∧ ctx_nrr ctx' (frame_col f)
  end.
Fixpoint ctx_rcol (ctx : list frame) (c : bool) : bool :=
  match ctx with
  | [] => c
  | f :: ctx' => ctx_rcol ctx' (frame_col f)
  end.
Fixpoint ctx_before (ctx : list frame) : list (ptr * (Key * T)) :=
  match ctx with
  | [] => []
  | FL _ _ _ _ :: ctx' => ctx_before ctx'
  | FR _ l p d :: ctx' => ctx_before ctx' ++ entries l ++ [(p, d)]
  end.
Fixpoint ctx_after (ctx : list frame) : list (ptr * (Key * T)) :=
  match ctx with
  | [] => []
  | FL _ p d r :: ctx' => (p, d) :: entries r ++ ctx_after ctx'
  | FR _ _ _ _ :: ctx' => ctx_after ctx'
  end.

Lemma bh_fill f t : bh (fill f t) = cadd (frame_col f) (bh t) ∨
                    bh (fill f t) = cadd (frame_col f) (bh (frame_sib f)).
Proof. destruct f; simpl; auto. Qed.

Lemma balanced_plug ctx t :
  balanced (plug ctx t) ↔ balanced t ∧ ctx_bal ctx (bh t).
Proof.
  revert t. induction ctx as [|f ctx IH]; intros t; simpl; [tauto|].
  rewrite IH. destruct f as [c p d r|c l p d]; simpl.
  - split; [intros [(?&?&?) ?]|intros (?&?&?&?)]; split_and!; auto.
  - split; [intros [(E&?&?) ?]|intros (?&E&?&?)]; split_and!; auto;
      congruence.
Qed.

Lemma nrr_plug ctx t :
  nrr (plug ctx t) ↔ nrr t ∧ ctx_nrr ctx (rcol t).
Proof.
  revert t. induction ctx as [|f ctx IH]; intros t; simpl; [tauto|].
  rewrite IH. destruct f as [c p d r|c l p d]; simpl; tauto.
Qed.

Lemma rcol_plug ctx t : rcol (plug ctx t) = ctx_rcol ctx (rcol t).
Proof.
  revert t. induction ctx as [|f ctx IH]; intros t; simpl; [done|].
  rewrite IH. by destruct f.
Qed.

Lemma entries_plug ctx t :
  entries (plug ctx t) = ctx_before ctx ++ entries t ++ ctx_after ctx.
Proof.
  revert t. induction ctx as [|f ctx IH]; intros t; simpl.
  - by rewrite app_nil_r.
  - rewrite IH. destruct f as [c p d r|c l p d]; simpl;
      by rewrite -?app_assoc /= -?app_assoc.
Qed.

Lemma entries_plug_congr ctx t t' :
  entries t = entries t' → entries (plug ctx t) = entries (plug ctx t').
Proof. intros H. by rewrite !entries_plug H. Qed.

Lemma ctx_nrr_weaken ctx c : ctx_nrr ctx c → ctx_nrr ctx false.
Proof. destruct ctx as [|f ctx]; simpl; [done|]. tauto. Qed.
Lemma ctx_rcol_false ctx c : ctx_rcol ctx c = false → ctx_rcol ctx false = false.
Proof. by destruct ctx. Qed.
Lemma ctx_nrr_black_parent ctx c :
  ctx_nrr ctx false → (∀ f ctx', ctx = f :: ctx' → frame_col f = false) →
  ctx_nrr ctx c.
Proof.
  destruct ctx as [|f ctx]; simpl; [done|]. intros (?&?&?) Hf.
  specialize (Hf f ctx eq_refl). destruct (frame_col f); [discriminate|].
  split_and!; [discriminate|done|done].
Qed.

(** The longest path from the root down to a leaf. *)
Fixpoint height (t : tree) : nat :=
  match t with
  | Leaf => 0
  | Nd _ l _ _ r => S (height l `max` height r)
  end.

Lemma height_fill f t : S (height t) ≤ height (fill f t).
Proof. destruct f; simpl; lia. Qed.
Lemma height_fill_mono f t t' : height t ≤ height t' → height (fill f t) ≤ height (fill f t').
Proof. destruct f; simpl; lia. Qed.
Lemma height_plug_mono ctx t t' :
  height t ≤ height t' → height (plug ctx t) ≤ height (plug ctx t').
Proof.
  revert t t'. induction ctx as [|f ctx IH]; intros t t' H; simpl; [done|].
  by apply IH, height_fill_mono.
Qed.
Lemma height_plug ctx t : length ctx + height t ≤ height (plug ctx t).
Proof.
  revert t. induction ctx as [|f ctx IH]; intros t; simpl; [done|].
  specialize (IH (fill f t)). pose proof (height_fill f t). lia.
Qed.
Lemma length_entries_height t : height t ≤ length (entries t).
Proof.
  induction t as [|c l IHl p d r IHr]; simpl; [done|].
  rewrite length_app /=. lia.
Qed.

Lemma ctx_before_app ctx1 ctx2 :
  ctx_before (ctx1 ++ ctx2) = ctx_before ctx2 ++ ctx_before ctx1.
Proof.
  induction ctx1 as [|[] ctx1 IH]; simpl; rewrite ?app_nil_r //.
  by rewrite IH -app_assoc.
Qed.
Lemma ctx_after_app ctx1 ctx2 :
  ctx_after (ctx1 ++ ctx2) = ctx_after ctx1 ++ ctx_after ctx2.
Proof.
  induction ctx1 as [|[] ctx1 IH]; simpl; [done| |done].
  by rewrite IH -app_assoc.
Qed.

Lemma plug_app ctx1 ctx2 t : plug (ctx1 ++ ctx2) t = plug ctx2 (plug ctx1 t).
Proof. revert t. induction ctx1 as [|f ctx1 IH]; intros t; simpl; [done|]. by rewrite IH. Qed.

(** Frames on which the hole is the left child (the right child). *)
Definition is_FL (f : frame) : Prop := match f with FL _ _ _ _ => True | FR _ _ _ _ => False end.
Definition is_FR (f : frame) : Prop := match f with FL _ _ _ _ => False | FR _ _ _ _ => True end.

Lemma ctx_before_FL ctx : Forall is_FL ctx → ctx_before ctx = [].
Proof. induction 1 as [|[] ctx Hf _ IH]; simpl; done. Qed.
Lemma ctx_after_FR ctx : Forall is_FR ctx → ctx_after ctx = [].
Proof. induction 1 as [|[] ctx Hf _ IH]; simpl; done. Qed.

(** Two paths that agree on colours, sides and siblings. *)
Definition frame_sim (f f' : frame) : Prop :=
  frame_col f = frame_col f' ∧ frame_sib f = frame_sib f' ∧ (is_FL f ↔ is_FL f').
Definition ctx_sim (ctx ctx' : list frame) : Prop := Forall2 frame_sim ctx ctx'.

Lemma frame_sim_refl f : frame_sim f f.
Proof. by split_and!. Qed.
Lemma ctx_sim_refl ctx : ctx_sim ctx ctx.
Proof. induction ctx; constructor; auto using frame_sim_refl. Qed.
Lemma ctx_sim_app a a' b b' : ctx_sim a a' → ctx_sim b b' → ctx_sim (a ++ b) (a' ++ b').
Proof. apply Forall2_app. Qed.
Lemma ctx_sim_length ctx ctx' : ctx_sim ctx ctx' → length ctx = length ctx'.
Proof. apply Forall2_length. Qed.
Lemma ctx_bal_sim ctx ctx' n : ctx_sim ctx ctx' → ctx_bal ctx n → ctx_bal ctx' n.
Proof.
  intros H. revert n. induction H as [|f f' ctx ctx' (Hc&Hs&_) _ IH]; intros n; simpl; [done|].
  rewrite Hc Hs. intros (?&?&?). split_and!; auto.
Qed.
Lemma ctx_nrr_sim ctx ctx' c : ctx_sim ctx ctx' → ctx_nrr ctx c → ctx_nrr ctx' c.
Proof.
  intros H. revert c. induction H as [|f f' ctx ctx' (Hc&Hs&_) _ IH]; intros c; simpl; [done|].
  rewrite Hc Hs. intros (?&?&?). split_and!; auto.
Qed.
Lemma ctx_rcol_sim ctx ctx' c : ctx_sim ctx ctx' → ctx_rcol ctx c = ctx_rcol ctx' c.
Proof.
  intros H. revert c. induction H as [|f f' ctx ctx' (Hc&Hs&_) _ IH]; intros c; simpl; [done|].
  by rewrite Hc IH.
Qed.

(** The tree with its root painted black. *)
Definition blacken (t : tree) : tree :=
  match t with
  | Leaf => Leaf
  | Nd _ l p d r => Nd false l p d r
  end.

(** [nrr] below the root only. *)
Definition nrr_below (t : tree) : Prop :=
  match t with
  | Leaf => True
  | Nd _ l _ _ r => nrr l ∧ nrr r
  end.

Lemma nrr_nrr_below t : nrr t → nrr_below t.
Proof. destruct t; simpl; tauto. Qed.
Lemma nrr_below_black t : rcol t = false → nrr_below t → nrr t.
Proof. destruct t; simpl; [done|]. intros -> ?. split_and!; [discriminate|tauto|tauto]. Qed.
Lemma nrr_blacken t : nrr_below t → nrr (blacken t).
Proof. destruct t; simpl; [done|]. intros ?. split_and!; [discriminate|tauto|tauto]. Qed.
Lemma balanced_blacken t : balanced t → balanced (blacken t).
Proof. by destruct t. Qed.
Lemma bh_blacken t : bh (blacken t) = if rcol t then S (bh t) else bh t.
Proof. by destruct t as [|[]]. Qed.
Lemma entries_blacken t : entries (blacken t) = entries t.
Proof. by destruct t. Qed.
Lemma rcol_blacken t : rcol (blacken t) = false.
Proof. by destruct t. Qed.
Lemma root_of_blacken t : root_of (blacken t) = root_of t.
Proof. by destruct t. Qed.

End shape.

(** Goals about colours, heights and entries after a local change. *)
Ltac list_norm := simpl; repeat (progress (rewrite -?app_assoc /=)).
Ltac rb_pure :=
  simpl in *;
  repeat match goal with
    | H : _ ∧ _ |- _ => destruct H
    | H : true = true → _ |- _ => specialize (H eq_refl)
    | H : ?x = ?x → _ |- _ => specialize (H eq_refl)
    | H : negb _ = true |- _ => apply negb_true_iff in H
    | H : negb _ = false |- _ => apply negb_false_iff in H
    end;
  rewrite ?nrr_plug ?balanced_plug; simpl;
  repeat split; intros; subst; simpl in *;
  try discriminate; try done; try lia; try congruence;
  try (match goal with
       | H : ctx_bal ?ctx ?m |- ctx_bal ?ctx ?n =>
           replace n with m by (unfold cadd; repeat case_match; simpl; lia);
           exact H
       end);
  try (eapply ctx_nrr_weaken; eassumption);
  try (apply nrr_below_black; assumption);
  try (apply nrr_nrr_below; assumption);
  try (eapply ctx_rcol_false; eassumption);
  try (apply entries_plug_congr; list_norm; reflexivity).


(** * [insert_fix] restores the red-black shape *)

Section insert_fix.
Context {Key T : Type}.
Notation hprop := (hprop (Key:=Key) (T:=T)).
Notation Node := (Node (Key:=Key) (T:=T)).
Notation tree := (tree (Key:=Key) (T:=T)).
Notation frame := (frame (Key:=Key) (T:=T)).

(** The loop invariant: [t] is the subtree at [z], red at its root, and
    the only possible defect is that the parent of [z] is red too. *)
Definition ins_inv (ctx : list frame) (t : tree) : Prop :=
  rcol t = true ∧ nrr t ∧ balanced t ∧
  ctx_bal ctx (bh t) ∧ ctx_nrr ctx false ∧ ctx_rcol ctx false = false.

Lemma insert_fix_loop_eq this fuel z :
  insert_fix_loop (Key:=Key) (T:=T) this fuel z =
  (let! po := get_parent z in
   let! c := match po with None => ret false | Some p => get_color p end in
   if c then
     match fuel with
     | O => out_of_fuel
     | S fuel' => let! z' := insert_fix_body this z in insert_fix_loop this fuel' z'
     end
   else ret tt).
Proof. by destruct fuel. Qed.

Lemma wp_insert_fix_loop_root this fuel z (nz : Node) (Q : unit → hprop) :
  parent nz = None →
  z ↦ nz -∗ (z ↦ nz -∗ Q tt) -∗ wp (insert_fix_loop this fuel z) Q.
Proof.
  iIntros (Hp) "Hz HQ". rewrite insert_fix_loop_eq. wp_run.
  rewrite Hp. wp_run. by iApply "HQ".
Qed.

Lemma wp_insert_fix_loop_black this fuel z (nz : Node) p (np : Node)
    (Q : unit → hprop) :
  parent nz = Some p → color np = false →
  z ↦ nz -∗ p ↦ np -∗ (z ↦ nz -∗ p ↦ np -∗ Q tt) -∗
  wp (insert_fix_loop this fuel z) Q.
Proof.
  iIntros (Hp Hc) "Hz Hp HQ". rewrite insert_fix_loop_eq. wp_run.
  rewrite Hp. wp_run. rewrite Hc. wp_run. iApply ("HQ" with "Hz Hp").
Qed.

Lemma wp_insert_fix_loop this n fuel : ∀ ctx a z d b (Q : unit → hprop),
  length ctx ≤ fuel →
  ins_inv ctx (Nd true a z d b) →
  is_ctx this n ctx (Some z) -∗
  is_tree (ctx_par ctx) (Nd true a z d b) -∗
  (∀ t', ⌜nrr t' ∧ balanced t' ∧
          entries t' = entries (plug ctx (Nd true a z d b))⌝ -∗
         is_map this n t' -∗ Q tt) -∗
  wp (insert_fix_loop this fuel z) Q.
Proof.
  induction fuel as [|fuel IH]; intros ctx a z d b Q Hlen Hinv.
  - destruct ctx; [|simpl in Hlen; lia]. tsimpl.
    iIntros "Hctx (Hz & Ha & Hb) HQ".
    iApply (wp_insert_fix_loop_root with "Hz"); [done|]. iIntros "Hz".
    iApply ("HQ" $! (Nd true a z d b)); [|iFrame].
    iPureIntro. destruct Hinv as (?&?&?&?). done.
  - destruct ctx as [|fp ctx].
    { tsimpl. iIntros "Hctx (Hz & Ha & Hb) HQ".
      iApply (wp_insert_fix_loop_root with "Hz"); [done|]. iIntros "Hz".
      iApply ("HQ" $! (Nd true a z d b)); [|iFrame].
      iPureIntro. destruct Hinv as (?&?&?&?). done. }
    destruct (frame_col fp) eqn:Hcp; last first.
    { (* the parent is black: the loop ends *)
      iIntros "Hctx Hz HQ".
      destruct fp as [cp p dp r|cp l p dp]; simpl in Hcp; subst cp; tsimpl;
        iDestruct "Hctx" as "(Hp & Hs & Hctx)";
        iDestruct "Hz" as "(Hz & Ha & Hb)";
        (iApply (wp_insert_fix_loop_black with "Hz Hp"); [done|done|]);
        iIntros "Hz Hp".
      - iApply ("HQ" $! (plug (FL false p dp r :: ctx) (Nd true a z d b)));
          [|rewrite is_map_plug; tsimpl; iFrame].
        iPureIntro. destruct Hinv as (?&?&?&?&?&?).
        rewrite nrr_plug balanced_plug. split_and!; try done.
        apply ctx_nrr_black_parent; [done|]. by intros ?? [= <- <-].
      - iApply ("HQ" $! (plug (FR false l p dp :: ctx) (Nd true a z d b)));
          [|rewrite is_map_plug; tsimpl; iFrame].
        iPureIntro. destruct Hinv as (?&?&?&?&?&?).
        rewrite nrr_plug balanced_plug. split_and!; try done.
        apply ctx_nrr_black_parent; [done|]. by intros ?? [= <- <-]. }
    (* the parent is red: it has a black parent *)
    destruct ctx as [|fg ctx].
    { destruct Hinv as (?&?&?&?&?&Hr). simpl in Hr. congruence. }
    assert (frame_col fg = false) as Hcg.
    { destruct Hinv as (?&?&?&?&Hn&?). simpl in Hn.
      destruct (frame_col fg); [|done]. naive_solver. }
    iIntros "Hctx Hz HQ". rewrite insert_fix_loop_eq.
    destruct fp as [cp p dp sp|cp sp p dp]; simpl in Hcp; subst cp;
    destruct fg as [cg g dg sg|cg sg g dg]; simpl in Hcg; subst cg; tsimpl;
      iDestruct "Hctx" as "(Hp & Hsp & Hg & Hsg & Hctx)";
      iDestruct "Hz" as "(Hz & Ha & Hb)".
    + (* z = p->left, p = g->left *)
      wp_run. unfold insert_fix_body. wp_run.
      iDestruct (is_tree_root_ne with "Hsp Hz") as %Hne.
      iApply (wp_is_red with "Hsg"). iIntros "Hsg".
      destruct (rcol sg) eqn:Hu.
      * destruct sg as [|cu ul u du ur]; [done|]. simpl in Hu; subst cu. tsimpl.
        iDestruct "Hsg" as "(Hu & Hul & Hur)". wp_run.
        iApply (IH ctx (Nd false (Nd true a z d b) p dp sp) g dg (Nd false ul u du ur)
                  with "Hctx [-HQ]").
        { simpl in Hlen. lia. }
        { unfold ins_inv in *. rb_pure. }
        { tsimpl. iFrame. }
        iIntros (t' Ht'). iApply "HQ". iPureIntro.
        destruct Ht' as (?&?&->). rb_pure.
      * wp_run. rewrite decide_False; [|congruence]. wp_run.
        iApply (wp_right_rotate this n ctx true (Nd true a z d b) g dg false sp p dp sg
                  with "Hctx [-HQ]"); [tsimpl; iFrame|].
        tsimpl. iIntros "Hctx (Hp & (Hz & Ha & Hb) & Hg & Hsp & Hsg)". wp_run.
        iApply (wp_insert_fix_loop_black with "Hz Hp"); [done|done|].
        iIntros "Hz Hp".
        iApply ("HQ" $! (plug ctx (Nd false (Nd true a z d b) p dp (Nd true sp g dg sg))));
          [|rewrite is_map_plug; tsimpl; iFrame].
        iPureIntro. unfold ins_inv in Hinv. rb_pure.
    + (* z = p->left, p = g->right *)
      wp_run. unfold insert_fix_body. wp_run.
      iDestruct (is_tree_root_ne with "Hsg Hp") as %Hne.
      rewrite decide_False; [|congruence]. wp_run.
      iApply (wp_is_red with "Hsg"). iIntros "Hsg".
      destruct (rcol sg) eqn:Hu.
      * destruct sg as [|cu ul u du ur]; [done|]. simpl in Hu; subst cu. tsimpl.
        iDestruct "Hsg" as "(Hu & Hul & Hur)". wp_run.
        iApply (IH ctx (Nd false ul u du ur) g dg (Nd false (Nd true a z d b) p dp sp)
                  with "Hctx [-HQ]").
        { simpl in Hlen. lia. }
        { unfold ins_inv in *. rb_pure. }
        { tsimpl. iFrame. }
        iIntros (t' Ht'). iApply "HQ". iPureIntro.
        destruct Ht' as (?&?&->). rb_pure.
      * wp_run.
        iApply (wp_right_rotate this n (FR false sg g dg :: ctx) true a p dp true b z d sp
                  with "[Hg Hsg Hctx] [-HQ]"); [tsimpl; iFrame..|].
        tsimpl. iIntros "(Hg & Hsg & Hctx) (Hz & Ha & Hp & Hb & Hsp)". wp_run.
        iApply (wp_left_rotate this n ctx true sg g dg false a z d (Nd true b p dp sp)
                  with "Hctx [-HQ]"); [tsimpl; iFrame|].
        tsimpl. iIntros "Hctx (Hz & (Hg & Hsg & Ha) & Hp & Hb & Hsp)". wp_run.
        iApply (wp_insert_fix_loop_black with "Hp Hz"); [done|done|].
        iIntros "Hp Hz".
        iApply ("HQ" $! (plug ctx (Nd false (Nd true sg g dg a) z d (Nd true b p dp sp))));
          [|rewrite is_map_plug; tsimpl; iFrame].
        iPureIntro. unfold ins_inv in Hinv. rb_pure.
    + (* z = p->right, p = g->left *)
      wp_run. unfold insert_fix_body. wp_run.
      iApply (wp_is_red with "Hsg"). iIntros "Hsg".
      destruct (rcol sg) eqn:Hu.
      * destruct sg as [|cu ul u du ur]; [done|]. simpl in Hu; subst cu. tsimpl.
        iDestruct "Hsg" as "(Hu & Hul & Hur)". wp_run.
        iApply (IH ctx (Nd false sp p dp (Nd true a z d b)) g dg (Nd false ul u du ur)
                  with "Hctx [-HQ]").
        { simpl in Hlen. lia. }
        { unfold ins_inv in *. rb_pure. }
        { tsimpl. iFrame. }
        iIntros (t' Ht'). iApply "HQ". iPureIntro.
        destruct Ht' as (?&?&->). rb_pure.
      * wp_run.
        iApply (wp_left_rotate this n (FL false g dg sg :: ctx) true sp p dp true a z d b
                  with "[Hg Hsg Hctx] [-HQ]"); [tsimpl; iFrame..|].
        tsimpl. iIntros "(Hg & Hsg & Hctx) (Hz & (Hp & Hsp & Ha) & Hb)". wp_run.
        iApply (wp_right_rotate this n ctx true (Nd true sp p dp a) g dg false b z d sg
                  with "Hctx [-HQ]"); [tsimpl; iFrame|].
        tsimpl. iIntros "Hctx (Hz & (Hp & Hsp & Ha) & Hg & Hb & Hsg)". wp_run.
        iApply (wp_insert_fix_loop_black with "Hp Hz"); [done|done|].
        iIntros "Hp Hz".
        iApply ("HQ" $! (plug ctx (Nd false (Nd true sp p dp a) z d (Nd true b g dg sg))));
          [|rewrite is_map_plug; tsimpl; iFrame].
        iPureIntro. unfold ins_inv in Hinv. rb_pure.
    + (* z = p->right, p = g->right *)
      wp_run. unfold insert_fix_body. wp_run.
      iDestruct (is_tree_root_ne with "Hsg Hp") as %Hne.
      iDestruct (is_tree_root_ne with "Hsp Hz") as %Hne'.
      rewrite decide_False; [|congruence]. wp_run.
      iApply (wp_is_red with "Hsg"). iIntros "Hsg".
      destruct (rcol sg) eqn:Hu.
      * destruct sg as [|cu ul u du ur]; [done|]. simpl in Hu; subst cu. tsimpl.
        iDestruct "Hsg" as "(Hu & Hul & Hur)". wp_run.
        iApply (IH ctx (Nd false ul u du ur) g dg (Nd false sp p dp (Nd true a z d b))
                  with "Hctx [-HQ]").
        { simpl in Hlen. lia. }
        { unfold ins_inv in *. rb_pure. }
        { tsimpl. iFrame. }
        iIntros (t' Ht'). iApply "HQ". iPureIntro.
        destruct Ht' as (?&?&->). rb_pure.
      * wp_run. rewrite decide_False; [|congruence]. wp_run.
        iApply (wp_left_rotate this n ctx true sg g dg false sp p dp (Nd true a z d b)
                  with "Hctx [-HQ]"); [tsimpl; iFrame|].
        tsimpl. iIntros "Hctx (Hp & (Hg & Hsg & Hsp) & Hz & Ha & Hb)". wp_run.
        iApply (wp_insert_fix_loop_black with "Hz Hp"); [done|done|].
        iIntros "Hz Hp".
        iApply ("HQ" $! (plug ctx (Nd false (Nd true sg g dg sp) p dp (Nd true a z d b))));
          [|rewrite is_map_plug; tsimpl; iFrame].
        iPureIntro. unfold ins_inv in Hinv. rb_pure.
Qed.

End insert_fix.


(** * [erase_fix] restores the red-black shape *)

Section erase_fix.
Context {Key T : Type}.
Notation hprop := (hprop (Key:=Key) (T:=T)).
Notation Node := (Node (Key:=Key) (T:=T)).
Notation tree := (tree (Key:=Key) (T:=T)).
Notation frame := (frame (Key:=Key) (T:=T)).

(** The root link as seen from a hole. *)
Fixpoint ctx_root (ctx : list frame) (hole : option ptr) : option ptr :=
  match ctx with
  | [] => hole
  | f :: ctx' => ctx_root ctx' (Some (frame_ptr f))
  end.

Lemma root_of_plug ctx (t : tree) : root_of (plug ctx t) = ctx_root ctx (root_of t).
Proof.
  revert t. induction ctx as [|f ctx IH]; intros t; simpl; [done|].
  rewrite IH. by destruct f.
Qed.

Lemma wp_get_root_ctx this n ctx hole (Q : option ptr → hprop) :
  is_ctx this n ctx hole -∗
  (is_ctx this n ctx hole -∗ Q (ctx_root ctx hole)) -∗
  wp (get_root this) Q.
Proof.
  revert hole Q. induction ctx as [|[c p d r|c l p d] ctx IH]; intros hole Q; tsimpl.
  - iIntros "Hm HQ". wp_run. by iApply "HQ".
  - iIntros "(Hp & Hr & Hctx) HQ". iApply (IH with "Hctx"). iIntros "Hctx".
    iApply "HQ". iFrame.
  - iIntros "(Hp & Hr & Hctx) HQ". iApply (IH with "Hctx"). iIntros "Hctx".
    iApply "HQ". iFrame.
Qed.

Lemma is_ctx_root_ne this n ctx hole x (nx : Node) :
  ctx ≠ [] →
  is_ctx this n ctx hole -∗ x ↦ nx -∗ ⌜ctx_root ctx hole ≠ Some x⌝.
Proof.
  revert hole. induction ctx as [|f ctx IH]; intros hole Hne; [done|].
  iIntros "Hctx Hx".
  assert (∃ pn, is_ctx this n (f :: ctx) hole ⊢
            frame_ptr f ↦ pn ∗ is_ctx this n ctx (Some (frame_ptr f))) as [pn Hf].
  { destruct f as [c p d r|c l p d]; eexists; tsimpl;
      iIntros "(Hp & _ & Hctx)"; iFrame. }
  iDestruct (Hf with "Hctx") as "[Hp Hctx]". simpl.
  destruct ctx as [|f' ctx'].
  - simpl. destruct (decide (frame_ptr f = x)) as [->|]; [|iPureIntro; congruence].
    iDestruct (pointsto_excl with "Hp Hx") as %[].
  - iApply (IH with "Hctx Hx"). done.
Qed.

(** The loop invariant: the subtree [t] at [x] is one black node short. *)
Definition del_inv (ctx : list frame) (t : tree) : Prop :=
  nrr_below t ∧ balanced t ∧
  ctx_bal ctx (S (bh t)) ∧ ctx_nrr ctx false ∧ ctx_rcol ctx false = false.

Lemma erase_fix_loop_eq this fuel x x_parent :
  erase_fix_loop (Key:=Key) (T:=T) this fuel x x_parent =
  (let! r := get_root this in
   let! c := (if decide (x ≠ r) then is_black x else ret false) in
   if c then
     match fuel with
     | O => out_of_fuel
     | S fuel' =>
         let! xs := erase_fix_body this x x_parent in
         erase_fix_loop this fuel' (fst xs) (snd xs)
     end
   else ret x).
Proof. by destruct fuel. Qed.

(** The loop ends at once at the root and at a red node. *)
Lemma wp_erase_fix_loop_exit this n fuel ctx t xp (Q : option ptr → hprop) :
  ctx = [] ∨ rcol t = true →
  is_ctx this n ctx (root_of t) -∗
  is_tree (ctx_par ctx) t -∗
  (is_ctx this n ctx (root_of t) -∗ is_tree (ctx_par ctx) t -∗ Q (root_of t)) -∗
  wp (erase_fix_loop this fuel (root_of t) xp) Q.
Proof.
  iIntros (Hex) "Hctx Ht HQ". rewrite erase_fix_loop_eq. wp_run.
  iApply (wp_get_root_ctx with "Hctx"). iIntros "Hctx".
  destruct (decide (root_of t ≠ ctx_root ctx (root_of t))) as [Hne|Heq].
  - iApply wp_bind. iApply (wp_is_black with "Ht"). iIntros "Ht".
    destruct Hex as [->|Hr]; [done|]. rewrite Hr. simpl. wp_run.
    iApply ("HQ" with "Hctx Ht").
  - wp_run. iApply ("HQ" with "Hctx Ht").
Qed.

Lemma wp_erase_fix_left_black this n ctx cp p dp X wl w dw wr
    (Q : option ptr * option ptr → hprop) :
  rcol X = false →
  del_inv (FL cp p dp (Nd false wl w dw wr) :: ctx) X →
  is_ctx this n (FL cp p dp (Nd false wl w dw wr) :: ctx) (root_of X) -∗
  is_tree (Some p) X -∗
  (∀ ctx2 t2,
     ⌜(ctx2 = [] ∨ (ctx2 = ctx ∧ rcol t2 = cp)) ∧ del_inv ctx2 t2 ∧
      entries (plug ctx2 t2) =
      entries (plug (FL cp p dp (Nd false wl w dw wr) :: ctx) X)⌝ -∗
     is_ctx this n ctx2 (root_of t2) -∗ is_tree (ctx_par ctx2) t2 -∗
     Q (root_of t2, ctx_par ctx2)) -∗
  wp (erase_fix_left_black this (Some p) (Some w)) Q.
Proof.
  iIntros (HX Hinv) "Hctx HX HQ". tsimpl.
  iDestruct "Hctx" as "(Hp & (Hw & Hwl & Hwr) & Hctx)".
  unfold erase_fix_left_black. wp_run.
  iApply (wp_is_black with "Hwl"). iIntros "Hwl".
  destruct (rcol wl) eqn:Hwl; simpl.
  - (* the near child is red *)
    wp_run. iApply (wp_is_black with "Hwr"). iIntros "Hwr".
    destruct (rcol wr) eqn:Hwr; simpl.
    + destruct wr as [|cr wrl r dr wrr]; [done|]. simpl in Hwr; subst cr. tsimpl.
      iDestruct "Hwr" as "(Hr & Hwrl & Hwrr)". wp_run.
      iApply (wp_left_rotate this n ctx false X p dp cp wl w dw (Nd false wrl r dr wrr)
                with "Hctx [-HQ]"); [tsimpl; iFrame|].
      iIntros "Hctx Ht". wp_run.
      iApply (wp_get_root_ctx with "Hctx"). iIntros "Hctx". wp_run.
      rewrite -(root_of_plug ctx (Nd cp (Nd false X p dp wl) w dw (Nd false wrl r dr wrr))).
      iDestruct (is_map_plug_fold this n ctx (Nd cp (Nd false X p dp wl) w dw (Nd false wrl r dr wrr)) with "Hctx Ht") as "[Hm Ht]".
      iApply ("HQ" $! [] with "[] Hm Ht").
      iPureIntro. unfold del_inv in *. split; [by left|].
      split; [|rb_pure]. split_and!; try done.
      * apply nrr_nrr_below. rb_pure.
      * rb_pure.
    + destruct wl as [|cl wll q dq wlr]; [done|]. simpl in Hwl; subst cl. tsimpl.
      iDestruct "Hwl" as "(Hq & Hwll & Hwlr)". wp_run.
      iApply (wp_right_rotate this n (FR cp X p dp :: ctx) true wll w dw false wlr q dq wr
                with "[Hp HX Hctx] [-HQ]"); [tsimpl; iFrame..|].
      tsimpl. iIntros "(Hp & HX & Hctx) (Hq & Hwll & Hw & Hwlr & Hwr)". wp_run.
      iApply (wp_left_rotate this n ctx false X p dp cp wll q dq (Nd false wlr w dw wr)
                with "Hctx [-HQ]"); [tsimpl; iFrame|].
      iIntros "Hctx Ht". wp_run.
      iApply (wp_get_root_ctx with "Hctx"). iIntros "Hctx". wp_run.
      rewrite -(root_of_plug ctx (Nd cp (Nd false X p dp wll) q dq (Nd false wlr w dw wr))).
      iDestruct (is_map_plug_fold this n ctx (Nd cp (Nd false X p dp wll) q dq (Nd false wlr w dw wr)) with "Hctx Ht") as "[Hm Ht]".
      iApply ("HQ" $! [] with "[] Hm Ht").
      iPureIntro. unfold del_inv in *. split; [by left|].
      split; [|rb_pure]. split_and!; try done.
      * apply nrr_nrr_below. rb_pure.
      * rb_pure.
  - (* the near child is black *)
    wp_run. iApply (wp_is_black with "Hwr"). iIntros "Hwr".
    destruct (rcol wr) eqn:Hwr; simpl.
    + wp_run. iApply (wp_is_black with "Hwr"). iIntros "Hwr". rewrite Hwr. simpl.
      destruct wr as [|cr wrl r dr wrr]; [done|]. simpl in Hwr; subst cr. tsimpl.
      iDestruct "Hwr" as "(Hr & Hwrl & Hwrr)". wp_run.
      iApply (wp_left_rotate this n ctx false X p dp cp wl w dw (Nd false wrl r dr wrr)
                with "Hctx [-HQ]"); [tsimpl; iFrame|].
      iIntros "Hctx Ht". wp_run.
      iApply (wp_get_root_ctx with "Hctx"). iIntros "Hctx". wp_run.
      rewrite -(root_of_plug ctx (Nd cp (Nd false X p dp wl) w dw (Nd false wrl r dr wrr))).
      iDestruct (is_map_plug_fold this n ctx (Nd cp (Nd false X p dp wl) w dw (Nd false wrl r dr wrr)) with "Hctx Ht") as "[Hm Ht]".
      iApply ("HQ" $! [] with "[] Hm Ht").
      iPureIntro. unfold del_inv in *. split; [by left|].
      split; [|rb_pure]. split_and!; try done.
      * apply nrr_nrr_below. rb_pure.
      * rb_pure.
    + wp_run.
      iApply ("HQ" $! ctx (Nd cp X p dp (Nd true wl w dw wr)) with "[] Hctx [-]");
        [|tsimpl; iFrame].
      iPureIntro. unfold del_inv in *. split; [by right|].
      pose proof (nrr_below_black X HX). rb_pure.
Qed.

Lemma wp_erase_fix_right_black this n ctx cp p dp X wl w dw wr
    (Q : option ptr * option ptr → hprop) :
  rcol X = false →
  del_inv (FR cp (Nd false wl w dw wr) p dp :: ctx) X →
  is_ctx this n (FR cp (Nd false wl w dw wr) p dp :: ctx) (root_of X) -∗
  is_tree (Some p) X -∗
  (∀ ctx2 t2,
     ⌜(ctx2 = [] ∨ (ctx2 = ctx ∧ rcol t2 = cp)) ∧ del_inv ctx2 t2 ∧
      entries (plug ctx2 t2) =
      entries (plug (FR cp (Nd false wl w dw wr) p dp :: ctx) X)⌝ -∗
     is_ctx this n ctx2 (root_of t2) -∗ is_tree (ctx_par ctx2) t2 -∗
     Q (root_of t2, ctx_par ctx2)) -∗
  wp (erase_fix_right_black this (Some p) (Some w)) Q.
Proof.
  iIntros (HX Hinv) "Hctx HX HQ". tsimpl.
  iDestruct "Hctx" as "(Hp & (Hw & Hwl & Hwr) & Hctx)".
  unfold erase_fix_right_black. wp_run.
  iApply (wp_is_black with "Hwr"). iIntros "Hwr".
  destruct (rcol wr) eqn:Hwr; simpl.
  - (* the near child is red *)
    wp_run. iApply (wp_is_black with "Hwl"). iIntros "Hwl".
    destruct (rcol wl) eqn:Hwl; simpl.
    + destruct wl as [|cl wll q dq wlr]; [done|]. simpl in Hwl; subst cl. tsimpl.
      iDestruct "Hwl" as "(Hq & Hwll & Hwlr)". wp_run.
      iApply (wp_right_rotate this n ctx false (Nd false wll q dq wlr) p dp cp wr w dw X
                with "Hctx [-HQ]"); [tsimpl; iFrame|].
      iIntros "Hctx Ht". wp_run.
      iApply (wp_get_root_ctx with "Hctx"). iIntros "Hctx". wp_run.
      rewrite -(root_of_plug ctx (Nd cp (Nd false wll q dq wlr) w dw (Nd false wr p dp X))).
      iDestruct (is_map_plug_fold this n ctx (Nd cp (Nd false wll q dq wlr) w dw (Nd false wr p dp X)) with "Hctx Ht") as "[Hm Ht]".
      iApply ("HQ" $! [] with "[] Hm Ht").
      iPureIntro. unfold del_inv in *. split; [by left|].
      split; [|rb_pure]. split_and!; try done.
      * apply nrr_nrr_below. rb_pure.
      * rb_pure.
    + destruct wr as [|cr wrl r dr wrr]; [done|]. simpl in Hwr; subst cr. tsimpl.
      iDestruct "Hwr" as "(Hr & Hwrl & Hwrr)". wp_run.
      iApply (wp_left_rotate this n (FL cp p dp X :: ctx) true wl w dw false wrl r dr wrr
                with "[Hp HX Hctx] [-HQ]"); [tsimpl; iFrame..|].
      tsimpl. iIntros "(Hp & HX & Hctx) (Hr & (Hw & Hwl & Hwrl) & Hwrr)". wp_run.
      iApply (wp_right_rotate this n ctx false (Nd false wl w dw wrl) p dp cp wrr r dr X
                with "Hctx [-HQ]"); [tsimpl; iFrame|].
      iIntros "Hctx Ht". wp_run.
      iApply (wp_get_root_ctx with "Hctx"). iIntros "Hctx". wp_run.
      rewrite -(root_of_plug ctx (Nd cp (Nd false wl w dw wrl) r dr (Nd false wrr p dp X))).
      iDestruct (is_map_plug_fold this n ctx (Nd cp (Nd false wl w dw wrl) r dr (Nd false wrr p dp X)) with "Hctx Ht") as "[Hm Ht]".
      iApply ("HQ" $! [] with "[] Hm Ht").
      iPureIntro. unfold del_inv in *. split; [by left|].
      split; [|rb_pure]. split_and!; try done.
      * apply nrr_nrr_below. rb_pure.
      * rb_pure.
  - (* the near child is black *)
    wp_run. iApply (wp_is_black with "Hwl"). iIntros "Hwl".
    destruct (rcol wl) eqn:Hwl; simpl.
    + wp_run. iApply (wp_is_black with "Hwl"). iIntros "Hwl". rewrite Hwl. simpl.
      destruct wl as [|cl wll q dq wlr]; [done|]. simpl in Hwl; subst cl. tsimpl.
      iDestruct "Hwl" as "(Hq & Hwll & Hwlr)". wp_run.
      iApply (wp_right_rotate this n ctx false (Nd false wll q dq wlr) p dp cp wr w dw X
                with "Hctx [-HQ]"); [tsimpl; iFrame|].
      iIntros "Hctx Ht". wp_run.
      iApply (wp_get_root_ctx with "Hctx"). iIntros "Hctx". wp_run.
      rewrite -(root_of_plug ctx (Nd cp (Nd false wll q dq wlr) w dw (Nd false wr p dp X))).
      iDestruct (is_map_plug_fold this n ctx (Nd cp (Nd false wll q dq wlr) w dw (Nd false wr p dp X)) with "Hctx Ht") as "[Hm Ht]".
      iApply ("HQ" $! [] with "[] Hm Ht").
      iPureIntro. unfold del_inv in *. split; [by left|].
      split; [|rb_pure]. split_and!; try done.
      * apply nrr_nrr_below. rb_pure.
      * rb_pure.
    + wp_run.
      iApply ("HQ" $! ctx (Nd cp (Nd true wl w dw wr) p dp X) with "[] Hctx [-]");
        [|tsimpl; iFrame].
      iPureIntro. unfold del_inv in *. split; [by right|].
      pose proof (nrr_below_black X HX). rb_pure.
Qed.

Lemma ctx_root_is_Some (ctx : list frame) p : is_Some (ctx_root ctx (Some p)).
Proof. revert p. induction ctx as [|f ctx IH]; intros p; simpl; eauto. Qed.

Lemma is_ctx_hole_ne this n f ctx t par :
  is_ctx this n (f :: ctx) (root_of t) -∗ is_tree par t -∗
  ⌜root_of t ≠ ctx_root (f :: ctx) (root_of t)⌝.
Proof.
  iIntros "Hctx Ht". destruct t as [|c l p d r]; cbn [root_of is_tree ctx_root].
  - destruct (ctx_root_is_Some ctx (frame_ptr f)) as [q ->]. done.
  - iDestruct "Ht" as "(Hp & _)".
    iDestruct (is_ctx_root_ne this n (f :: ctx) with "Hctx Hp") as %Hne; [done|].
    iPureIntro. simpl in Hne. congruence.
Qed.

Lemma wp_erase_fix_loop this n fuel : ∀ ctx t (Q : option ptr → hprop),
  length ctx ≤ fuel →
  del_inv ctx t →
  is_ctx this n ctx (root_of t) -∗
  is_tree (ctx_par ctx) t -∗
  (∀ ctx' t',
     ⌜(ctx' = [] ∨ rcol t' = true) ∧ del_inv ctx' t' ∧
      entries (plug ctx' t') = entries (plug ctx t)⌝ -∗
     is_ctx this n ctx' (root_of t') -∗ is_tree (ctx_par ctx') t' -∗
     Q (root_of t')) -∗
  wp (erase_fix_loop this fuel (root_of t) (ctx_par ctx)) Q.
Proof.
  induction fuel as [|fuel IH]; intros ctx t Q Hlen Hinv; iIntros "Hctx Ht HQ".
  { destruct ctx; [|simpl in Hlen; lia].
    iApply (wp_erase_fix_loop_exit with "Hctx Ht"); [by left|].
    iIntros "Hctx Ht". iApply ("HQ" with "[] Hctx Ht").
    iPureIntro. split_and!; [by left|done|done]. }
  destruct ctx as [|f ctx].
  { iApply (wp_erase_fix_loop_exit with "Hctx Ht"); [by left|].
    iIntros "Hctx Ht". iApply ("HQ" with "[] Hctx Ht").
    iPureIntro. split_and!; [by left|done|done]. }
  destruct (rcol t) eqn:Hc.
  { iApply (wp_erase_fix_loop_exit with "Hctx Ht"); [by right|].
    iIntros "Hctx Ht". iApply ("HQ" with "[] Hctx Ht").
    iPureIntro. split_and!; [by right|done|done]. }
  iDestruct (is_ctx_hole_ne with "Hctx Ht") as %Hne.
  rewrite erase_fix_loop_eq. wp_run.
  iApply (wp_get_root_ctx with "Hctx"). iIntros "Hctx".
  rewrite decide_True; [|done].
  iApply wp_bind. iApply (wp_is_black with "Ht"). iIntros "Ht".
  rewrite Hc. simpl. unfold erase_fix_body.
  destruct f as [cp p dp W|cp W p dp].
  - (* x is the left child *)
    destruct W as [|cw wl w dw wr].
    { exfalso. unfold del_inv in Hinv. rb_pure. }
    tsimpl. iDestruct "Hctx" as "(Hp & (Hw & Hwl & Hwr) & Hctx)". wp_run.
    destruct cw; simpl.
    + (* case 1: the sibling is red *)
      assert (cp = false) as ->.
      { unfold del_inv in Hinv. destruct cp; [exfalso|done]. rb_pure. }
      destruct wl as [|cl wll q dq wlr].
      { exfalso. unfold del_inv in Hinv. rb_pure. }
      assert (cl = false) as ->.
      { unfold del_inv in Hinv. rb_pure. }
      wp_run.
      iApply (wp_left_rotate this n ctx true t p dp false (Nd false wll q dq wlr) w dw wr
                with "Hctx [-HQ]"); [tsimpl; iFrame|].
      tsimpl. iIntros "Hctx (Hw & (Hp & Ht & Hwl) & Hwr)". wp_run.
      iApply (wp_erase_fix_left_black this n (FL false w dw wr :: ctx) true p dp t wll q dq wlr
                with "[Hp Hw Hwl Hwr Hctx] Ht"); [done| |tsimpl; iFrame|].
      { unfold del_inv in *. rb_pure. }
      iIntros (ctx2 t2 (Hc2 & Hinv2 & Hent)) "Hctx Ht". wp_run.
      iApply (wp_erase_fix_loop_exit with "Hctx Ht").
      { destruct Hc2 as [?|[_ ?]]; auto. }
      iIntros "Hctx Ht". iApply ("HQ" with "[] Hctx Ht"). iPureIntro.
      split_and!; [destruct Hc2 as [?|[_ ?]]; auto|done|].
      rewrite Hent. rb_pure.
    + wp_run.
      iApply (wp_erase_fix_left_black this n ctx cp p dp t wl w dw wr
                with "[Hp Hw Hwl Hwr Hctx] Ht"); [done|done|tsimpl; iFrame|].
      iIntros (ctx2 t2 (Hc2 & Hinv2 & Hent)) "Hctx Ht". wp_run.
      iApply (IH with "Hctx Ht"); [|done|].
      { destruct Hc2 as [->|[-> _]]; simpl in *; lia. }
      iIntros (ctx3 t3 (Hc3 & Hinv3 & Hent3)) "Hctx Ht".
      iApply ("HQ" with "[] Hctx Ht"). iPureIntro.
      split_and!; [done|done|]. by rewrite Hent3 Hent.
  - (* x is the right child *)
    destruct W as [|cw wl w dw wr].
    { exfalso. unfold del_inv in Hinv. rb_pure. }
    tsimpl. iDestruct "Hctx" as "(Hp & (Hw & Hwl & Hwr) & Hctx)".
    iDestruct (is_tree_root_ne with "Ht Hw") as %Hne'.
    wp_run. rewrite decide_False; [|done]. wp_run.
    destruct cw; simpl.
    + assert (cp = false) as ->.
      { unfold del_inv in Hinv. destruct cp; [exfalso|done]. rb_pure. }
      destruct wr as [|cr wrl q dq wrr].
      { exfalso. unfold del_inv in Hinv. rb_pure. }
      assert (cr = false) as ->.
      { unfold del_inv in Hinv. rb_pure. }
      wp_run.
      iApply (wp_right_rotate this n ctx true wl p dp false (Nd false wrl q dq wrr) w dw t
                with "Hctx [-HQ]"); [tsimpl; iFrame|].
      tsimpl. iIntros "Hctx (Hw & Hwl & Hp & Hwr & Ht)". wp_run.
      iApply (wp_erase_fix_right_black this n (FR false wl w dw :: ctx) true p dp t wrl q dq wrr
                with "[Hp Hw Hwl Hwr Hctx] Ht"); [done| |tsimpl; iFrame|].
      { unfold del_inv in *. rb_pure. }
      iIntros (ctx2 t2 (Hc2 & Hinv2 & Hent)) "Hctx Ht". wp_run.
      iApply (wp_erase_fix_loop_exit with "Hctx Ht").
      { destruct Hc2 as [?|[_ ?]]; auto. }
      iIntros "Hctx Ht". iApply ("HQ" with "[] Hctx Ht"). iPureIntro.
      split_and!; [destruct Hc2 as [?|[_ ?]]; auto|done|].
      rewrite Hent. rb_pure.
    + wp_run.
      iApply (wp_erase_fix_right_black this n ctx cp p dp t wl w dw wr
                with "[Hp Hw Hwl Hwr Hctx] Ht"); [done|done|tsimpl; iFrame|].
      iIntros (ctx2 t2 (Hc2 & Hinv2 & Hent)) "Hctx Ht". wp_run.
      iApply (IH with "Hctx Ht"); [|done|].
      { destruct Hc2 as [->|[-> _]]; simpl in *; lia. }
      iIntros (ctx3 t3 (Hc3 & Hinv3 & Hent3)) "Hctx Ht".
      iApply ("HQ" with "[] Hctx Ht"). iPureIntro.
      split_and!; [done|done|]. by rewrite Hent3 Hent.
Qed.

Lemma wp_erase_fix this n fuel ctx t (Q : unit → hprop) :
  length ctx ≤ fuel →
  del_inv ctx t →
  is_ctx this n ctx (root_of t) -∗
  is_tree (ctx_par ctx) t -∗
  (∀ t', ⌜nrr t' ∧ balanced t' ∧ entries t' = entries (plug ctx t)⌝ -∗
         is_map this n t' -∗ Q tt) -∗
  wp (erase_fix this fuel (root_of t) (ctx_par ctx)) Q.
Proof.
  iIntros (Hlen Hinv) "Hctx Ht HQ". unfold erase_fix. iApply wp_bind.
  iApply (wp_erase_fix_loop with "Hctx Ht"); [done..|].
  iIntros (ctx' t' (Hex & Hinv' & Hent)) "Hctx Ht".
  iAssert (wp (match root_of t' with
               | Some p => set_color p false
               | None => ret tt
               end) (λ _, is_tree (ctx_par ctx') (blacken t')))%I
    with "[Ht]" as "Hwp".
  { destruct t' as [|c l p d r]; tsimpl; simpl.
    - wp_run. done.
    - iDestruct "Ht" as "(Hp & Hl & Hr)". wp_run. iFrame. }
  iApply (wp_wand with "Hwp"). iIntros ([]) "Ht".
  rewrite -(root_of_blacken t').
  iApply ("HQ" $! (plug ctx' (blacken t'))); [|rewrite is_map_plug; iFrame].
  iPureIntro. unfold del_inv in Hinv'. destruct Hinv' as (Hn & Hb & Hcb & Hcn & Hcr).
  rewrite nrr_plug balanced_plug rcol_blacken bh_blacken.
  split_and!.
  - by apply nrr_blacken.
  - done.
  - by apply balanced_blacken.
  - destruct Hex as [Hex|Hex]; rewrite Hex; done.
  - rewrite -Hent. rewrite !entries_plug. by rewrite entries_blacken.
Qed.

End erase_fix.


(** * Paths inside a tree, [min_node], [max_node] and [transplant] *)

Section segments.
Context {Key T : Type}.
Notation hprop := (hprop (Key:=Key) (T:=T)).
Notation Node := (Node (Key:=Key) (T:=T)).
Notation tree := (tree (Key:=Key) (T:=T)).
Notation frame := (frame (Key:=Key) (T:=T)).

Definition seg_par (par : option ptr) (seg : list frame) : option ptr :=
  match seg with
  | [] => par
  | f :: _ => Some (frame_ptr f)
  end.

(** The frames of a path that ends below the link [par], without the
    link that leads to its topmost node. *)
Fixpoint is_seg (par : option ptr) (seg : list frame) (hole : option ptr) : hprop :=
  match seg with
  | [] => emp
  | FL c p d r :: seg' =>
      p ↦ mkNode d c hole (root_of r) (seg_par par seg') ∗
      is_tree (Some p) r ∗ is_seg par seg' (Some p)
  | FR c l p d :: seg' =>
      p ↦ mkNode d c (root_of l) hole (seg_par par seg') ∗
      is_tree (Some p) l ∗ is_seg par seg' (Some p)
  end%I.
Global Arguments is_seg : simpl nomatch.

Lemma is_tree_plug par seg t :
  is_tree par (plug seg t) ⊣⊢
  is_seg par seg (root_of t) ∗ is_tree (seg_par par seg) t.
Proof.
  revert t. induction seg as [|[c p d r|c l p d] seg IH]; intros t; simpl.
  - by rewrite left_id.
  - rewrite IH /=. iSplit.
    + iIntros "(Hc & Hp & Ht & Hr)". iFrame.
    + iIntros "((Hp & Hr & Hc) & Ht)". iFrame.
  - rewrite IH /=. iSplit.
    + iIntros "(Hc & Hp & Hl & Ht)". iFrame.
    + iIntros "((Hp & Hl & Hc) & Ht)". iFrame.
Qed.

Lemma ctx_par_app seg (ctx : list frame) :
  ctx_par (seg ++ ctx) = seg_par (ctx_par ctx) seg.
Proof. by destruct seg. Qed.
Lemma ctx_root_app seg (ctx : list frame) hole :
  ctx_root (seg ++ ctx) hole = ctx_root ctx (ctx_root seg hole).
Proof. revert hole. induction seg as [|f seg IH]; intros hole; simpl; [done|]. by rewrite IH. Qed.

Lemma is_ctx_app this n seg ctx hole :
  is_ctx this n (seg ++ ctx) hole ⊣⊢
  is_seg (ctx_par ctx) seg hole ∗ is_ctx this n ctx (ctx_root seg hole).
Proof.
  revert hole. induction seg as [|[c p d r|c l p d] seg IH]; intros hole; simpl.
  - by rewrite left_id.
  - rewrite IH ctx_par_app /=. iSplit.
    + iIntros "(Hp & Hr & Hs & Hc)". iFrame.
    + iIntros "((Hp & Hr & Hs) & Hc)". iFrame.
  - rewrite IH ctx_par_app /=. iSplit.
    + iIntros "(Hp & Hr & Hs & Hc)". iFrame.
    + iIntros "((Hp & Hr & Hs) & Hc)". iFrame.
Qed.

(** The parent link of the topmost node of a path is rewritten. *)
Lemma wp_seg_reparent par par' seg hole r0 (Q : unit → hprop) :
  seg ≠ [] → ctx_root seg hole = Some r0 →
  is_seg par seg hole -∗
  (is_seg par' seg hole -∗ Q tt) -∗
  wp (set_parent r0 par') Q.
Proof.
  revert hole. induction seg as [|f seg IH]; intros hole Hne Hr; [done|].
  iIntros "Hs HQ". destruct seg as [|f' seg].
  - simpl in Hr. injection Hr as <-.
    destruct f as [c p d r|c l p d]; simpl;
      iDestruct "Hs" as "(Hp & Ht & _)"; wp_run; iApply "HQ"; iFrame.
  - simpl in Hr.
    destruct f as [c p d r|c l p d]; cbn [is_seg seg_par frame_ptr];
      iDestruct "Hs" as "(Hp & Ht & Hs)";
      (iApply (IH with "Hs"); [done|exact Hr|]);
      iIntros "Hs"; iApply "HQ"; cbn [is_seg seg_par frame_ptr]; iFrame.
Qed.

Lemma min_node_loop_eq fuel x :
  min_node_loop (Key:=Key) (T:=T) fuel x =
  (let! l := get_left x in
   match l with
   | None => ret x
   | Some l' =>
       match fuel with
       | O => out_of_fuel
       | S fuel' => min_node_loop fuel' l'
       end
   end).
Proof. by destruct fuel. Qed.
Lemma max_node_loop_eq fuel x :
  max_node_loop (Key:=Key) (T:=T) fuel x =
  (let! r := get_right x in
   match r with
   | None => ret x
   | Some r' =>
       match fuel with
       | O => out_of_fuel
       | S fuel' => max_node_loop fuel' r'
       end
   end).
Proof. by destruct fuel. Qed.

(** [min_node] walks down the left spine: the node it returns has no
    left child and only left turns lead to it. *)
Lemma wp_min_node_loop fuel : ∀ par c l p d r (Q : ptr → hprop),
  height l ≤ fuel →
  is_tree par (Nd c l p d r) -∗
  (∀ seg cy y dy X,
     ⌜Nd c l p d r = plug seg (Nd cy Leaf y dy X) ∧ Forall is_FL seg⌝ -∗
     is_tree par (Nd c l p d r) -∗ Q y) -∗
  wp (min_node_loop fuel p) Q.
Proof.
  induction fuel as [|fuel IH]; intros par c l p d r Q Hh; tsimpl;
    iIntros "(Hp & Hl & Hr) HQ"; rewrite min_node_loop_eq; wp_run.
  - destruct l as [|cl ll pl dl rl]; [|simpl in Hh; lia]. simpl. wp_run.
    iApply ("HQ" $! [] c p d r with "[] [-]"); [done|iFrame].
  - destruct l as [|cl ll pl dl rl]; simpl.
    + wp_run. iApply ("HQ" $! [] c p d r with "[] [-]"); [done|iFrame].
    + iApply (IH with "Hl"); [simpl in Hh; lia|].
      iIntros (seg cy y dy X [Heq Hfl]) "Hl".
      iApply ("HQ" $! (seg ++ [FL c p d r]) cy y dy X with "[] [-]"); [|iFrame].
      iPureIntro. split.
      * by rewrite plug_app -Heq.
      * apply Forall_app. split; [done|]. by constructor.
Qed.

Lemma wp_max_node_loop fuel : ∀ par c l p d r (Q : ptr → hprop),
  height r ≤ fuel →
  is_tree par (Nd c l p d r) -∗
  (∀ seg cy y dy X,
     ⌜Nd c l p d r = plug seg (Nd cy X y dy Leaf) ∧ Forall is_FR seg⌝ -∗
     is_tree par (Nd c l p d r) -∗ Q y) -∗
  wp (max_node_loop fuel p) Q.
Proof.
  induction fuel as [|fuel IH]; intros par c l p d r Q Hh; tsimpl;
    iIntros "(Hp & Hl & Hr) HQ"; rewrite max_node_loop_eq; wp_run.
  - destruct r as [|cr lr pr dr rr]; [|simpl in Hh; lia]. simpl. wp_run.
    iApply ("HQ" $! [] c p d l with "[] [-]"); [done|iFrame].
  - destruct r as [|cr lr pr dr rr]; simpl.
    + wp_run. iApply ("HQ" $! [] c p d l with "[] [-]"); [done|iFrame].
    + iApply (IH with "Hr"); [simpl in Hh; lia|].
      iIntros (seg cy y dy X [Heq Hfl]) "Hr".
      iApply ("HQ" $! (seg ++ [FR c l p d]) cy y dy X with "[] [-]"); [|iFrame].
      iPureIntro. split.
      * by rewrite plug_app -Heq.
      * apply Forall_app. split; [done|]. by constructor.
Qed.

(** [transplant(u, v)]: the subtree at [v] takes the place of [u]. *)
Lemma wp_transplant this n ctx u (nu : Node) pv V (Q : unit → hprop) :
  parent nu = ctx_par ctx →
  is_ctx this n ctx (Some u) -∗ u ↦ nu -∗ is_tree pv V -∗
  (is_ctx this n ctx (root_of V) -∗ u ↦ nu -∗ is_tree (ctx_par ctx) V -∗ Q tt) -∗
  wp (transplant this u (root_of V)) Q.
Proof.
  iIntros (Hpar) "Hctx Hu HV HQ". unfold transplant. wp_run. rewrite Hpar.
  iAssert (u ↦ nu -∗ is_tree pv V -∗
           wp (match root_of V with
               | Some v' => let! up := get_parent u in set_parent v' up
               | None => ret tt
               end) (λ _, u ↦ nu ∗ is_tree (ctx_par ctx) V))%I as "Hwp".
  { iIntros "Hu HV". destruct V as [|c l p d r]; tsimpl; simpl.
    - wp_run. iFrame.
    - iDestruct "HV" as "(Hp & Hl & Hr)". wp_run. rewrite Hpar. iFrame. }
  destruct ctx as [|[cp p dp r|cp l p dp] ctx]; tsimpl; simpl.
  - wp_run. iApply (wp_wand with "(Hwp Hu HV)"). iIntros ([]) "[Hu HV]".
    iApply ("HQ" with "Hctx Hu HV").
  - iDestruct "Hctx" as "(Hp & Hr & Hctx)". wp_run.
    iApply (wp_wand with "(Hwp Hu HV)"). iIntros ([]) "[Hu HV]".
    iApply ("HQ" with "[Hp Hr Hctx] Hu HV"). iFrame.
  - iDestruct "Hctx" as "(Hp & Hl & Hctx)".
    iDestruct (is_tree_root_ne with "Hl Hu") as %Hne.
    wp_run. rewrite decide_False; [|congruence]. wp_run.
    iApply (wp_wand with "(Hwp Hu HV)"). iIntros ([]) "[Hu HV]".
    iApply ("HQ" with "[Hp Hl Hctx] Hu HV"). iFrame.
Qed.

(** What [erase] has done when [z] is unlinked: a node [Y] with at most
    one child [X] has left the tree, [X] stands in its place below the
    path [ctx'], and the entry of [z] is gone. *)
Definition unlinked (t0 : tree) (z : ptr) (dz : Key * T) (c : bool)
    (ctx' : list frame) (X : tree) : Prop :=
  ∃ C0 Y, t0 = plug C0 Y ∧ ctx_sim C0 ctx' ∧
    (∃ p d, Y = Nd c Leaf p d X ∨ Y = Nd c X p d Leaf) ∧
    ∃ l1 l2, entries t0 = l1 ++ (z, dz) :: l2 ∧ entries (plug ctx' X) = l1 ++ l2.

Lemma unlinked_left ctx cz z dz R :
  unlinked (plug ctx (Nd cz Leaf z dz R)) z dz cz ctx R.
Proof.
  exists ctx, (Nd cz Leaf z dz R). split_and!; [done|apply ctx_sim_refl|eauto|].
  exists (ctx_before ctx), (entries R ++ ctx_after ctx).
  rewrite !entries_plug. list_norm. done.
Qed.
Lemma unlinked_right ctx cz z dz L :
  unlinked (plug ctx (Nd cz L z dz Leaf)) z dz cz ctx L.
Proof.
  exists ctx, (Nd cz L z dz Leaf). split_and!; [done|apply ctx_sim_refl|eauto|].
  exists (ctx_before ctx ++ entries L), (ctx_after ctx).
  rewrite !entries_plug. list_norm. done.
Qed.
Lemma unlinked_both ctx cz L z dz seg cy y dy X :
  Forall is_FL seg →
  unlinked (plug ctx (Nd cz L z dz (plug seg (Nd cy Leaf y dy X)))) z dz cy
    (seg ++ FR cz L y dy :: ctx) X.
Proof.
  intros Hfl.
  exists (seg ++ FR cz L z dz :: ctx), (Nd cy Leaf y dy X). split_and!.
  - by rewrite plug_app.
  - apply ctx_sim_app; [apply ctx_sim_refl|].
    constructor; [by split_and!|apply ctx_sim_refl].
  - eauto.
  - exists (ctx_before ctx ++ entries L),
      ((y, dy) :: entries X ++ ctx_after seg ++ ctx_after ctx).
    rewrite !entries_plug /= !entries_plug ctx_before_app ctx_after_app
      (ctx_before_FL seg Hfl) /= ?app_nil_r.
    split; list_norm; reflexivity.
Qed.

Lemma ctx_root_cons_Some (seg : list frame) f hole hole' :
  ctx_root (f :: seg) hole = ctx_root (f :: seg) hole'.
Proof. done. Qed.

Lemma wp_erase_unlink this n fuel ctx cz L z dz R
    (Q : bool * option ptr * option ptr → hprop) :
  height R ≤ fuel →
  is_ctx this n ctx (Some z) -∗
  is_tree (ctx_par ctx) (Nd cz L z dz R) -∗
  (∀ c ctx' X nz,
     ⌜unlinked (plug ctx (Nd cz L z dz R)) z dz c ctx' X⌝ -∗
     is_ctx this n ctx' (root_of X) -∗ is_tree (ctx_par ctx') X -∗ z ↦ nz -∗
     Q (c, root_of X, ctx_par ctx')) -∗
  wp (erase_unlink this fuel z) Q.
Proof.
  tsimpl. iIntros (Hh) "Hctx (Hz & HL & HR) HQ". unfold erase_unlink. wp_run.
  destruct L as [|cl ll pl dl lr]; simpl.
  { (* no left child *)
    wp_run.
    iApply (wp_transplant with "Hctx Hz HR"); [done|].
    iIntros "Hctx Hz HR". wp_run.
    iApply ("HQ" with "[] Hctx HR Hz"). iPureIntro. apply unlinked_left. }
  wp_run.
  destruct R as [|cr rl pr dr rr]; simpl.
  { (* no right child *)
    wp_run.
    iApply (wp_transplant this n ctx z _ _ (Nd cl ll pl dl lr) with "Hctx Hz HL"); [done|].
    iIntros "Hctx Hz HL". wp_run.
    iApply ("HQ" $! cz ctx (Nd cl ll pl dl lr) with "[] Hctx HL Hz").
    iPureIntro. apply unlinked_right. }
  (* two children: the successor y takes the place of z *)
  wp_run.
  iApply (wp_min_node_loop with "HR"); [simpl in Hh; lia|].
  iIntros (seg cy y dy X [Heq Hfl]) "HR".
  pose proof (f_equal root_of Heq) as Hroot.
  rewrite root_of_plug in Hroot. simpl in Hroot. rewrite Heq.
  rewrite is_tree_plug. tsimpl. iDestruct "HR" as "(Hseg & Hy & _ & HX)". wp_run.
  tsimpl. iDestruct "HL" as "(Hpl & Hll & Hlr)".
  destruct seg as [|f seg].
  - (* y is the right child of z *)
    simpl. wp_run.
    iApply (wp_reparent with "HX"). iIntros "HX". wp_run.
    iApply (wp_transplant this n ctx z _ (Some z) (Nd cy Leaf y dy X)
              with "Hctx Hz [Hy HX]"); [done|tsimpl; iFrame|].
    tsimpl. iIntros "Hctx Hz (Hy & _ & HX)". wp_run.
    iApply ("HQ" $! cy (FR cz (Nd cl ll pl dl lr) y dy :: ctx) X
              with "[] [-HX Hz] HX Hz"); [|tsimpl; iFrame].
    iPureIntro. apply (unlinked_both ctx cz _ z dz [] cy y dy X). done.
  - (* y lies deeper *)
    inversion Hfl as [|? ? Hf Hfl']; subst.
    destruct f as [c1 yp d1 r1|]; [|done].
    simpl in Hroot. cbn [seg_par frame_ptr].
    iAssert ⌜yp ≠ z⌝%I as %Hne.
    { cbn [is_seg]. iDestruct "Hseg" as "(Hyp & _)".
      destruct (decide (yp = z)) as [->|]; [|done].
      iDestruct (pointsto_excl with "Hyp Hz") as %[]. }
    rewrite decide_False; [|congruence]. wp_run.
    set (seg' := FL c1 yp d1 r1 :: seg).
    iApply (wp_transplant this n (seg' ++ FR cz (Nd cl ll pl dl lr) z dz :: ctx) y _ _ X
              with "[Hseg Hz Hpl Hll Hlr Hctx] Hy HX"); [done| |].
    { rewrite is_ctx_app. tsimpl. simpl. rewrite -Hroot. iFrame. }
    rewrite is_ctx_app ctx_par_app. tsimpl.
    iIntros "(Hseg & Hz & (Hpl & Hll & Hlr) & Hctx) Hy HX". wp_run.
    rewrite -Hroot. wp_run. fold (set_parent (Key:=Key) (T:=T) pr (Some y)).
    iApply (wp_seg_reparent _ (Some y) (FL c1 yp d1 r1 :: seg) with "Hseg");
      [done|by rewrite Hroot|].
    iIntros "Hseg". wp_run.
    iApply (wp_transplant this n ctx z _ (Some yp) (Nd cy Leaf y dy (plug seg' X))
              with "Hctx Hz [Hy Hseg HX]"); [done| |].
    { tsimpl. rewrite is_tree_plug root_of_plug. simpl. rewrite -Hroot. iFrame. }
    tsimpl. iIntros "Hctx Hz (Hy & _ & HR)". wp_run.
    change (plug seg (Nd c1 X yp d1 r1)) with (plug (FL c1 yp d1 r1 :: seg) X).
    rewrite is_tree_plug root_of_plug. iDestruct "HR" as "[Hseg HX]".
    iApply ("HQ" $! cy (seg' ++ FR cz (Nd cl ll pl dl lr) y dy :: ctx) X
              with "[] [-Hz HX] HX Hz").
    + iPureIntro. apply (unlinked_both ctx cz _ z dz seg' cy y dy X). done.
    + rewrite is_ctx_app. tsimpl. iFrame.
Qed.

Lemma unlinked_black t0 z dz ctx' X :
  unlinked t0 z dz false ctx' X →
  nrr t0 → balanced t0 → rcol t0 = false →
  del_inv ctx' X ∧ length ctx' ≤ height t0.
Proof.
  intros (C0 & Y & -> & Hsim & [p [d HY]] & _).
  rewrite nrr_plug balanced_plug rcol_plug.
  intros [HnY HnC] [HbY HbC] Hr. split.
  - unfold del_inv. destruct HY as [-> | ->]; simpl in *.
    + destruct HnY as (_ & _ & ?), HbY as (HX & _ & ?).
      split_and!; [by apply nrr_nrr_below|done|..].
      * eapply ctx_bal_sim; [done|]. by rewrite -HX.
      * by eapply ctx_nrr_sim.
      * by rewrite -(ctx_rcol_sim _ _ _ Hsim).
    + destruct HnY as (_ & ? & _), HbY as (HX & ? & _).
      split_and!; [by apply nrr_nrr_below|done|..].
      * by eapply ctx_bal_sim.
      * by eapply ctx_nrr_sim.
      * by rewrite -(ctx_rcol_sim _ _ _ Hsim).
  - rewrite -(ctx_sim_length _ _ Hsim).
    pose proof (height_plug C0 Y). lia.
Qed.

Lemma unlinked_red t0 z dz ctx' X :
  unlinked t0 z dz true ctx' X →
  nrr t0 → balanced t0 →
  nrr (plug ctx' X) ∧ balanced (plug ctx' X).
Proof.
  intros (C0 & Y & -> & Hsim & [p [d HY]] & _).
  rewrite !nrr_plug !balanced_plug.
  intros [HnY HnC] [HbY HbC].
  destruct HY as [-> | ->]; simpl in *.
  - destruct HnY as (Hc & _ & ?), HbY as (HX & _ & ?).
    destruct (Hc eq_refl) as [_ ->]. split_and!; try done.
    + eapply ctx_nrr_sim; [done|]. by eapply ctx_nrr_weaken.
    + eapply ctx_bal_sim; [done|]. by rewrite -HX.
  - destruct HnY as (Hc & ? & _), HbY as (HX & ? & _).
    destruct (Hc eq_refl) as [-> _]. split_and!; try done.
    + eapply ctx_nrr_sim; [done|]. by eapply ctx_nrr_weaken.
    + by eapply ctx_bal_sim.
Qed.

Lemma is_ctx_obj this n (ctx : list frame) hole :
  is_ctx this n ctx hole ⊣⊢
  this ↦ₘ Map (ctx_root ctx hole) n ∗ is_seg None ctx hole.
Proof.
  rewrite -{1}(app_nil_r ctx) is_ctx_app /=. by rewrite comm.
Qed.

Lemma wp_decr_node_count_ctx this n ctx hole (Q : unit → hprop) :
  is_ctx this n ctx hole -∗
  (is_ctx this (size_t_wrap (n + size_t_modulus - 1)) ctx hole -∗ Q tt) -∗
  wp (decr_node_count this) Q.
Proof.
  rewrite !is_ctx_obj. iIntros "[Hm Hs] HQ". wp_run. iApply "HQ". iFrame.
Qed.
Lemma wp_incr_node_count_ctx this n ctx hole (Q : unit → hprop) :
  is_ctx this n ctx hole -∗
  (is_ctx this (size_t_wrap (n + 1)) ctx hole -∗ Q tt) -∗
  wp (incr_node_count this) Q.
Proof.
  rewrite !is_ctx_obj. iIntros "[Hm Hs] HQ". wp_run. iApply "HQ". iFrame.
Qed.

Lemma wp_blacken_root this n t (Q : unit → hprop) :
  is_map this n t -∗ (is_map this n (blacken t) -∗ Q tt) -∗
  wp (blacken_root this) Q.
Proof.
  unfold is_map. iIntros "[Hm Ht] HQ". unfold blacken_root. wp_run.
  destruct t as [|c l p d r]; tsimpl; simpl.
  - wp_run. iApply "HQ". iFrame.
  - iDestruct "Ht" as "(Hp & Hl & Hr)". wp_run. iApply "HQ". iFrame.
Qed.

Lemma wp_erase_node this n fuel ctx cz L z dz R (Q : unit → hprop) :
  let t0 := plug ctx (Nd cz L z dz R) in
  height t0 ≤ fuel → nrr t0 → balanced t0 → rcol t0 = false →
  is_map this n t0 -∗
  (∀ t', ⌜nrr t' ∧ balanced t' ∧ rcol t' = false ∧
          ∃ l1 l2, entries t0 = l1 ++ (z, dz) :: l2 ∧ entries t' = l1 ++ l2⌝ -∗
         is_map this (size_t_wrap (n + size_t_modulus - 1)) t' -∗ Q tt) -∗
  wp (erase_node this fuel z) Q.
Proof.
  intros t0 Hh Hn Hb Hr. subst t0. rewrite is_map_plug.
  iIntros "[Hctx Ht] HQ". unfold erase_node. wp_run.
  iApply (wp_erase_unlink with "Hctx Ht").
  { pose proof (height_plug ctx (Nd cz L z dz R)). simpl in *. lia. }
  iIntros (c ctx' X nz Hun) "Hctx HX Hz". wp_run.
  iApply (wp_decr_node_count_ctx with "Hctx"). iIntros "Hctx". wp_run.
  destruct Hun as (C0 & Y & HC0 & Hsim & HY & l1 & l2 & Hl1 & Hl2).
  assert (unlinked (plug ctx (Nd cz L z dz R)) z dz c ctx' X) as Hun.
  { exists C0, Y. split_and!; eauto. }
  destruct c.
  - destruct (unlinked_red _ _ _ _ _ Hun Hn Hb) as [Hn' Hb'].
    wp_run. iApply (wp_blacken_root this _ (plug ctx' X) with "[Hctx HX]").
    { rewrite is_map_plug. iFrame. }
    iIntros "Hm". iApply ("HQ" with "[] Hm"). iPureIntro.
    split_and!; [by apply nrr_blacken, nrr_nrr_below|by apply balanced_blacken
                |apply rcol_blacken|].
    exists l1, l2. by rewrite entries_blacken.
  - destruct (unlinked_black _ _ _ _ _ Hun Hn Hb Hr) as [Hinv Hlen].
    iApply (wp_erase_fix with "Hctx HX"); [lia|done|].
    iIntros (t' (Hn' & Hb' & He')) "Hm". wp_run.
    iApply (wp_blacken_root with "Hm").
    iIntros "Hm". iApply ("HQ" with "[] Hm"). iPureIntro.
    split_and!; [by apply nrr_blacken, nrr_nrr_below|by apply balanced_blacken
                |apply rcol_blacken|].
    exists l1, l2. rewrite entries_blacken He'. done.
Qed.

End segments.


(** * The search order *)

Section order.
Context {Key T : Type}.
Variable comp : Key → Key → bool.
Notation tree := (tree (Key:=Key) (T:=T)).
Notation frame := (frame (Key:=Key) (T:=T)).
Notation entry := (ptr * (Key * T))%type.

(** What [Compare] has to be: a strict weak ordering. *)
Record StrictWeakOrder : Prop := {
  swo_irrefl a : comp a a = false;
  swo_trans a b c : comp a b = true → comp b c = true → comp a c = true;
  swo_equiv_trans a b c :
    eq_key comp a b = true → eq_key comp b c = true → eq_key comp a c = true
}.

Definition ekey (e : entry) : Key := e.2.1.
Definition entry_lt (e1 e2 : entry) : Prop := comp (ekey e1) (ekey e2) = true.
(** Strictly increasing keys: every entry is below all the later ones. *)
Definition sorted_entries (es : list entry) : Prop := StronglySorted entry_lt es.
Definition bst (t : tree) : Prop := sorted_entries (entries t).
(** [k] has an entry in [es]. *)
Definition has_key (es : list entry) (k : Key) : Prop :=
  ∃ e, e ∈ es ∧ eq_key comp k (ekey e) = true.

Lemma eq_key_spec a b :
  eq_key comp a b = true ↔ comp a b = false ∧ comp b a = false.
Proof.
  unfold eq_key. rewrite andb_true_iff !negb_true_iff. done.
Qed.

Section swo.
Hypothesis Hswo : StrictWeakOrder.

Lemma swo_asym a b : comp a b = true → comp b a = false.
Proof.
  intros H. destruct (comp b a) eqn:E; [|done].
  by rewrite -(swo_irrefl Hswo a) (swo_trans Hswo a b a).
Qed.
Lemma eq_key_refl a : eq_key comp a a = true.
Proof. apply eq_key_spec. by rewrite (swo_irrefl Hswo). Qed.
Lemma eq_key_sym a b : eq_key comp a b = true → eq_key comp b a = true.
Proof. rewrite !eq_key_spec. tauto. Qed.
Lemma comp_eq_key_l a b c :
  eq_key comp a b = true → comp b c = true → comp a c = true.
Proof.
  intros Hab Hbc. destruct (comp a c) eqn:Hac; [done|].
  destruct (comp c a) eqn:Hca.
  - apply eq_key_spec in Hab as [_ Hba].
    by rewrite (swo_trans Hswo b c a) in Hba.
  - assert (eq_key comp b c = true) as Hbc'%eq_key_spec.
    { apply (swo_equiv_trans Hswo b a c); [by apply eq_key_sym|].
      by apply eq_key_spec. }
    destruct Hbc'. congruence.
Qed.
Lemma comp_eq_key_r a b c :
  comp a b = true → eq_key comp b c = true → comp a c = true.
Proof.
  intros Hab Hbc. destruct (comp a c) eqn:Hac; [done|].
  destruct (comp c a) eqn:Hca.
  - apply eq_key_spec in Hbc as [_ Hcb].
    by rewrite (swo_trans Hswo c a b) in Hcb.
  - assert (eq_key comp a b = true) as Hab'%eq_key_spec.
    { apply (swo_equiv_trans Hswo a c b); [by apply eq_key_spec|].
      by apply eq_key_sym. }
    destruct Hab'. congruence.
Qed.

Global Instance entry_lt_trans : Transitive entry_lt.
Proof. intros a b c. apply (swo_trans Hswo). Qed.

Lemma sorted_app_inv (l1 l2 : list entry) :
  sorted_entries (l1 ++ l2) →
  sorted_entries l1 ∧ sorted_entries l2 ∧
  ∀ a b, a ∈ l1 → b ∈ l2 → entry_lt a b.
Proof.
  induction l1 as [|x l1 IH]; simpl.
  - intros H. split_and!; [constructor|done|]. intros a b Ha. by apply elem_of_nil in Ha.
  - intros H. apply StronglySorted_inv in H as [H1 H2].
    destruct (IH H1) as (Hs1 & Hs2 & H12). split_and!; [|done|].
    + constructor; [done|]. by apply Forall_app in H2 as [? _].
    + intros a b [->|Ha]%elem_of_cons Hb; [|by apply H12].
      rewrite Forall_app !Forall_forall in H2. by apply H2.
Qed.
Lemma sorted_app (l1 l2 : list entry) :
  sorted_entries l1 → sorted_entries l2 →
  (∀ a b, a ∈ l1 → b ∈ l2 → entry_lt a b) →
  sorted_entries (l1 ++ l2).
Proof.
  induction 1 as [|x l1 Hs IH Hx]; simpl; [done|].
  intros H2 H12. constructor.
  - apply IH; [done|]. intros a b Ha Hb. apply H12; [by right|done].
  - apply Forall_app. split; [done|].
    apply Forall_forall. intros b Hb. apply H12; [by left|done].
Qed.
Lemma sorted_remove (l1 l2 : list entry) e :
  sorted_entries (l1 ++ e :: l2) → sorted_entries (l1 ++ l2).
Proof.
  intros (H1 & H2 & H12)%sorted_app_inv.
  apply StronglySorted_inv in H2 as [H2 _].
  apply sorted_app; [done..|]. intros a b Ha Hb. apply H12; [done|by right].
Qed.
Lemma sorted_insert (l1 l2 : list entry) e :
  sorted_entries (l1 ++ l2) →
  (∀ a, a ∈ l1 → entry_lt a e) → (∀ b, b ∈ l2 → entry_lt e b) →
  sorted_entries (l1 ++ e :: l2).
Proof.
  intros (H1 & H2 & H12)%sorted_app_inv Ha Hb.
  apply sorted_app; [done| |].
  - constructor; [done|]. apply Forall_forall. done.
  - intros a b Hin [->|Hin']%elem_of_cons; [by apply Ha|by apply H12].
Qed.

(** In a sorted list the key decides the entry. *)
Lemma sorted_key_unique (es : list entry) e1 e2 :
  sorted_entries es → e1 ∈ es → e2 ∈ es →
  eq_key comp (ekey e1) (ekey e2) = true → e1 = e2.
Proof.
  intros Hs (l1 & l2 & ->)%list_elem_of_split H2 Heq.
  apply sorted_app_inv in Hs as (_ & Hs & H12).
  apply StronglySorted_inv in Hs as [_ Hs]. rewrite Forall_forall in Hs.
  apply eq_key_spec in Heq as [Heq1 Heq2].
  apply elem_of_app in H2 as [H2|[->|H2]%elem_of_cons]; [|done|].
  - specialize (H12 e2 e1 H2 (ltac:(by left))). unfold entry_lt in H12. congruence.
  - specialize (Hs e2 H2). unfold entry_lt in Hs. congruence.
Qed.

End swo.
End order.

(** * [find_node] and the descent of [insert] and [operator[]] *)

Section search.
Context {Key T : Type}.
Variable comp : Key → Key → bool.
Notation hprop := (hprop (Key:=Key) (T:=T)).
Notation Node := (Node (Key:=Key) (T:=T)).
Notation tree := (tree (Key:=Key) (T:=T)).
Notation frame := (frame (Key:=Key) (T:=T)).
Notation entry := (ptr * (Key * T))%type.

(** The turns the descent for [key] takes. *)
Definition frame_bound (key : Key) (f : frame) : Prop :=
  match f with
  | FL _ _ d _ => comp key d.1 = true
  | FR _ _ _ d => comp key d.1 = false ∧ comp d.1 key = true
  end.
Definition seg_bounds (key : Key) (seg : list frame) : Prop :=
  Forall (frame_bound key) seg.

(** What the descent returns on the tree [t]: the node with an
    equivalent key, or the parent of the leaf it falls off at. *)
Definition descend_res (key : Key) (t : tree) (parent : option ptr)
    (r : ptr + option ptr) : Prop :=
  match r with
  | inl c =>
      ∃ seg cc l d r', t = plug seg (Nd cc l c d r') ∧ seg_bounds key seg ∧
                       eq_key comp key d.1 = true
  | inr p =>
      ∃ seg, t = plug seg Leaf ∧ seg_bounds key seg ∧ p = seg_par parent seg
  end.

Lemma seg_par_snoc par (seg : list frame) f :
  seg_par par (seg ++ [f]) = seg_par (Some (frame_ptr f)) seg.
Proof. by destruct seg. Qed.

Lemma descend_res_left key c l p d r parent res :
  comp key d.1 = true →
  descend_res key l (Some p) res → descend_res key (Nd c l p d r) parent res.
Proof.
  intros Hc. destruct res as [x|x]; simpl.
  - intros (seg & cc & l' & d' & r' & -> & Hb & He).
    exists (seg ++ [FL c p d r]), cc, l', d', r'. split_and!; [|apply Forall_app|done].
    + by rewrite plug_app.
    + split; [done|]. by constructor.
  - intros (seg & -> & Hb & ->).
    exists (seg ++ [FL c p d r]). split_and!; [|apply Forall_app|].
    + by rewrite plug_app.
    + split; [done|]. by constructor.
    + by rewrite seg_par_snoc.
Qed.
Lemma descend_res_right key c l p d r parent res :
  comp key d.1 = false → comp d.1 key = true →
  descend_res key r (Some p) res → descend_res key (Nd c l p d r) parent res.
Proof.
  intros Hc Hc'. destruct res as [x|x]; simpl.
  - intros (seg & cc & l' & d' & r' & -> & Hb & He).
    exists (seg ++ [FR c l p d]), cc, l', d', r'. split_and!; [|apply Forall_app|done].
    + by rewrite plug_app.
    + split; [done|]. by constructor.
  - intros (seg & -> & Hb & ->).
    exists (seg ++ [FR c l p d]). split_and!; [|apply Forall_app|].
    + by rewrite plug_app.
    + split; [done|]. by constructor.
    + by rewrite seg_par_snoc.
Qed.

Lemma wp_descend fuel key : ∀ par t parent (Q : ptr + option ptr → hprop),
  height t ≤ fuel →
  is_tree par t -∗
  (∀ r, ⌜descend_res key t parent r⌝ -∗ is_tree par t -∗ Q r) -∗
  wp (descend comp fuel key (root_of t) parent) Q.
Proof.
  induction fuel as [|fuel IH]; intros par t parent Q Hh.
  - destruct t; [|simpl in Hh; lia]. simpl. iIntros "Ht HQ". wp_run.
    iApply ("HQ" with "[] Ht"). iPureIntro. exists []. split_and!; [done|constructor|done].
  - destruct t as [|c l p d r]; simpl.
    + iIntros "Ht HQ". wp_run.
      iApply ("HQ" with "[] Ht"). iPureIntro. exists []. split_and!; [done|constructor|done].
    + iIntros "(Hp & Hl & Hr) HQ". wp_run.
      destruct (comp key d.1) eqn:Hc1; simpl.
      * wp_run. iApply (IH with "Hl"); [simpl in Hh; lia|].
        iIntros (res Hres) "Hl". iApply ("HQ" with "[] [-]"); [|iFrame].
        iPureIntro. by apply descend_res_left.
      * destruct (comp d.1 key) eqn:Hc2; simpl.
        -- wp_run. iApply (IH with "Hr"); [simpl in Hh; lia|].
           iIntros (res Hres) "Hr". iApply ("HQ" with "[] [-]"); [|iFrame].
           iPureIntro. by apply descend_res_right.
        -- wp_run. iApply ("HQ" $! (inl p) with "[] [-]"); [|iFrame].
           iPureIntro. exists [], c, l, d, r. split_and!; [done|constructor|].
           apply eq_key_spec. done.
Qed.

(** [find_node] is the same descent without the parent. *)
Lemma wp_find_node_loop fuel key : ∀ par t (Q : option ptr → hprop),
  height t ≤ fuel →
  is_tree par t -∗
  (∀ r, ⌜match r with
         | Some c => descend_res key t None (inl c)
         | None => ∃ p, descend_res key t None (inr p)
         end⌝ -∗ is_tree par t -∗ Q r) -∗
  wp (find_node_loop comp fuel key (root_of t)) Q.
Proof.
  induction fuel as [|fuel IH]; intros par t Q Hh.
  - destruct t; [|simpl in Hh; lia]. simpl. iIntros "Ht HQ". wp_run.
    iApply ("HQ" $! None with "[] Ht"). iPureIntro. exists None, []. split_and!; [done|constructor|done].
  - destruct t as [|c l p d r]; simpl.
    + iIntros "Ht HQ". wp_run.
      iApply ("HQ" $! None with "[] Ht"). iPureIntro. exists None, []. split_and!; [done|constructor|done].
    + iIntros "(Hp & Hl & Hr) HQ". wp_run.
      destruct (comp key d.1) eqn:Hc1; simpl.
      * wp_run. iApply (IH with "Hl"); [simpl in Hh; lia|].
        iIntros (res Hres) "Hl". iApply ("HQ" with "[] [-]"); [|iFrame].
        iPureIntro. destruct res as [x|].
        -- apply (descend_res_left key c l p d r None (inl x)); [done|].
           destruct Hres as (seg & cc & l' & d' & r' & -> & Hb & He).
           exists seg, cc, l', d', r'. done.
        -- destruct Hres as [q (seg & -> & Hb & _)].
           exists (seg_par (Some p) seg).
           apply (descend_res_left key c _ p d r None (inr _)); [done|].
           by exists seg.
      * destruct (comp d.1 key) eqn:Hc2; simpl.
        -- wp_run. iApply (IH with "Hr"); [simpl in Hh; lia|].
           iIntros (res Hres) "Hr". iApply ("HQ" with "[] [-]"); [|iFrame].
           iPureIntro. destruct res as [x|].
           ++ apply (descend_res_right key c l p d r None (inl x)); [done..|].
              destruct Hres as (seg & cc & l' & d' & r' & -> & Hb & He).
              exists seg, cc, l', d', r'. done.
           ++ destruct Hres as [q (seg & -> & Hb & _)].
              exists (seg_par (Some p) seg).
              apply (descend_res_right key c l p d _ None (inr _)); [done..|].
              by exists seg.
        -- wp_run. iApply ("HQ" $! (Some p) with "[] [-]"); [|iFrame].
           iPureIntro. exists [], c, l, d, r. split_and!; [done|constructor|].
           apply eq_key_spec. done.
Qed.

End search.

(** * Well-formed trees and insertion *)

Section insert.
Context {Key T : Type}.
Variable comp : Key → Key → bool.
Variable T_default : T.
Hypothesis Hswo : StrictWeakOrder comp.
Notation hprop := (hprop (Key:=Key) (T:=T)).
Notation Node := (Node (Key:=Key) (T:=T)).
Notation tree := (tree (Key:=Key) (T:=T)).
Notation frame := (frame (Key:=Key) (T:=T)).
Notation entry := (ptr * (Key * T))%type.

(** A red-black search tree. *)
Definition good (t : tree) : Prop :=
  rcol t = false ∧ nrr t ∧ balanced t ∧ bst comp t.

(** The value of [node_count] for a tree, as a [size_t]. *)
Definition cnt (t : tree) : N := size_t_wrap (N.of_nat (length (entries t))).
Definition own_map (this : addr) (t : tree) : hprop := is_map this (cnt t) t.

Lemma seg_bounds_entries key seg (t : tree) :
  bst comp (plug seg t) → seg_bounds comp key seg →
  (∀ e, e ∈ ctx_before seg → comp (ekey e) key = true) ∧
  (∀ e, e ∈ ctx_after seg → comp key (ekey e) = true).
Proof.
  revert t. induction seg as [|f seg IH]; intros t Hb Hs.
  { split; intros e He; by apply elem_of_nil in He. }
  apply Forall_cons in Hs as [Hf Hs]. simpl in Hb.
  destruct (IH _ Hb Hs) as [IH1 IH2].
  unfold bst in Hb. rewrite entries_plug in Hb.
  apply sorted_app_inv in Hb as (_ & Hb & _).
  apply sorted_app_inv in Hb as (Hb & _ & _).
  destruct f as [c p d r|c l p d]; simpl in *.
  - split; [done|]. intros e [->|[He|He]%elem_of_app]%elem_of_cons; [done| |by apply IH2].
    apply sorted_app_inv in Hb as (_ & Hb & _).
    apply StronglySorted_inv in Hb as [_ Hb]. rewrite Forall_forall in Hb.
    eapply (swo_trans _ Hswo); [exact Hf|]. by apply (Hb e).
  - destruct Hf as [Hf1 Hf2]. split; [|done].
    intros e [He|[He|He]%elem_of_app]%elem_of_app; [by apply IH1| |].
    + apply sorted_app_inv in Hb as (_ & _ & Hb).
      eapply (swo_trans _ Hswo); [|exact Hf2]. apply (Hb e (p, d)); [done|by left].
    + apply list_elem_of_singleton in He as ->. done.
Qed.

Lemma descend_absent key (t : tree) parent p :
  bst comp t → descend_res comp key t parent (inr p) →
  ¬ has_key comp (entries t) key.
Proof.
  intros Hb (seg & -> & Hs & _) (e & He & Heq).
  destruct (seg_bounds_entries key seg _ Hb Hs) as [H1 H2].
  rewrite entries_plug /= in He. apply eq_key_spec in Heq as [Heq1 Heq2].
  apply elem_of_app in He as [He|He].
  - specialize (H1 e He). congruence.
  - specialize (H2 e He). congruence.
Qed.

Lemma descend_found key (t : tree) parent c :
  descend_res comp key t parent (inl c) →
  ∃ d, (c, d) ∈ entries t ∧ eq_key comp key d.1 = true.
Proof.
  intros (seg & cc & l & d & r & -> & _ & Heq). exists d. split; [|done].
  rewrite entries_plug /=. rewrite !elem_of_app elem_of_cons. auto.
Qed.

Lemma has_key_unique key (t : tree) e1 e2 :
  bst comp t → e1 ∈ entries t → e2 ∈ entries t →
  eq_key comp key (ekey e1) = true → eq_key comp key (ekey e2) = true →
  e1 = e2.
Proof.
  intros Hb H1 H2 He1 He2. eapply (sorted_key_unique comp); [exact Hb|done..|].
  eapply (swo_equiv_trans _ Hswo); [|exact He2]. by apply eq_key_sym.
Qed.

Lemma cnt_insert (t t' : tree) :
  length (entries t') = S (length (entries t)) →
  size_t_wrap (cnt t + 1) = cnt t'.
Proof.
  unfold cnt, size_t_wrap. intros ->.
  rewrite Nat2N.inj_succ -N.add_1_r.
  by rewrite N.Div0.add_mod_idemp_l.
Qed.
Lemma cnt_erase (t t' : tree) :
  length (entries t) = S (length (entries t')) →
  size_t_wrap (cnt t + size_t_modulus - 1) = cnt t'.
Proof.
  unfold cnt, size_t_wrap. intros ->.
  rewrite Nat2N.inj_succ -N.add_1_r.
  set (a := N.of_nat (length (entries t'))).
  assert (0 < size_t_modulus)%N as HM by done.
  rewrite -N.add_sub_assoc; [|lia].
  rewrite N.Div0.add_mod_idemp_l.
  replace (a + 1 + (size_t_modulus - 1))%N with (a + 1 * size_t_modulus)%N by lia.
  by rewrite N.Div0.mod_add.
Qed.

Lemma wp_link_insert {A} this n fuel seg key v (k : ptr → M A) (Q : A → hprop) :
  let t := plug seg Leaf in
  good t → height t ≤ fuel → seg_bounds comp key seg →
  is_map this n t -∗
  (∀ z t', ⌜good t' ∧
            entries t' = ctx_before seg ++ (z, (key, v)) :: ctx_after seg⌝ -∗
           is_map this (size_t_wrap (n + 1)) t' -∗ wp (k z) Q) -∗
  wp (link_new comp this (key, v) (ctx_par seg))
     (λ z, wp (insert_fix this fuel z;;; k z) Q).
Proof.
  intros t (Hr & Hn & Hb & Hs) Hh Hbd. subst t. rewrite is_map_plug.
  iIntros "[Hctx _] HQ". unfold link_new. wp_run. rename p into z.
  iAssert (wp (match ctx_par seg with
               | Some p =>
                   let! zd := get_data z in
                   let! pd := get_data p in
                   if comp zd.1 pd.1 then set_left p (Some z) else set_right p (Some z)
               | None => set_root this (Some z)
               end) (λ _, is_ctx this n seg (Some z) ∗
                          z ↦ mkNode (key, v) true None None (ctx_par seg)))%I
    with "[-HQ]" as "Hwp".
  { destruct seg as [|[c p d r|c l p d] seg]; tsimpl; simpl.
    - wp_run. iFrame.
    - iDestruct "Hctx" as "(Hp & Hr & Hctx)".
      apply Forall_cons in Hbd as [Hf _]. simpl in Hf.
      wp_run. rewrite Hf. wp_run. iFrame.
    - iDestruct "Hctx" as "(Hp & Hr & Hctx)".
      apply Forall_cons in Hbd as [[Hf _] _]. simpl in Hf.
      wp_run. rewrite Hf. wp_run. iFrame. }
  iApply (wp_wand with "Hwp"). iIntros ([]) "[Hctx Hz]". wp_run.
  iApply (wp_incr_node_count_ctx with "Hctx"). iIntros "Hctx". wp_run.
  unfold insert_fix. wp_run.
  assert (length seg ≤ fuel) as Hlen.
  { pose proof (height_plug seg Leaf). lia. }
  assert (ins_inv seg (Nd true Leaf z (key, v) Leaf)) as Hinv.
  { unfold ins_inv. rewrite nrr_plug in Hn. rewrite balanced_plug in Hb.
    rewrite rcol_plug in Hr. simpl in *. tauto. }
  iApply (wp_insert_fix_loop this _ fuel seg Leaf z (key, v) Leaf _ Hlen Hinv
            with "Hctx [Hz]").
  { tsimpl. iFrame. by iSplit. }
  iIntros (t' (Hn' & Hb' & He')) "Hm". wp_run.
  iApply (wp_blacken_root with "Hm"). iIntros "Hm".
  iApply ("HQ" with "[] Hm"). iPureIntro.
  rewrite entries_plug /= in He'.
  split; [|by rewrite entries_blacken].
  split_and!; [apply rcol_blacken|by apply nrr_blacken, nrr_nrr_below
              |by apply balanced_blacken|].
  unfold bst. rewrite entries_blacken He'.
  unfold bst in Hs. rewrite entries_plug /= in Hs.
  destruct (seg_bounds_entries key seg Leaf) as [H1 H2]; [|done|].
  { unfold bst. by rewrite entries_plug. }
  apply sorted_insert; done.
Qed.

(** What a lookup of [key] answers on the tree [t]. *)
Definition find_res (key : Key) (t : tree) (r : option ptr) : Prop :=
  match r with
  | Some c => ∃ d, (c, d) ∈ entries t ∧ eq_key comp key d.1 = true
  | None => ¬ has_key comp (entries t) key
  end.

Lemma wp_find_node this n fuel key (t : tree) (Q : option ptr → hprop) :
  bst comp t → height t ≤ fuel →
  is_map this n t -∗
  (∀ r, ⌜find_res key t r⌝ -∗ is_map this n t -∗ Q r) -∗
  wp (find_node comp this fuel key) Q.
Proof.
  intros Hs Hh. iIntros "[Hm Ht] HQ". unfold find_node. wp_run.
  iApply (wp_find_node_loop with "Ht"); [done|].
  iIntros (r Hr) "Ht". iApply ("HQ" with "[] [$Hm $Ht]"). iPureIntro.
  destruct r as [c|]; simpl.
  - by eapply descend_found.
  - destruct Hr as [p Hr]. by eapply descend_absent.
Qed.

(** What [insert] answers and the tree it leaves. *)
Definition insert_res (this : addr) (k : Key) (v : T) (t : tree)
    (r : iterator * bool) (t' : tree) : Prop :=
  (∃ c d, r = (Iter (Some this) (Some c), false) ∧
          (c, d) ∈ entries t ∧ eq_key comp k d.1 = true ∧ t' = t) ∨
  (∃ z l1 l2, r = (Iter (Some this) (Some z), true) ∧
              ¬ has_key comp (entries t) k ∧
              entries t = l1 ++ l2 ∧ entries t' = l1 ++ (z, (k, v)) :: l2 ∧
              good t').

Lemma wp_map_insert this fuel k v (t : tree) (Q : iterator * bool → hprop) :
  good t → height t ≤ fuel →
  own_map this t -∗
  (∀ r t', ⌜insert_res this k v t r t'⌝ -∗ own_map this t' -∗ Q r) -∗
  wp (map_insert comp this fuel (k, v)) Q.
Proof.
  intros Hg Hh. iIntros "[Hm Ht] HQ". unfold map_insert. wp_run.
  iApply (wp_descend with "Ht"); [done|].
  iIntros ([c|parent] Hr) "Ht"; wp_run.
  - iApply ("HQ" $! _ t with "[] [$Hm $Ht]"). iPureIntro. left.
    destruct (descend_found _ _ _ _ Hr) as (d & Hin & Heq). by exists c, d.
  - pose proof Hr as (seg & Heqt & Hbd & ->).
    assert (seg_par None seg = ctx_par seg) as -> by done.
    iAssert (is_map this (cnt t) t) with "[$Hm $Ht]" as "Hm".
    rewrite {3}Heqt.
    iApply (wp_link_insert with "Hm"); [by rewrite -Heqt..|done|].
    iIntros (z t' [Hg' He']) "Hm". wp_run.
    iApply ("HQ" $! _ t' with "[] [Hm]").
    + iPureIntro. right. exists z, (ctx_before seg), (ctx_after seg).
      split_and!; [done| |by rewrite Heqt entries_plug|done..].
      destruct Hg as (_ & _ & _ & Hb). by eapply descend_absent.
    + unfold own_map. rewrite (cnt_insert t t'); [done|].
      rewrite He' Heqt entries_plug /= !length_app /=. lia.
Qed.

(** What [operator[]] answers and the tree it leaves. *)
Definition index_res (k : Key) (t : tree) (r : ptr) (t' : tree) : Prop :=
  (∃ d, (r, d) ∈ entries t ∧ eq_key comp k d.1 = true ∧ t' = t) ∨
  (∃ l1 l2, ¬ has_key comp (entries t) k ∧
            entries t = l1 ++ l2 ∧ entries t' = l1 ++ (r, (k, T_default)) :: l2 ∧
            good t').

Lemma wp_map_index this fuel k (t : tree) (Q : ptr → hprop) :
  good t → height t ≤ fuel →
  own_map this t -∗
  (∀ r t', ⌜index_res k t r t'⌝ -∗ own_map this t' -∗ Q r) -∗
  wp (map_index comp T_default this fuel k) Q.
Proof.
  intros Hg Hh. iIntros "[Hm Ht] HQ". unfold map_index. wp_run.
  iApply (wp_descend with "Ht"); [done|].
  iIntros ([c|parent] Hr) "Ht"; wp_run.
  - iApply ("HQ" $! _ t with "[] [$Hm $Ht]"). iPureIntro. left.
    destruct (descend_found _ _ _ _ Hr) as (d & Hin & Heq). by exists d.
  - pose proof Hr as (seg & Heqt & Hbd & ->).
    assert (seg_par None seg = ctx_par seg) as -> by done.
    iAssert (is_map this (cnt t) t) with "[$Hm $Ht]" as "Hm".
    rewrite {3}Heqt.
    iApply (wp_link_insert with "Hm"); [by rewrite -Heqt..|done|].
    iIntros (z t' [Hg' He']) "Hm". wp_run.
    iApply ("HQ" $! _ t' with "[] [Hm]").
    + iPureIntro. right. exists (ctx_before seg), (ctx_after seg).
      split_and!; [|by rewrite Heqt entries_plug|done..].
      destruct Hg as (_ & _ & _ & Hb). by eapply descend_absent.
    + unfold own_map. rewrite (cnt_insert t t'); [done|].
      rewrite He' Heqt entries_plug /= !length_app /=. lia.
Qed.

End insert.


(** * Cursors: successor, predecessor and the traversal *)

Section cursor.
Context {Key T : Type}.
Notation hprop := (hprop (Key:=Key) (T:=T)).
Notation Node := (Node (Key:=Key) (T:=T)).
Notation tree := (tree (Key:=Key) (T:=T)).
Notation frame := (frame (Key:=Key) (T:=T)).
Notation entry := (ptr * (Key * T))%type.

Lemma ptrs_Nd c (l : tree) p d r : ptrs (Nd c l p d r) = ptrs l ++ p :: ptrs r.
Proof. unfold ptrs. simpl. by rewrite fmap_app. Qed.

Lemma entries_plug_Nd ctx c (l : tree) z d r :
  entries (plug ctx (Nd c l z d r)) =
  (ctx_before ctx ++ entries l) ++ (z, d) :: (entries r ++ ctx_after ctx).
Proof. rewrite entries_plug /= -!app_assoc /=. done. Qed.

(** Every entry of a tree sits at a node below some path. *)
Lemma entries_in_plug (t : tree) z d :
  (z, d) ∈ entries t → ∃ ctx c l r, t = plug ctx (Nd c l z d r).
Proof.
  induction t as [|c l IHl p dp r IHr]; simpl; [by intros ?%elem_of_nil|].
  intros [Hin|[Heq|Hin]%elem_of_cons]%elem_of_app.
  - destruct (IHl Hin) as (ctx & c' & l' & r' & ->).
    exists (ctx ++ [FL c p dp r]), c', l', r'. by rewrite plug_app.
  - injection Heq as -> ->. by exists [], c, l, r.
  - destruct (IHr Hin) as (ctx & c' & l' & r' & ->).
    exists (ctx ++ [FR c l p dp]), c', l', r'. by rewrite plug_app.
Qed.

Lemma ptr_in_plug (t : tree) z :
  z ∈ ptrs t → ∃ ctx c l d r, t = plug ctx (Nd c l z d r).
Proof.
  intros ([z' d] & -> & Hin)%list_elem_of_fmap. simpl.
  destruct (entries_in_plug _ _ _ Hin) as (ctx & c & l & r & ->).
  by exists ctx, c, l, d, r.
Qed.

(** A node of the tree is a node of the heap. *)
Lemma is_tree_acc par (t : tree) q :
  q ∈ ptrs t → is_tree par t ⊢ ∃ nd : Node, q ↦ nd.
Proof.
  revert par. induction t as [|c l IHl p dp r IHr]; intros par.
  { by intros ?%elem_of_nil. }
  rewrite ptrs_Nd. intros [Hin|[->|Hin]%elem_of_cons]%elem_of_app; tsimpl;
    iIntros "(Hp & Hl & Hr)".
  - by iApply (IHl with "Hl").
  - by iExists _.
  - by iApply (IHr with "Hr").
Qed.

(** No node occurs twice in a tree. *)
Lemma is_tree_NoDup par (t : tree) : is_tree par t ⊢ ⌜NoDup (ptrs t)⌝.
Proof.
  revert par. induction t as [|c l IHl p dp r IHr]; intros par.
  { iIntros "_ !%". constructor. }
  rewrite ptrs_Nd. tsimpl. iIntros "(Hp & Hl & Hr)".
  iDestruct (IHl with "Hl") as %Hl. iDestruct (IHr with "Hr") as %Hr.
  iAssert ⌜p ∈ ptrs l → False⌝%I as %Hpl.
  { iIntros (Hin). iDestruct (is_tree_acc _ _ _ Hin with "Hl") as (nd) "Hq".
    iApply (pointsto_excl with "Hp Hq"). }
  iAssert ⌜p ∈ ptrs r → False⌝%I as %Hpr.
  { iIntros (Hin). iDestruct (is_tree_acc _ _ _ Hin with "Hr") as (nd) "Hq".
    iApply (pointsto_excl with "Hp Hq"). }
  iAssert ⌜∀ q, q ∈ ptrs l → q ∈ ptrs r → False⌝%I as %Hlr.
  { iIntros (q Hin Hin').
    iDestruct (is_tree_acc _ _ _ Hin with "Hl") as (nd) "Hq".
    iDestruct (is_tree_acc _ _ _ Hin' with "Hr") as (nd') "Hq'".
    iApply (pointsto_excl with "Hq Hq'"). }
  iPureIntro. apply NoDup_app. split_and!; [done| |by constructor].
  intros q Hq [->|Hq']%elem_of_cons; [done|]. by eapply Hlr.
Qed.

Lemma is_map_NoDup this n (t : tree) : is_map this n t ⊢ ⌜NoDup (ptrs t)⌝.
Proof. iIntros "[_ Ht]". by iApply is_tree_NoDup. Qed.

(** Where a node sits in the sequence of entries is determined by it. *)
Lemma split_unique (l1 l2 l1' l2' : list entry) z d d' :
  NoDup (l1 ++ (z, d) :: l2).*1 →
  l1 ++ (z, d) :: l2 = l1' ++ (z, d') :: l2' →
  l1 = l1' ∧ d = d' ∧ l2 = l2'.
Proof.
  revert l1'. induction l1 as [|[a da] l1 IH]; intros [|[b db] l1'] Hnd Heq;
    simpl in *.
  - by injection Heq as -> ->.
  - injection Heq as -> -> ->. apply NoDup_cons in Hnd as [Hnd _].
    exfalso. apply Hnd. apply list_elem_of_fmap. exists (b, d'). split; [done|].
    apply elem_of_app. right. by left.
  - injection Heq as -> -> <-. apply NoDup_cons in Hnd as [Hnd _].
    exfalso. apply Hnd. apply list_elem_of_fmap. eexists (_, d). split; [done|].
    apply elem_of_app. right. by left.
  - injection Heq as -> -> Heq. apply NoDup_cons in Hnd as [_ Hnd].
    destruct (IH _ Hnd Heq) as (-> & -> & ->). done.
Qed.

Section loops.
Variable this : addr.
Variable n : N.

Lemma next_node_loop_eq fuel x p :
  next_node_loop (Key:=Key) (T:=T) fuel x p =
  match p return M (Key:=Key) (T:=T) (option ptr) with
  | None => ret None
  | Some p' =>
      let! pr := get_right p' in
      if decide (Some x = pr) then
        match fuel with
        | O => out_of_fuel
        | S fuel' => let! pp := get_parent p' in next_node_loop fuel' p' pp
        end
      else ret p
  end.
Proof. by destruct fuel. Qed.
Lemma prev_node_loop_eq fuel x p :
  prev_node_loop (Key:=Key) (T:=T) fuel x p =
  match p return M (Key:=Key) (T:=T) (option ptr) with
  | None => ret None
  | Some p' =>
      let! pl := get_left p' in
      if decide (Some x = pl) then
        match fuel with
        | O => out_of_fuel
        | S fuel' => let! pp := get_parent p' in prev_node_loop fuel' p' pp
        end
      else ret p
  end.
Proof. by destruct fuel. Qed.

(** Climbing from [x]: the first ancestor reached from its left subtree. *)
Lemma wp_next_node_loop fuel : ∀ ctx x (nd : Node) (Q : option ptr → hprop),
  length ctx ≤ fuel →
  is_ctx this n ctx (Some x) -∗ x ↦ nd -∗
  (is_ctx this n ctx (Some x) -∗ x ↦ nd -∗ Q (head (ctx_after ctx).*1)) -∗
  wp (next_node_loop fuel x (ctx_par ctx)) Q.
Proof.
  induction fuel as [|fuel IH]; intros ctx x nd Q Hlen;
    iIntros "Hctx Hx HQ"; rewrite next_node_loop_eq;
    destruct ctx as [|[c p d r|c l p d] ctx]; tsimpl; simpl in *; try lia.
  - wp_run. iApply ("HQ" with "Hctx Hx").
  - wp_run. iApply ("HQ" with "Hctx Hx").
  - iDestruct "Hctx" as "(Hp & Hr & Hctx)". wp_run.
    destruct (decide (Some x = root_of r)) as [Heq|Hne].
    { destruct r as [|cr lr pr dr rr]; [done|]. simpl in Heq. injection Heq as <-.
      tsimpl. iDestruct "Hr" as "(Hx' & _)".
      iDestruct (pointsto_excl with "Hx Hx'") as %[]. }
    wp_run. iApply ("HQ" with "[$Hp $Hr $Hctx] Hx").
  - iDestruct "Hctx" as "(Hp & Hl & Hctx)". wp_run.
    iApply (IH with "Hctx Hp"); [lia|]. iIntros "Hctx Hp".
    iApply ("HQ" with "[$Hp $Hl $Hctx] Hx").
Qed.

Lemma wp_prev_node_loop fuel : ∀ ctx x (nd : Node) (Q : option ptr → hprop),
  length ctx ≤ fuel →
  is_ctx this n ctx (Some x) -∗ x ↦ nd -∗
  (is_ctx this n ctx (Some x) -∗ x ↦ nd -∗ Q (last (ctx_before ctx).*1)) -∗
  wp (prev_node_loop fuel x (ctx_par ctx)) Q.
Proof.
  induction fuel as [|fuel IH]; intros ctx x nd Q Hlen;
    iIntros "Hctx Hx HQ"; rewrite prev_node_loop_eq;
    destruct ctx as [|[c p d r|c l p d] ctx]; tsimpl; simpl in *; try lia.
  - wp_run. iApply ("HQ" with "Hctx Hx").
  - wp_run. iApply ("HQ" with "Hctx Hx").
  - iDestruct "Hctx" as "(Hp & Hr & Hctx)". wp_run.
    iApply (IH with "Hctx Hp"); [lia|]. iIntros "Hctx Hp".
    iApply ("HQ" with "[$Hp $Hr $Hctx] Hx").
  - iDestruct "Hctx" as "(Hp & Hl & Hctx)". wp_run.
    destruct (decide (Some x = root_of l)) as [Heq|Hne].
    { destruct l as [|cl ll pl dl rl]; [done|]. simpl in Heq. injection Heq as <-.
      tsimpl. iDestruct "Hl" as "(Hx' & _)".
      iDestruct (pointsto_excl with "Hx Hx'") as %[]. }
    wp_run. rewrite !fmap_app /= !last_app /=.
    iApply ("HQ" with "[$Hp $Hl $Hctx] Hx").
Qed.

(** The first and the last entry of a tree. *)
Lemma wp_min_node fuel (t : tree) (Q : option ptr → hprop) :
  height t ≤ fuel →
  is_tree None t -∗ (is_tree None t -∗ Q (head (ptrs t))) -∗
  wp (min_node fuel (root_of t)) Q.
Proof.
  intros Hh. iIntros "Ht HQ". destruct t as [|c l p d r]; simpl.
  { wp_run. by iApply "HQ". }
  wp_run. iApply (wp_min_node_loop with "Ht"); [simpl in Hh; lia|].
  iIntros (seg cy y dy X [Heq Hfl]) "Ht". wp_run.
  iSpecialize ("HQ" with "Ht"). rewrite /ptrs Heq entries_plug.
  rewrite (ctx_before_FL _ Hfl) /=. done.
Qed.
Lemma wp_max_node fuel (t : tree) (Q : option ptr → hprop) :
  height t ≤ fuel →
  is_tree None t -∗ (is_tree None t -∗ Q (last (ptrs t))) -∗
  wp (max_node fuel (root_of t)) Q.
Proof.
  intros Hh. iIntros "Ht HQ". destruct t as [|c l p d r]; simpl.
  { wp_run. by iApply "HQ". }
  wp_run. iApply (wp_max_node_loop with "Ht"); [simpl in Hh; lia|].
  iIntros (seg cy y dy X [Heq Hfl]) "Ht". wp_run.
  iSpecialize ("HQ" with "Ht"). rewrite /ptrs Heq entries_plug.
  rewrite (ctx_after_FR _ Hfl) /= app_nil_r.
  rewrite !fmap_app /= !last_app /=. done.
Qed.

(** [next_node] at a node of the tree. *)
Lemma wp_next_node_at fuel ctx c l z d r (Q : option ptr → hprop) :
  height (plug ctx (Nd c l z d r)) ≤ fuel →
  is_map this n (plug ctx (Nd c l z d r)) -∗
  (is_map this n (plug ctx (Nd c l z d r)) -∗
   Q (head (entries r ++ ctx_after ctx).*1)) -∗
  wp (next_node fuel (Some z)) Q.
Proof.
  intros Hh. pose proof (height_plug ctx (Nd c l z d r)) as Hp. simpl in Hp.
  rewrite is_map_plug. tsimpl. iIntros "(Hctx & Hz & Hl & Hr) HQ".
  unfold next_node. wp_run. destruct r as [|cr lr pr dr rr]; simpl.
  - wp_run. iApply (wp_next_node_loop with "Hctx Hz"); [lia|].
    iIntros "Hctx Hz". iApply "HQ". iFrame.
  - unfold min_node. wp_run.
    iApply (wp_min_node_loop with "Hr"); [simpl in Hp; lia|].
    iIntros (seg cy y dy X [Heq Hfl]) "Hr". wp_run.
    iSpecialize ("HQ" with "[$Hctx $Hz $Hl $Hr]").
    assert (entries (Nd cr lr pr dr rr) = (y, dy) :: entries X ++ ctx_after seg) as Hent.
    { rewrite Heq entries_plug (ctx_before_FL _ Hfl) /=. done. }
    simpl in Hent. rewrite Hent /=. done.
Qed.
Lemma wp_prev_node_at fuel ctx c l z d r (Q : option ptr → hprop) :
  height (plug ctx (Nd c l z d r)) ≤ fuel →
  is_map this n (plug ctx (Nd c l z d r)) -∗
  (is_map this n (plug ctx (Nd c l z d r)) -∗
   Q (last (ctx_before ctx ++ entries l).*1)) -∗
  wp (prev_node fuel (Some z)) Q.
Proof.
  intros Hh. pose proof (height_plug ctx (Nd c l z d r)) as Hp. simpl in Hp.
  rewrite is_map_plug. tsimpl. iIntros "(Hctx & Hz & Hl & Hr) HQ".
  unfold prev_node. wp_run. destruct l as [|cl ll pl dl rl]; simpl.
  - wp_run. iApply (wp_prev_node_loop with "Hctx Hz"); [lia|].
    iIntros "Hctx Hz". rewrite app_nil_r. iApply "HQ". iFrame.
  - unfold max_node. wp_run.
    iApply (wp_max_node_loop with "Hl"); [simpl in Hp; lia|].
    iIntros (seg cy y dy X [Heq Hfl]) "Hl". wp_run.
    iSpecialize ("HQ" with "[$Hctx $Hz $Hl $Hr]").
    assert (entries (Nd cl ll pl dl rl) = (ctx_before seg ++ entries X) ++ [(y, dy)]) as Hent.
    { rewrite Heq entries_plug (ctx_after_FR _ Hfl) /= app_nil_r -app_assoc. done. }
    simpl in Hent. rewrite Hent /= app_assoc fmap_app last_app /=. done.
Qed.

(** The successor and the predecessor of a node in the sequence of
    entries. *)
Lemma wp_next_node fuel (t : tree) z (Q : option ptr → hprop) :
  height t ≤ fuel → z ∈ ptrs t →
  is_map this n t -∗
  (∀ r, ⌜∀ l1 d l2, entries t = l1 ++ (z, d) :: l2 → r = head l2.*1⌝ -∗
        is_map this n t -∗ Q r) -∗
  wp (next_node fuel (Some z)) Q.
Proof.
  intros Hh (ctx & c & l & d & r & ->)%ptr_in_plug. iIntros "Hm HQ".
  iDestruct (is_map_NoDup with "Hm") as %Hnd.
  iApply (wp_next_node_at with "Hm"); [done|]. iIntros "Hm".
  iApply ("HQ" with "[] Hm"). iPureIntro. intros l1 d' l2 Heq.
  rewrite entries_plug_Nd in Heq. rewrite /ptrs entries_plug_Nd in Hnd.
  destruct (split_unique _ _ _ _ _ _ _ Hnd Heq) as (_ & _ & <-). done.
Qed.
Lemma wp_prev_node fuel (t : tree) z (Q : option ptr → hprop) :
  height t ≤ fuel → z ∈ ptrs t →
  is_map this n t -∗
  (∀ r, ⌜∀ l1 d l2, entries t = l1 ++ (z, d) :: l2 → r = last l1.*1⌝ -∗
        is_map this n t -∗ Q r) -∗
  wp (prev_node fuel (Some z)) Q.
Proof.
  intros Hh (ctx & c & l & d & r & ->)%ptr_in_plug. iIntros "Hm HQ".
  iDestruct (is_map_NoDup with "Hm") as %Hnd.
  iApply (wp_prev_node_at with "Hm"); [done|]. iIntros "Hm".
  iApply ("HQ" with "[] Hm"). iPureIntro. intros l1 d' l2 Heq.
  rewrite entries_plug_Nd in Heq. rewrite /ptrs entries_plug_Nd in Hnd.
  destruct (split_unique _ _ _ _ _ _ _ Hnd Heq) as (<- & _ & _). done.
Qed.

Lemma entries_fst_unique (es : list entry) z d d' :
  NoDup es.*1 → (z, d) ∈ es → (z, d') ∈ es → d = d'.
Proof.
  intros Hnd (l1 & l2 & ->)%list_elem_of_split Hin.
  apply list_elem_of_split in Hin as (l1' & l2' & Heq).
  by destruct (split_unique _ _ _ _ _ _ _ Hnd Heq) as (_ & -> & _).
Qed.

(** Reading through a reference to an entry of the tree. *)
Lemma wp_ref_data (t : tree) z d (Q : Key * T → hprop) :
  (z, d) ∈ entries t →
  is_map this n t -∗ (is_map this n t -∗ Q d) -∗ wp (ref_data z) Q.
Proof.
  intros (ctx & c & l & r & ->)%entries_in_plug. rewrite is_map_plug. tsimpl.
  iIntros "(Hctx & Hz & Hl & Hr) HQ". unfold ref_data. wp_run.
  iApply "HQ". iFrame.
Qed.

(** [operator*] and [operator->] at an entry of the tree. *)
Lemma wp_iter_deref (t : tree) o z (Q : ptr → hprop) :
  z ∈ ptrs t →
  is_map this n t -∗ (is_map this n t -∗ Q z) -∗
  wp (iter_deref (Iter o (Some z))) Q.
Proof.
  intros (ctx & c & l & d & r & ->)%ptr_in_plug. rewrite is_map_plug. tsimpl.
  iIntros "(Hctx & Hz & Hl & Hr) HQ". unfold iter_deref. simpl. wp_run.
  iApply "HQ". iFrame.
Qed.
Lemma wp_iter_arrow (t : tree) o z (Q : ptr → hprop) :
  z ∈ ptrs t →
  is_map this n t -∗ (is_map this n t -∗ Q z) -∗
  wp (iter_arrow (Iter o (Some z))) Q.
Proof.
  intros (ctx & c & l & d & r & ->)%ptr_in_plug. rewrite is_map_plug. tsimpl.
  iIntros "(Hctx & Hz & Hl & Hr) HQ". unfold iter_arrow. simpl. wp_run.
  iApply "HQ". iFrame.
Qed.

Local Arguments next_node : simpl never.
Local Arguments prev_node : simpl never.

(** [++it] at an entry of the tree. *)
Lemma wp_iter_incr fuel (t : tree) o z (Q : iterator → hprop) :
  height t ≤ fuel → z ∈ ptrs t →
  is_map this n t -∗
  (∀ r, ⌜∀ l1 d l2, entries t = l1 ++ (z, d) :: l2 → r = head l2.*1⌝ -∗
        is_map this n t -∗ Q (Iter (Some o) r)) -∗
  wp (iter_incr fuel (Iter (Some o) (Some z))) Q.
Proof.
  intros Hh Hz. iIntros "Hm HQ". unfold iter_incr. simpl. wp_run.
  iApply (wp_next_node with "Hm"); [done..|].
  iIntros (r Hr) "Hm". wp_run. by iApply ("HQ" with "[] Hm").
Qed.

(** [--it] at the end of a tree that is not empty, and at an entry that
    is not the first. *)
Lemma wp_iter_decr_end fuel (t : tree) (Q : iterator → hprop) :
  height t ≤ fuel → t ≠ Leaf →
  is_map this n t -∗
  (is_map this n t -∗ Q (Iter (Some this) (last (ptrs t)))) -∗
  wp (iter_decr fuel (Iter (Some this) None)) Q.
Proof.
  intros Hh Hne. iIntros "[Hm Ht] HQ". unfold iter_decr. simpl. wp_run.
  destruct (root_of t) as [rt|] eqn:Hrt; [|by destruct t].
  iApply wp_bind. rewrite -Hrt.
  iApply (wp_max_node with "Ht"); [done|]. iIntros "Ht". wp_run.
  iApply "HQ". unfold is_map. rewrite Hrt. iFrame.
Qed.

Lemma iterate_eq fuel (it : iterator) :
  iterate (Key:=Key) (T:=T) this fuel it =
  if iter_neq it (map_end this) then
    match fuel with
    | O => out_of_fuel
    | S fuel' =>
        let! r := iter_deref it in
        let! d := ref_data r in
        let! it' := iter_incr fuel it in
        let! rest := iterate this fuel' it' in
        ret ((r, d) :: rest)
    end
  else ret [].
Proof. by destruct fuel. Qed.

(** The loop from a cursor to [end()] visits the remaining entries in
    their order. *)
Lemma wp_iterate (t : tree) : ∀ l2 fuel l1 (Q : list entry → hprop),
  entries t = l1 ++ l2 → length l2 + height t ≤ fuel →
  is_map this n t -∗ (is_map this n t -∗ Q l2) -∗
  wp (iterate this fuel (Iter (Some this) (head l2.*1))) Q.
Proof.
  induction l2 as [|[z d] l2 IH]; intros fuel l1 Q Heq Hf; iIntros "Hm HQ";
    rewrite iterate_eq; simpl.
  { unfold iter_neq, iter_eq, map_end. simpl. rewrite !bool_decide_eq_true_2 //=.
    wp_run. by iApply "HQ". }
  unfold iter_neq, iter_eq, map_end. simpl.
  rewrite andb_false_r /=.
  destruct fuel as [|fuel]; [simpl in Hf; lia|].
  iDestruct (is_map_NoDup with "Hm") as %Hnd.
  assert ((z, d) ∈ entries t) as Hin.
  { rewrite Heq. apply elem_of_app. right. by left. }
  assert (z ∈ ptrs t) as Hz.
  { apply list_elem_of_fmap. by exists (z, d). }
  wp_run. iApply (wp_iter_deref with "Hm"); [done|]. iIntros "Hm". wp_run.
  iApply (wp_ref_data with "Hm"); [done|]. iIntros "Hm". wp_run.
  iApply (wp_iter_incr with "Hm"); [simpl in Hf; lia|done|].
  iIntros (r Hr) "Hm". rewrite (Hr _ _ _ Heq). wp_run.
  iApply (IH fuel (l1 ++ [(z, d)]) with "Hm").
  { by rewrite -app_assoc. }
  { simpl in Hf. lia. }
  iIntros "Hm". wp_run. by iApply "HQ".
Qed.

Lemma wp_map_begin fuel (t : tree) (Q : iterator → hprop) :
  height t ≤ fuel →
  is_map this n t -∗
  (is_map this n t -∗ Q (Iter (Some this) (head (ptrs t)))) -∗
  wp (map_begin this fuel) Q.
Proof.
  intros Hh. iIntros "[Hm Ht] HQ". unfold map_begin. wp_run.
  iApply (wp_min_node with "Ht"); [done|]. iIntros "Ht". wp_run.
  iApply "HQ". iFrame.
Qed.

(** The traversal from [begin()] to [end()] visits the entries of the
    tree from left to right. *)
Lemma wp_traverse fuel (t : tree) (Q : list entry → hprop) :
  length (entries t) + height t ≤ fuel →
  is_map this n t -∗ (is_map this n t -∗ Q (entries t)) -∗
  wp (traverse this fuel) Q.
Proof.
  intros Hh. iIntros "Hm HQ". unfold traverse. wp_run.
  iApply (wp_map_begin with "Hm"); [lia|]. iIntros "Hm".
  iApply (wp_iterate t (entries t) fuel [] with "Hm"); [done..|].
  done.
Qed.

Lemma wp_map_size (t : tree) (Q : N → hprop) :
  is_map this n t -∗ (is_map this n t -∗ Q n) -∗ wp (map_size this) Q.
Proof.
  iIntros "[Hm Ht] HQ". unfold map_size, get_node_count. wp_run.
  iApply "HQ". iFrame.
Qed.
Lemma wp_map_empty (t : tree) (Q : bool → hprop) :
  is_map this n t -∗ (is_map this n t -∗ Q (bool_decide (n = 0%N))) -∗
  wp (map_empty this) Q.
Proof.
  iIntros "[Hm Ht] HQ". unfold map_empty, get_node_count. wp_run.
  iApply "HQ". iFrame.
Qed.

End loops.
End cursor.

(** * Operations that only read *)

Section readonly.
Context {Key T : Type}.
Notation M := (M (Key:=Key) (T:=T)).

(** The computation [m] leaves the world as it found it, whether it
    returns or throws. *)
Definition readonly {A} (m : M A) : Prop :=
  ∀ w, match m w with
       | Ok _ w' | Throw _ w' => w' = w
       | Fault | OutOfFuel => True
       end.

Lemma readonly_ret {A} (a : A) : readonly (ret a).
Proof. by intros w. Qed.
Lemma readonly_throw {A} e : readonly (throw (A:=A) e).
Proof. by intros w. Qed.
Lemma readonly_fault {A} : readonly (fault (A:=A)).
Proof. by intros w. Qed.
Lemma readonly_out_of_fuel {A} : readonly (out_of_fuel (A:=A)).
Proof. by intros w. Qed.
Lemma readonly_bind {A B} (m : M A) (k : A → M B) :
  readonly m → (∀ a, readonly (k a)) → readonly (bind m k).
Proof.
  intros Hm Hk w. unfold bind. specialize (Hm w).
  destruct (m w) as [a w'| | |]; try done. subst w'. apply Hk.
Qed.
Lemma readonly_load p : readonly (load p).
Proof. intros w. unfold load. by destruct (nodes w !! p). Qed.
Lemma readonly_load_map a : readonly (load_map a).
Proof. intros w. unfold load_map. by destruct (objs w !! a). Qed.

End readonly.

Ltac ro_step :=
  first
    [ apply readonly_ret | apply readonly_throw | apply readonly_fault
    | apply readonly_out_of_fuel | apply readonly_load | apply readonly_load_map
    | apply readonly_bind; [|intros ?]
    | match goal with
      | |- readonly (match ?x with _ => _ end) => destruct x
      | |- readonly (if ?b then _ else _) => destruct b
      end ].
Ltac ro := repeat ro_step.

Section readonly_ops.
Context {Key T : Type}.
Variable comp : Key → Key → bool.
Notation M := (M (Key:=Key) (T:=T)).

Lemma readonly_get_data p : readonly (get_data (Key:=Key) (T:=T) p).
Proof. unfold get_data. ro. Qed.
Lemma readonly_get_left p : readonly (get_left (Key:=Key) (T:=T) p).
Proof. unfold get_left. ro. Qed.
Lemma readonly_get_right p : readonly (get_right (Key:=Key) (T:=T) p).
Proof. unfold get_right. ro. Qed.
Lemma readonly_get_parent p : readonly (get_parent (Key:=Key) (T:=T) p).
Proof. unfold get_parent. ro. Qed.
Lemma readonly_get_root a : readonly (get_root (Key:=Key) (T:=T) a).
Proof. unfold get_root. ro. Qed.
Lemma readonly_get_node_count a : readonly (get_node_count (Key:=Key) (T:=T) a).
Proof. unfold get_node_count. ro. Qed.

Local Hint Resolve readonly_get_data readonly_get_left readonly_get_right
  readonly_get_parent readonly_get_root readonly_get_node_count : core.

Ltac ro' := repeat first [done | ro_step].

Lemma readonly_min_node_loop fuel : ∀ x, readonly (min_node_loop (Key:=Key) (T:=T) fuel x).
Proof. induction fuel; intros x; simpl; ro'. Qed.
Lemma readonly_max_node_loop fuel : ∀ x, readonly (max_node_loop (Key:=Key) (T:=T) fuel x).
Proof. induction fuel; intros x; simpl; ro'. Qed.
Lemma readonly_min_node fuel x : readonly (min_node (Key:=Key) (T:=T) fuel x).
Proof. unfold min_node. pose proof readonly_min_node_loop. ro'. Qed.
Lemma readonly_max_node fuel x : readonly (max_node (Key:=Key) (T:=T) fuel x).
Proof. unfold max_node. pose proof readonly_max_node_loop. ro'. Qed.
Lemma readonly_find_node_loop fuel key : ∀ cur,
  readonly (find_node_loop (T:=T) comp fuel key cur).
Proof. induction fuel; intros cur; simpl; ro'. Qed.
Lemma readonly_find_node this fuel key : readonly (find_node (T:=T) comp this fuel key).
Proof. unfold find_node. pose proof readonly_find_node_loop. ro'. Qed.
Lemma readonly_next_node_loop fuel : ∀ x p,
  readonly (next_node_loop (Key:=Key) (T:=T) fuel x p).
Proof. induction fuel; intros x p; simpl; ro'. Qed.
Lemma readonly_prev_node_loop fuel : ∀ x p,
  readonly (prev_node_loop (Key:=Key) (T:=T) fuel x p).
Proof. induction fuel; intros x p; simpl; ro'. Qed.

Local Hint Resolve readonly_min_node readonly_max_node readonly_find_node
  readonly_next_node_loop readonly_prev_node_loop : core.

Lemma readonly_next_node fuel x : readonly (next_node (Key:=Key) (T:=T) fuel x).
Proof. unfold next_node. ro'. Qed.
Lemma readonly_prev_node fuel x : readonly (prev_node (Key:=Key) (T:=T) fuel x).
Proof. unfold prev_node. ro'. Qed.
Local Hint Resolve readonly_next_node readonly_prev_node : core.

Lemma readonly_iter_incr fuel it : readonly (iter_incr (Key:=Key) (T:=T) fuel it).
Proof. unfold iter_incr. ro'. Qed.
Lemma readonly_iter_decr fuel it : readonly (iter_decr (Key:=Key) (T:=T) fuel it).
Proof. unfold iter_decr. ro'. Qed.
Lemma readonly_iter_deref it : readonly (iter_deref (Key:=Key) (T:=T) it).
Proof. unfold iter_deref. ro'. Qed.
Lemma readonly_iter_arrow it : readonly (iter_arrow (Key:=Key) (T:=T) it).
Proof. unfold iter_arrow. ro'. Qed.
Lemma readonly_ref_data r : readonly (ref_data (Key:=Key) (T:=T) r).
Proof. unfold ref_data. ro'. Qed.
Lemma readonly_map_at this fuel key : readonly (map_at (T:=T) comp this fuel key).
Proof. unfold map_at. ro'. Qed.
Lemma readonly_map_count this fuel key : readonly (map_count (T:=T) comp this fuel key).
Proof. unfold map_count. ro'. Qed.
Lemma readonly_map_find this fuel key : readonly (map_find (T:=T) comp this fuel key).
Proof. unfold map_find. ro'. Qed.
Lemma readonly_map_begin this fuel : readonly (map_begin (Key:=Key) (T:=T) this fuel).
Proof. unfold map_begin. ro'. Qed.
Lemma readonly_map_size this : readonly (map_size (Key:=Key) (T:=T) this).
Proof. unfold map_size. ro'. Qed.
Lemma readonly_map_empty this : readonly (map_empty (Key:=Key) (T:=T) this).
Proof. unfold map_empty. ro'. Qed.
Local Hint Resolve readonly_iter_incr readonly_iter_deref readonly_ref_data
  readonly_map_begin : core.
Lemma readonly_iterate this fuel : ∀ it,
  readonly (iterate (Key:=Key) (T:=T) this fuel it).
Proof. induction fuel; intros it; simpl; ro'. Qed.
Lemma readonly_traverse this fuel : readonly (traverse (Key:=Key) (T:=T) this fuel).
Proof. unfold traverse. pose proof readonly_iterate. ro'. Qed.
Lemma readonly_descend fuel key : ∀ cur parent,
  readonly (descend (T:=T) comp fuel key cur parent).
Proof. induction fuel; intros cur parent; simpl; ro'. Qed.

End readonly_ops.


(** * Clearing, copying and writing through a reference *)

Section copy.
Context {Key T : Type}.
Variable comp : Key → Key → bool.
Notation hprop := (hprop (Key:=Key) (T:=T)).
Notation Node := (Node (Key:=Key) (T:=T)).
Notation tree := (tree (Key:=Key) (T:=T)).
Notation frame := (frame (Key:=Key) (T:=T)).
Notation entry := (ptr * (Key * T))%type.

(** Two trees of the same shape, colours and entries, node by node. *)
Fixpoint tree_sim (t t' : tree) : Prop :=
  match t, t' with
  | Leaf, Leaf => True
  | Nd c l _ d r, Nd c' l' _ d' r' =>
      c = c' ∧ d = d' ∧ tree_sim l l' ∧ tree_sim r r'
  | _, _ => False
  end.

Lemma tree_sim_entries (t t' : tree) :
  tree_sim t t' → (entries t).*2 = (entries t').*2.
Proof.
  revert t'. induction t as [|c l IHl p d r IHr]; intros [|c' l' p' d' r']; simpl;
    try done.
  intros (-> & -> & Hl & Hr). by rewrite !fmap_app !fmap_cons (IHl _ Hl) (IHr _ Hr).
Qed.
Lemma tree_sim_rcol (t t' : tree) : tree_sim t t' → rcol t = rcol t'.
Proof. destruct t, t'; simpl; try done. by intros (-> & _). Qed.
Lemma tree_sim_bh (t t' : tree) : tree_sim t t' → bh t = bh t'.
Proof.
  revert t'. induction t as [|c l IHl p d r IHr]; intros [|c' l' p' d' r']; simpl;
    try done.
  intros (-> & -> & Hl & Hr). by rewrite (IHl _ Hl).
Qed.
Lemma tree_sim_balanced (t t' : tree) : tree_sim t t' → balanced t → balanced t'.
Proof.
  revert t'. induction t as [|c l IHl p d r IHr]; intros [|c' l' p' d' r']; simpl;
    try done.
  intros (-> & -> & Hl & Hr) (Hb & Hbl & Hbr).
  rewrite -(tree_sim_bh _ _ Hl) -(tree_sim_bh _ _ Hr). auto.
Qed.
Lemma tree_sim_nrr (t t' : tree) : tree_sim t t' → nrr t → nrr t'.
Proof.
  revert t'. induction t as [|c l IHl p d r IHr]; intros [|c' l' p' d' r']; simpl;
    try done.
  intros (-> & -> & Hl & Hr) (Hc & Hnl & Hnr).
  rewrite -(tree_sim_rcol _ _ Hl) -(tree_sim_rcol _ _ Hr). auto.
Qed.
Lemma tree_sim_length (t t' : tree) :
  tree_sim t t' → length (entries t) = length (entries t').
Proof.
  intros H%tree_sim_entries.
  by rewrite -(length_fmap snd (entries t)) H length_fmap.
Qed.

(** Being sorted is a matter of the keys alone. *)
Lemma sorted_entries_keys (l : list entry) :
  sorted_entries comp l ↔
  StronglySorted (λ a b, comp a b = true) (ekey <$> l).
Proof.
  induction l as [|e l IH]; simpl.
  { split; intros _; constructor. }
  split; intros [Hs Hf]%StronglySorted_inv; constructor.
  - by apply IH.
  - by apply Forall_fmap.
  - by apply IH.
  - by apply Forall_fmap in Hf.
Qed.
Lemma sorted_entries_snd (l l' : list entry) :
  l.*2 = l'.*2 → sorted_entries comp l → sorted_entries comp l'.
Proof.
  intros Heq. rewrite !sorted_entries_keys.
  assert (ekey <$> l = ekey <$> l') as ->; [|done].
  unfold ekey. change (λ e : entry, e.2.1) with (fst ∘ (snd : entry → Key * T)).
  by rewrite !list_fmap_compose Heq.
Qed.
Lemma has_key_snd (l l' : list entry) k :
  l.*2 = l'.*2 → has_key comp l k → has_key comp l' k.
Proof.
  intros Heq ([p d] & Hin & Hk).
  assert (d ∈ l'.*2) as ([p' d'] & -> & Hin')%list_elem_of_fmap.
  { rewrite -Heq. apply list_elem_of_fmap. by exists (p, d). }
  by exists (p', d').
Qed.

Lemma tree_sim_good (t t' : tree) : tree_sim t t' → good comp t → good comp t'.
Proof.
  intros Hs (Hr & Hn & Hb & Ho). split_and!.
  - by rewrite -(tree_sim_rcol _ _ Hs).
  - by eapply tree_sim_nrr.
  - by eapply tree_sim_balanced.
  - eapply sorted_entries_snd; [|exact Ho]. by apply tree_sim_entries.
Qed.

Lemma tree_sim_cnt (t t' : tree) : tree_sim t t' → cnt t = cnt t'.
Proof. intros H. unfold cnt. by rewrite (tree_sim_length _ _ H). Qed.

(** [clear_node] frees every node of the tree. *)
Lemma wp_clear_node fuel : ∀ par (t : tree) (Q : unit → hprop),
  height t ≤ fuel →
  is_tree par t -∗ Q tt -∗ wp (clear_node fuel (root_of t)) Q.
Proof.
  induction fuel as [|fuel IH]; intros par [|c l p d r] Q Hh; tsimpl; simpl in *;
    try lia; iIntros "Ht HQ"; try by wp_run.
  iDestruct "Ht" as "(Hp & Hl & Hr)". wp_run.
  iApply (IH with "Hl"); [lia|]. wp_run.
  iApply (IH with "Hr"); [lia|].
  iApply (wp_delete_Node with "Hp"). done.
Qed.

Lemma wp_map_clear this n fuel (t : tree) (Q : unit → hprop) :
  height t ≤ fuel →
  is_map this n t -∗ (is_map this 0 Leaf -∗ Q tt) -∗
  wp (map_clear this fuel) Q.
Proof.
  intros Hh. iIntros "[Hm Ht] HQ". unfold map_clear. wp_run.
  iApply (wp_clear_node with "Ht"); [done|]. unfold set_root, set_node_count.
  wp_run. iApply "HQ". tsimpl. iFrame.
Qed.

(** The value of [node_count] after [k] increments. *)
Definition incr_n (k : nat) (n : N) : N := Nat.iter k (λ x, size_t_wrap (x + 1)) n.

Lemma incr_n_add a b n : incr_n (a + b) n = incr_n a (incr_n b n).
Proof. apply Nat.iter_add. Qed.
Lemma incr_n_0 k : incr_n k 0 = size_t_wrap (N.of_nat k).
Proof.
  induction k as [|k IH]; [done|].
  unfold incr_n in *. simpl. rewrite IH. unfold size_t_wrap.
  rewrite N.Div0.add_mod_idemp_l. f_equal. lia.
Qed.

(** [clone_subtree] builds a copy of the tree out of new nodes and
    counts them. *)
Lemma wp_clone_subtree this fuel : ∀ (t : tree) par parent rt n (Q : option ptr → hprop),
  height t ≤ fuel →
  this ↦ₘ Map rt n -∗ is_tree par t -∗
  (∀ t', ⌜tree_sim t t'⌝ -∗
         this ↦ₘ Map rt (incr_n (length (entries t)) n) -∗
         is_tree par t -∗ is_tree parent t' -∗ Q (root_of t')) -∗
  wp (clone_subtree this fuel parent (root_of t)) Q.
Proof.
  induction fuel as [|fuel IH]; intros [|c l p d r] par parent rt n Q Hh;
    tsimpl; simpl in *; try lia; iIntros "Hm Ht HQ".
  - wp_run. iApply ("HQ" $! Leaf with "[//] Hm [//] [//]").
  - wp_run. iApply ("HQ" $! Leaf with "[//] Hm [//] [//]").
  - iDestruct "Ht" as "(Hp & Hl & Hr)". wp_run. rename p0 into x.
    iApply (IH l with "Hm Hl"); [lia|]. iIntros (l' Hl) "Hm Hl Hl'". wp_run.
    iApply (IH r with "Hm Hr"); [lia|]. iIntros (r' Hr) "Hm Hr Hr'". wp_run.
    unfold incr_node_count, get_node_count, set_node_count. wp_run.
    iApply ("HQ" $! (Nd c l' x d r') with "[//] [Hm] [$Hp $Hl $Hr] [-]").
    + rewrite length_app /=.
      replace (length (entries l) + S (length (entries r)))
        with (1 + (length (entries r) + length (entries l))) by lia.
      rewrite !incr_n_add. done.
    + tsimpl. iFrame.
Qed.

(** The body of the copy constructor and of the assignment, once
    [this] is empty. *)
Lemma wp_clone_into this other fuel n (t : tree) (Q : unit → hprop) :
  height t ≤ fuel →
  is_map this 0 Leaf -∗ is_map other n t -∗
  (∀ t', ⌜tree_sim t t'⌝ -∗ own_map this t' -∗ is_map other n t -∗ Q tt) -∗
  wp (let! r := get_root other in
      let! c := clone_subtree this fuel None r in
      set_root this c) Q.
Proof.
  intros Hh. iIntros "[Hm _] [Ho Ht] HQ". simpl. wp_run.
  iApply (wp_clone_subtree with "Hm Ht"); [done|].
  iIntros (t' Hs) "Hm Ht Ht'". unfold set_root. wp_run.
  iApply ("HQ" $! t' with "[//] [Hm Ht'] [$Ho $Ht]").
  unfold own_map, is_map. iFrame.
  rewrite incr_n_0 /cnt (tree_sim_length _ _ Hs). done.
Qed.

Lemma wp_map_assign this other fuel n n' (t0 t : tree) (Q : unit → hprop) :
  this ≠ other → height t0 ≤ fuel → height t ≤ fuel →
  is_map this n' t0 -∗ is_map other n t -∗
  (∀ t', ⌜tree_sim t t'⌝ -∗ own_map this t' -∗ is_map other n t -∗ Q tt) -∗
  wp (map_assign this fuel other) Q.
Proof.
  intros Hne Hh0 Hh. iIntros "Hm Ho HQ". unfold map_assign.
  destruct (decide (this = other)) as [|_]; [done|].
  iApply wp_bind. iApply (wp_map_clear with "Hm"); [done|]. iIntros "Hm".
  iApply (wp_clone_into with "Hm Ho"); done.
Qed.

(** Writing a value through a reference to an entry. *)
Lemma wp_ref_assign this n (t : tree) z v (Q : unit → hprop) :
  z ∈ ptrs t →
  is_map this n t -∗
  (∀ t', ⌜∃ ctx c l d r, t = plug ctx (Nd c l z d r) ∧
                         t' = plug ctx (Nd c l z (d.1, v) r)⌝ -∗
         is_map this n t' -∗ Q tt) -∗
  wp (ref_assign z v) Q.
Proof.
  intros (ctx & c & l & d & r & ->)%ptr_in_plug. rewrite is_map_plug. tsimpl.
  iIntros "(Hctx & Hz & Hl & Hr) HQ". unfold ref_assign. wp_run.
  iApply ("HQ" $! (plug ctx (Nd c l z (d.1, v) r)) with "[]").
  { iPureIntro. by exists ctx, c, l, d, r. }
  rewrite is_map_plug. tsimpl. iFrame.
Qed.

Lemma set_value_spec ctx c (l : tree) z d v r :
  let t := plug ctx (Nd c l z d r) in
  let t' := plug ctx (Nd c l z (d.1, v) r) in
  (good comp t → good comp t') ∧ cnt t' = cnt t ∧ height t' = height t ∧
  ∃ l1 l2, entries t = l1 ++ (z, d) :: l2 ∧ entries t' = l1 ++ (z, (d.1, v)) :: l2.
Proof.
  simpl. split_and!.
  - intros (Hr & Hn & Hb & Ho). split_and!.
    + rewrite rcol_plug in Hr. by rewrite rcol_plug.
    + rewrite nrr_plug in Hn. by rewrite nrr_plug.
    + rewrite balanced_plug in Hb. by rewrite balanced_plug.
    + unfold bst in *. eapply sorted_entries_keys.
      apply sorted_entries_keys in Ho.
      rewrite !entries_plug_Nd !fmap_app /= in Ho |- *. done.
  - unfold cnt. by rewrite !entries_plug_Nd !length_app.
  - apply Nat.le_antisymm; by apply height_plug_mono.
  - eexists _, _. split; apply entries_plug_Nd.
Qed.

End copy.


(** * Worlds of maps *)

Section world.
Context {Key T : Type}.
Variable comp : Key → Key → bool.
Variable T_default : T.
Notation hprop := (hprop (Key:=Key) (T:=T)).
Notation Node := (Node (Key:=Key) (T:=T)).
Notation tree := (tree (Key:=Key) (T:=T)).
Notation world := (world (Key:=Key) (T:=T)).
Notation M := (M (Key:=Key) (T:=T)).
Notation entry := (ptr * (Key * T))%type.

(** [repr w a t]: in the world [w] the map object at [a] holds the tree
    [t], node by node and link by link, and counts its entries. *)
Definition repr (w : world) (a : addr) (t : tree) : Prop :=
  objs w !! a = Some (Map (root_of t) (cnt t)) ∧ tree_at (nodes w) None t.

Lemma tree_at_unique h : ∀ (t t' : tree) par par',
  root_of t = root_of t' → tree_at h par t → tree_at h par' t' → t = t'.
Proof.
  induction t as [|c l IHl p d r IHr]; intros [|c' l' p' d' r'] par par' Hr;
    simpl in *; try done.
  injection Hr as <-. intros (H1 & Hl & Hr) (H1' & Hl' & Hr').
  rewrite H1 in H1'. injection H1' as <- <- Hrl Hrr _.
  by rewrite (IHl _ _ _ Hrl Hl Hl') (IHr _ _ _ Hrr Hr Hr').
Qed.

(** A world shows one tree at most for each of its maps. *)
Lemma repr_unique w a (t t' : tree) : repr w a t → repr w a t' → t = t'.
Proof.
  intros [Ho Ht] [Ho' Ht']. rewrite Ho in Ho'. injection Ho' as Hr _.
  by eapply tree_at_unique.
Qed.

Lemma is_tree_tree_at par (t : tree) w : is_tree par t w → tree_at (nodes w) par t.
Proof.
  revert par w. induction t as [|c l IHl p d r IHr]; intros par w; [done|].
  tsimpl. intros (w1 & w2 & Hd & Hs & Hp & w3 & w4 & Hd' & Hs' & Hl & Hr).
  assert (wsub w1 w) as Hs1.
  { eapply wsub_trans; [|exact Hs]. apply wsub_union_l. }
  assert (wsub w2 w) as Hs2.
  { eapply wsub_trans; [|exact Hs]. by apply wsub_union_r. }
  assert (wsub w3 w) as Hs3.
  { eapply wsub_trans; [|exact Hs2]. eapply wsub_trans; [|exact Hs']. apply wsub_union_l. }
  assert (wsub w4 w) as Hs4.
  { eapply wsub_trans; [|exact Hs2]. eapply wsub_trans; [|exact Hs']. by apply wsub_union_r. }
  simpl. split_and!.
  - eapply (holds_mono (p ↦ _)%I); [exact Hp|done].
  - apply IHl. eapply holds_mono; [exact Hl|done].
  - apply IHr. eapply holds_mono; [exact Hr|done].
Qed.

Lemma own_map_repr a (t : tree) w : own_map a t w → repr w a t ∧ NoDup (ptrs t).
Proof.
  intros H. split.
  - destruct H as (w1 & w2 & Hd & Hs & Ho & Ht). split.
    + eapply (holds_mono (a ↦ₘ _)%I); [exact Ho|].
      eapply wsub_trans; [|exact Hs]. apply wsub_union_l.
    + apply is_tree_tree_at. eapply holds_mono; [exact Ht|].
      eapply wsub_trans; [|exact Hs]. by apply wsub_union_r.
  - by apply (hprop_entails_holds _ _ (is_map_NoDup a (cnt t) t)) in H.
Qed.

(** The invariant of a world: every map object owns a red-black search
    tree, and no node belongs to two of them. *)
Definition winv (w : world) (Ts : gmap addr tree) : Prop :=
  dom Ts = dom (objs w) ∧
  map_Forall (λ _ t, good comp t) Ts ∧
  ([∗ map] a ↦ t ∈ Ts, own_map a t)%I w.

Lemma winv_lookup w Ts a t :
  winv w Ts → Ts !! a = Some t → repr w a t ∧ NoDup (ptrs t) ∧ good comp t.
Proof.
  intros (Hdom & Hg & H) Ha.
  assert (own_map a t w) as Ho.
  { revert H. apply hprop_entails_holds.
    iIntros "H". by iApply (big_sepM_lookup with "H"). }
  destruct (own_map_repr _ _ _ Ho). split_and!; [done..|]. by apply (Hg a).
Qed.
Lemma winv_repr w Ts a t : winv w Ts → repr w a t → Ts !! a = Some t.
Proof.
  intros Hw Hr. destruct (Ts !! a) as [t'|] eqn:Ha.
  - destruct (winv_lookup _ _ _ _ Hw Ha) as (Hr' & _). f_equal. by eapply repr_unique.
  - destruct Hw as (Hdom & _). apply not_elem_of_dom in Ha. rewrite Hdom in Ha.
    destruct Hr as [Hr _]. exfalso. apply Ha. by apply elem_of_dom.
Qed.
Lemma winv_live w Ts a :
  winv w Ts → a ∈ dom (objs w) → ∃ t, Ts !! a = Some t.
Proof. intros (Hdom & _) Ha. rewrite -Hdom in Ha. by apply elem_of_dom in Ha. Qed.

(** A triple about one map is run in a world that satisfies the
    invariant. *)
Lemma winv_run {A} (m : M A) (φ : A → tree → Prop) w Ts a t :
  winv w Ts → Ts !! a = Some t →
  (∀ Q : A → hprop,
     own_map a t -∗ (∀ r t', ⌜φ r t'⌝ -∗ own_map a t' -∗ Q r) -∗ wp m Q) →
  (∀ r t', φ r t' → good comp t') →
  ∃ r w' t', m w = Ok r w' ∧ φ r t' ∧ winv w' (<[a := t']> Ts).
Proof.
  intros (Hdom & Hg & H) Ha Hwp Hgood.
  destruct (wp_adequacy m ([∗ map] a ↦ t ∈ Ts, own_map a t)%I
              (λ r, ∃ t', ⌜φ r t'⌝ ∗ [∗ map] a ↦ t ∈ <[a := t']> Ts, own_map a t)%I w)
    as (r & w' & Hm & Hdom' & t' & Hres); [|done|].
  { iIntros "H". iDestruct (big_sepM_insert_acc with "H") as "[Ha Hclose]"; [done|].
    iApply (Hwp with "Ha"). iIntros (r t' Hφ) "Ha". iExists t'. iSplit; [done|].
    by iApply "Hclose". }
  destruct Hres as (w1 & w2 & Hd & Hs & Hφ & Hbig).
  apply holds_pure in Hφ.
  exists r, w', t'. split_and!; [done|done|]. split_and!.
  - rewrite dom_insert_L Hdom' -Hdom. apply elem_of_dom_2 in Ha. set_solver.
  - apply map_Forall_insert_2; [by eapply Hgood|done].
  - eapply holds_mono; [exact Hbig|].
    eapply wsub_trans; [|exact Hs]. by apply wsub_union_r.
Qed.

(** The same for a computation that only reads. *)
Lemma winv_read {A} (m : M A) (φ : A → Prop) w Ts a t :
  winv w Ts → Ts !! a = Some t → readonly m →
  (∀ Q : A → hprop,
     own_map a t -∗ (∀ r, ⌜φ r⌝ -∗ own_map a t -∗ Q r) -∗ wp m Q) →
  ∃ r, m w = Ok r w ∧ φ r.
Proof.
  intros Hw Ha Hro Hwp.
  destruct (winv_run m (λ r t', φ r ∧ t' = t) w Ts a t Hw Ha)
    as (r & w' & t' & Hm & [Hφ _] & _).
  - intros Q. iIntros "Ha HQ". iApply (Hwp with "Ha"). iIntros (r Hr) "Ha".
    by iApply ("HQ" with "[] Ha").
  - intros r t' [_ ->]. by destruct (winv_lookup _ _ _ _ Hw Ha) as (_ & _ & ?).
  - exists r. split; [|done]. specialize (Hro w). rewrite Hm in Hro. by subst.
Qed.

(** A triple about two maps, of which the second is only read. *)
Lemma winv_run2 {A} (m : M A) (φ : A → tree → Prop) w Ts a t b t0 :
  winv w Ts → Ts !! a = Some t → Ts !! b = Some t0 → a ≠ b →
  (∀ Q : A → hprop,
     own_map b t0 -∗ own_map a t -∗
     (∀ r t', ⌜φ r t'⌝ -∗ own_map b t' -∗ own_map a t -∗ Q r) -∗ wp m Q) →
  (∀ r t', φ r t' → good comp t') →
  ∃ r w' t', m w = Ok r w' ∧ φ r t' ∧ winv w' (<[b := t']> Ts).
Proof.
  intros (Hdom & Hg & H) Ha Hb Hne Hwp Hgood.
  destruct (wp_adequacy m ([∗ map] a ↦ t ∈ Ts, own_map a t)%I
              (λ r, ∃ t', ⌜φ r t'⌝ ∗ [∗ map] a ↦ t ∈ <[b := t']> Ts, own_map a t)%I w)
    as (r & w' & Hm & Hdom' & t' & Hres); [|done|].
  { iIntros "H". iDestruct (big_sepM_delete with "H") as "[Hb H]"; [exact Hb|].
    iDestruct (big_sepM_delete _ _ a with "H") as "[Ha H]".
    { by rewrite lookup_delete_ne. }
    iApply (Hwp with "Hb Ha"). iIntros (r t' Hφ) "Hb Ha". iExists t'. iSplit; [done|].
    iApply big_sepM_delete; [apply lookup_insert_eq|]. iFrame "Hb".
    rewrite delete_insert_eq.
    iApply (big_sepM_delete _ _ a); [by rewrite lookup_delete_ne|]. iFrame. }
  destruct Hres as (w1 & w2 & Hd & Hs & Hφ & Hbig).
  apply holds_pure in Hφ.
  exists r, w', t'. split_and!; [done|done|]. split_and!.
  - rewrite dom_insert_L Hdom' -Hdom. apply elem_of_dom_2 in Hb. set_solver.
  - apply map_Forall_insert_2; [by eapply Hgood|done].
  - eapply holds_mono; [exact Hbig|].
    eapply wsub_trans; [|exact Hs]. by apply wsub_union_r.
Qed.

Lemma good_Leaf : good comp (Leaf : tree).
Proof. split_and!; try done. constructor. Qed.

(** [map()] at an address that holds no map yet. *)
Lemma ctor_ok w Ts a :
  winv w Ts → objs w !! a = None →
  map_ctor a w = Ok tt (World (nodes w) (<[a := Map None 0]> (objs w))) ∧
  winv (World (nodes w) (<[a := Map None 0]> (objs w))) (<[a := Leaf]> Ts).
Proof.
  intros (Hdom & Hg & H) Ha. split.
  { unfold map_ctor. by rewrite Ha. }
  assert (Ts !! a = None) as HTa.
  { apply not_elem_of_dom. rewrite Hdom. by apply not_elem_of_dom. }
  split_and!.
  - simpl. rewrite !dom_insert_L. by rewrite Hdom.
  - apply map_Forall_insert_2; [apply good_Leaf|done].
  - eapply hprop_entails_holds.
    { iIntros "H". iApply (big_sepM_insert with "H"). exact HTa. }
    apply holds_sep. exists (World ∅ {[a := Map None 0]}), w. split_and!.
    + split; simpl; [apply map_disjoint_empty_l|].
      by apply map_disjoint_singleton_l.
    + split; simpl; [by rewrite left_id_L|]. by rewrite insert_union_singleton_l.
    + apply holds_sep. exists (World ∅ {[a := Map None 0]}), wempty. split_and!.
      * apply wdisj_empty_r.
      * by rewrite wunion_empty_r.
      * simpl. apply lookup_singleton_eq.
      * done.
    + exact H.
Qed.

Section ops.
Hypothesis Hswo : StrictWeakOrder comp.

Lemma insert_ok w Ts a t fuel k v :
  winv w Ts → Ts !! a = Some t → length (entries t) ≤ fuel →
  ∃ r w' t', map_insert comp a fuel (k, v) w = Ok r w' ∧
             insert_res comp a k v t r t' ∧ winv w' (<[a := t']> Ts).
Proof.
  intros Hw Ha Hf. destruct (winv_lookup _ _ _ _ Hw Ha) as (_ & _ & Hg).
  pose proof (length_entries_height t).
  apply (winv_run _ (insert_res comp a k v t) w Ts a t Hw Ha).
  - intros Q. iIntros "Ha HQ". iApply (wp_map_insert with "Ha HQ"); [done..|lia].
  - intros r t' [(c & d & _ & _ & _ & ->)|(z & l1 & l2 & _ & _ & _ & _ & Hg')]; done.
Qed.

Lemma index_ok w Ts a t fuel k :
  winv w Ts → Ts !! a = Some t → length (entries t) ≤ fuel →
  ∃ r w' t', map_index comp T_default a fuel k w = Ok r w' ∧
             index_res comp T_default k t r t' ∧ winv w' (<[a := t']> Ts).
Proof.
  intros Hw Ha Hf. destruct (winv_lookup _ _ _ _ Hw Ha) as (_ & _ & Hg).
  pose proof (length_entries_height t).
  apply (winv_run _ (index_res comp T_default k t) w Ts a t Hw Ha).
  - intros Q. iIntros "Ha HQ". iApply (wp_map_index with "Ha HQ"); [done..|lia].
  - intros r t' [(d & _ & _ & ->)|(l1 & l2 & _ & _ & _ & Hg')]; done.
Qed.

(** What [erase] at the node [z] leaves of the tree [t]. *)
Definition erase_res (z : ptr) (t t' : tree) : Prop :=
  good comp t' ∧
  ∃ l1 d l2, entries t = l1 ++ (z, d) :: l2 ∧ entries t' = l1 ++ l2.

Lemma erase_ok w Ts a t fuel z :
  winv w Ts → Ts !! a = Some t → length (entries t) ≤ fuel → z ∈ ptrs t →
  ∃ w' t', map_erase a fuel (Iter (Some a) (Some z)) w = Ok tt w' ∧
           erase_res z t t' ∧ winv w' (<[a := t']> Ts).
Proof.
  intros Hw Ha Hf Hz. destruct (winv_lookup _ _ _ _ Hw Ha) as (_ & _ & Hg).
  pose proof (length_entries_height t).
  destruct (winv_run (map_erase a fuel (Iter (Some a) (Some z)))
              (λ _, erase_res z t) w Ts a t Hw Ha) as ([] & w' & t' & ? & ? & ?).
  - intros Q. iIntros "Ha HQ". unfold map_erase. simpl.
    rewrite bool_decide_eq_false_2; [|by intros []]. simpl.
    destruct (ptr_in_plug _ _ Hz) as (ctx & c & l & d & r & Heq).
    destruct Hg as (Hr & Hn & Hb & Ho). unfold own_map. rewrite {2}Heq.
    iApply (wp_erase_node with "Ha"); rewrite -?Heq; [lia|done..|].
    iIntros (t' (Hn' & Hb' & Hr' & l1 & l2 & He & He')) "Ha".
    iApply ("HQ" $! tt t' with "[] [Ha]").
    + iPureIntro. split; [split_and!; [done..|]|by exists l1, d, l2].
      unfold bst in *. rewrite He'. rewrite He in Ho. by eapply sorted_remove.
    + unfold own_map. rewrite (cnt_erase t t'); [done|].
      rewrite He He' !length_app /=. lia.
  - by intros _ t' [? _].
  - by exists w', t'.
Qed.

Lemma clear_ok w Ts a t fuel :
  winv w Ts → Ts !! a = Some t → length (entries t) ≤ fuel →
  ∃ w', map_clear a fuel w = Ok tt w' ∧ winv w' (<[a := Leaf]> Ts).
Proof.
  intros Hw Ha Hf. pose proof (length_entries_height t).
  destruct (winv_run (map_clear a fuel) (λ _ t', t' = Leaf) w Ts a t Hw Ha)
    as ([] & w' & t' & ? & -> & ?).
  - intros Q. iIntros "Ha HQ". iApply (wp_map_clear with "Ha"); [lia|].
    iIntros "Ha". by iApply ("HQ" $! tt Leaf with "[] Ha").
  - intros _ t' ->. apply good_Leaf.
  - by exists w'.
Qed.

(** What a write of [v] through a reference to the node [z] leaves. *)
Definition assign_res (z : ptr) (v : T) (t t' : tree) : Prop :=
  good comp t' ∧ cnt t' = cnt t ∧ height t' = height t ∧
  ∃ l1 d l2, entries t = l1 ++ (z, d) :: l2 ∧ entries t' = l1 ++ (z, (d.1, v)) :: l2.

Lemma ref_assign_ok w Ts a t z v :
  winv w Ts → Ts !! a = Some t → z ∈ ptrs t →
  ∃ w' t', ref_assign z v w = Ok tt w' ∧ assign_res z v t t' ∧
           winv w' (<[a := t']> Ts).
Proof.
  intros Hw Ha Hz. destruct (winv_lookup _ _ _ _ Hw Ha) as (_ & _ & Hg).
  destruct (winv_run (ref_assign z v) (λ _, assign_res z v t) w Ts a t Hw Ha)
    as ([] & w' & t' & ? & ? & ?).
  - intros Q. iIntros "Ha HQ". iApply (wp_ref_assign with "Ha"); [done|].
    iIntros (t' (ctx & c & l & d & r & -> & ->)) "Ha".
    destruct (set_value_spec comp ctx c l z d v r) as (Hg' & Hc & Hh & l1 & l2 & H1 & H2).
    iApply ("HQ" $! tt with "[] [Ha]").
    + iPureIntro. split_and!; [by apply Hg'|done..|]. by exists l1, d, l2.
    + unfold own_map. by rewrite Hc.
  - by intros _ t' [? _].
  - by exists w', t'.
Qed.

Lemma assign_ok w Ts a t b t0 fuel :
  winv w Ts → Ts !! a = Some t → Ts !! b = Some t0 → a ≠ b →
  length (entries t) ≤ fuel → length (entries t0) ≤ fuel →
  ∃ w' t', map_assign b fuel a w = Ok tt w' ∧ tree_sim t t' ∧
           winv w' (<[b := t']> Ts).
Proof.
  intros Hw Ha Hb Hne Hf Hf0. destruct (winv_lookup _ _ _ _ Hw Ha) as (_ & _ & Hg).
  pose proof (length_entries_height t). pose proof (length_entries_height t0).
  destruct (winv_run2 (map_assign b fuel a) (λ _, tree_sim t) w Ts a t b t0 Hw Ha Hb Hne)
    as ([] & w' & t' & ? & ? & ?).
  - intros Q. iIntros "Hb Ha HQ".
    iApply (wp_map_assign with "Hb Ha"); [done|lia..|].
    iIntros (t' Hs) "Hb Ha". iApply ("HQ" $! tt with "[//] Hb Ha").
  - intros _ t' Hs. by eapply tree_sim_good.
  - by exists w', t'.
Qed.

Lemma copy_ctor_ok w Ts a t b fuel :
  winv w Ts → Ts !! a = Some t → objs w !! b = None →
  length (entries t) ≤ fuel →
  ∃ w' t', map_copy_ctor b fuel a w = Ok tt w' ∧ tree_sim t t' ∧
           winv w' (<[b := t']> Ts).
Proof.
  intros Hw Ha Hb Hf. destruct (winv_lookup _ _ _ _ Hw Ha) as (_ & _ & Hg).
  pose proof (length_entries_height t).
  destruct (ctor_ok w Ts b Hw Hb) as [Hc Hw1].
  assert (a ≠ b) as Hne.
  { intros ->. destruct Hw as (Hdom & _). apply elem_of_dom_2 in Ha.
    rewrite Hdom in Ha. by apply not_elem_of_dom in Hb. }
  set (m := (let! r := get_root a in
             let! c := clone_subtree b fuel None r in set_root b c) : M unit).
  destruct (winv_run2 m (λ _, tree_sim t) _ _ a t b Leaf Hw1)
    as ([] & w' & t' & Hm & ? & Hw').
  - by rewrite lookup_insert_ne.
  - apply lookup_insert_eq.
  - done.
  - intros Q. iIntros "Hb Ha HQ".
    iApply (wp_clone_into with "Hb Ha"); [lia|].
    iIntros (t' Hs) "Hb Ha". iApply ("HQ" $! tt with "[//] Hb Ha").
  - intros _ t' Hs. by eapply tree_sim_good.
  - exists w', t'. split_and!; [|done|by rewrite insert_insert_eq in Hw'].
    unfold map_copy_ctor, bind at 1. rewrite Hc. exact Hm.
Qed.

End ops.
End world.


(** * More fuel changes no result *)

Section fuel.
Context {Key T : Type}.
Notation M := (M (Key:=Key) (T:=T)).

(** [m'] answers as [m] does wherever [m] does not run out of fuel. *)
Definition more_fuel {A} (m m' : M A) : Prop :=
  ∀ w, m w = OutOfFuel ∨ m w = m' w.

Lemma more_fuel_refl {A} (m : M A) : more_fuel m m.
Proof. intros w. by right. Qed.
Lemma more_fuel_out {A} (m : M A) : more_fuel out_of_fuel m.
Proof. intros w. by left. Qed.
Lemma more_fuel_bind {A B} (m m' : M A) (k k' : A → M B) :
  more_fuel m m' → (∀ a, more_fuel (k a) (k' a)) →
  more_fuel (bind m k) (bind m' k').
Proof.
  intros Hm Hk w. unfold bind. destruct (Hm w) as [->| ->]; [by left|].
  destruct (m' w) as [a w'| | |]; [apply Hk|by right..].
Qed.
Lemma more_fuel_ok {A} (m m' : M A) w r w' :
  more_fuel m m' → m w = Ok r w' → m' w = Ok r w'.
Proof. intros H Hm. destruct (H w) as [Ho|Ho]; congruence. Qed.
Lemma more_fuel_det {A} (m m' : M A) w r w' r2 w2 :
  more_fuel m m' → m w = Ok r w' → m' w = Ok r2 w2 → r = r2 ∧ w' = w2.
Proof. intros H Hm Hm'. destruct (H w) as [Ho|Ho]; split; congruence. Qed.
Lemma more_fuel_throw {A} (m m' : M A) w e w' :
  more_fuel m m' → m w = Throw e w' → m' w = Throw e w'.
Proof. intros H Hm. destruct (H w) as [Ho|Ho]; congruence. Qed.

End fuel.

Ltac mf_step :=
  first
    [ apply more_fuel_refl | apply more_fuel_out
    | apply more_fuel_bind; [|intros ?]
    | match goal with
      | |- more_fuel (match ?x with _ => _ end) _ => destruct x
      | |- more_fuel (if ?b then _ else _) _ => destruct b
      | IH : ∀ f, _ ≤ f → _ |- _ => apply IH; lia
      end ].
Ltac mf := repeat mf_step.

Section fuel_ops.
Context {Key T : Type}.
Variable comp : Key → Key → bool.
Variable T_default : T.
Notation M := (M (Key:=Key) (T:=T)).

Lemma more_fuel_min_node_loop fuel : ∀ fuel', fuel ≤ fuel' → ∀ x,
  more_fuel (min_node_loop (Key:=Key) (T:=T) fuel x) (min_node_loop fuel' x).
Proof.
  induction fuel as [|fuel IH]; intros fuel' Hle x;
    rewrite !min_node_loop_eq; destruct fuel'; try lia; mf.
Qed.
Lemma more_fuel_descend fuel key : ∀ fuel', fuel ≤ fuel' → ∀ cur parent,
  more_fuel (descend (T:=T) comp fuel key cur parent) (descend comp fuel' key cur parent).
Proof.
  induction fuel as [|fuel IH]; intros fuel' Hle cur parent;
    destruct fuel'; try lia; simpl; mf.
Qed.
Lemma more_fuel_insert_fix_loop this fuel : ∀ fuel', fuel ≤ fuel' → ∀ z,
  more_fuel (insert_fix_loop (Key:=Key) (T:=T) this fuel z) (insert_fix_loop this fuel' z).
Proof.
  induction fuel as [|fuel IH]; intros fuel' Hle z;
    rewrite !insert_fix_loop_eq; destruct fuel'; try lia; mf.
Qed.
Lemma more_fuel_erase_fix_loop this fuel : ∀ fuel', fuel ≤ fuel' → ∀ x xp,
  more_fuel (erase_fix_loop (Key:=Key) (T:=T) this fuel x xp) (erase_fix_loop this fuel' x xp).
Proof.
  induction fuel as [|fuel IH]; intros fuel' Hle x xp;
    rewrite !erase_fix_loop_eq; destruct fuel'; try lia; mf.
Qed.
Lemma more_fuel_clear_node fuel : ∀ fuel', fuel ≤ fuel' → ∀ x,
  more_fuel (clear_node (Key:=Key) (T:=T) fuel x) (clear_node fuel' x).
Proof.
  induction fuel as [|fuel IH]; intros fuel' Hle x;
    destruct fuel'; try lia; simpl; mf.
Qed.
Lemma more_fuel_clone_subtree this fuel : ∀ fuel', fuel ≤ fuel' → ∀ parent other,
  more_fuel (clone_subtree (Key:=Key) (T:=T) this fuel parent other)
            (clone_subtree this fuel' parent other).
Proof.
  induction fuel as [|fuel IH]; intros fuel' Hle parent other;
    destruct fuel'; try lia; simpl; mf.
Qed.

Ltac mf' :=
  repeat first
    [ mf_step
    | apply more_fuel_min_node_loop; lia
    | apply more_fuel_descend; lia
    | apply more_fuel_insert_fix_loop; lia
    | apply more_fuel_erase_fix_loop; lia
    | apply more_fuel_clear_node; lia
    | apply more_fuel_clone_subtree; lia ].

Lemma more_fuel_map_insert this fuel fuel' value :
  fuel ≤ fuel' →
  more_fuel (map_insert (T:=T) comp this fuel value) (map_insert comp this fuel' value).
Proof. intros Hle. unfold map_insert, insert_fix. mf'. Qed.
Lemma more_fuel_map_index this fuel fuel' key :
  fuel ≤ fuel' →
  more_fuel (map_index comp T_default this fuel key) (map_index comp T_default this fuel' key).
Proof. intros Hle. unfold map_index, insert_fix. mf'. Qed.
Lemma more_fuel_erase_unlink this fuel fuel' z :
  fuel ≤ fuel' →
  more_fuel (erase_unlink (Key:=Key) (T:=T) this fuel z) (erase_unlink this fuel' z).
Proof. intros Hle. unfold erase_unlink, min_node. mf'. Qed.
Lemma more_fuel_map_erase this fuel fuel' pos :
  fuel ≤ fuel' →
  more_fuel (map_erase (Key:=Key) (T:=T) this fuel pos) (map_erase this fuel' pos).
Proof.
  intros Hle. pose proof (more_fuel_erase_unlink this fuel fuel') as Hu.
  unfold map_erase, erase_node, erase_fix.
  repeat first [apply Hu; lia | destruct a as [[[] ?] ?] | mf_step
               | apply more_fuel_erase_fix_loop; lia].
Qed.
Lemma more_fuel_map_clear this fuel fuel' :
  fuel ≤ fuel' →
  more_fuel (map_clear (Key:=Key) (T:=T) this fuel) (map_clear this fuel').
Proof. intros Hle. unfold map_clear. mf'. Qed.
Lemma more_fuel_map_copy_ctor this fuel fuel' other :
  fuel ≤ fuel' →
  more_fuel (map_copy_ctor (Key:=Key) (T:=T) this fuel other)
            (map_copy_ctor this fuel' other).
Proof. intros Hle. unfold map_copy_ctor. mf'. Qed.
Lemma more_fuel_map_assign this fuel fuel' other :
  fuel ≤ fuel' →
  more_fuel (map_assign (Key:=Key) (T:=T) this fuel other)
            (map_assign this fuel' other).
Proof. intros Hle. unfold map_assign, map_clear. mf'. Qed.

End fuel_ops.

(** * The worlds a client can reach *)

Section reach.
Context {Key T : Type}.
Variable comp : Key → Key → bool.
Variable T_default : T.
Notation tree := (tree (Key:=Key) (T:=T)).
Notation world := (world (Key:=Key) (T:=T)).
Notation M := (M (Key:=Key) (T:=T)).

(** A cursor that refers to an entry refers to an entry of its owner. *)
Definition valid_cursor (w : world) (pos : iterator) : Prop :=
  match cur pos with
  | None => True
  | Some z => ∃ o (t : tree), owner pos = Some o ∧ repr w o t ∧ z ∈ ptrs t
  end.
(** One call of a mutating public operation that returns: the call
    [mutate w a w'] is on the map at [a]. *)
Inductive mutate (w : world) : addr → world → Prop :=
| mut_ctor a w' :
    map_ctor a w = Ok tt w' → mutate w a w'
| mut_copy_ctor a fuel b w' :
    b ∈ dom (objs w) → map_copy_ctor a fuel b w = Ok tt w' → mutate w a w'
| mut_assign a fuel b w' :
    b ∈ dom (objs w) → map_assign a fuel b w = Ok tt w' → mutate w a w'
| mut_insert a fuel value r w' :
    map_insert comp a fuel value w = Ok r w' → mutate w a w'
| mut_index a fuel key r w' :
    map_index comp T_default a fuel key w = Ok r w' → mutate w a w'
| mut_erase a fuel pos w' :
    valid_cursor w pos → map_erase a fuel pos w = Ok tt w' → mutate w a w'
| mut_clear a fuel w' :
    map_clear a fuel w = Ok tt w' → mutate w a w'
| mut_ref_assign a (t : tree) r v w' :
    repr w a t → r ∈ ptrs t → ref_assign r v w = Ok tt w' → mutate w a w'.

(** The worlds reached from the world without maps. *)
Inductive reachable : world → Prop :=
| reach_empty : reachable wempty
| reach_step w a w' : reachable w → mutate w a w' → reachable w'.

Hypothesis Hswo : StrictWeakOrder comp.

Lemma winv_empty : winv comp (wempty : world) ∅.
Proof.
  split_and!; [by rewrite !dom_empty_L|apply map_Forall_empty|].
  eapply hprop_entails_holds; [|apply (holds_emp wempty)].
  iIntros "_". by iApply big_sepM_empty.
Qed.

Lemma not_live_get_root (w : world) a :
  objs w !! a = None → get_root (Key:=Key) (T:=T) a w = Fault.
Proof. intros H. unfold get_root, bind, load_map. by rewrite H. Qed.

Lemma winv_None (w : world) Ts a : winv comp w Ts → Ts !! a = None → objs w !! a = None.
Proof.
  intros (Hdom & _) H. apply not_elem_of_dom. rewrite -Hdom. by apply not_elem_of_dom.
Qed.

Lemma mutate_winv (w w' : world) a Ts :
  winv comp w Ts → mutate w a w' →
  ∃ Ts', winv comp w' Ts' ∧ ∀ b, b ≠ a → Ts' !! b = Ts !! b.
Proof.
  assert (∀ w2 (t' : tree), winv comp w2 (<[a := t']> Ts) →
            ∃ Ts', winv comp w2 Ts' ∧ ∀ b, b ≠ a → Ts' !! b = Ts !! b) as Hins.
  { intros w2 t' H. exists (<[a := t']> Ts). split; [done|].
    intros b Hne. by rewrite lookup_insert_ne. }
  intros Hw Hstep. destruct Hstep as
    [a w' Hm|a fuel b w' Hb Hm|a fuel b w' Hb Hm|a fuel [k v] r w' Hm
    |a fuel k r w' Hm|a fuel pos w' Hv Hm|a fuel w' Hm|a t r v w' Hr Hz Hm].
  - destruct (objs w !! a) as [m|] eqn:Ha.
    { unfold map_ctor in Hm. by rewrite Ha in Hm. }
    destruct (ctor_ok comp w Ts a Hw Ha) as [Hc Hw']. rewrite Hc in Hm.
    injection Hm as <-. eauto.
  - destruct (winv_live _ _ _ _ Hw Hb) as [t Ht].
    destruct (objs w !! a) as [m|] eqn:Ha.
    { unfold map_copy_ctor, bind, map_ctor in Hm. by rewrite Ha in Hm. }
    destruct (copy_ctor_ok comp w Ts b t a (fuel `max` length (entries t)) Hw Ht Ha)
      as (w2 & t' & Hm2 & _ & Hw2); [lia|].
    assert (tt = tt ∧ w' = w2) as [_ <-] by
      (eapply more_fuel_det; [|exact Hm|exact Hm2]; apply more_fuel_map_copy_ctor, Nat.le_max_l).
    eauto.
  - destruct (decide (a = b)) as [->|Hne].
    { unfold map_assign in Hm. rewrite decide_True // in Hm. injection Hm as <-. eauto. }
    destruct (winv_live _ _ _ _ Hw Hb) as [t Ht].
    destruct (Ts !! a) as [t0|] eqn:Ha.
    2:{ apply (winv_None _ _ _ Hw) in Ha.
        unfold map_assign in Hm. rewrite decide_False // in Hm.
        unfold map_clear, bind at 1 2 in Hm.
        by rewrite (not_live_get_root _ _ Ha) in Hm. }
    destruct (assign_ok comp w Ts b t a t0
                (fuel `max` (length (entries t) `max` length (entries t0))) Hw Ht Ha)
      as (w2 & t' & Hm2 & _ & Hw2); [done|lia..|].
    assert (tt = tt ∧ w' = w2) as [_ <-] by
      (eapply more_fuel_det; [|exact Hm|exact Hm2]; apply more_fuel_map_assign, Nat.le_max_l).
    eauto.
  - destruct (Ts !! a) as [t|] eqn:Ha.
    2:{ apply (winv_None _ _ _ Hw) in Ha. unfold map_insert, bind at 1 in Hm.
        by rewrite (not_live_get_root _ _ Ha) in Hm. }
    destruct (insert_ok comp Hswo w Ts a t (fuel `max` length (entries t)) k v Hw Ha)
      as (r2 & w2 & t' & Hm2 & _ & Hw2); [lia|].
    assert (r = r2 ∧ w' = w2) as [<- <-] by
      (eapply more_fuel_det; [|exact Hm|exact Hm2]; apply more_fuel_map_insert, Nat.le_max_l).
    eauto.
  - destruct (Ts !! a) as [t|] eqn:Ha.
    2:{ apply (winv_None _ _ _ Hw) in Ha. unfold map_index, bind at 1 in Hm.
        by rewrite (not_live_get_root _ _ Ha) in Hm. }
    destruct (index_ok comp T_default Hswo w Ts a t (fuel `max` length (entries t)) k Hw Ha)
      as (r2 & w2 & t' & Hm2 & _ & Hw2); [lia|].
    assert (r = r2 ∧ w' = w2) as [<- <-] by
      (eapply more_fuel_det; [|exact Hm|exact Hm2]; apply more_fuel_map_index, Nat.le_max_l).
    eauto.
  - destruct pos as [o [z|]]; unfold map_erase in Hm; simpl in Hm.
    2:{ by rewrite orb_true_r in Hm. }
    rewrite orb_false_r in Hm.
    destruct (decide (o = Some a)) as [->|Hne].
    2:{ by rewrite bool_decide_eq_true_2 in Hm. }
    destruct Hv as (o & t & Ho & Hr & Hz). simpl in Ho. injection Ho as <-.
    pose proof (winv_repr _ _ _ _ _ Hw Hr) as Ha.
    destruct (erase_ok comp w Ts a t (fuel `max` length (entries t)) z Hw Ha)
      as (w2 & t' & Hm2 & _ & Hw2); [lia|done|].
    assert (map_erase a fuel (Iter (Some a) (Some z)) w = Ok tt w') as Hm'.
    { unfold map_erase. simpl. by rewrite orb_false_r. }
    assert (tt = tt ∧ w' = w2) as [_ <-] by
      (eapply more_fuel_det; [|exact Hm'|exact Hm2]; apply more_fuel_map_erase, Nat.le_max_l).
    eauto.
  - destruct (Ts !! a) as [t|] eqn:Ha.
    2:{ apply (winv_None _ _ _ Hw) in Ha. unfold map_clear, bind at 1 in Hm.
        by rewrite (not_live_get_root _ _ Ha) in Hm. }
    destruct (clear_ok comp w Ts a t (fuel `max` length (entries t)) Hw Ha)
      as (w2 & Hm2 & Hw2); [lia|].
    assert (tt = tt ∧ w' = w2) as [_ <-] by
      (eapply more_fuel_det; [|exact Hm|exact Hm2]; apply more_fuel_map_clear, Nat.le_max_l).
    eauto.
  - pose proof (winv_repr _ _ _ _ _ Hw Hr) as Ha.
    destruct (ref_assign_ok comp w Ts a t r v Hw Ha Hz)
      as (w2 & t' & Hm2 & _ & Hw2).
    rewrite Hm in Hm2. injection Hm2 as <-. eauto.
Qed.

(** Every reachable world satisfies the invariant. *)
Lemma reachable_winv w : reachable w → ∃ Ts, winv comp w Ts.
Proof.
  induction 1 as [|w a w' _ [Ts Hw] Hstep]; [exists ∅; apply winv_empty|].
  destruct (mutate_winv _ _ _ _ Hw Hstep) as (Ts' & Hw' & _). eauto.
Qed.

End reach.


(** * Lookups and cursors in a world *)

Section reads.
Context {Key T : Type}.
Variable comp : Key → Key → bool.
Notation hprop := (hprop (Key:=Key) (T:=T)).
Notation tree := (tree (Key:=Key) (T:=T)).
Notation world := (world (Key:=Key) (T:=T)).
Notation M := (M (Key:=Key) (T:=T)).
Notation entry := (ptr * (Key * T))%type.

Lemma bind_ok {A B} (m : M A) (k : A → M B) w a w' :
  m w = Ok a w' → bind m k w = k a w'.
Proof. intros H. unfold bind. by rewrite H. Qed.

Lemma repr_get_root (w : world) a (t : tree) :
  repr w a t → get_root a w = Ok (root_of t) w.
Proof. intros [H _]. unfold get_root, bind, load_map. by rewrite H. Qed.
Lemma repr_map_size (w : world) a (t : tree) :
  repr w a t → map_size a w = Ok (cnt t) w.
Proof. intros [H _]. unfold map_size, get_node_count, bind, load_map. by rewrite H. Qed.
Lemma repr_map_empty (w : world) a (t : tree) :
  repr w a t → map_empty a w = Ok (bool_decide (cnt t = 0%N)) w.
Proof.
  intros [H _]. unfold map_empty, get_node_count, bind, load_map. by rewrite H.
Qed.

(** An entry of the tree is the data of its node in the heap. *)
Lemma tree_at_data h : ∀ (t : tree) par z d,
  tree_at h par t → (z, d) ∈ entries t → ∃ nd, h !! z = Some nd ∧ data nd = d.
Proof.
  induction t as [|c l IHl p dp r IHr]; intros par z d; simpl.
  { by intros _ ?%elem_of_nil. }
  intros (Hp & Hl & Hr) [Hin|[Heq|Hin]%elem_of_cons]%elem_of_app.
  - by eapply IHl.
  - injection Heq as -> ->. eauto.
  - by eapply IHr.
Qed.
Lemma repr_ref_data (w : world) a (t : tree) z d :
  repr w a t → (z, d) ∈ entries t → ref_data z w = Ok d w.
Proof.
  intros [_ Ht] Hin. destruct (tree_at_data _ _ _ _ _ Ht Hin) as (nd & Hz & <-).
  unfold ref_data, get_data, bind, load. by rewrite Hz.
Qed.
Lemma repr_iter_deref (w : world) a (t : tree) o z :
  repr w a t → z ∈ ptrs t → iter_deref (Iter o (Some z)) w = Ok z w.
Proof.
  intros [_ Ht] ([z' d] & -> & Hin)%list_elem_of_fmap.
  destruct (tree_at_data _ _ _ _ _ Ht Hin) as (nd & Hz & _).
  unfold iter_deref, bind, load. simpl. by rewrite Hz.
Qed.

Section inv.
Variables (w : world) (Ts : gmap addr tree) (a : addr) (t : tree).
Hypothesis Hw : winv comp w Ts.
Hypothesis Ha : Ts !! a = Some t.
Hypothesis Hswo : StrictWeakOrder comp.

Lemma descend_ok fuel k :
  length (entries t) ≤ fuel →
  ∃ r, descend comp fuel k (root_of t) None w = Ok r w ∧
       descend_res comp k t None r.
Proof.
  intros Hf. pose proof (length_entries_height t).
  apply (winv_read comp _ _ w Ts a t Hw Ha); [apply readonly_descend|].
  intros Q. iIntros "[Hm Ht] HQ". iApply (wp_descend with "Ht"); [lia|].
  iIntros (r Hr) "Ht". iApply ("HQ" with "[//] [$Hm $Ht]").
Qed.

Lemma find_ok fuel k :
  length (entries t) ≤ fuel →
  ∃ r, find_node comp a fuel k w = Ok r w ∧ find_res comp k t r.
Proof.
  intros Hf. pose proof (length_entries_height t).
  destruct (winv_lookup _ _ _ _ _ Hw Ha) as (_ & _ & Hg). destruct Hg as (_ & _ & _ & Hb).
  apply (winv_read comp _ _ w Ts a t Hw Ha); [apply readonly_find_node|].
  intros Q. iIntros "Hm HQ". iApply (wp_find_node with "Hm HQ"); [done|done|lia].
Qed.

Lemma traverse_ok fuel :
  length (entries t) + length (entries t) ≤ fuel →
  traverse a fuel w = Ok (entries t) w.
Proof.
  intros Hf. pose proof (length_entries_height t).
  destruct (winv_read comp (traverse a fuel) (λ r, r = entries t) w Ts a t Hw Ha)
    as (r & Hr & ->); [apply readonly_traverse| |done].
  intros Q. iIntros "Hm HQ". iApply (wp_traverse with "Hm"); [lia|].
  iIntros "Hm". by iApply ("HQ" with "[] Hm").
Qed.

Lemma begin_ok fuel :
  length (entries t) ≤ fuel →
  map_begin a fuel w = Ok (Iter (Some a) (head (ptrs t))) w.
Proof.
  intros Hf. pose proof (length_entries_height t).
  destruct (winv_read comp (map_begin a fuel)
              (λ r, r = Iter (Some a) (head (ptrs t))) w Ts a t Hw Ha)
    as (r & Hr & ->); [apply readonly_map_begin| |done].
  intros Q. iIntros "Hm HQ". iApply (wp_map_begin with "Hm"); [lia|].
  iIntros "Hm". by iApply ("HQ" with "[] Hm").
Qed.

Lemma decr_end_ok fuel :
  length (entries t) ≤ fuel → t ≠ Leaf →
  iter_decr fuel (map_end a) w = Ok (Iter (Some a) (last (ptrs t))) w.
Proof.
  intros Hf Hne. pose proof (length_entries_height t).
  destruct (winv_read comp (iter_decr fuel (map_end a))
              (λ r, r = Iter (Some a) (last (ptrs t))) w Ts a t Hw Ha)
    as (r & Hr & ->); [apply readonly_iter_decr| |done].
  intros Q. iIntros "Hm HQ". iApply (wp_iter_decr_end with "Hm"); [lia|done|].
  iIntros "Hm". by iApply ("HQ" with "[] Hm").
Qed.

Lemma prev_ok fuel z :
  length (entries t) ≤ fuel → z ∈ ptrs t →
  ∃ r, prev_node fuel (Some z) w = Ok r w ∧
       ∀ l1 d l2, entries t = l1 ++ (z, d) :: l2 → r = last l1.*1.
Proof.
  intros Hf Hz. pose proof (length_entries_height t).
  apply (winv_read comp _ _ w Ts a t Hw Ha); [apply readonly_prev_node|].
  intros Q. iIntros "Hm HQ". iApply (wp_prev_node with "Hm HQ"); [lia|done].
Qed.
Lemma next_ok fuel z :
  length (entries t) ≤ fuel → z ∈ ptrs t →
  ∃ r, next_node fuel (Some z) w = Ok r w ∧
       ∀ l1 d l2, entries t = l1 ++ (z, d) :: l2 → r = head l2.*1.
Proof.
  intros Hf Hz. pose proof (length_entries_height t).
  apply (winv_read comp _ _ w Ts a t Hw Ha); [apply readonly_next_node|].
  intros Q. iIntros "Hm HQ". iApply (wp_next_node with "Hm HQ"); [lia|done].
Qed.

End inv.
End reads.


(** * The properties of [sjtu::map] *)

Section claims.
Context {Key T : Type}.
Variable comp : Key → Key → bool.
Variable T_default : T.
Hypothesis Hswo : StrictWeakOrder comp.
Notation tree := (tree (Key:=Key) (T:=T)).
Notation world := (world (Key:=Key) (T:=T)).
Notation M := (M (Key:=Key) (T:=T)).
Notation entry := (ptr * (Key * T))%type.
Notation reachable := (reachable comp T_default).

(** The number of black nodes on each path from the root to a null
    link, from left to right. *)
Fixpoint black_paths (t : tree) : list nat :=
  match t with
  | Leaf => [0]
  | Nd c l _ _ r => cadd c <$> (black_paths l ++ black_paths r)
  end.

Lemma balanced_black_paths (t : tree) :
  balanced t → ∀ n, n ∈ black_paths t → n = bh t.
Proof.
  induction t as [|c l IHl p d r IHr]; simpl.
  { by intros _ n ->%list_elem_of_singleton. }
  intros (Hb & Hl & Hr) n (m & -> & [Hm|Hm]%elem_of_app)%list_elem_of_fmap.
  - by rewrite (IHl Hl m Hm).
  - by rewrite (IHr Hr m Hm) Hb.
Qed.

Lemma reachable_lookup (w : world) a (t : tree) :
  reachable w → repr w a t →
  ∃ Ts, winv comp w Ts ∧ Ts !! a = Some t ∧ NoDup (ptrs t) ∧ good comp t.
Proof.
  intros [Ts Hw]%(reachable_winv comp T_default Hswo) Hr.
  pose proof (winv_repr _ _ _ _ _ Hw Hr) as Ha.
  destruct (winv_lookup _ _ _ _ _ Hw Ha) as (_ & Hnd & Hg). eauto.
Qed.

(** C1. In every world reached from the empty one by the mutating
    operations of the interface (construction, [insert], [operator[]],
    [erase], [clear], copy construction, copy assignment, a write
    through a reference), every live map holds a tree whose root is
    black or which is empty, in which no red node has a red child, and
    in which all paths from the root to a null link count the same
    number of black nodes. *)
Theorem C1_red_black_invariants (w : world) (a : addr) :
  reachable w → a ∈ dom (objs w) →
  ∃ t : tree,
    repr w a t ∧ rcol t = false ∧ nrr t ∧
    ∀ n m, n ∈ black_paths t → m ∈ black_paths t → n = m.
Proof.
  intros [Ts Hw]%(reachable_winv comp T_default Hswo) Ha.
  destruct (winv_live _ _ _ _ Hw Ha) as [t Ht].
  destruct (winv_lookup _ _ _ _ _ Hw Ht) as (Hr & _ & Hc & Hn & Hb & _).
  exists t. split_and!; [done..|]. intros n m Hn' Hm'.
  by rewrite (balanced_black_paths t Hb n Hn') (balanced_black_paths t Hb m Hm').
Qed.

(** C2. In a reachable world the loop from [begin()] to [end()] by
    [++] returns, and visits the nodes of the tree of the map from left
    to right, each once; their keys increase strictly under [comp], so
    that no two of them are equivalent; and [size()] is the number of
    entries visited, as a [size_t]: it equals that number when the number
    fits 64 bits. *)
Theorem C2_traversal_sorted_and_size (w : world) (a : addr) (t : tree) (fuel : nat) :
  reachable w → repr w a t →
  length (entries t) + length (entries t) ≤ fuel →
  ∃ es : list entry,
    traverse a fuel w = Ok es w ∧ es = entries t ∧ NoDup es.*1 ∧
    sorted_entries comp es ∧
    (∀ i j e1 e2, es !! i = Some e1 → es !! j = Some e2 → i ≠ j →
                  eq_key comp (ekey e1) (ekey e2) = false) ∧
    map_size a w = Ok (size_t_wrap (N.of_nat (length es))) w ∧
    ((N.of_nat (length es) < size_t_modulus)%N →
     map_size a w = Ok (N.of_nat (length es)) w).
Proof.
  intros Hreach Hr Hf.
  destruct (reachable_lookup w a t Hreach Hr) as (Ts & Hw & Ha & Hnd & Hg).
  exists (entries t). destruct Hg as (_ & _ & _ & Hs).
  split_and!; [by eapply traverse_ok|done|done|done| | |].
  - intros i j e1 e2 Hi Hj Hne. destruct (eq_key _ _ _) eqn:Heq; [|done].
    exfalso. apply Hne.
    assert (e1 = e2) as ->.
    { eapply (sorted_key_unique comp); [exact Hs|by eapply list_elem_of_lookup_2..|done]. }
    eapply NoDup_lookup; [exact Hnd|by rewrite list_lookup_fmap ?Hi ?Hj..].
  - by apply repr_map_size.
  - intros Hlt. rewrite (repr_map_size w a t Hr). unfold cnt, size_t_wrap.
    by rewrite N.mod_small.
Qed.

Lemma find_absent_results (w : world) a fuel k :
  find_node comp a fuel k w = Ok None w →
  map_find comp a fuel k w = Ok (map_end a) w ∧
  map_count comp a fuel k w = Ok 0%N w ∧
  map_at comp a fuel k w = Throw index_out_of_bound w.
Proof.
  intros H. unfold map_find, map_count, map_at.
  by rewrite !(bind_ok _ _ _ _ _ H).
Qed.
Lemma find_present_results (w : world) a fuel k c :
  find_node comp a fuel k w = Ok (Some c) w →
  map_find comp a fuel k w = Ok (Iter (Some a) (Some c)) w ∧
  map_count comp a fuel k w = Ok 1%N w ∧
  map_at comp a fuel k w = Ok c w.
Proof.
  intros H. unfold map_find, map_count, map_at.
  by rewrite !(bind_ok _ _ _ _ _ H).
Qed.

Lemma cnt_fits (t : tree) :
  (N.of_nat (length (entries t)) < size_t_modulus)%N →
  cnt t = N.of_nat (length (entries t)).
Proof. intros H. unfold cnt, size_t_wrap. by rewrite N.mod_small. Qed.

(** C3. [insert] of a key that has an entry returns the cursor at that
    entry together with [false], and the world it leaves is the world
    it found: the size, the value stored for the key and every other
    entry are as before. *)
Theorem C3_duplicate_insert (w : world) (a : addr) (t : tree) (fuel : nat)
    (k : Key) (v : T) (c : ptr) (d : Key * T) :
  reachable w → repr w a t → length (entries t) ≤ fuel →
  (c, d) ∈ entries t → eq_key comp k d.1 = true →
  map_insert comp a fuel (k, v) w = Ok (Iter (Some a) (Some c), false) w.
Proof.
  intros Hreach Hr Hf Hin Heq.
  destruct (reachable_lookup w a t Hreach Hr) as (Ts & Hw & Ha & Hnd & Hg).
  destruct (descend_ok comp w Ts a t Hw Ha fuel k Hf) as (r & Hd & Hres).
  unfold map_insert. rewrite (bind_ok _ _ _ _ _ (repr_get_root w a t Hr)).
  simpl. rewrite (bind_ok _ _ _ _ _ Hd). destruct Hg as (_ & _ & _ & Hb).
  destruct r as [c'|p].
  - destruct (descend_found _ _ _ _ _ Hres) as (d' & Hin' & Heq').
    assert ((c, d) = (c', d')) as [= <- <-]; [|done].
    by eapply (has_key_unique comp Hswo k t).
  - exfalso. eapply descend_absent; [done..|]. by exists (c, d).
Qed.

(** C4. [erase] at the cursor of an entry returns; afterwards [find]
    of its key returns [end()], [count] returns 0, [at] throws
    [index_out_of_bound], and [size()] is one less than before (the
    number of entries fitting 64 bits). *)
Theorem C4_erase_then_lookup (w : world) (a : addr) (t : tree) (fuel : nat)
    (z : ptr) (d : Key * T) :
  reachable w → repr w a t → length (entries t) ≤ fuel →
  (z, d) ∈ entries t →
  ∃ (w' : world) (t' : tree) (n n' : N),
    map_erase a fuel (Iter (Some a) (Some z)) w = Ok tt w' ∧
    repr w' a t' ∧
    map_find comp a fuel d.1 w' = Ok (map_end a) w' ∧
    map_count comp a fuel d.1 w' = Ok 0%N w' ∧
    map_at comp a fuel d.1 w' = Throw index_out_of_bound w' ∧
    map_size a w = Ok n w ∧ map_size a w' = Ok n' w' ∧
    ((N.of_nat (length (entries t)) < size_t_modulus)%N → (n' + 1)%N = n).
Proof.
  intros Hreach Hr Hf Hin.
  destruct (reachable_lookup w a t Hreach Hr) as (Ts & Hw & Ha & Hnd & Hg).
  assert (z ∈ ptrs t) as Hz.
  { apply list_elem_of_fmap. by exists (z, d). }
  destruct (erase_ok comp w Ts a t fuel z Hw Ha Hf Hz)
    as (w' & t' & He & (Hg' & l1 & d0 & l2 & Hl & Hl') & Hw').
  assert (d0 = d) as ->.
  { eapply (entries_fst_unique (entries t)); [done| |done].
    rewrite Hl. apply elem_of_app. right. by left. }
  assert (<[a := t']> Ts !! a = Some t') as Ha' by apply lookup_insert_eq.
  destruct (winv_lookup _ _ _ _ _ Hw' Ha') as (Hr' & _ & _).
  assert (length (entries t') ≤ fuel) as Hf'.
  { rewrite Hl in Hf. rewrite Hl'. rewrite !length_app /= in Hf |- *. lia. }
  destruct (find_ok comp w' _ a t' Hw' Ha' Hswo fuel d.1 Hf') as (r & Hfind & Hres).
  assert (r = None) as ->.
  { destruct r as [c|]; [|done]. exfalso. destruct Hres as (d' & Hin' & Heq).
    destruct Hg as (_ & _ & _ & Hb).
    assert ((z, d) = (c, d')) as [= <- <-].
    { eapply (sorted_key_unique comp); [exact Hb|done| |done].
      rewrite Hl. rewrite Hl' in Hin'.
      apply elem_of_app in Hin' as [?|?]; apply elem_of_app; [by left|right; by right]. }
    unfold ptrs in Hnd. rewrite Hl fmap_app /= in Hnd.
    apply NoDup_app in Hnd as (_ & Hnd1 & Hnd2). apply NoDup_cons in Hnd2 as [Hnd2 _].
    rewrite Hl' in Hin'. apply elem_of_app in Hin' as [Hin'|Hin'].
    - apply (Hnd1 z); [|by left]. apply list_elem_of_fmap. by exists (z, d).
    - apply Hnd2. apply list_elem_of_fmap. by exists (z, d). }
  destruct (find_absent_results w' a fuel d.1 Hfind) as (H1 & H2 & H3).
  exists w', t', (cnt t), (cnt t').
  split_and!; [done..|by apply repr_map_size|by apply repr_map_size|].
  intros Hfit. rewrite !cnt_fits; [|done|].
  - rewrite Hl Hl' !length_app /=. lia.
  - rewrite Hl !length_app /= in Hfit. rewrite Hl' length_app. lia.
Qed.

(** C5. [operator[]] on a key that has an entry returns the reference
    to that entry and leaves the world as it found it; on a key that has
    none it links a new entry with the default value at the place the
    order gives it, returns the reference to it, makes [count] answer 1
    and [size()] one more than before (the number of entries fitting 64
    bits).  The lookups [at], [operator[] const], [find], [count] and
    the observers [size], [empty] and [begin] leave every world as they
    find it. *)
Theorem C5_index_access (w : world) (a : addr) (t : tree) (fuel : nat) (k : Key) :
  reachable w → repr w a t → length (entries t) < fuel →
  (∀ c d, (c, d) ∈ entries t → eq_key comp k d.1 = true →
          map_index comp T_default a fuel k w = Ok c w ∧ ref_data c w = Ok d w) ∧
  (¬ has_key comp (entries t) k →
   ∃ (z : ptr) (w' : world) (t' : tree) l1 l2 (n n' : N),
     map_index comp T_default a fuel k w = Ok z w' ∧ repr w' a t' ∧
     entries t = l1 ++ l2 ∧ entries t' = l1 ++ (z, (k, T_default)) :: l2 ∧
     ref_data z w' = Ok (k, T_default) w' ∧
     map_count comp a fuel k w' = Ok 1%N w' ∧
     map_size a w = Ok n w ∧ map_size a w' = Ok n' w' ∧
     ((N.of_nat (length (entries t')) < size_t_modulus)%N → n' = (n + 1)%N)) ∧
  (∀ b fuel' k',
     readonly (map_at (T:=T) comp b fuel' k') ∧
     readonly (map_index_const (T:=T) comp b fuel' k') ∧
     readonly (map_find (T:=T) comp b fuel' k') ∧
     readonly (map_count (T:=T) comp b fuel' k') ∧
     readonly (map_size (Key:=Key) (T:=T) b) ∧
     readonly (map_empty (Key:=Key) (T:=T) b) ∧
     readonly (map_begin (Key:=Key) (T:=T) b fuel')).
Proof.
  intros Hreach Hr Hf.
  destruct (reachable_lookup w a t Hreach Hr) as (Ts & Hw & Ha & Hnd & Hg).
  split_and!.
  - intros c d Hin Heq.
    destruct (descend_ok comp w Ts a t Hw Ha fuel k) as (r & Hd & Hres); [lia|].
    split; [|by eapply repr_ref_data].
    unfold map_index. rewrite (bind_ok _ _ _ _ _ (repr_get_root w a t Hr)).
    rewrite (bind_ok _ _ _ _ _ Hd). destruct Hg as (_ & _ & _ & Hb).
    destruct r as [c'|p].
    + destruct (descend_found _ _ _ _ _ Hres) as (d' & Hin' & Heq').
      assert ((c, d) = (c', d')) as [= <- <-]; [|done].
      by eapply (has_key_unique comp Hswo k t).
    + exfalso. eapply descend_absent; [done..|]. by exists (c, d).
  - intros Habs.
    destruct (index_ok comp T_default Hswo w Ts a t fuel k Hw Ha)
      as (z & w' & t' & Hm & Hres & Hw'); [lia|].
    destruct Hres as [(d & Hin & Heq & _)|(l1 & l2 & _ & Hl & Hl' & Hg')].
    { exfalso. apply Habs. by exists (z, d). }
    assert (<[a := t']> Ts !! a = Some t') as Ha' by apply lookup_insert_eq.
    destruct (winv_lookup _ _ _ _ _ Hw' Ha') as (Hr' & _ & _).
    assert ((z, (k, T_default)) ∈ entries t') as Hin.
    { rewrite Hl'. apply elem_of_app. right. by left. }
    destruct (find_ok comp w' _ a t' Hw' Ha' Hswo fuel k) as (r & Hfind & Hfres).
    { rewrite Hl' length_app /=. rewrite Hl length_app in Hf. lia. }
    destruct r as [c|].
    2:{ exfalso. apply Hfres. exists (z, (k, T_default)). split; [done|].
        apply (eq_key_refl comp Hswo). }
    destruct (find_present_results w' a fuel k c Hfind) as (_ & Hcount & _).
    exists z, w', t', l1, l2, (cnt t), (cnt t').
    split_and!.
    + done.
    + done.
    + done.
    + done.
    + by eapply repr_ref_data.
    + done.
    + by apply repr_map_size.
    + by apply repr_map_size.
    + intros Hfit. rewrite !cnt_fits.
      * rewrite Hl Hl' !length_app /=. lia.
      * rewrite Hl' !length_app /= in Hfit. rewrite Hl length_app. lia.
      * done.
  - intros b fuel' k'. split_and!.
    + apply readonly_map_at.
    + apply readonly_map_at.
    + apply readonly_map_find.
    + apply readonly_map_count.
    + apply readonly_map_size.
    + apply readonly_map_empty.
    + apply readonly_map_begin.
Qed.

(** C6, as the code has it.  At the end cursor of a map [operator*]
    and [++] throw [invalid_iterator]; [operator->] is declared
    [noexcept] and tests nothing: at the end cursor it throws nothing,
    and forms [&cur->data] from the null [cur].  [--] throws
    [invalid_iterator] at [begin()] of a map that has entries and at the
    end cursor of a map that has none; at the end cursor of a map that
    has entries [--] returns the cursor at the last entry, whose key is
    above all the others.  The world is the same after each of the
    calls that return or throw. *)
Theorem C6_cursor_boundaries_amended (w : world) (a : addr) (t : tree) (fuel : nat) :
  reachable w → repr w a t → length (entries t) ≤ fuel →
  iter_deref (map_end a) w = Throw invalid_iterator w ∧
  iter_arrow (map_end a) w = Fault ∧
  (∀ e (w' : world), iter_arrow (map_end a) w ≠ Throw e w') ∧
  iter_incr fuel (map_end a) w = Throw invalid_iterator w ∧
  (t ≠ Leaf → ∃ b, map_begin a fuel w = Ok b w ∧
                   iter_decr fuel b w = Throw invalid_iterator w) ∧
  (t = Leaf → iter_decr fuel (map_end a) w = Throw invalid_iterator w) ∧
  (t ≠ Leaf → ∃ z d, iter_decr fuel (map_end a) w = Ok (Iter (Some a) (Some z)) w ∧
                     last (entries t) = Some (z, d) ∧
                     ∀ e, e ∈ entries t → e ≠ (z, d) → comp (ekey e) d.1 = true).
Proof.
  intros Hreach Hr Hf.
  destruct (reachable_lookup w a t Hreach Hr) as (Ts & Hw & Ha & Hnd & Hg).
  split_and!; [done|done|done|done| | |].
  - intros Hne. exists (Iter (Some a) (head (ptrs t))).
    split; [by eapply begin_ok|].
    assert (∃ z d l2, entries t = (z, d) :: l2) as (z & d & l2 & He).
    { destruct (entries t) as [|[z d] l2] eqn:He; [|by eauto].
      destruct t; [done|]. simpl in He. by destruct (entries t1). }
    unfold ptrs. rewrite He /=.
    destruct (prev_ok comp w Ts a t Hw Ha fuel z Hf) as (r & Hp & Hres).
    { unfold ptrs. rewrite He. by left. }
    specialize (Hres [] d l2 He). simpl in Hres. subst r.
    change (iter_decr fuel (Iter (Some a) (Some z)) w) with
      (bind (prev_node fuel (Some z))
         (λ prv, match prv with
                 | None => throw invalid_iterator
                 | Some _ => ret (Iter (Some a) prv)
                 end) w).
    by rewrite (bind_ok _ _ _ _ _ Hp).
  - intros ->. unfold iter_decr, map_end. simpl.
    by rewrite (bind_ok _ _ _ _ _ (repr_get_root w a Leaf Hr)).
  - intros Hne.
    destruct (last (entries t)) as [[z d]|] eqn:Hl.
    2:{ apply last_None in Hl. destruct t; [done|]. simpl in Hl.
        by destruct (entries t1). }
    exists z, d. split_and!; [|done|].
    + rewrite (decr_end_ok comp w Ts a t Hw Ha fuel Hf Hne).
      unfold ptrs. by rewrite fmap_last Hl.
    + intros e Hin Hne'. apply last_Some in Hl as [l Hl].
      destruct Hg as (_ & _ & _ & Hb). unfold bst in Hb. rewrite Hl in Hb, Hin.
      apply sorted_app_inv in Hb as (_ & _ & Hb).
      apply elem_of_app in Hin as [Hin|Hin%list_elem_of_singleton]; [|done].
      apply (Hb e (z, d)); [done|by left].
Qed.

(** C7. [erase] at a cursor that refers to nothing stale throws
    [invalid_iterator] exactly when the cursor belongs to another map
    (or to none) or is an end cursor, and then the world is the one it
    found; otherwise it returns, the entry of the cursor is gone from the
    sequence of entries, the other entries keep their nodes, values and
    order, and every other map is as before. *)
Theorem C7_erase_cursor (w : world) (a : addr) (t : tree) (fuel : nat)
    (pos : iterator) :
  reachable w → repr w a t → length (entries t) ≤ fuel → valid_cursor w pos →
  ((∃ w', map_erase a fuel pos w = Throw invalid_iterator w') ↔
   (owner pos ≠ Some a ∨ cur pos = None)) ∧
  (∀ e w', map_erase a fuel pos w = Throw e w' → w' = w) ∧
  (∀ z, owner pos = Some a → cur pos = Some z →
        ∃ (w' : world) (t' : tree) l1 d l2,
          map_erase a fuel pos w = Ok tt w' ∧ repr w' a t' ∧
          entries t = l1 ++ (z, d) :: l2 ∧ entries t' = l1 ++ l2 ∧
          ∀ b (tb : tree), b ≠ a → repr w b tb → repr w' b tb).
Proof.
  intros Hreach Hr Hf Hv.
  destruct (reachable_lookup w a t Hreach Hr) as (Ts & Hw & Ha & Hnd & Hg).
  assert (∀ z, owner pos = Some a → cur pos = Some z →
        ∃ (w' : world) (t' : tree) l1 d l2,
          map_erase a fuel pos w = Ok tt w' ∧ repr w' a t' ∧
          entries t = l1 ++ (z, d) :: l2 ∧ entries t' = l1 ++ l2 ∧
          ∀ b (tb : tree), b ≠ a → repr w b tb → repr w' b tb) as Hok.
  { intros z Ho Hc. destruct pos as [o c]. simpl in Ho, Hc. subst o c.
    destruct Hv as (o & t0 & [= <-] & Hr0 & Hz).
    rewrite -(repr_unique _ _ _ _ Hr Hr0) in Hz.
    destruct (erase_ok comp w Ts a t fuel z Hw Ha Hf Hz)
      as (w' & t' & He & (Hg' & l1 & d & l2 & Hl & Hl') & Hw').
    exists w', t', l1, d, l2. split_and!; [done| |done|done|].
    - eapply winv_lookup; [exact Hw'|apply lookup_insert_eq].
    - intros b tb Hne Hrb. eapply winv_lookup; [exact Hw'|].
      rewrite lookup_insert_ne; [|done]. by eapply winv_repr. }
  assert (owner pos ≠ Some a ∨ cur pos = None →
          map_erase a fuel pos w = Throw invalid_iterator w) as Hthrow.
  { intros Hc. unfold map_erase.
    destruct Hc as [Hc|Hc]; [rewrite bool_decide_eq_true_2 //|].
    by rewrite (bool_decide_eq_true_2 (cur pos = None)) // orb_true_r. }
  assert (Decision (owner pos ≠ Some a ∨ cur pos = None)) as Hdec by apply _.
  split_and!; [split| |done].
  - intros [w' Ht]. destruct Hdec as [|Hn]; [done|]. exfalso.
    destruct (cur pos) as [z|] eqn:Hc; [|by apply Hn; right].
    destruct (decide (owner pos = Some a)) as [Ho|Ho]; [|by apply Hn; left].
    destruct (Hok z Ho eq_refl) as (w2 & ? & ? & ? & ? & He & _). congruence.
  - intros Hc. exists w. by apply Hthrow.
  - intros e w' Ht. destruct Hdec as [Hc|Hn].
    + rewrite (Hthrow Hc) in Ht. by injection Ht.
    + exfalso. destruct (cur pos) as [z|] eqn:Hc; [|by apply Hn; right].
      destruct (decide (owner pos = Some a)) as [Ho|Ho]; [|by apply Hn; left].
      destruct (Hok z Ho eq_refl) as (w2 & ? & ? & ? & ? & He & _). congruence.
Qed.

(** A call on one map leaves every other map as it is. *)
Lemma mutate_frame (w w' : world) (b c : addr) (tc : tree) :
  reachable w → mutate comp T_default w b w' → c ≠ b →
  repr w c tc → repr w' c tc.
Proof.
  intros Hreach Hm Hne Hr.
  destruct (reachable_lookup w c tc Hreach Hr) as (Ts & Hw & Hc & _).
  destruct (mutate_winv comp T_default Hswo w w' b Ts Hw Hm) as (Ts' & Hw' & Hfr).
  eapply winv_lookup; [exact Hw'|]. by rewrite Hfr.
Qed.

(** C9. The copy constructor and the copy assignment return and leave
    the source as it was; the copy holds the keys and values of the
    source in the order of the traversal, in nodes of its own, and
    [size()] answers the same for both.  Afterwards, as in every
    reachable world, a call that mutates one map ([insert],
    [operator[]], [erase], [clear], an assignment to it, a write through
    a reference to one of its entries) leaves the tree of every other
    map as it is: the same nodes, keys, values and order. *)
Theorem C9_deep_copy_independence (w : world) (a : addr) (tA : tree) (fuel : nat) :
  reachable w → repr w a tA → length (entries tA) ≤ fuel →
  (∀ b, objs w !! b = None →
        ∃ (w' : world) (tB : tree) (n : N),
          map_copy_ctor b fuel a w = Ok tt w' ∧ repr w' a tA ∧ repr w' b tB ∧
          (entries tB).*2 = (entries tA).*2 ∧
          map_size a w' = Ok n w' ∧ map_size b w' = Ok n w') ∧
  (∀ b (tB0 : tree), b ≠ a → repr w b tB0 → length (entries tB0) ≤ fuel →
        ∃ (w' : world) (tB : tree) (n : N),
          map_assign b fuel a w = Ok tt w' ∧ repr w' a tA ∧ repr w' b tB ∧
          (entries tB).*2 = (entries tA).*2 ∧
          map_size a w' = Ok n w' ∧ map_size b w' = Ok n w') ∧
  (∀ b (w' : world) c (tc : tree),
        mutate comp T_default w b w' → c ≠ b → repr w c tc → repr w' c tc).
Proof.
  intros Hreach Hr Hf.
  destruct (reachable_lookup w a tA Hreach Hr) as (Ts & Hw & Ha & Hnd & Hg).
  split_and!.
  - intros b Hb.
    destruct (copy_ctor_ok comp w Ts a tA b fuel Hw Ha Hb Hf)
      as (w' & tB & Hm & Hs & Hw').
    assert (a ≠ b) as Hne.
    { intros ->. destruct Hr as [Hr _]. congruence. }
    assert (repr w' b tB) as HrB.
    { eapply winv_lookup; [exact Hw'|apply lookup_insert_eq]. }
    assert (repr w' a tA) as HrA.
    { eapply winv_lookup; [exact Hw'|]. by rewrite lookup_insert_ne. }
    exists w', tB, (cnt tA). split_and!; [done..| | |].
    + symmetry. by apply tree_sim_entries.
    + by apply repr_map_size.
    + rewrite (tree_sim_cnt _ _ Hs). by apply repr_map_size.
  - intros b tB0 Hne HrB0 Hf0.
    pose proof (winv_repr _ _ _ _ _ Hw HrB0) as Hb.
    destruct (assign_ok comp w Ts a tA b tB0 fuel Hw Ha Hb) as (w' & tB & Hm & Hs & Hw');
      [done..|].
    assert (repr w' b tB) as HrB.
    { eapply winv_lookup; [exact Hw'|apply lookup_insert_eq]. }
    assert (repr w' a tA) as HrA.
    { eapply winv_lookup; [exact Hw'|]. by rewrite lookup_insert_ne. }
    exists w', tB, (cnt tA). split_and!; [done..| | |].
    + symmetry. by apply tree_sim_entries.
    + by apply repr_map_size.
    + rewrite (tree_sim_cnt _ _ Hs). by apply repr_map_size.
  - intros b w' c tc Hm Hne Hrc. by eapply mutate_frame.
Qed.

(** C10. On a key that has no entry [operator[] const] throws
    [index_out_of_bound] and leaves the world as it found it, where the
    mutable [operator[]] returns a reference; on every input it is
    [at]. *)
Theorem C10_const_index_is_at (w : world) (a : addr) (t : tree) (fuel : nat) (k : Key) :
  reachable w → repr w a t → length (entries t) ≤ fuel →
  ¬ has_key comp (entries t) k →
  map_index_const comp a fuel k w = Throw index_out_of_bound w ∧
  (∀ b fuel' k' (w0 : world),
     map_index_const comp b fuel' k' w0 = map_at comp b fuel' k' w0) ∧
  (∃ z (w' : world), map_index comp T_default a fuel k w = Ok z w').
Proof.
  intros Hreach Hr Hf Habs.
  destruct (reachable_lookup w a t Hreach Hr) as (Ts & Hw & Ha & Hnd & Hg).
  split_and!; [|done|].
  - destruct (find_ok comp w Ts a t Hw Ha Hswo fuel k Hf) as (r & Hfind & Hres).
    destruct r as [c|].
    { exfalso. destruct Hres as (d & Hin & Heq). apply Habs. by exists (c, d). }
    unfold map_index_const. by apply find_absent_results.
  - destruct (index_ok comp T_default Hswo w Ts a t fuel k Hw Ha Hf)
      as (z & w' & t' & Hm & _). eauto.
Qed.

End claims.

Section default_cursor.
Context {Key T : Type}.
Notation world := (world (Key:=Key) (T:=T)).

(** C8, as the code has it.  On the default-constructed cursor
    [operator*], [++] and [--], prefix and postfix, throw
    [invalid_iterator] and leave the world as it is.  [operator->] is
    declared [noexcept] and tests nothing: it throws nothing, and forms
    [&cur->data] from the null [cur]. *)
Theorem C8_default_cursor_amended (w : world) (fuel : nat) :
  iter_deref iterator_default w = Throw invalid_iterator w ∧
  iter_incr fuel iterator_default w = Throw invalid_iterator w ∧
  iter_decr fuel iterator_default w = Throw invalid_iterator w ∧
  iter_post_incr fuel iterator_default w = Throw invalid_iterator w ∧
  iter_post_decr fuel iterator_default w = Throw invalid_iterator w ∧
  iter_arrow iterator_default w = Fault ∧
  ∀ e (w' : world), iter_arrow iterator_default w ≠ Throw e w'.
Proof. by split_and!. Qed.

End default_cursor.


(** * A map of integers *)

Lemma Zltb_swo : StrictWeakOrder Z.ltb.
Proof.
  split.
  - intros a. apply Z.ltb_irrefl.
  - intros a b c ?%Z.ltb_lt ?%Z.ltb_lt. apply Z.ltb_lt. lia.
  - intros a b c. rewrite !eq_key_spec !Z.ltb_ge. lia.
Qed.

(** The world a computation leaves, and whether it returns. *)
Definition exec {Key T A} (m : M (Key:=Key) (T:=T) A) (w : world) : world :=
  match m w with Ok _ w' => w' | _ => w end.
Definition returns {Key T A} (m : M (Key:=Key) (T:=T) A) (w : world) : bool :=
  match m w with Ok _ _ => true | _ => false end.
Lemma exec_ok {Key T A} (m : M (Key:=Key) (T:=T) A) w :
  returns m w = true → ∃ r, m w = Ok r (exec m w).
Proof. unfold returns, exec. destruct (m w); eauto; discriminate. Qed.

(** [map<int, int> m; m.insert({5, 50}); m.insert({3, 30});
    m.insert({8, 80});] with the map at address 1. *)
Definition demo0 : world (Key:=Z) (T:=Z) := exec (map_ctor 1) wempty.
Definition demo1 : world := exec (map_insert Z.ltb 1 9 (5, 50)%Z) demo0.
Definition demo2 : world := exec (map_insert Z.ltb 1 9 (3, 30)%Z) demo1.
Definition demo3 : world := exec (map_insert Z.ltb 1 9 (8, 80)%Z) demo2.
(** The tree these calls build: a black root with two red children. *)
Definition demo_tree : tree (Key:=Z) (T:=Z) :=
  Nd false (Nd true Leaf 2%positive (3, 30)%Z Leaf) 1%positive (5, 50)%Z
     (Nd true Leaf 3%positive (8, 80)%Z Leaf).

Lemma demo3_reachable : reachable Z.ltb 0%Z demo3.
Proof.
  assert (reachable Z.ltb 0%Z demo0) as H0.
  { destruct (exec_ok (map_ctor 1) (wempty (Key:=Z) (T:=Z))) as [[] Hr]; [done|].
    eapply reach_step; [apply reach_empty|]. eapply mut_ctor, Hr. }
  assert (reachable Z.ltb 0%Z demo1) as H1.
  { destruct (exec_ok (map_insert Z.ltb 1 9 (5, 50)%Z) demo0) as [r Hr];
      [by vm_compute|].
    eapply reach_step; [exact H0|]. eapply mut_insert, Hr. }
  assert (reachable Z.ltb 0%Z demo2) as H2.
  { destruct (exec_ok (map_insert Z.ltb 1 9 (3, 30)%Z) demo1) as [r Hr];
      [by vm_compute|].
    eapply reach_step; [exact H1|]. eapply mut_insert, Hr. }
  destruct (exec_ok (map_insert Z.ltb 1 9 (8, 80)%Z) demo2) as [r Hr];
    [by vm_compute|].
  eapply reach_step; [exact H2|]. eapply mut_insert, Hr.
Qed.

Lemma demo3_repr : repr demo3 1 demo_tree.
Proof. split; [by vm_compute|]. simpl. repeat split; by vm_compute. Qed.

Lemma demo_absent_7 : ¬ has_key Z.ltb (entries demo_tree) 7%Z.
Proof.
  intros (e & Hin & Heq). simpl in Hin.
  repeat (apply elem_of_cons in Hin as [->|Hin]; [by vm_compute in Heq|]).
  by apply elem_of_nil in Hin.
Qed.

Lemma C1_witness :
  reachable Z.ltb 0%Z demo3 ∧ 1%positive ∈ dom (objs demo3) ∧
  ∃ t : tree (Key:=Z) (T:=Z),
    repr demo3 1 t ∧ rcol t = false ∧ nrr t ∧
    ∀ n m, n ∈ black_paths t → m ∈ black_paths t → n = m.
Proof.
  assert (1%positive ∈ dom (objs demo3)) as Hlive by (by vm_compute).
  split_and!; [exact demo3_reachable|exact Hlive|].
  exact (C1_red_black_invariants Z.ltb 0%Z Zltb_swo demo3 1 demo3_reachable Hlive).
Defined.

Lemma C2_witness :
  ∃ es : list (ptr * (Z * Z)),
    traverse 1 9 demo3 = Ok es demo3 ∧ es = entries demo_tree ∧ NoDup es.*1 ∧
    sorted_entries Z.ltb es ∧
    (∀ i j e1 e2, es !! i = Some e1 → es !! j = Some e2 → i ≠ j →
                  eq_key Z.ltb (ekey e1) (ekey e2) = false) ∧
    map_size 1 demo3 = Ok (size_t_wrap (N.of_nat (length es))) demo3 ∧
    ((N.of_nat (length es) < size_t_modulus)%N →
     map_size 1 demo3 = Ok (N.of_nat (length es)) demo3).
Proof.
  apply (C2_traversal_sorted_and_size Z.ltb 0%Z Zltb_swo demo3 1 demo_tree 9
           demo3_reachable demo3_repr).
  simpl. lia.
Defined.

Lemma C3_witness :
  map_insert Z.ltb 1 9 (3, 99)%Z demo3 =
  Ok (Iter (Some 1%positive) (Some 2%positive), false) demo3.
Proof.
  apply (C3_duplicate_insert Z.ltb 0%Z Zltb_swo demo3 1 demo_tree 9 3%Z 99%Z
           2%positive (3, 30)%Z demo3_reachable demo3_repr).
  - simpl. lia.
  - simpl. set_solver.
  - reflexivity.
Defined.

Lemma C4_witness :
  ∃ (w' : world (Key:=Z) (T:=Z)) (t' : tree) (n n' : N),
    map_erase 1 9 (Iter (Some 1%positive) (Some 2%positive)) demo3 = Ok tt w' ∧
    repr w' 1 t' ∧
    map_find Z.ltb 1 9 3%Z w' = Ok (map_end 1) w' ∧
    map_count Z.ltb 1 9 3%Z w' = Ok 0%N w' ∧
    map_at Z.ltb 1 9 3%Z w' = Throw index_out_of_bound w' ∧
    map_size 1 demo3 = Ok n demo3 ∧ map_size 1 w' = Ok n' w' ∧
    ((N.of_nat (length (entries demo_tree)) < size_t_modulus)%N → (n' + 1)%N = n).
Proof.
  apply (C4_erase_then_lookup Z.ltb 0%Z Zltb_swo demo3 1 demo_tree 9
           2%positive (3, 30)%Z demo3_reachable demo3_repr).
  - simpl. lia.
  - simpl. set_solver.
Defined.

Lemma C5_witness :
  ∃ (z : ptr) (w' : world (Key:=Z) (T:=Z)),
    map_index Z.ltb 0%Z 1 9 7%Z demo3 = Ok z w' ∧
    ref_data z w' = Ok (7, 0)%Z w' ∧
    map_count Z.ltb 1 9 7%Z w' = Ok 1%N w'.
Proof.
  destruct (C5_index_access Z.ltb 0%Z Zltb_swo demo3 1 demo_tree 9 7%Z
              demo3_reachable demo3_repr) as (_ & Habsent & _).
  { simpl. lia. }
  destruct (Habsent demo_absent_7)
    as (z & w' & t' & l1 & l2 & n & n' & Hm & _ & _ & _ & Hd & Hc & _).
  exists z, w'. split; [exact Hm|]. split; [exact Hd|exact Hc].
Defined.

Lemma C6_witness :
  iter_deref (map_end 1) demo3 = Throw invalid_iterator demo3 ∧
  iter_arrow (map_end 1) demo3 = Fault ∧
  iter_incr 9 (map_end 1) demo3 = Throw invalid_iterator demo3 ∧
  (∃ b, map_begin 1 9 demo3 = Ok b demo3 ∧
        iter_decr 9 b demo3 = Throw invalid_iterator demo3) ∧
  (∃ z d, iter_decr 9 (map_end 1) demo3 = Ok (Iter (Some 1%positive) (Some z)) demo3 ∧
          last (entries demo_tree) = Some (z, d)).
Proof.
  destruct (C6_cursor_boundaries_amended Z.ltb 0%Z Zltb_swo demo3 1 demo_tree 9
              demo3_reachable demo3_repr) as (H1 & Ha & _ & H2 & H3 & _ & H5).
  { simpl. lia. }
  assert (demo_tree ≠ Leaf) as Hne by discriminate.
  split; [exact H1|]. split; [exact Ha|]. split; [exact H2|].
  split; [exact (H3 Hne)|].
  destruct (H5 Hne) as (z & d & Hz & Hl & _). exists z, d. split; [exact Hz|exact Hl].
Defined.

(** [m.end().operator->()] on the map of three entries throws no
    [invalid_iterator]: the code does not test [cur]. *)
Lemma C6_counterexample :
  iter_arrow (map_end 1) demo3 = Fault ∧
  ¬ ∃ w', iter_arrow (map_end 1) demo3 = Throw invalid_iterator w'.
Proof. split; [reflexivity|]. intros [w' H]. discriminate H. Qed.

Lemma C7_witness :
  map_erase 1 9 (Iter (Some 2%positive) (Some 2%positive)) demo3 =
    Throw invalid_iterator demo3 ∧
  ∃ (w' : world (Key:=Z) (T:=Z)) (t' : tree),
    map_erase 1 9 (Iter (Some 1%positive) (Some 2%positive)) demo3 = Ok tt w' ∧
    repr w' 1 t' ∧ entries t' = [(1%positive, (5, 50)%Z); (3%positive, (8, 80)%Z)].
Proof.
  split.
  - by vm_compute.
  - destruct (C7_erase_cursor Z.ltb 0%Z Zltb_swo demo3 1 demo_tree 9
                (Iter (Some 1%positive) (Some 2%positive))
                demo3_reachable demo3_repr) as (_ & _ & Hok).
    { simpl. lia. }
    { exists 1%positive, demo_tree. split; [reflexivity|].
      split; [exact demo3_repr|]. unfold ptrs. simpl. by left. }
    destruct (Hok 2%positive eq_refl eq_refl)
      as (w' & t' & l1 & d & l2 & Hm & Hr & Hl & Hl' & _).
    exists w', t'. split; [exact Hm|]. split; [exact Hr|]. rewrite Hl'.
    simpl in Hl.
    destruct l1 as [|e1 l1]; simpl in Hl.
    { injection Hl as _ <-. reflexivity. }
    exfalso. injection Hl as He1 Hl. destruct l1 as [|e2 l1]; simpl in Hl.
    { by injection Hl as [=]. }
    injection Hl as He2 Hl. destruct l1 as [|e3 l1]; simpl in Hl.
    { by injection Hl as [=]. }
    injection Hl as _ Hl. by destruct l1.
Defined.

Lemma C8_counterexample :
  iter_arrow (Key:=Z) (T:=Z) iterator_default wempty = Fault ∧
  ¬ ∃ w', iter_arrow (Key:=Z) (T:=Z) iterator_default wempty =
          Throw invalid_iterator w'.
Proof. split; [reflexivity|]. by intros [w' H]. Qed.

Lemma C9_witness :
  ∃ (w' : world (Key:=Z) (T:=Z)) (tB : tree) (n : N),
    map_copy_ctor 2 9 1 demo3 = Ok tt w' ∧ repr w' 1 demo_tree ∧ repr w' 2 tB ∧
    (entries tB).*2 = (entries demo_tree).*2 ∧
    map_size 1 w' = Ok n w' ∧ map_size 2 w' = Ok n w'.
Proof.
  destruct (C9_deep_copy_independence Z.ltb 0%Z Zltb_swo demo3 1 demo_tree 9
              demo3_reachable demo3_repr) as (Hcopy & _ & _).
  { simpl. lia. }
  apply Hcopy. by vm_compute.
Defined.

Lemma C10_witness :
  map_index_const Z.ltb 1 9 7%Z demo3 = Throw index_out_of_bound demo3 ∧
  ∃ z w', map_index Z.ltb 0%Z 1 9 7%Z demo3 = Ok z w'.
Proof.
  destruct (C10_const_index_is_at Z.ltb 0%Z Zltb_swo demo3 1 demo_tree 9 7%Z
              demo3_reachable demo3_repr) as (H1 & _ & H3).
  { simpl. lia. }
  { exact demo_absent_7. }
  split; [exact H1|exact H3].
Defined.


(** * Further properties of the interface *)

Section more.
Context {Key T : Type}.
Variable comp : Key → Key → bool.
Variable T_default : T.
Hypothesis Hswo : StrictWeakOrder comp.
Notation tree := (tree (Key:=Key) (T:=T)).
Notation world := (world (Key:=Key) (T:=T)).
Notation M := (M (Key:=Key) (T:=T)).
Notation entry := (ptr * (Key * T))%type.
Notation reachable := (reachable comp T_default).

(** The maps other than [a] are as they were. *)
Lemma winv_others (w w' : world) Ts a (t' : tree) :
  winv comp w Ts → winv comp w' (<[a := t']> Ts) →
  ∀ b (tb : tree), b ≠ a → repr w b tb → repr w' b tb.
Proof.
  intros Hw Hw' b tb Hne Hr. eapply winv_lookup; [exact Hw'|].
  rewrite lookup_insert_ne; [|done]. by eapply winv_repr.
Qed.
Lemma winv_self (w' : world) Ts a (t' : tree) :
  winv comp w' (<[a := t']> Ts) → repr w' a t'.
Proof. intros Hw'. eapply winv_lookup; [exact Hw'|apply lookup_insert_eq]. Qed.

(** The lookup of a key that has the entry [(c, d)]. *)
Lemma find_present (w : world) Ts a (t : tree) fuel k c d :
  winv comp w Ts → Ts !! a = Some t → length (entries t) ≤ fuel →
  (c, d) ∈ entries t → eq_key comp k d.1 = true →
  find_node comp a fuel k w = Ok (Some c) w.
Proof.
  intros Hw Ha Hf Hin Heq.
  destruct (find_ok comp w Ts a t Hw Ha Hswo fuel k Hf) as (r & Hfind & Hres).
  destruct (winv_lookup _ _ _ _ _ Hw Ha) as (_ & _ & Hg).
  destruct Hg as (_ & _ & _ & Hb). destruct r as [c'|].
  - destruct Hres as (d' & Hin' & Heq').
    assert ((c, d) = (c', d')) as [= <- <-]; [|done].
    by eapply (has_key_unique comp Hswo k t).
  - exfalso. apply Hres. by exists (c, d).
Qed.
Lemma find_absent (w : world) Ts a (t : tree) fuel k :
  winv comp w Ts → Ts !! a = Some t → length (entries t) ≤ fuel →
  ¬ has_key comp (entries t) k →
  find_node comp a fuel k w = Ok None w.
Proof.
  intros Hw Ha Hf Habs.
  destruct (find_ok comp w Ts a t Hw Ha Hswo fuel k Hf) as (r & Hfind & Hres).
  destruct r as [c|]; [|done]. exfalso.
  destruct Hres as (d & Hin & Heq). apply Habs. by exists (c, d).
Qed.

(** X1. [insert] of a key that has no entry returns the cursor at a new
    node together with [true]; the new entry stands between the entries
    with smaller and those with larger keys, which keep their nodes and
    values; [find] and [at] of the key lead to the new node, which holds
    the pair inserted; [size()] is one more (the number of entries
    fitting 64 bits); the other maps are as before. *)
Theorem X1_insert_new_key (w : world) (a : addr) (t : tree) (fuel : nat)
    (k : Key) (v : T) :
  reachable w → repr w a t → length (entries t) < fuel →
  ¬ has_key comp (entries t) k →
  ∃ (z : ptr) (w' : world) (t' : tree) l1 l2 (n n' : N),
    map_insert comp a fuel (k, v) w = Ok (Iter (Some a) (Some z), true) w' ∧
    repr w' a t' ∧
    entries t = l1 ++ l2 ∧ entries t' = l1 ++ (z, (k, v)) :: l2 ∧
    (∀ e, e ∈ l1 → comp (ekey e) k = true) ∧
    (∀ e, e ∈ l2 → comp k (ekey e) = true) ∧
    map_find comp a fuel k w' = Ok (Iter (Some a) (Some z)) w' ∧
    map_at comp a fuel k w' = Ok z w' ∧
    ref_data z w' = Ok (k, v) w' ∧
    map_size a w = Ok n w ∧ map_size a w' = Ok n' w' ∧
    ((N.of_nat (length (entries t')) < size_t_modulus)%N → n' = (n + 1)%N) ∧
    (∀ b (tb : tree), b ≠ a → repr w b tb → repr w' b tb).
Proof.
  intros Hreach Hr Hf Habs.
  destruct (reachable_lookup comp T_default Hswo w a t Hreach Hr)
    as (Ts & Hw & Ha & Hnd & Hg).
  destruct (insert_ok comp Hswo w Ts a t fuel k v Hw Ha)
    as (r & w' & t' & Hm & Hres & Hw'); [lia|].
  destruct Hres as [(c & d & _ & Hin & Heq & _)|(z & l1 & l2 & -> & _ & Hl & Hl' & Hg')].
  { exfalso. apply Habs. by exists (c, d). }
  pose proof (winv_self w' Ts a t' Hw') as Hr'.
  assert (<[a := t']> Ts !! a = Some t') as Ha' by apply lookup_insert_eq.
  assert ((z, (k, v)) ∈ entries t') as Hin.
  { rewrite Hl'. apply elem_of_app. right. by left. }
  assert (length (entries t') ≤ fuel) as Hf'.
  { rewrite Hl' length_app /=. rewrite Hl length_app in Hf. lia. }
  pose proof (find_present w' _ a t' fuel k z (k, v) Hw' Ha' Hf' Hin
                (eq_key_refl comp Hswo k)) as Hfind.
  destruct (find_present_results comp w' a fuel k z Hfind) as (Hfd & _ & Hat).
  destruct Hg' as (_ & _ & _ & Hb'). unfold bst in Hb'. rewrite Hl' in Hb'.
  apply sorted_app_inv in Hb' as (_ & Hb2 & Hb12).
  apply StronglySorted_inv in Hb2 as [_ Hb2]. rewrite Forall_forall in Hb2.
  exists z, w', t', l1, l2, (cnt t), (cnt t').
  split; [exact Hm|]. split; [exact Hr'|]. split; [exact Hl|]. split; [exact Hl'|].
  split. { intros e He. apply (Hb12 e (z, (k, v))); [done|by left]. }
  split. { intros e He. by apply (Hb2 e). }
  split; [exact Hfd|]. split; [exact Hat|].
  split. { by eapply repr_ref_data. }
  split. { by apply repr_map_size. }
  split. { by apply repr_map_size. }
  split; [|by eapply winv_others].
  intros Hfit. rewrite !(cnt_fits).
  - rewrite Hl Hl' !length_app /=. lia.
  - rewrite Hl' !length_app /= in Hfit. rewrite Hl length_app. lia.
  - done.
Qed.

(** The cursor at the node [c] of the map at [a] still refers to the
    entry [d], and the lookup of its key leads to it. *)
Definition cursor_holds (a : addr) (fuel : nat) (c : ptr) (d : Key * T)
    (w : world) : Prop :=
  iter_deref (Iter (Some a) (Some c)) w = Ok c w ∧
  ref_data c w = Ok d w ∧
  map_find comp a fuel d.1 w = Ok (Iter (Some a) (Some c)) w.

Lemma cursor_holds_intro (w : world) Ts a (t : tree) fuel c d :
  winv comp w Ts → Ts !! a = Some t → length (entries t) ≤ fuel →
  (c, d) ∈ entries t → cursor_holds a fuel c d w.
Proof.
  intros Hw Ha Hf Hin. destruct (winv_lookup _ _ _ _ _ Hw Ha) as (Hr & _ & _).
  split_and!.
  - eapply repr_iter_deref; [exact Hr|]. apply list_elem_of_fmap. by exists (c, d).
  - by eapply repr_ref_data.
  - eapply find_present_results, find_present; try done.
    apply (eq_key_refl comp Hswo).
Qed.

(** X2. The calls that change a map leave the cursors and references
    to its other entries valid: after [insert] and [operator[]] of any
    key, and after [erase] of another entry, the cursor at an entry
    still dereferences to the same node with the same key and value, and
    [find] of its key returns that cursor. *)
Theorem X2_cursors_stay_valid (w : world) (a : addr) (t : tree) (fuel : nat)
    (c : ptr) (d : Key * T) :
  reachable w → repr w a t → length (entries t) < fuel → (c, d) ∈ entries t →
  (∀ k v, ∃ r (w' : world),
     map_insert comp a fuel (k, v) w = Ok r w' ∧ cursor_holds a fuel c d w') ∧
  (∀ k, ∃ r (w' : world),
     map_index comp T_default a fuel k w = Ok r w' ∧ cursor_holds a fuel c d w') ∧
  (∀ z, z ∈ ptrs t → z ≠ c →
        ∃ w' : world,
          map_erase a fuel (Iter (Some a) (Some z)) w = Ok tt w' ∧
          cursor_holds a fuel c d w').
Proof.
  intros Hreach Hr Hf Hin.
  destruct (reachable_lookup comp T_default Hswo w a t Hreach Hr)
    as (Ts & Hw & Ha & Hnd & Hg).
  split_and!.
  - intros k v.
    destruct (insert_ok comp Hswo w Ts a t fuel k v Hw Ha)
      as (r & w' & t' & Hm & Hres & Hw'); [lia|].
    exists r, w'. split; [exact Hm|].
    eapply (cursor_holds_intro w' _ a t'); [exact Hw'|apply lookup_insert_eq| |].
    + destruct Hres as [(? & ? & _ & _ & _ & ->)|(z & l1 & l2 & _ & _ & Hl & -> & _)];
        [lia|]. rewrite Hl length_app in Hf. rewrite length_app /=. lia.
    + destruct Hres as [(? & ? & _ & _ & _ & ->)|(z & l1 & l2 & _ & _ & Hl & -> & _)];
        [done|]. rewrite Hl in Hin.
      apply elem_of_app in Hin as [?|?]; apply elem_of_app; [by left|right; by right].
  - intros k.
    destruct (index_ok comp T_default Hswo w Ts a t fuel k Hw Ha)
      as (r & w' & t' & Hm & Hres & Hw'); [lia|].
    exists r, w'. split; [exact Hm|].
    eapply (cursor_holds_intro w' _ a t'); [exact Hw'|apply lookup_insert_eq| |].
    + destruct Hres as [(? & _ & _ & ->)|(l1 & l2 & _ & Hl & -> & _)];
        [lia|]. rewrite Hl length_app in Hf. rewrite length_app /=. lia.
    + destruct Hres as [(? & _ & _ & ->)|(l1 & l2 & _ & Hl & -> & _)];
        [done|]. rewrite Hl in Hin.
      apply elem_of_app in Hin as [?|?]; apply elem_of_app; [by left|right; by right].
  - intros z Hz Hne.
    destruct (erase_ok comp w Ts a t fuel z Hw Ha) as (w' & t' & Hm & Hres & Hw');
      [lia|done|].
    exists w'. split; [exact Hm|].
    destruct Hres as (_ & l1 & dz & l2 & Hl & Hl').
    eapply (cursor_holds_intro w' _ a t'); [exact Hw'|apply lookup_insert_eq| |].
    + rewrite Hl length_app /= in Hf. rewrite Hl' length_app. lia.
    + rewrite Hl in Hin. rewrite Hl'.
      apply elem_of_app in Hin as [?|[[= ? ?]|?]%elem_of_cons];
        [apply elem_of_app; by left|done|apply elem_of_app; by right].
Qed.

(** X3. A write through a reference to an entry ([m.at(k) = v],
    [m[k] = v], [it->second = v]) returns; afterwards the reference
    reads the new value under the old key, [at] of the key returns the
    same reference, the other entries and the order are as before,
    [size()] answers the same, and the other maps are as before. *)
Theorem X3_write_through_reference (w : world) (a : addr) (t : tree) (fuel : nat)
    (z : ptr) (d : Key * T) (v : T) :
  reachable w → repr w a t → length (entries t) ≤ fuel → (z, d) ∈ entries t →
  ∃ (w' : world) (t' : tree) l1 l2 (n : N),
    ref_assign z v w = Ok tt w' ∧ repr w' a t' ∧
    entries t = l1 ++ (z, d) :: l2 ∧ entries t' = l1 ++ (z, (d.1, v)) :: l2 ∧
    ref_data z w' = Ok (d.1, v) w' ∧
    map_at comp a fuel d.1 w' = Ok z w' ∧
    map_size a w = Ok n w ∧ map_size a w' = Ok n w' ∧
    (∀ b (tb : tree), b ≠ a → repr w b tb → repr w' b tb).
Proof.
  intros Hreach Hr Hf Hin.
  destruct (reachable_lookup comp T_default Hswo w a t Hreach Hr)
    as (Ts & Hw & Ha & Hnd & Hg).
  assert (z ∈ ptrs t) as Hz.
  { apply list_elem_of_fmap. by exists (z, d). }
  destruct (ref_assign_ok comp w Ts a t z v Hw Ha Hz)
    as (w' & t' & Hm & (Hg' & Hc & Hh & l1 & d0 & l2 & Hl & Hl') & Hw').
  assert (d0 = d) as ->.
  { eapply (entries_fst_unique (entries t)); [done| |done].
    rewrite Hl. apply elem_of_app. right. by left. }
  pose proof (winv_self w' Ts a t' Hw') as Hr'.
  assert ((z, (d.1, v)) ∈ entries t') as Hin'.
  { rewrite Hl'. apply elem_of_app. right. by left. }
  assert (length (entries t') ≤ fuel) as Hf'.
  { rewrite Hl' length_app /=. rewrite Hl length_app /= in Hf. lia. }
  exists w', t', l1, l2, (cnt t).
  split; [exact Hm|]. split; [exact Hr'|]. split; [exact Hl|]. split; [exact Hl'|].
  split. { by eapply repr_ref_data. }
  split.
  { eapply find_present_results, (find_present w' _ a t' fuel d.1 z (d.1, v));
      [exact Hw'|apply lookup_insert_eq|done|done|].
    apply (eq_key_refl comp Hswo). }
  split. { by apply repr_map_size. }
  split. { rewrite -Hc. by apply repr_map_size. }
  by eapply winv_others.
Qed.

(** X4. The three lookups agree.  For a key with an entry, [find]
    returns the cursor at that entry, [count] returns 1 and [at] returns
    the reference to it, whose key is equivalent to the key looked up;
    for a key without one, [find] returns [end()], [count] returns 0 and
    [at] throws [index_out_of_bound].  The world is unchanged. *)
Theorem X4_lookups_agree (w : world) (a : addr) (t : tree) (fuel : nat) (k : Key) :
  reachable w → repr w a t → length (entries t) ≤ fuel →
  (∀ c d, (c, d) ∈ entries t → eq_key comp k d.1 = true →
          map_find comp a fuel k w = Ok (Iter (Some a) (Some c)) w ∧
          map_count comp a fuel k w = Ok 1%N w ∧
          map_at comp a fuel k w = Ok c w ∧
          ref_data c w = Ok d w) ∧
  (¬ has_key comp (entries t) k →
          map_find comp a fuel k w = Ok (map_end a) w ∧
          map_count comp a fuel k w = Ok 0%N w ∧
          map_at comp a fuel k w = Throw index_out_of_bound w) ∧
  ((∃ c, map_find comp a fuel k w = Ok (Iter (Some a) (Some c)) w) ↔
   has_key comp (entries t) k).
Proof.
  intros Hreach Hr Hf.
  destruct (reachable_lookup comp T_default Hswo w a t Hreach Hr)
    as (Ts & Hw & Ha & Hnd & Hg).
  assert (∀ c d, (c, d) ∈ entries t → eq_key comp k d.1 = true →
          map_find comp a fuel k w = Ok (Iter (Some a) (Some c)) w ∧
          map_count comp a fuel k w = Ok 1%N w ∧
          map_at comp a fuel k w = Ok c w ∧
          ref_data c w = Ok d w) as Hpres.
  { intros c d Hin Heq.
    pose proof (find_present w Ts a t fuel k c d Hw Ha Hf Hin Heq) as Hfind.
    destruct (find_present_results comp w a fuel k c Hfind) as (H1 & H2 & H3).
    split_and!; [done..|]. by eapply repr_ref_data. }
  split_and!; [exact Hpres| |].
  - intros Habs. apply find_absent_results. by eapply find_absent.
  - destruct (find_ok comp w Ts a t Hw Ha Hswo fuel k Hf) as (r & Hfind & Hres).
    split.
    + intros [c Hc]. unfold map_find in Hc. rewrite (bind_ok _ _ _ _ _ Hfind) in Hc.
      injection Hc as ->. destruct Hres as (d & Hin & Heq). by exists (c, d).
    + intros ([c d] & Hin & Heq). exists c. by apply (Hpres c d).
Qed.

Lemma entries_nil_Leaf (t : tree) : entries t = [] ↔ t = Leaf.
Proof.
  split; [|by intros ->]. destruct t as [|c l p d r]; [done|]. simpl.
  by destruct (entries l).
Qed.

(** X5. [begin()] is the cursor at the entry with the least key, and is
    [end()] exactly when the map has no entry; [empty()] answers whether
    the map has no entry (the number of entries fitting 64 bits). *)
Theorem X5_begin_and_empty (w : world) (a : addr) (t : tree) (fuel : nat) :
  reachable w → repr w a t → length (entries t) ≤ fuel →
  (∀ z d l, entries t = (z, d) :: l →
            map_begin a fuel w = Ok (Iter (Some a) (Some z)) w ∧
            ∀ e, e ∈ l → comp d.1 (ekey e) = true) ∧
  (∃ it, map_begin a fuel w = Ok it w ∧
         (iter_eq it (map_end a) = true ↔ entries t = [])) ∧
  (∃ b, map_empty a w = Ok b w ∧
        ((N.of_nat (length (entries t)) < size_t_modulus)%N →
         (b = true ↔ entries t = []))).
Proof.
  intros Hreach Hr Hf.
  destruct (reachable_lookup comp T_default Hswo w a t Hreach Hr)
    as (Ts & Hw & Ha & Hnd & Hg).
  pose proof (begin_ok comp w Ts a t Hw Ha fuel Hf) as Hb.
  split_and!.
  - intros z d l He. unfold ptrs in Hb. rewrite He /= in Hb. split; [exact Hb|].
    destruct Hg as (_ & _ & _ & Hs). unfold bst in Hs. rewrite He in Hs.
    apply StronglySorted_inv in Hs as [_ Hs]. rewrite Forall_forall in Hs.
    intros e Hin. by apply (Hs e).
  - eexists. split; [exact Hb|]. unfold iter_eq, map_end, ptrs. simpl.
    rewrite bool_decide_eq_true_2 //=. rewrite bool_decide_eq_true.
    destruct (entries t) as [|[z d] l]; simpl; split; done.
  - eexists. split; [by apply repr_map_empty|]. intros Hfit.
    rewrite bool_decide_eq_true cnt_fits; [|done].
    destruct (entries t); simpl; split; done.
Qed.

(** X6. [++] at an entry returns the cursor at the next entry in the
    order, or [end()] at the last; the postfix form returns the old
    cursor as well; [--] at an entry with a predecessor returns the
    cursor at it, and [++] from there comes back; [--] at [end()]
    returns the cursor at the last entry. *)
Theorem X6_increment_decrement (w : world) (a : addr) (t : tree) (fuel : nat)
    (l1 l2 : list entry) (z : ptr) (d : Key * T) :
  reachable w → repr w a t → length (entries t) ≤ fuel →
  entries t = l1 ++ (z, d) :: l2 →
  iter_incr fuel (Iter (Some a) (Some z)) w = Ok (Iter (Some a) (head l2.*1)) w ∧
  iter_post_incr fuel (Iter (Some a) (Some z)) w =
    Ok (Iter (Some a) (Some z), Iter (Some a) (head l2.*1)) w ∧
  (∀ l1' x dx, l1 = l1' ++ [(x, dx)] →
     iter_decr fuel (Iter (Some a) (Some z)) w = Ok (Iter (Some a) (Some x)) w ∧
     iter_incr fuel (Iter (Some a) (Some x)) w = Ok (Iter (Some a) (Some z)) w) ∧
  (l2 = [] → iter_decr fuel (map_end a) w = Ok (Iter (Some a) (Some z)) w).
Proof.
  intros Hreach Hr Hf He.
  destruct (reachable_lookup comp T_default Hswo w a t Hreach Hr)
    as (Ts & Hw & Ha & Hnd & Hg).
  assert (∀ y dy la lb, entries t = la ++ (y, dy) :: lb →
            iter_incr fuel (Iter (Some a) (Some y)) w
            = Ok (Iter (Some a) (head lb.*1)) w) as Hincr.
  { intros y dy la lb Hy.
    destruct (next_ok comp w Ts a t Hw Ha fuel y Hf) as (r & Hn & Hres).
    { apply list_elem_of_fmap. exists (y, dy). split; [done|].
      rewrite Hy. apply elem_of_app. right. by left. }
    rewrite (Hres _ _ _ Hy) in Hn.
    change (iter_incr fuel (Iter (Some a) (Some y)) w) with
      (bind (next_node fuel (Some y)) (λ nxt, ret (Iter (Some a) nxt)) w).
    by rewrite (bind_ok _ _ _ _ _ Hn). }
  split; [by eapply Hincr|]. split.
  { unfold iter_post_incr. by rewrite (bind_ok _ _ _ _ _ (Hincr z d l1 l2 He)). }
  split.
  - intros l1' x dx ->. split.
    + destruct (prev_ok comp w Ts a t Hw Ha fuel z Hf) as (r & Hp & Hres).
      { apply list_elem_of_fmap. exists (z, d). split; [done|].
        rewrite He. apply elem_of_app. right. by left. }
      rewrite (Hres _ _ _ He) fmap_app last_app /= in Hp.
      change (iter_decr fuel (Iter (Some a) (Some z)) w) with
        (bind (prev_node fuel (Some z))
           (λ prv, match prv with
                   | None => throw invalid_iterator
                   | Some _ => ret (Iter (Some a) prv)
                   end) w).
      by rewrite (bind_ok _ _ _ _ _ Hp).
    + rewrite -app_assoc /= in He. by rewrite (Hincr x dx l1' _ He).
  - intros ->.
    assert (t ≠ Leaf) as Hne.
    { intros ->. by destruct l1. }
    rewrite (decr_end_ok comp w Ts a t Hw Ha fuel Hf Hne).
    unfold ptrs. by rewrite He fmap_app last_app.
Qed.

(** X7. [clear] returns; afterwards the map has no entry: [size()]
    is 0, [empty()] holds, [begin()] is [end()], the traversal visits
    nothing, every [find] returns [end()], every [count] returns 0 and
    every [at] throws [index_out_of_bound]; the other maps are as
    before. *)
Theorem X7_clear_empties (w : world) (a : addr) (t : tree) (fuel : nat) :
  reachable w → repr w a t → length (entries t) ≤ fuel →
  ∃ w' : world,
    map_clear a fuel w = Ok tt w' ∧ repr w' a Leaf ∧
    map_size a w' = Ok 0%N w' ∧ map_empty a w' = Ok true w' ∧
    (∀ fuel', map_begin a fuel' w' = Ok (map_end a) w' ∧
              traverse a fuel' w' = Ok [] w') ∧
    (∀ fuel' k, map_find comp a fuel' k w' = Ok (map_end a) w' ∧
                map_count comp a fuel' k w' = Ok 0%N w' ∧
                map_at comp a fuel' k w' = Throw index_out_of_bound w') ∧
    (∀ b (tb : tree), b ≠ a → repr w b tb → repr w' b tb).
Proof.
  intros Hreach Hr Hf.
  destruct (reachable_lookup comp T_default Hswo w a t Hreach Hr)
    as (Ts & Hw & Ha & Hnd & Hg).
  destruct (clear_ok comp w Ts a t fuel Hw Ha Hf) as (w' & Hm & Hw').
  pose proof (winv_self w' Ts a Leaf Hw') as Hr'.
  assert (<[a := Leaf]> Ts !! a = Some (Leaf : tree)) as Ha' by apply lookup_insert_eq.
  exists w'. split; [exact Hm|]. split; [exact Hr'|].
  split. { exact (repr_map_size w' a Leaf Hr'). }
  split. { exact (repr_map_empty w' a Leaf Hr'). }
  split.
  { intros fuel'. split.
    - exact (begin_ok comp w' _ a Leaf Hw' Ha' fuel' (Nat.le_0_l _)).
    - exact (traverse_ok comp w' _ a Leaf Hw' Ha' fuel' (Nat.le_0_l _)). }
  split; [|by eapply winv_others].
  intros fuel' k. apply find_absent_results.
  eapply (find_absent w' _ a Leaf); [exact Hw'|exact Ha'|simpl; lia|].
  by intros (e & ?%elem_of_nil & _).
Qed.

(** X11. [insert] of a new key followed by [erase] at the cursor it
    returned gives back the sequence of entries the map had: the same
    nodes, keys and values in the same order, and the same [size()]. *)
Theorem X11_insert_then_erase (w : world) (a : addr) (t : tree) (fuel : nat)
    (k : Key) (v : T) :
  reachable w → repr w a t → length (entries t) < fuel →
  ¬ has_key comp (entries t) k →
  ∃ (z : ptr) (w1 w2 : world) (t2 : tree) (n : N),
    map_insert comp a fuel (k, v) w = Ok (Iter (Some a) (Some z), true) w1 ∧
    map_erase a fuel (Iter (Some a) (Some z)) w1 = Ok tt w2 ∧
    repr w2 a t2 ∧ entries t2 = entries t ∧
    map_size a w = Ok n w ∧ map_size a w2 = Ok n w2.
Proof.
  intros Hreach Hr Hf Habs.
  destruct (reachable_lookup comp T_default Hswo w a t Hreach Hr)
    as (Ts & Hw & Ha & Hnd & Hg).
  destruct (insert_ok comp Hswo w Ts a t fuel k v Hw Ha)
    as (r & w1 & t1 & Hm & Hres & Hw1); [lia|].
  destruct Hres as [(c & d & _ & Hin & Heq & _)|(z & l1 & l2 & -> & _ & Hl & Hl1 & Hg1)].
  { exfalso. apply Habs. by exists (c, d). }
  assert (<[a := t1]> Ts !! a = Some t1) as Ha1 by apply lookup_insert_eq.
  destruct (winv_lookup _ _ _ _ _ Hw1 Ha1) as (Hr1 & Hnd1 & _).
  destruct (erase_ok comp w1 _ a t1 fuel z Hw1 Ha1) as (w2 & t2 & Hm2 & Hres2 & Hw2).
  { rewrite Hl1 length_app /=. rewrite Hl length_app in Hf. lia. }
  { apply list_elem_of_fmap. exists (z, (k, v)). split; [done|].
    rewrite Hl1. apply elem_of_app. right. by left. }
  rewrite insert_insert_eq in Hw2.
  destruct Hres2 as (_ & l1' & d' & l2' & Hl1' & Hl2).
  unfold ptrs in Hnd1. rewrite Hl1 in Hnd1. rewrite Hl1 in Hl1'.
  destruct (split_unique _ _ _ _ _ _ _ Hnd1 Hl1') as (<- & _ & <-).
  assert (entries t2 = entries t) as He by (by rewrite Hl2 Hl).
  exists z, w1, w2, t2, (cnt t).
  split; [exact Hm|]. split; [exact Hm2|].
  split. { exact (winv_self w2 Ts a t2 Hw2). }
  split; [exact He|]. split. { by apply repr_map_size. }
  replace (cnt t) with (cnt t2) by (by rewrite /cnt He).
  apply repr_map_size. exact (winv_self w2 Ts a t2 Hw2).
Qed.

(** ** The depth of the tree *)

Lemma bh_entries (t : tree) : balanced t → 2 ^ bh t ≤ length (entries t) + 1.
Proof.
  induction t as [|c l IHl p d r IHr]; simpl; [lia|].
  intros (Hb & Hl & Hr). specialize (IHl Hl). specialize (IHr Hr).
  rewrite length_app /=. rewrite -Hb in IHr.
  destruct c; unfold cadd; [lia|]. rewrite Nat.pow_succ_r'. lia.
Qed.
Lemma height_bh (t : tree) :
  nrr t → balanced t → height t ≤ 2 * bh t + (if rcol t then 1 else 0).
Proof.
  induction t as [|c l IHl p d r IHr]; simpl; [lia|].
  intros (Hc & Hnl & Hnr) (Hb & Hbl & Hbr).
  specialize (IHl Hnl Hbl). specialize (IHr Hnr Hbr). rewrite -Hb in IHr.
  destruct c; unfold cadd.
  - destruct (Hc eq_refl) as [Hcl Hcr]. rewrite Hcl in IHl. rewrite Hcr in IHr. lia.
  - destruct (rcol l), (rcol r); lia.
Qed.
Lemma good_height (t : tree) :
  good comp t → height t ≤ 2 * Nat.log2 (length (entries t) + 1).
Proof.
  intros (Hr & Hn & Hb & _). pose proof (height_bh t Hn Hb) as Hh.
  rewrite Hr in Hh. pose proof (bh_entries t Hb) as Hs.
  apply Nat.log2_le_mono in Hs. rewrite Nat.log2_pow2 in Hs; lia.
Qed.

(** X9. The tree of a map with [n] entries is at most [2 log2 (n + 1)]
    deep, and [find], [insert] and [erase] return when each of their
    loops is given that many iterations. *)
Theorem X9_logarithmic_depth (w : world) (a : addr) (t : tree) (fuel : nat) :
  reachable w → repr w a t →
  2 * Nat.log2 (length (entries t) + 1) ≤ fuel →
  height t ≤ 2 * Nat.log2 (length (entries t) + 1) ∧
  (∀ k, ∃ r, find_node comp a fuel k w = Ok r w ∧ find_res comp k t r) ∧
  (∀ k v, ∃ r (w' : world) (t' : tree),
     map_insert comp a fuel (k, v) w = Ok r w' ∧ repr w' a t' ∧
     insert_res comp a k v t r t') ∧
  (∀ z, z ∈ ptrs t →
        ∃ (w' : world) (t' : tree),
          map_erase a fuel (Iter (Some a) (Some z)) w = Ok tt w' ∧ repr w' a t' ∧
          ∃ l1 d l2, entries t = l1 ++ (z, d) :: l2 ∧ entries t' = l1 ++ l2).
Proof.
  intros Hreach Hr Hf.
  destruct (reachable_lookup comp T_default Hswo w a t Hreach Hr)
    as (Ts & Hw & Ha & Hnd & Hg).
  pose proof (good_height t Hg) as Hh.
  split; [exact Hh|]. split_and!.
  - intros k. destruct Hg as (_ & _ & _ & Hb).
    apply (winv_read comp _ _ w Ts a t Hw Ha); [apply readonly_find_node|].
    intros Q. iIntros "Hm HQ". iApply (wp_find_node with "Hm HQ"); [done|done|lia].
  - intros k v.
    destruct (winv_run comp (map_insert comp a fuel (k, v))
                (insert_res comp a k v t) w Ts a t Hw Ha)
      as (r & w' & t' & Hm & Hres & Hw').
    + intros Q. iIntros "Ha HQ". iApply (wp_map_insert with "Ha HQ"); [done..|lia].
    + intros r t' [(c & d & _ & _ & _ & ->)|(z & l1 & l2 & _ & _ & _ & _ & Hg')]; done.
    + exists r, w', t'. split; [exact Hm|]. split; [|exact Hres].
      exact (winv_self w' Ts a t' Hw').
  - intros z Hz.
    destruct (winv_run comp (map_erase a fuel (Iter (Some a) (Some z)))
                (λ _, erase_res comp z t) w Ts a t Hw Ha) as ([] & w' & t' & Hm & Hres & Hw').
    + intros Q. iIntros "Ha HQ". unfold map_erase. simpl.
      rewrite bool_decide_eq_false_2; [|by intros []]. simpl.
      destruct (ptr_in_plug _ _ Hz) as (ctx & c & l & d & r & Heq).
      destruct Hg as (Hrc & Hn & Hb & Ho). unfold own_map. rewrite {2}Heq.
      iApply (wp_erase_node with "Ha"); rewrite -?Heq; [lia|done..|].
      iIntros (t' (Hn' & Hb' & Hr' & l1 & l2 & He & He')) "Ha".
      iApply ("HQ" $! tt t' with "[] [Ha]").
      * iPureIntro. split; [split_and!; [done..|]|by exists l1, d, l2].
        unfold bst in *. rewrite He'. rewrite He in Ho. by eapply sorted_remove.
      * unfold own_map. rewrite (cnt_erase t t'); [done|].
        rewrite He He' !length_app /=. lia.
    + by intros _ t' [? _].
    + exists w', t'. split; [exact Hm|]. split; [exact (winv_self w' Ts a t' Hw')|].
      by destruct Hres as [_ ?].
Qed.

End more.

Section fresh_map.
Context {Key T : Type}.
Variable comp : Key → Key → bool.
Notation world := (world (Key:=Key) (T:=T)).

(** X8. In any world, [map()] at an address that holds no map returns
    and allocates no node; the new map has no entry: [size()] is 0,
    [empty()] holds, [begin()] is [end()], the traversal visits nothing,
    every [find] returns [end()], every [count] returns 0 and every
    [at] throws [index_out_of_bound]; the maps at other addresses are
    as before. *)
Theorem X8_new_map_is_empty (w : world) (a : addr) :
  objs w !! a = None →
  ∃ w' : world,
    map_ctor a w = Ok tt w' ∧ nodes w' = nodes w ∧
    (∀ b, b ≠ a → objs w' !! b = objs w !! b) ∧
    map_size a w' = Ok 0%N w' ∧ map_empty a w' = Ok true w' ∧
    (∀ fuel, map_begin a fuel w' = Ok (map_end a) w' ∧
             traverse a fuel w' = Ok [] w') ∧
    (∀ fuel k, map_find comp a fuel k w' = Ok (map_end a) w' ∧
               map_count comp a fuel k w' = Ok 0%N w' ∧
               map_at comp a fuel k w' = Throw index_out_of_bound w').
Proof.
  intros Ha. exists (World (nodes w) (<[a := Map None 0]> (objs w))).
  set (w' := World (nodes w) (<[a := Map None 0]> (objs w))).
  assert (load_map a w' = Ok (Map None 0) w') as Hload.
  { unfold load_map, w'. simpl. by rewrite lookup_insert_eq. }
  assert (get_root a w' = Ok None w') as Hroot.
  { unfold get_root. by rewrite (bind_ok _ _ _ _ _ Hload). }
  assert (∀ fuel, map_begin a fuel w' = Ok (map_end a) w') as Hbegin.
  { intros fuel. unfold map_begin. by rewrite (bind_ok _ _ _ _ _ Hroot). }
  split. { unfold map_ctor. by rewrite Ha. }
  split; [done|]. split. { intros b Hne. unfold w'. simpl. by rewrite lookup_insert_ne. }
  assert (get_node_count a w' = Ok 0%N w') as Hcount.
  { unfold get_node_count. by rewrite (bind_ok _ _ _ _ _ Hload). }
  split. { exact Hcount. }
  split. { unfold map_empty. by rewrite (bind_ok _ _ _ _ _ Hcount). }
  split.
  { intros fuel. split; [apply Hbegin|].
    unfold traverse. rewrite (bind_ok _ _ _ _ _ (Hbegin fuel)) iterate_eq.
    unfold iter_neq, iter_eq. by rewrite !bool_decide_eq_true_2. }
  intros fuel k. apply find_absent_results.
  unfold find_node. rewrite (bind_ok _ _ _ _ _ Hroot). by destruct fuel.
Qed.

End fresh_map.


(** * What the operations throw and what they allocate *)

Section stable.
Context {Key T : Type}.
Notation world := (world (Key:=Key) (T:=T)).
Notation M := (M (Key:=Key) (T:=T)).
Notation Node := (Node (Key:=Key) (T:=T)).

(** [stable R m]: the computation [m] throws nothing, and the world it
    returns in is related by [R] to the world it started in. *)
Definition stable (R : world → world → Prop) {A} (m : M A) : Prop :=
  ∀ w, match m w with
       | Ok _ w' => R w w'
       | Throw _ _ => False
       | Fault | OutOfFuel => True
       end.

Lemma stable_ok R {A} (m : M A) w r w' : stable R m → m w = Ok r w' → R w w'.
Proof. intros H Hm. specialize (H w). by rewrite Hm in H. Qed.
Lemma stable_throw R {A} (m : M A) w e w' : stable R m → m w ≠ Throw e w'.
Proof. intros H Hm. specialize (H w). by rewrite Hm in H. Qed.

Lemma bind_ok_inv {A B} (m : M A) (k : A → M B) w r w' :
  bind m k w = Ok r w' → ∃ a w1, m w = Ok a w1 ∧ k a w1 = Ok r w'.
Proof.
  unfold bind. destruct (m w) as [a w1| | |]; [|done..].
  intros H. by exists a, w1.
Qed.
Lemma bind_throw_inv {A B} (m : M A) (k : A → M B) w e w' :
  bind m k w = Throw e w' →
  m w = Throw e w' ∨ ∃ a w1, m w = Ok a w1 ∧ k a w1 = Throw e w'.
Proof.
  unfold bind. destruct (m w) as [a w1|e1 w1| |]; intros H; try done.
  - right. by exists a, w1.
  - left. by injection H as -> ->.
Qed.

Section rules.
Variable R : world → world → Prop.
Hypothesis R_refl : ∀ w, R w w.
Hypothesis R_trans : ∀ w1 w2 w3, R w1 w2 → R w2 w3 → R w1 w3.
Hypothesis R_store : ∀ w p (n : Node),
  is_Some (nodes w !! p) → R w (World (<[p := n]> (nodes w)) (objs w)).
Hypothesis R_store_map : ∀ w a m, R w (World (nodes w) (<[a := m]> (objs w))).

Lemma stable_ret {A} (a : A) : stable R (ret a).
Proof. intros w. apply R_refl. Qed.
Lemma stable_fault {A} : stable R (fault (A:=A)).
Proof. by intros w. Qed.
Lemma stable_out_of_fuel {A} : stable R (out_of_fuel (A:=A)).
Proof. by intros w. Qed.
Lemma stable_bind {A B} (m : M A) (k : A → M B) :
  stable R m → (∀ a, stable R (k a)) → stable R (bind m k).
Proof.
  intros Hm Hk w. unfold bind. specialize (Hm w).
  destruct (m w) as [a w1| | |]; try done. specialize (Hk a w1).
  destruct (k a w1); try done. by eapply R_trans.
Qed.
Lemma stable_load p : stable R (load p).
Proof. intros w. unfold load. destruct (nodes w !! p); [apply R_refl|done]. Qed.
Lemma stable_store p n : stable R (store p n).
Proof.
  intros w. unfold store. destruct (nodes w !! p) eqn:E; [|done].
  apply R_store. by rewrite E.
Qed.
Lemma stable_load_map a : stable R (load_map a).
Proof. intros w. unfold load_map. destruct (objs w !! a); [apply R_refl|done]. Qed.
Lemma stable_store_map a m : stable R (store_map a m).
Proof. intros w. unfold store_map. destruct (objs w !! a); [apply R_store_map|done]. Qed.

End rules.
End stable.

Ltac st_unfold :=
  unfold get_data, get_color, get_left, get_right, get_parent,
    set_second, set_color, set_left, set_right, set_parent,
    get_root, set_root, get_node_count, set_node_count,
    incr_node_count, decr_node_count, is_red, is_black,
    opt_left, opt_right, opt_parent.

Ltac st_step :=
  first
    [ apply stable_ret; assumption
    | apply stable_fault | apply stable_out_of_fuel
    | apply stable_load; assumption
    | apply stable_store; assumption
    | apply stable_load_map; assumption
    | apply stable_store_map; assumption
    | match goal with
      | H : ∀ _, stable _ _ |- _ => apply H
      | H : ∀ _ _, stable _ _ |- _ => apply H
      | H : ∀ _ _ _, stable _ _ |- _ => apply H
      | H : ∀ _ _ _ _, stable _ _ |- _ => apply H
      | H : ∀ _ _ _ _ _, stable _ _ |- _ => apply H
      end
    | apply stable_bind; [assumption| |intros ?]
    | match goal with
      | |- stable _ (match ?x with _ => _ end) => destruct x
      | |- stable _ (if ?b then _ else _) => destruct b
      | |- stable _ (let '(_, _) := ?x in _) => destruct x
      end
    | progress st_unfold ].
Ltac st := repeat st_step.

Section stable_code.
Context {Key T : Type}.
Variable comp : Key → Key → bool.
Variable T_default : T.
Notation world := (world (Key:=Key) (T:=T)).
Notation M := (M (Key:=Key) (T:=T)).
Notation Node := (Node (Key:=Key) (T:=T)).
Variable R : world → world → Prop.
Hypothesis R_refl : ∀ w, R w w.
Hypothesis R_trans : ∀ w1 w2 w3, R w1 w2 → R w2 w3 → R w1 w3.
Hypothesis R_store : ∀ w p (n : Node),
  is_Some (nodes w !! p) → R w (World (<[p := n]> (nodes w)) (objs w)).
Hypothesis R_store_map : ∀ w a m, R w (World (nodes w) (<[a := m]> (objs w))).

Lemma stable_left_rotate this x : stable R (left_rotate this x).
Proof. unfold left_rotate. st_unfold. st. Qed.
Lemma stable_right_rotate this x : stable R (right_rotate this x).
Proof. unfold right_rotate. st_unfold. st. Qed.

Lemma stable_insert_fix_body this z : stable R (insert_fix_body this z).
Proof.
  pose proof stable_left_rotate. pose proof stable_right_rotate.
  unfold insert_fix_body. st_unfold. st.
Qed.
Lemma stable_insert_fix_loop this fuel : ∀ z, stable R (insert_fix_loop this fuel z).
Proof.
  pose proof stable_insert_fix_body.
  induction fuel as [|fuel IH]; intros z; rewrite insert_fix_loop_eq; st_unfold; st.
Qed.
Lemma stable_blacken_root this : stable R (blacken_root this).
Proof. unfold blacken_root. st_unfold. st. Qed.
Lemma stable_insert_fix this fuel z : stable R (insert_fix this fuel z).
Proof.
  pose proof stable_insert_fix_loop. pose proof stable_blacken_root.
  unfold insert_fix. st.
Qed.
Lemma stable_transplant this u v : stable R (transplant this u v).
Proof. unfold transplant. st_unfold. st. Qed.
Lemma stable_erase_fix_left_black this xp w :
  stable R (erase_fix_left_black this xp w).
Proof.
  pose proof stable_left_rotate. pose proof stable_right_rotate.
  unfold erase_fix_left_black. st_unfold. st.
Qed.
Lemma stable_erase_fix_right_black this xp w :
  stable R (erase_fix_right_black this xp w).
Proof.
  pose proof stable_left_rotate. pose proof stable_right_rotate.
  unfold erase_fix_right_black. st_unfold. st.
Qed.
Lemma stable_erase_fix_body this x xp : stable R (erase_fix_body this x xp).
Proof.
  pose proof stable_left_rotate. pose proof stable_right_rotate.
  pose proof stable_erase_fix_left_black. pose proof stable_erase_fix_right_black.
  unfold erase_fix_body. st_unfold. st.
Qed.
Lemma stable_erase_fix_loop this fuel : ∀ x xp, stable R (erase_fix_loop this fuel x xp).
Proof.
  pose proof stable_erase_fix_body.
  induction fuel as [|fuel IH]; intros x xp; rewrite erase_fix_loop_eq; st_unfold; st.
Qed.
Lemma stable_erase_fix this fuel x xp : stable R (erase_fix this fuel x xp).
Proof. pose proof stable_erase_fix_loop. unfold erase_fix. st_unfold. st.
Qed.
Lemma stable_min_node_loop fuel : ∀ x, stable R (min_node_loop fuel x).
Proof. induction fuel as [|fuel IH]; intros x; rewrite min_node_loop_eq; st_unfold; st. Qed.
Lemma stable_max_node_loop fuel : ∀ x, stable R (max_node_loop fuel x).
Proof. induction fuel as [|fuel IH]; intros x; rewrite max_node_loop_eq; st_unfold; st. Qed.
Lemma stable_erase_unlink this fuel z : stable R (erase_unlink this fuel z).
Proof.
  pose proof stable_min_node_loop. pose proof stable_transplant.
  unfold erase_unlink, min_node. st_unfold. st.
Qed.
Lemma stable_descend fuel key : ∀ cur parent, stable R (descend comp fuel key cur parent).
Proof. induction fuel as [|fuel IH]; intros cur parent; simpl; st_unfold; st. Qed.
Lemma stable_find_node_loop fuel key : ∀ cur, stable R (find_node_loop comp fuel key cur).
Proof. induction fuel as [|fuel IH]; intros cur; simpl; st_unfold; st. Qed.
Lemma stable_find_node this fuel key : stable R (find_node comp this fuel key).
Proof. pose proof stable_find_node_loop. unfold find_node. st_unfold. st. Qed.

End stable_code.

(** ** What is thrown *)

Section exceptions.
Context {Key T : Type}.
Variable comp : Key → Key → bool.
Variable T_default : T.
Notation world := (world (Key:=Key) (T:=T)).
Notation M := (M (Key:=Key) (T:=T)).
Notation Node := (Node (Key:=Key) (T:=T)).

(** The computation [m] reaches none of the [throw] statements of the
    container, in any world. *)
Definition never_throws {A} (m : M A) : Prop := ∀ w e w', m w ≠ Throw e w'.

Definition any_world : world → world → Prop := λ _ _, True.

Lemma stable_never_throws {A} (m : M A) : stable any_world m → never_throws m.
Proof. intros H w e w'. by eapply stable_throw. Qed.

Lemma any_world_refl (w : world) : any_world w w.
Proof. done. Qed.
Lemma any_world_trans (w1 w2 w3 : world) :
  any_world w1 w2 → any_world w2 w3 → any_world w1 w3.
Proof. done. Qed.
Lemma any_world_store (w : world) p (n : Node) :
  is_Some (nodes w !! p) → any_world w (World (<[p := n]> (nodes w)) (objs w)).
Proof. done. Qed.
Lemma any_world_store_map (w : world) a m :
  any_world w (World (nodes w) (<[a := m]> (objs w))).
Proof. done. Qed.

Ltac nt_init :=
  pose proof any_world_refl; pose proof any_world_trans;
  pose proof any_world_store; pose proof any_world_store_map.
Ltac nt_code :=
  assert (∀ this fuel z, stable any_world (insert_fix (Key:=Key) (T:=T) this fuel z))
    by (intros; apply stable_insert_fix; assumption);
  assert (∀ this fuel x xp,
            stable any_world (erase_fix (Key:=Key) (T:=T) this fuel x xp))
    by (intros; apply stable_erase_fix; assumption);
  assert (∀ this fuel z, stable any_world (erase_unlink (Key:=Key) (T:=T) this fuel z))
    by (intros; apply stable_erase_unlink; assumption);
  assert (∀ fuel key cur parent,
            stable any_world (descend (T:=T) comp fuel key cur parent))
    by (intros; apply stable_descend; assumption);
  assert (∀ this fuel key, stable any_world (find_node (T:=T) comp this fuel key))
    by (intros; apply stable_find_node; assumption);
  assert (∀ fuel x, stable any_world (min_node_loop (Key:=Key) (T:=T) fuel x))
    by (intros; apply stable_min_node_loop; assumption);
  assert (∀ fuel x, stable any_world (max_node_loop (Key:=Key) (T:=T) fuel x))
    by (intros; apply stable_max_node_loop; assumption);
  assert (∀ this, stable any_world (blacken_root (Key:=Key) (T:=T) this))
    by (intros; apply stable_blacken_root; assumption).

Lemma nt_new_Node d : stable any_world (new_Node (Key:=Key) (T:=T) d).
Proof. by intros w. Qed.
Lemma nt_delete_Node p : stable any_world (delete_Node (Key:=Key) (T:=T) p).
Proof. intros w. unfold delete_Node. by destruct (nodes w !! p). Qed.
Lemma nt_map_ctor this : stable any_world (map_ctor (Key:=Key) (T:=T) this).
Proof. intros w. unfold map_ctor. by destruct (objs w !! this). Qed.

Lemma nt_link_new this value parent : stable any_world (link_new comp this value parent).
Proof. nt_init. pose proof nt_new_Node. unfold link_new. st. Qed.
Lemma nt_map_insert this fuel value :
  stable any_world (map_insert comp this fuel value).
Proof.
  nt_init. nt_code. pose proof nt_link_new. unfold map_insert. st; auto.
Qed.
Lemma nt_map_index this fuel key :
  stable any_world (map_index comp T_default this fuel key).
Proof.
  nt_init. nt_code. pose proof nt_link_new. unfold map_index. st; auto.
Qed.
Lemma nt_erase_node this fuel z : stable any_world (erase_node (Key:=Key) (T:=T) this fuel z).
Proof.
  nt_init. nt_code. pose proof nt_delete_Node. unfold erase_node.
  repeat first [st_step | destruct a as [[[] ?] ?]]; auto.
Qed.
Lemma nt_clear_node fuel : ∀ x, stable any_world (clear_node (Key:=Key) (T:=T) fuel x).
Proof.
  nt_init. pose proof nt_delete_Node.
  induction fuel as [|fuel IH]; intros x; simpl; st.
Qed.
Lemma nt_map_clear this fuel : stable any_world (map_clear (Key:=Key) (T:=T) this fuel).
Proof. nt_init. pose proof nt_clear_node. unfold map_clear. st. Qed.
Lemma nt_clone_subtree this fuel : ∀ parent other,
  stable any_world (clone_subtree (Key:=Key) (T:=T) this fuel parent other).
Proof.
  nt_init. pose proof nt_new_Node.
  induction fuel as [|fuel IH]; intros parent other; simpl; st.
Qed.
Lemma nt_map_copy_ctor this fuel other :
  stable any_world (map_copy_ctor (Key:=Key) (T:=T) this fuel other).
Proof.
  nt_init. pose proof nt_clone_subtree. pose proof nt_map_ctor.
  unfold map_copy_ctor. st.
Qed.
Lemma nt_map_assign this fuel other :
  stable any_world (map_assign (Key:=Key) (T:=T) this fuel other).
Proof.
  nt_init. pose proof nt_clone_subtree. pose proof nt_map_clear.
  unfold map_assign. st.
Qed.
Lemma nt_map_dtor this fuel : stable any_world (map_dtor (Key:=Key) (T:=T) this fuel).
Proof.
  nt_init. pose proof nt_map_clear. unfold map_dtor.
  apply stable_bind; [done|auto|]. by intros _ w.
Qed.
Lemma nt_next_node fuel x : stable any_world (next_node (Key:=Key) (T:=T) fuel x).
Proof.
  nt_init. nt_code.
  assert (∀ fuel x p, stable any_world (next_node_loop (Key:=Key) (T:=T) fuel x p)) as Hl.
  { clear fuel x. induction fuel as [|fuel IH]; intros x p; simpl; st. }
  unfold next_node, min_node. st; auto.
Qed.
Lemma nt_prev_node fuel x : stable any_world (prev_node (Key:=Key) (T:=T) fuel x).
Proof.
  nt_init. nt_code.
  assert (∀ fuel x p, stable any_world (prev_node_loop (Key:=Key) (T:=T) fuel x p)) as Hl.
  { clear fuel x. induction fuel as [|fuel IH]; intros x p; simpl; st. }
  unfold prev_node, max_node. st; auto.
Qed.

Lemma nt_lookups :
  (∀ this fuel key, stable any_world (map_find (T:=T) comp this fuel key)) ∧
  (∀ this fuel key, stable any_world (map_count (T:=T) comp this fuel key)) ∧
  (∀ this fuel, stable any_world (map_begin (Key:=Key) (T:=T) this fuel)) ∧
  (∀ this, stable any_world (map_size (Key:=Key) (T:=T) this)) ∧
  (∀ this, stable any_world (map_empty (Key:=Key) (T:=T) this)) ∧
  (∀ r, stable any_world (ref_data (Key:=Key) (T:=T) r)) ∧
  (∀ r v, stable any_world (ref_assign (Key:=Key) (T:=T) r v)) ∧
  (∀ it, stable any_world (iter_arrow (Key:=Key) (T:=T) it)).
Proof.
  nt_init. nt_code. split_and!; intros.
  - unfold map_find. st.
  - unfold map_count. st.
  - unfold map_begin, min_node. st.
  - unfold map_size. st.
  - unfold map_empty. st.
  - unfold ref_data. st.
  - unfold ref_assign. st.
  - unfold iter_arrow. st.
Qed.

Lemma readonly_ok {A} (m : M A) w r w' : readonly m → m w = Ok r w' → w' = w.
Proof. intros H Hm. specialize (H w). by rewrite Hm in H. Qed.

(** The computation [m] throws neither of the two exception classes of
    the container, in any world. *)
Definition throws_neither {A} (m : M A) : Prop :=
  ∀ w w', m w ≠ Throw invalid_iterator w' ∧ m w ≠ Throw index_out_of_bound w'.

Lemma never_throws_neither {A} (m : M A) : never_throws m → throws_neither m.
Proof. intros H w w'. split; apply H. Qed.

(** X10. The exceptions of the container, [invalid_iterator] and
    [index_out_of_bound], come from [at], [operator[] const], [erase]
    and the cursor operators [*], [++] and [--] only.  Whatever the
    world and the arguments, neither of them is thrown by the
    constructors, the assignment, the destructor, [clear], [insert],
    [operator[]], [find], [count], [begin], [size], [empty], a read or a
    write through a reference, or [operator->].  (What [new] and the
    copying or comparing of keys and values may throw is not part of
    the model, and the statement says nothing about it.) *)
Theorem X10_no_container_exception :
  (∀ this, throws_neither (map_ctor (Key:=Key) (T:=T) this)) ∧
  (∀ this fuel other, throws_neither (map_copy_ctor (Key:=Key) (T:=T) this fuel other)) ∧
  (∀ this fuel other, throws_neither (map_assign (Key:=Key) (T:=T) this fuel other)) ∧
  (∀ this fuel, throws_neither (map_dtor (Key:=Key) (T:=T) this fuel)) ∧
  (∀ this fuel, throws_neither (map_clear (Key:=Key) (T:=T) this fuel)) ∧
  (∀ this fuel value, throws_neither (map_insert (T:=T) comp this fuel value)) ∧
  (∀ this fuel key, throws_neither (map_index comp T_default this fuel key)) ∧
  (∀ this fuel key, throws_neither (map_find (T:=T) comp this fuel key)) ∧
  (∀ this fuel key, throws_neither (map_count (T:=T) comp this fuel key)) ∧
  (∀ this fuel, throws_neither (map_begin (Key:=Key) (T:=T) this fuel)) ∧
  (∀ this, throws_neither (map_size (Key:=Key) (T:=T) this)) ∧
  (∀ this, throws_neither (map_empty (Key:=Key) (T:=T) this)) ∧
  (∀ r, throws_neither (ref_data (Key:=Key) (T:=T) r)) ∧
  (∀ r v, throws_neither (ref_assign (Key:=Key) (T:=T) r v)) ∧
  (∀ it, throws_neither (iter_arrow (Key:=Key) (T:=T) it)).
Proof.
  destruct nt_lookups as (H1 & H2 & H3 & H4 & H5 & H6 & H7 & H8).
  split_and!; intros; apply never_throws_neither, stable_never_throws; auto.
  - apply nt_map_ctor.
  - apply nt_map_copy_ctor.
  - apply nt_map_assign.
  - apply nt_map_dtor.
  - apply nt_map_clear.
  - apply nt_map_insert.
  - apply nt_map_index.
Qed.

(** X12. What is thrown is thrown before anything is changed.  [at]
    and [operator[] const] throw [index_out_of_bound] only, [erase]
    throws [invalid_iterator] only and only for a cursor of another map
    or an end cursor, and [++], [--] and [operator*] throw
    [invalid_iterator] only; in each case the world is the one the call
    found, whatever that world is. *)
Theorem X12_exceptions_change_nothing :
  (∀ this fuel key (w : world) e w',
     map_at comp this fuel key w = Throw e w' → e = index_out_of_bound ∧ w' = w) ∧
  (∀ this fuel key (w : world) e w',
     map_index_const comp this fuel key w = Throw e w' →
     e = index_out_of_bound ∧ w' = w) ∧
  (∀ this fuel pos (w : world) e w',
     map_erase this fuel pos w = Throw e w' →
     e = invalid_iterator ∧ w' = w ∧ (owner pos ≠ Some this ∨ cur pos = None)) ∧
  (∀ fuel it (w : world) e w',
     iter_incr fuel it w = Throw e w' →
     e = invalid_iterator ∧ w' = w ∧ (owner it = None ∨ cur it = None)) ∧
  (∀ fuel it (w : world) e w',
     iter_decr fuel it w = Throw e w' → e = invalid_iterator ∧ w' = w) ∧
  (∀ it (w : world) e w',
     iter_deref it w = Throw e w' → e = invalid_iterator ∧ w' = w ∧ cur it = None).
Proof.
  nt_init. nt_code.
  assert (∀ this fuel key (w : world) e w',
     map_at comp this fuel key w = Throw e w' → e = index_out_of_bound ∧ w' = w) as Hat.
  { intros this fuel key w e w' Hm. unfold map_at in Hm.
    apply bind_throw_inv in Hm as [Hm|(r & w1 & Hf & Hm)].
    { by eapply stable_throw in Hm. }
    apply (readonly_ok _ _ _ _ (readonly_find_node comp this fuel key)) in Hf as ->.
    destruct r; [done|]. by injection Hm as <- <-. }
  split_and!; [exact Hat|exact Hat| | | |].
  - intros this fuel pos w e w' Hm. unfold map_erase in Hm.
    destruct (bool_decide (owner pos ≠ Some this) || bool_decide (cur pos = None)) eqn:Hg.
    + injection Hm as <- <-. split_and!; [done..|].
      apply orb_true_iff in Hg as [Hg|Hg]; apply bool_decide_eq_true in Hg; auto.
    + destruct (cur pos) as [z|]; [|done]. by eapply stable_throw in Hm; [|apply nt_erase_node].
  - intros fuel [[o|] [c|]] w e w' Hm; unfold iter_incr in Hm; simpl owner in Hm;
      simpl cur in Hm; cbv iota beta in Hm.
    + exfalso. apply bind_throw_inv in Hm as [Hm|(r & w1 & Hf & Hm)]; [|done].
      by eapply stable_throw in Hm; [|apply nt_next_node].
    + injection Hm as <- <-. auto.
    + injection Hm as <- <-. auto.
    + injection Hm as <- <-. auto.
  - intros fuel [[o|] [c|]] w e w' Hm; unfold iter_decr in Hm; simpl owner in Hm;
      simpl cur in Hm; cbv iota beta in Hm.
    + apply bind_throw_inv in Hm as [Hm|(r & w1 & Hf & Hm)].
      { by eapply stable_throw in Hm; [|apply nt_prev_node]. }
      apply (readonly_ok _ _ _ _ (readonly_prev_node fuel (Some c))) in Hf as ->.
      destruct r; [done|]. by injection Hm as <- <-.
    + apply bind_throw_inv in Hm as [Hm|(r & w1 & Hf & Hm)].
      { exfalso. revert Hm. apply stable_throw with any_world. unfold get_root. st. }
      apply (readonly_ok _ _ _ _ (readonly_get_root o)) in Hf as ->.
      destruct r as [r|]; [|by injection Hm as <- <-]. exfalso.
      apply bind_throw_inv in Hm as [Hm|(r' & w1 & Hf & Hm)]; [|done].
      revert Hm. apply stable_throw with any_world. unfold max_node. st.
    + by injection Hm as <- <-.
    + by injection Hm as <- <-.
  - intros [o [c|]] w e w' Hm; unfold iter_deref in Hm; simpl in Hm.
    + exfalso. apply bind_throw_inv in Hm as [Hm|(r & w1 & Hf & Hm)]; [|done].
      unfold load in Hm. by destruct (nodes w !! c).
    + by injection Hm as <- <-.
Qed.

End exceptions.

(** ** What is allocated and freed *)

Section allocation.
Context {Key T : Type}.
Variable comp : Key → Key → bool.
Variable T_default : T.
Notation world := (world (Key:=Key) (T:=T)).
Notation M := (M (Key:=Key) (T:=T)).
Notation Node := (Node (Key:=Key) (T:=T)).

(** The same addresses hold nodes. *)
Definition same_nodes : world → world → Prop :=
  λ w w', dom (nodes w') = dom (nodes w).

Lemma same_nodes_refl (w : world) : same_nodes w w.
Proof. done. Qed.
Lemma same_nodes_trans (w1 w2 w3 : world) :
  same_nodes w1 w2 → same_nodes w2 w3 → same_nodes w1 w3.
Proof. unfold same_nodes. congruence. Qed.
Lemma same_nodes_store (w : world) p (n : Node) :
  is_Some (nodes w !! p) → same_nodes w (World (<[p := n]> (nodes w)) (objs w)).
Proof.
  intros Hp%elem_of_dom. unfold same_nodes. simpl. rewrite dom_insert_L. set_solver.
Qed.
Lemma same_nodes_store_map (w : world) a m :
  same_nodes w (World (nodes w) (<[a := m]> (objs w))).
Proof. done. Qed.

Ltac sn_init :=
  pose proof same_nodes_refl; pose proof same_nodes_trans;
  pose proof same_nodes_store; pose proof same_nodes_store_map.

Lemma link_new_alloc this value parent (w : world) z w' :
  link_new comp this value parent w = Ok z w' →
  z ∉ dom (nodes w) ∧ dom (nodes w') = {[z]} ∪ dom (nodes w).
Proof.
  intros Hm. unfold link_new in Hm.
  apply bind_ok_inv in Hm as (z0 & w1 & Hnew & Hm).
  unfold new_Node in Hnew. injection Hnew as <- <-.
  apply bind_ok_inv in Hm as (? & w2 & H1 & Hm).
  apply bind_ok_inv in Hm as (? & w3 & H2 & Hm).
  apply bind_ok_inv in Hm as (? & w4 & H3 & Hm).
  injection Hm as <- <-.
  sn_init.
  apply (stable_ok same_nodes) in H1; [|st].
  apply (stable_ok same_nodes) in H2; [|st].
  apply (stable_ok same_nodes) in H3; [|st].
  split; [apply is_fresh|].
  unfold same_nodes in *. rewrite H3 H2 H1 /=. by rewrite dom_insert_L.
Qed.

(** X13. What the calls allocate and free, in any world.  [insert]
    that returns [false] leaves the world as it is, and [insert] that
    returns [true] allocates one node, the one its cursor refers to;
    [operator[]] allocates the node it returns a reference to or
    nothing; [erase] that returns frees the node of its cursor and no
    other; no other node comes or goes. *)
Theorem X13_nodes_allocated_and_freed :
  (∀ this fuel value (w : world) r w',
     map_insert comp this fuel value w = Ok r w' →
     (r.2 = false ∧ w' = w) ∨
     (r.2 = true ∧ ∃ z, r.1 = Iter (Some this) (Some z) ∧ z ∉ dom (nodes w) ∧
                        dom (nodes w') = {[z]} ∪ dom (nodes w))) ∧
  (∀ this fuel key (w : world) r w',
     map_index comp T_default this fuel key w = Ok r w' →
     w' = w ∨ (r ∉ dom (nodes w) ∧ dom (nodes w') = {[r]} ∪ dom (nodes w))) ∧
  (∀ this fuel pos (w : world) w',
     map_erase this fuel pos w = Ok tt w' →
     ∃ z, cur pos = Some z ∧ z ∈ dom (nodes w) ∧
          dom (nodes w') = dom (nodes w) ∖ {[z]}) ∧
  (∀ r v (w : world) w',
     ref_assign r v w = Ok tt w' → dom (nodes w') = dom (nodes w)).
Proof.
  sn_init.
  assert (∀ this fuel z, stable same_nodes (insert_fix (Key:=Key) (T:=T) this fuel z))
    as Hfix by (intros; apply stable_insert_fix; assumption).
  split_and!.
  - intros this fuel value w r w' Hm. unfold map_insert in Hm.
    apply bind_ok_inv in Hm as (rt & w1 & G1 & Hm).
    apply (readonly_ok _ _ _ _ (readonly_get_root this)) in G1 as ->.
    apply bind_ok_inv in Hm as (d & w2 & G2 & Hm).
    apply (readonly_ok _ _ _ _ (readonly_descend comp fuel _ _ _)) in G2 as ->.
    destruct d as [c|parent].
    { injection Hm as <- <-. by left. }
    apply bind_ok_inv in Hm as (z & w3 & G3 & Hm).
    apply bind_ok_inv in Hm as (? & w4 & G4 & Hm).
    injection Hm as <- <-. right. split; [done|]. exists z. split; [done|].
    apply link_new_alloc in G3 as [Hz G3].
    apply (stable_ok same_nodes) in G4; [|apply Hfix].
    split; [done|]. unfold same_nodes in G4. by rewrite G4.
  - intros this fuel key w r w' Hm. unfold map_index in Hm.
    apply bind_ok_inv in Hm as (rt & w1 & G1 & Hm).
    apply (readonly_ok _ _ _ _ (readonly_get_root this)) in G1 as ->.
    apply bind_ok_inv in Hm as (d & w2 & G2 & Hm).
    apply (readonly_ok _ _ _ _ (readonly_descend comp fuel _ _ _)) in G2 as ->.
    destruct d as [c|parent].
    { injection Hm as <- <-. by left. }
    apply bind_ok_inv in Hm as (z & w3 & G3 & Hm).
    apply bind_ok_inv in Hm as (? & w4 & G4 & Hm).
    injection Hm as <- <-. right.
    apply link_new_alloc in G3 as [Hz G3].
    apply (stable_ok same_nodes) in G4; [|apply Hfix].
    split; [done|]. unfold same_nodes in G4. by rewrite G4.
  - intros this fuel pos w w' Hm. unfold map_erase in Hm.
    destruct (bool_decide (owner pos ≠ Some this) || bool_decide (cur pos = None));
      [done|].
    destruct (cur pos) as [z|]; [|done]. exists z. split; [done|].
    unfold erase_node in Hm.
    apply bind_ok_inv in Hm as ([[c x] xp] & w1 & G1 & Hm).
    apply (stable_ok same_nodes) in G1; [|by apply stable_erase_unlink].
    apply bind_ok_inv in Hm as (? & w2 & G2 & Hm).
    apply bind_ok_inv in Hm as (? & w3 & G3 & Hm).
    apply bind_ok_inv in Hm as (? & w4 & G4 & Hm).
    apply (stable_ok same_nodes) in G3; [|st].
    apply (stable_ok same_nodes) in G4;
      [|destruct c; [st|by apply stable_erase_fix]].
    apply (stable_ok same_nodes) in Hm; [|by apply stable_blacken_root].
    unfold delete_Node in G2. destruct (nodes w1 !! z) eqn:Hz; [|done].
    injection G2 as _ <-. unfold same_nodes in *. simpl in *.
    rewrite -G1. split; [by apply elem_of_dom|].
    rewrite Hm G4 G3. by rewrite dom_delete_L.
  - intros r v w w' Hm. apply (stable_ok same_nodes) in Hm; [done|].
    unfold ref_assign. st.
Qed.

End allocation.


(** * The nodes [clear] and the destructor free *)

Section free.
Context {Key T : Type}.
Notation tree := (tree (Key:=Key) (T:=T)).
Notation world := (world (Key:=Key) (T:=T)).
Notation M := (M (Key:=Key) (T:=T)).
Notation Node := (Node (Key:=Key) (T:=T)).
Notation heap := (gmap ptr Node).

Lemma dom_after_free ps (h h' : heap) :
  (∀ p, h' !! p = if decide (p ∈ ps) then None else h !! p) →
  dom h' = dom h ∖ list_to_set ps.
Proof.
  intros Hl. apply set_eq. intros p.
  rewrite elem_of_difference !elem_of_dom Hl elem_of_list_to_set.
  destruct (decide (p ∈ ps)); split.
  - by intros [? ?].
  - by intros [_ ?].
  - done.
  - by intros [? _].
Qed.

Lemma tree_at_ext (h h' : heap) : ∀ (t : tree) par,
  (∀ p, p ∈ ptrs t → h' !! p = h !! p) → tree_at h par t → tree_at h' par t.
Proof.
  induction t as [|c l IHl p d r IHr]; intros par Hext; simpl; [done|].
  rewrite ptrs_Nd in Hext. intros (Hp & Hl & Hr). split_and!.
  - rewrite Hext //. apply elem_of_app. right. by left.
  - apply IHl; [|done]. intros q Hq. apply Hext, elem_of_app. by left.
  - apply IHr; [|done]. intros q Hq. apply Hext, elem_of_app. right. by right.
Qed.

(** [clear_node] frees the nodes of the tree and no other. *)
Lemma clear_node_frees fuel : ∀ (t : tree) par (h : heap) o,
  height t ≤ fuel → NoDup (ptrs t) → tree_at h par t →
  ∃ h', clear_node fuel (root_of t) (World h o) = Ok tt (World h' o) ∧
        ∀ p, h' !! p = if decide (p ∈ ptrs t) then None else h !! p.
Proof.
  induction fuel as [|fuel IH]; intros [|c l p d r] par h o Hh Hnd Ht;
    simpl in Hh; try lia.
  - exists h. split; [done|]. intros q.
    destruct (decide (q ∈ ptrs Leaf)) as [Hin|_]; [by apply elem_of_nil in Hin|done].
  - exists h. split; [done|]. intros q.
    destruct (decide (q ∈ ptrs Leaf)) as [Hin|_]; [by apply elem_of_nil in Hin|done].
  - rewrite ptrs_Nd in Hnd. apply NoDup_app in Hnd as (Hndl & Hlr & Hnd).
    apply NoDup_cons in Hnd as [Hpr Hndr]. destruct Ht as (Hp & Hl & Hr).
    assert (p ∉ ptrs l) as Hpl.
    { intros Hin. apply (Hlr p Hin). by left. }
    destruct (IH l (Some p) h o) as (h1 & Hc1 & Hh1); [lia|done|done|].
    assert (tree_at h1 (Some p) r) as Hr1.
    { eapply tree_at_ext; [|exact Hr]. intros q Hq. rewrite Hh1 decide_False //.
      intros Hin. apply (Hlr q Hin). by right. }
    destruct (IH r (Some p) h1 o) as (h2 & Hc2 & Hh2); [lia|done|done|].
    assert (h1 !! p = Some (mkNode d c (root_of l) (root_of r) par)) as Hp1.
    { by rewrite Hh1 decide_False. }
    assert (h2 !! p = Some (mkNode d c (root_of l) (root_of r) par)) as Hp2.
    { by rewrite Hh2 decide_False. }
    exists (delete p h2). split.
    + simpl.
      assert (get_left p (World h o) = Ok (root_of l) (World h o)) as Hgl.
      { unfold get_left, bind, load. simpl. by rewrite Hp. }
      assert (get_right p (World h1 o) = Ok (root_of r) (World h1 o)) as Hgr.
      { unfold get_right, bind, load. simpl. by rewrite Hp1. }
      rewrite (bind_ok _ _ _ _ _ Hgl) (bind_ok _ _ _ _ _ Hc1).
      rewrite (bind_ok _ _ _ _ _ Hgr) (bind_ok _ _ _ _ _ Hc2).
      unfold delete_Node. simpl. by rewrite Hp2.
    + intros q. rewrite ptrs_Nd. destruct (decide (q = p)) as [->|Hne].
      { rewrite lookup_delete_eq decide_True //. apply elem_of_app. right. by left. }
      rewrite lookup_delete_ne // Hh2 Hh1.
      destruct (decide (q ∈ ptrs l)), (decide (q ∈ ptrs r)).
      * rewrite decide_True //. apply elem_of_app. by left.
      * rewrite decide_True //. apply elem_of_app. by left.
      * rewrite decide_True //. apply elem_of_app. right. by right.
      * rewrite decide_False //. intros [?|[?|?]%elem_of_cons]%elem_of_app; done.
Qed.

Section world.
Variable comp : Key → Key → bool.
Variable T_default : T.
Hypothesis Hswo : StrictWeakOrder comp.
Notation reachable := (reachable comp T_default).

(** The trees of two maps share no node. *)
Lemma winv_disjoint (w : world) Ts a b (t tb : tree) :
  winv comp w Ts → Ts !! a = Some t → Ts !! b = Some tb → a ≠ b →
  ∀ p, p ∈ ptrs t → p ∉ ptrs tb.
Proof.
  intros (_ & _ & H) Ha Hb Hne p Hp Hp'.
  eapply (hprop_entails_holds _ (⌜False⌝)%I); [|exact H].
  iIntros "H". iDestruct (big_sepM_delete with "H") as "[[_ Ha] H]"; [exact Ha|].
  iDestruct (big_sepM_delete _ _ b with "H") as "[[_ Hb] _]".
  { by rewrite lookup_delete_ne. }
  iDestruct (is_tree_acc _ _ _ Hp with "Ha") as (nd) "Hq".
  iDestruct (is_tree_acc _ _ _ Hp' with "Hb") as (nd') "Hq'".
  iApply (pointsto_excl with "Hq Hq'").
Qed.

Lemma clear_frees (w : world) a (t : tree) fuel :
  repr w a t → NoDup (ptrs t) → length (entries t) ≤ fuel →
  ∃ h', map_clear a fuel w = Ok tt (World h' (<[a := Map None 0]> (objs w))) ∧
        ∀ p, h' !! p = if decide (p ∈ ptrs t) then None else nodes w !! p.
Proof.
  intros [Ho Ht] Hnd Hf. pose proof (length_entries_height t).
  destruct w as [h o]. simpl in *.
  destruct (clear_node_frees fuel t None h o) as (h' & Hc & Hh'); [lia|done|done|].
  exists h'. split; [|done]. unfold map_clear.
  assert (get_root a (World h o) = Ok (root_of t) (World h o)) as Hroot.
  { unfold get_root, bind, load_map. simpl. by rewrite Ho. }
  rewrite (bind_ok _ _ _ _ _ Hroot) (bind_ok _ _ _ _ _ Hc).
  assert (set_root a None (World h' o)
          = Ok tt (World h' (<[a := Map None (cnt t)]> o))) as Hsr.
  { unfold set_root, bind, load_map, store_map. simpl. by rewrite Ho /= Ho. }
  rewrite (bind_ok _ _ _ _ _ Hsr).
  unfold set_node_count, bind, load_map, store_map. simpl.
  rewrite lookup_insert_eq /= lookup_insert_eq /=. by rewrite insert_insert_eq.
Qed.

(** X14. [clear] frees the nodes of the entries of its map and no
    other node: afterwards exactly the addresses of those nodes hold no
    node any more, every other node is as it was, and the object holds
    the null root and the count 0. *)
Theorem X14_clear_frees_the_nodes (w : world) (a : addr) (t : tree) (fuel : nat) :
  reachable w → repr w a t → length (entries t) ≤ fuel →
  ∃ w' : world,
    map_clear a fuel w = Ok tt w' ∧
    dom (nodes w') = dom (nodes w) ∖ list_to_set (ptrs t) ∧
    (∀ p, p ∉ ptrs t → nodes w' !! p = nodes w !! p) ∧
    objs w' = <[a := Map None 0]> (objs w).
Proof.
  intros Hreach Hr Hf.
  destruct (reachable_lookup comp T_default Hswo w a t Hreach Hr)
    as (Ts & Hw & Ha & Hnd & Hg).
  destruct (clear_frees w a t fuel Hr Hnd Hf) as (h' & Hm & Hh').
  eexists. split; [exact Hm|]. simpl. split_and!; [|
    |done].
  - by apply dom_after_free.
  - intros p Hp. rewrite Hh'. by destruct (decide (p ∈ ptrs t)).
Qed.

(** X15. The destructor returns; the map object is gone, the nodes of
    its entries are freed and no other node is, every other map holds
    the tree it held, and a map can be constructed at the address
    again. *)
Theorem X15_destructor (w : world) (a : addr) (t : tree) (fuel : nat) :
  reachable w → repr w a t → length (entries t) ≤ fuel →
  ∃ w' : world,
    map_dtor a fuel w = Ok tt w' ∧
    objs w' = delete a (objs w) ∧
    dom (nodes w') = dom (nodes w) ∖ list_to_set (ptrs t) ∧
    (∀ b (tb : tree), b ≠ a → repr w b tb → repr w' b tb) ∧
    (∃ w'' : world, map_ctor a w' = Ok tt w'').
Proof.
  intros Hreach Hr Hf.
  destruct (reachable_lookup comp T_default Hswo w a t Hreach Hr)
    as (Ts & Hw & Ha & Hnd & Hg).
  destruct (clear_frees w a t fuel Hr Hnd Hf) as (h' & Hm & Hh').
  exists (World h' (delete a (objs w))).
  split. { unfold map_dtor. rewrite (bind_ok _ _ _ _ _ Hm). simpl.
           by rewrite delete_insert_eq. }
  split; [done|]. split; [by apply dom_after_free|]. split.
  - intros b tb Hne Hrb. pose proof (winv_repr _ _ _ _ _ Hw Hrb) as Hb.
    destruct Hrb as [Hob Htb]. split; simpl.
    + by rewrite lookup_delete_ne.
    + eapply tree_at_ext; [|exact Htb]. intros p Hp. rewrite Hh'.
      destruct (decide (p ∈ ptrs t)) as [Hin|]; [|done]. exfalso.
      by eapply (winv_disjoint w Ts a b t tb).
  - eexists. unfold map_ctor. simpl. by rewrite lookup_delete_eq.
Qed.

End world.
End free.


(** * Equivalent keys and copies *)

Section alike.
Context {Key T : Type}.
Variable comp : Key → Key → bool.
Variable T_default : T.
Hypothesis Hswo : StrictWeakOrder comp.
Notation tree := (tree (Key:=Key) (T:=T)).
Notation world := (world (Key:=Key) (T:=T)).
Notation M := (M (Key:=Key) (T:=T)).
Notation entry := (ptr * (Key * T))%type.
Notation reachable := (reachable comp T_default).

Lemma has_key_equiv (es : list entry) k1 k2 :
  eq_key comp k1 k2 = true → has_key comp es k1 → has_key comp es k2.
Proof.
  intros Heq (e & Hin & He). exists e. split; [done|].
  eapply (swo_equiv_trans _ Hswo); [|exact He]. by apply eq_key_sym.
Qed.

Lemma find_equiv (w : world) Ts a (t : tree) fuel k1 k2 :
  winv comp w Ts → Ts !! a = Some t → length (entries t) ≤ fuel →
  eq_key comp k1 k2 = true →
  find_node comp a fuel k1 w = find_node comp a fuel k2 w.
Proof.
  intros Hw Ha Hf Heq.
  destruct (find_ok comp w Ts a t Hw Ha Hswo fuel k1 Hf) as (r & Hfind & Hres).
  rewrite Hfind. symmetry. destruct r as [c|].
  - destruct Hres as (d & Hin & He).
    eapply (find_present comp Hswo); [done..|].
    eapply (swo_equiv_trans _ Hswo); [|exact He]. by apply eq_key_sym.
  - eapply (find_absent comp Hswo); [done..|].
    intros Hk. apply Hres. eapply has_key_equiv; [|exact Hk]. by apply eq_key_sym.
Qed.

(** X16. The lookups go by the equivalence of keys under [comp], not
    by their identity: for two keys neither of which is below the other,
    [find], [count] and [at] answer the same, a thrown
    [index_out_of_bound] included. *)
Theorem X16_equivalent_keys_look_up_alike (w : world) (a : addr) (t : tree)
    (fuel : nat) (k1 k2 : Key) :
  reachable w → repr w a t → length (entries t) ≤ fuel →
  eq_key comp k1 k2 = true →
  map_find comp a fuel k1 w = map_find comp a fuel k2 w ∧
  map_count comp a fuel k1 w = map_count comp a fuel k2 w ∧
  map_at comp a fuel k1 w = map_at comp a fuel k2 w.
Proof.
  intros Hreach Hr Hf Heq.
  destruct (reachable_lookup comp T_default Hswo w a t Hreach Hr)
    as (Ts & Hw & Ha & Hnd & Hg).
  pose proof (find_equiv w Ts a t fuel k1 k2 Hw Ha Hf Heq) as He.
  unfold map_find, map_count, map_at, bind. by rewrite He.
Qed.

(** X17. The copy shares no node with its source, and answers every
    lookup as the source does: [count] returns the same for both, and
    where [at] returns a reference into the source it returns another
    reference into the copy, behind which the same key and value are
    read. *)
Theorem X17_copy_shares_nothing (w : world) (a b : addr) (tA : tree) (fuel : nat) :
  reachable w → repr w a tA → length (entries tA) ≤ fuel → objs w !! b = None →
  ∃ (w' : world) (tB : tree),
    map_copy_ctor b fuel a w = Ok tt w' ∧ repr w' a tA ∧ repr w' b tB ∧
    (∀ p, p ∈ ptrs tA → p ∉ ptrs tB) ∧
    (∀ k, ∃ n, map_count comp a fuel k w' = Ok n w' ∧
               map_count comp b fuel k w' = Ok n w') ∧
    (∀ k ra, map_at comp a fuel k w' = Ok ra w' →
             ∃ rb d, map_at comp b fuel k w' = Ok rb w' ∧ rb ≠ ra ∧
                     ref_data ra w' = Ok d w' ∧ ref_data rb w' = Ok d w').
Proof.
  intros Hreach Hr Hf Hb.
  destruct (reachable_lookup comp T_default Hswo w a tA Hreach Hr)
    as (Ts & Hw & Ha & Hnd & Hg).
  destruct (copy_ctor_ok comp w Ts a tA b fuel Hw Ha Hb Hf)
    as (w' & tB & Hm & Hs & Hw').
  assert (a ≠ b) as Hne.
  { intros ->. destruct Hr as [Hr _]. congruence. }
  assert (<[b := tB]> Ts !! b = Some tB) as HB by apply lookup_insert_eq.
  assert (<[b := tB]> Ts !! a = Some tA) as HA by (by rewrite lookup_insert_ne).
  destruct (winv_lookup _ _ _ _ _ Hw' HB) as (HrB & _ & _).
  destruct (winv_lookup _ _ _ _ _ Hw' HA) as (HrA & _ & _).
  pose proof (tree_sim_entries _ _ Hs) as Hent.
  assert (length (entries tB) ≤ fuel) as HfB.
  { by rewrite -(tree_sim_length _ _ Hs). }
  assert (∀ p, p ∈ ptrs tA → p ∉ ptrs tB) as Hdisj.
  { by eapply (winv_disjoint comp w' _ a b tA tB). }
  exists w', tB. split; [exact Hm|]. split; [exact HrA|]. split; [exact HrB|].
  split; [exact Hdisj|]. split.
  - intros k.
    destruct (find_ok comp w' _ a tA Hw' HA Hswo fuel k Hf) as (r & Hfind & Hres).
    destruct r as [c|].
    + destruct Hres as (d & Hin & Heq).
      assert (d ∈ (entries tB).*2) as ([c' d'] & -> & Hin')%list_elem_of_fmap.
      { rewrite -Hent. apply list_elem_of_fmap. by exists (c, d). }
      pose proof (find_present comp Hswo w' _ b tB fuel k c' d' Hw' HB HfB Hin' Heq)
        as Hfind'.
      exists 1%N. split.
      * by apply (find_present_results comp w' a fuel k c).
      * by apply (find_present_results comp w' b fuel k c').
    + assert (¬ has_key comp (entries tB) k) as Habs.
      { intros Hk. apply Hres. eapply has_key_snd; [|exact Hk]. done. }
      pose proof (find_absent comp Hswo w' _ b tB fuel k Hw' HB HfB Habs) as Hfind'.
      exists 0%N. split.
      * by apply (find_absent_results comp w' a fuel k).
      * by apply (find_absent_results comp w' b fuel k).
  - intros k ra Hat.
    destruct (find_ok comp w' _ a tA Hw' HA Hswo fuel k Hf) as (r & Hfind & Hres).
    unfold map_at in Hat. rewrite (bind_ok _ _ _ _ _ Hfind) in Hat.
    destruct r as [c|]; [|done]. unfold ret in Hat. injection Hat as ->.
    destruct Hres as (d & Hin & Heq).
    assert (d ∈ (entries tB).*2) as ([rb d'] & -> & Hin')%list_elem_of_fmap.
    { rewrite -Hent. apply list_elem_of_fmap. by exists (ra, d). }
    pose proof (find_present comp Hswo w' _ b tB fuel k rb d' Hw' HB HfB Hin' Heq)
      as Hfind'.
    exists rb, d'. split; [by apply (find_present_results comp w' b fuel k rb)|].
    split.
    { intros ->. eapply (Hdisj ra); apply list_elem_of_fmap; by eexists (_, _). }
    simpl in Hin. split.
    + exact (repr_ref_data w' a tA ra d' HrA Hin).
    + exact (repr_ref_data w' b tB rb d' HrB Hin').
Qed.

End alike.


(** * Rotations *)

Section rotate.
Context {Key T : Type}.
Notation tree := (tree (Key:=Key) (T:=T)).
Notation world := (world (Key:=Key) (T:=T)).
Notation hprop := (hprop (Key:=Key) (T:=T)).
Notation M := (M (Key:=Key) (T:=T)).
Notation Node := (Node (Key:=Key) (T:=T)).
Notation heap := (gmap ptr Node).

(** The part of the heap at the addresses [ps]. *)
Definition only (ps : list ptr) (h : heap) : world :=
  World (filter (λ kv, kv.1 ∈ ps) h) ∅.

Lemma only_lookup ps (h : heap) p nd :
  nodes (only ps h) !! p = Some nd ↔ h !! p = Some nd ∧ p ∈ ps.
Proof. unfold only. simpl. by rewrite map_lookup_filter_Some. Qed.

Lemma only_disjoint ps qs (h : heap) :
  (∀ p, p ∈ ps → p ∉ qs) → wdisj (only ps h) (only qs h).
Proof.
  intros Hd. split; simpl; [|apply map_disjoint_empty_l].
  apply map_disjoint_spec. intros p x y [_ Hp]%only_lookup [_ Hq]%only_lookup.
  by apply (Hd p).
Qed.
Lemma only_mono ps qs (h : heap) :
  (∀ p, p ∈ ps → p ∈ qs) → wsub (only ps h) (only qs h).
Proof.
  intros Hs. split; simpl; [|done].
  apply map_subseteq_spec. intros p x [Hx Hp]%only_lookup.
  apply only_lookup. auto.
Qed.

(** A tree laid out in the heap without a shared node is owned. *)
Lemma tree_at_is_tree (h : heap) : ∀ (t : tree) par,
  tree_at h par t → NoDup (ptrs t) → is_tree par t (only (ptrs t) h).
Proof.
  induction t as [|c l IHl p d r IHr]; intros par; [done|].
  rewrite ptrs_Nd. intros (Hp & Hl & Hr) Hnd.
  apply NoDup_app in Hnd as (Hndl & Hlr & Hnd).
  apply NoDup_cons in Hnd as [Hpr Hndr].
  assert (p ∉ ptrs l) as Hpl.
  { intros Hin. apply (Hlr p Hin). by left. }
  tsimpl. apply holds_sep.
  exists (only [p] h), (wunion (only (ptrs l) h) (only (ptrs r) h)).
  assert (wdisj (only (ptrs l) h) (only (ptrs r) h)) as Hd.
  { apply only_disjoint. intros q Hq Hq'. apply (Hlr q Hq). by right. }
  split_and!.
  - apply wdisj_union_r. split; apply only_disjoint;
      intros q ->%list_elem_of_singleton; done.
  - split; simpl; [|by rewrite !left_id_L].
    apply map_subseteq_spec. intros q x.
    rewrite !lookup_union_Some_raw. rewrite !map_lookup_filter_Some /=.
    intros [[? ?%list_elem_of_singleton]|[_ [[? ?]|[_ [? ?]]]]]; split; try done.
    + subst. apply elem_of_app. right. by left.
    + apply elem_of_app. by left.
    + apply elem_of_app. right. by right.
  - apply only_lookup. split; [done|by left].
  - apply holds_sep. exists (only (ptrs l) h), (only (ptrs r) h).
    split_and!; [done|apply wsub_refl|by apply IHl|by apply IHr].
Qed.

Lemma pure_is_map (w : world) a n (t : tree) :
  objs w !! a = Some (Map (root_of t) n) → tree_at (nodes w) None t →
  NoDup (ptrs t) → is_map a n t w.
Proof.
  intros Ho Ht Hnd. apply holds_sep.
  exists (World ∅ {[a := Map (root_of t) n]}), (only (ptrs t) (nodes w)).
  split_and!.
  - split; simpl; [apply map_disjoint_empty_l|apply map_disjoint_empty_r].
  - split; simpl.
    + rewrite left_id_L. apply map_filter_subseteq.
    + rewrite right_id_L. by apply map_singleton_subseteq_l.
  - simpl. apply lookup_singleton_eq.
  - by apply tree_at_is_tree.
Qed.
Lemma is_map_pure (w : world) a n (t : tree) :
  is_map a n t w →
  objs w !! a = Some (Map (root_of t) n) ∧ tree_at (nodes w) None t ∧
  NoDup (ptrs t).
Proof.
  intros H. split_and!.
  - destruct H as (w1 & w2 & Hd & Hs & Ho & Ht).
    eapply (holds_mono (a ↦ₘ _)%I); [exact Ho|].
    eapply wsub_trans; [|exact Hs]. apply wsub_union_l.
  - destruct H as (w1 & w2 & Hd & Hs & Ho & Ht).
    apply is_tree_tree_at. eapply holds_mono; [exact Ht|].
    eapply wsub_trans; [|exact Hs]. by apply wsub_union_r.
  - by apply (hprop_entails_holds _ _ (is_map_NoDup a n t)) in H.
Qed.

(** X18. [left_rotate] at a node [x] with the right child [y] returns
    and makes [y] the parent of [x], the left subtree of [y] the right
    subtree of [x], and [y] the child of the former parent of [x] (or the
    root); the sequence of entries from left to right is the same; and
    [right_rotate] at [y] then gives back the tree as it was. *)
Theorem X18_rotations (w : world) (a : addr) (n : N) (ctx : list frame)
    (cx cy : bool) (A B C : tree) (x y : ptr) (dx dy : Key * T) :
  let t := plug ctx (Nd cx A x dx (Nd cy B y dy C)) in
  let t' := plug ctx (Nd cy (Nd cx A x dx B) y dy C) in
  objs w !! a = Some (Map (root_of t) n) → tree_at (nodes w) None t →
  NoDup (ptrs t) →
  ∃ w' w'' : world,
    left_rotate a x w = Ok tt w' ∧
    objs w' !! a = Some (Map (root_of t') n) ∧ tree_at (nodes w') None t' ∧
    entries t' = entries t ∧
    right_rotate a y w' = Ok tt w'' ∧
    objs w'' !! a = Some (Map (root_of t) n) ∧ tree_at (nodes w'') None t.
Proof.
  intros t t' Ho Ht Hnd.
  pose proof (pure_is_map w a n t Ho Ht Hnd) as Hm.
  destruct (wp_adequacy (left_rotate a x) (is_map a n t) (λ _, is_map a n t') w)
    as ([] & w' & Hl & _ & Hm'); [|done|].
  { unfold t, t'. rewrite is_map_plug. iIntros "[Hctx Ht]".
    iApply (wp_left_rotate with "Hctx Ht"). iIntros "Hctx Ht".
    iApply (bi.equiv_entails_1_2 _ _ (is_map_plug a n ctx _)). iFrame. }
  destruct (wp_adequacy (right_rotate a y) (is_map a n t') (λ _, is_map a n t) w')
    as ([] & w'' & Hr & _ & Hm''); [|done|].
  { unfold t, t'. rewrite is_map_plug. iIntros "[Hctx Ht]".
    iApply (wp_right_rotate with "Hctx Ht"). iIntros "Hctx Ht".
    iApply (bi.equiv_entails_1_2 _ _ (is_map_plug a n ctx _)). iFrame. }
  apply is_map_pure in Hm' as (Ho' & Ht' & _).
  apply is_map_pure in Hm'' as (Ho'' & Ht'' & _).
  exists w', w''. split_and!; try done.
  unfold t, t'. apply entries_plug_congr. simpl. by rewrite -!app_assoc.
Qed.

End rotate.


(** * The further properties on the map of integers *)

Lemma demo_fuel : length (entries demo_tree) < 9.
Proof. simpl. lia. Qed.
Lemma demo_fuel_le : length (entries demo_tree) ≤ 9.
Proof. simpl. lia. Qed.
Lemma demo_entry_3 : (2%positive, (3, 30)%Z) ∈ entries demo_tree.
Proof. simpl. set_solver. Qed.
Lemma demo_entry_5 : (1%positive, (5, 50)%Z) ∈ entries demo_tree.
Proof. simpl. set_solver. Qed.

Lemma X1_witness :
  ∃ (z : ptr) (w' : world (Key:=Z) (T:=Z)),
    map_insert Z.ltb 1 9 (7, 70)%Z demo3 = Ok (Iter (Some 1%positive) (Some z), true) w' ∧
    map_at Z.ltb 1 9 7%Z w' = Ok z w' ∧ ref_data z w' = Ok (7, 70)%Z w'.
Proof.
  destruct (X1_insert_new_key Z.ltb 0%Z Zltb_swo demo3 1 demo_tree 9 7%Z 70%Z
              demo3_reachable demo3_repr demo_fuel demo_absent_7)
    as (z & w' & t' & l1 & l2 & n & n' & Hm & _ & _ & _ & _ & _ & _ & Hat & Hd & _).
  exists z, w'. split; [exact Hm|]. split; [exact Hat|exact Hd].
Defined.

Lemma X2_witness :
  ∃ r (w' : world (Key:=Z) (T:=Z)),
    map_insert Z.ltb 1 9 (7, 70)%Z demo3 = Ok r w' ∧
    cursor_holds Z.ltb 1 9 2 (3, 30)%Z w'.
Proof.
  destruct (X2_cursors_stay_valid Z.ltb 0%Z Zltb_swo demo3 1 demo_tree 9
              2%positive (3, 30)%Z demo3_reachable demo3_repr demo_fuel demo_entry_3)
    as (Hins & _ & _).
  exact (Hins 7%Z 70%Z).
Defined.

Lemma X3_witness :
  ∃ w' : world (Key:=Z) (T:=Z),
    ref_assign 2 31%Z demo3 = Ok tt w' ∧
    ref_data 2 w' = Ok (3, 31)%Z w' ∧ map_at Z.ltb 1 9 3%Z w' = Ok 2%positive w'.
Proof.
  destruct (X3_write_through_reference Z.ltb 0%Z Zltb_swo demo3 1 demo_tree 9
              2%positive (3, 30)%Z 31%Z demo3_reachable demo3_repr demo_fuel_le
              demo_entry_3)
    as (w' & t' & l1 & l2 & n & Hm & _ & _ & _ & Hd & Hat & _).
  exists w'. split; [exact Hm|]. split; [exact Hd|exact Hat].
Defined.

Lemma X4_witness :
  map_find Z.ltb 1 9 5%Z demo3 = Ok (Iter (Some 1%positive) (Some 1%positive)) demo3 ∧
  map_count Z.ltb 1 9 5%Z demo3 = Ok 1%N demo3 ∧
  map_at Z.ltb 1 9 7%Z demo3 = Throw index_out_of_bound demo3.
Proof.
  destruct (X4_lookups_agree Z.ltb 0%Z Zltb_swo demo3 1 demo_tree 9 5%Z
              demo3_reachable demo3_repr demo_fuel_le) as (Hp & _ & _).
  destruct (X4_lookups_agree Z.ltb 0%Z Zltb_swo demo3 1 demo_tree 9 7%Z
              demo3_reachable demo3_repr demo_fuel_le) as (_ & Ha & _).
  destruct (Hp 1%positive (5, 50)%Z demo_entry_5 eq_refl) as (H1 & H2 & _).
  destruct (Ha demo_absent_7) as (_ & _ & H3).
  split; [exact H1|]. split; [exact H2|exact H3].
Defined.

Lemma X5_witness :
  map_begin 1 9 demo3 = Ok (Iter (Some 1%positive) (Some 2%positive)) demo3.
Proof.
  destruct (X5_begin_and_empty Z.ltb 0%Z Zltb_swo demo3 1 demo_tree 9
              demo3_reachable demo3_repr demo_fuel_le) as (Hb & _ & _).
  destruct (Hb 2%positive (3, 30)%Z
              [(1%positive, (5, 50)%Z); (3%positive, (8, 80)%Z)] eq_refl) as [H _].
  exact H.
Defined.

Lemma X6_witness :
  iter_incr 9 (Iter (Some 1%positive) (Some 1%positive)) demo3
    = Ok (Iter (Some 1%positive) (Some 3%positive)) demo3 ∧
  iter_decr 9 (Iter (Some 1%positive) (Some 1%positive)) demo3
    = Ok (Iter (Some 1%positive) (Some 2%positive)) demo3 ∧
  iter_incr 9 (Iter (Some 1%positive) (Some 2%positive)) demo3
    = Ok (Iter (Some 1%positive) (Some 1%positive)) demo3.
Proof.
  destruct (X6_increment_decrement Z.ltb 0%Z Zltb_swo demo3 1 demo_tree 9
              [(2%positive, (3, 30)%Z)] [(3%positive, (8, 80)%Z)] 1%positive (5, 50)%Z
              demo3_reachable demo3_repr demo_fuel_le eq_refl) as (H1 & _ & H3 & _).
  destruct (H3 [] 2%positive (3, 30)%Z eq_refl) as [H4 H5].
  split; [exact H1|]. split; [exact H4|exact H5].
Defined.

Lemma X7_witness :
  ∃ w' : world (Key:=Z) (T:=Z),
    map_clear 1 9 demo3 = Ok tt w' ∧ map_size 1 w' = Ok 0%N w' ∧
    map_empty 1 w' = Ok true w'.
Proof.
  destruct (X7_clear_empties Z.ltb 0%Z Zltb_swo demo3 1 demo_tree 9
              demo3_reachable demo3_repr demo_fuel_le)
    as (w' & Hm & _ & Hs & He & _).
  exists w'. split; [exact Hm|]. split; [exact Hs|exact He].
Defined.

Lemma X8_witness :
  ∃ w' : world (Key:=Z) (T:=Z),
    map_ctor 1 wempty = Ok tt w' ∧ map_size 1 w' = Ok 0%N w' ∧
    map_empty 1 w' = Ok true w'.
Proof.
  destruct (X8_new_map_is_empty Z.ltb (wempty (Key:=Z) (T:=Z)) 1 eq_refl)
    as (w' & Hm & _ & _ & Hs & He & _).
  exists w'. split; [exact Hm|]. split; [exact Hs|exact He].
Defined.

Lemma X9_witness :
  height demo_tree ≤ 4 ∧
  ∃ r, find_node Z.ltb 1 4 8%Z demo3 = Ok r demo3.
Proof.
  destruct (X9_logarithmic_depth Z.ltb 0%Z Zltb_swo demo3 1 demo_tree 4
              demo3_reachable demo3_repr) as (Hh & Hf & _).
  { by vm_compute. }
  split; [exact Hh|]. destruct (Hf 8%Z) as (r & Hr & _). exists r. exact Hr.
Defined.

Lemma X11_witness :
  ∃ (z : ptr) (w1 w2 : world (Key:=Z) (T:=Z)) (t2 : tree),
    map_insert Z.ltb 1 9 (7, 70)%Z demo3 = Ok (Iter (Some 1%positive) (Some z), true) w1 ∧
    map_erase 1 9 (Iter (Some 1%positive) (Some z)) w1 = Ok tt w2 ∧
    repr w2 1 t2 ∧ entries t2 = entries demo_tree.
Proof.
  destruct (X11_insert_then_erase Z.ltb 0%Z Zltb_swo demo3 1 demo_tree 9 7%Z 70%Z
              demo3_reachable demo3_repr demo_fuel demo_absent_7)
    as (z & w1 & w2 & t2 & n & H1 & H2 & H3 & H4 & _).
  exists z, w1, w2, t2. split; [exact H1|]. split; [exact H2|].
  split; [exact H3|exact H4].
Defined.

Lemma X14_witness :
  ∃ w' : world (Key:=Z) (T:=Z),
    map_clear 1 9 demo3 = Ok tt w' ∧
    dom (nodes w') = dom (nodes demo3) ∖ list_to_set (ptrs demo_tree).
Proof.
  destruct (X14_clear_frees_the_nodes Z.ltb 0%Z Zltb_swo demo3 1 demo_tree 9
              demo3_reachable demo3_repr demo_fuel_le) as (w' & Hm & Hd & _).
  exists w'. split; [exact Hm|exact Hd].
Defined.

Lemma X15_witness :
  ∃ w' : world (Key:=Z) (T:=Z),
    map_dtor 1 9 demo3 = Ok tt w' ∧ objs w' = delete 1%positive (objs demo3).
Proof.
  destruct (X15_destructor Z.ltb 0%Z Zltb_swo demo3 1 demo_tree 9
              demo3_reachable demo3_repr demo_fuel_le) as (w' & Hm & Ho & _).
  exists w'. split; [exact Hm|exact Ho].
Defined.

(** Integers ordered by their tens: 13 and 17 are equivalent keys. *)
Definition by_tens (a b : Z) : bool := (a / 10 <? b / 10)%Z.

Lemma by_tens_swo : StrictWeakOrder by_tens.
Proof.
  unfold by_tens. split.
  - intros a. apply Z.ltb_irrefl.
  - intros a b c ?%Z.ltb_lt ?%Z.ltb_lt. apply Z.ltb_lt. lia.
  - intros a b c. rewrite !eq_key_spec !Z.ltb_ge. lia.
Qed.

Definition tens1 : world (Key:=Z) (T:=Z) :=
  exec (map_insert by_tens 1 9 (13, 1)%Z) demo0.
Definition tens_tree : tree (Key:=Z) (T:=Z) :=
  Nd false Leaf 1%positive (13, 1)%Z Leaf.

Lemma tens1_reachable : reachable by_tens 0%Z tens1.
Proof.
  assert (reachable by_tens 0%Z demo0) as H0.
  { destruct (exec_ok (map_ctor 1) (wempty (Key:=Z) (T:=Z))) as [[] Hr]; [done|].
    eapply reach_step; [apply reach_empty|]. eapply mut_ctor, Hr. }
  destruct (exec_ok (map_insert by_tens 1 9 (13, 1)%Z) demo0) as [r Hr];
    [by vm_compute|].
  eapply reach_step; [exact H0|]. eapply mut_insert, Hr.
Qed.
Lemma tens1_repr : repr tens1 1 tens_tree.
Proof. split; [by vm_compute|]. simpl. repeat split; by vm_compute. Qed.

Lemma X16_witness :
  map_find by_tens 1 9 13%Z tens1 = map_find by_tens 1 9 17%Z tens1 ∧
  map_count by_tens 1 9 13%Z tens1 = map_count by_tens 1 9 17%Z tens1 ∧
  map_at by_tens 1 9 13%Z tens1 = map_at by_tens 1 9 17%Z tens1.
Proof.
  apply (X16_equivalent_keys_look_up_alike by_tens 0%Z by_tens_swo tens1 1 tens_tree 9
           13%Z 17%Z tens1_reachable tens1_repr).
  - simpl. lia.
  - reflexivity.
Defined.

Lemma X17_witness :
  ∃ (w' : world (Key:=Z) (T:=Z)) (tB : tree),
    map_copy_ctor 2 9 1 demo3 = Ok tt w' ∧ repr w' 2 tB ∧
    ∀ p, p ∈ ptrs demo_tree → p ∉ ptrs tB.
Proof.
  destruct (X17_copy_shares_nothing Z.ltb 0%Z Zltb_swo demo3 1 2 demo_tree 9
              demo3_reachable demo3_repr demo_fuel_le)
    as (w' & tB & Hm & _ & Hr & Hd & _).
  { by vm_compute. }
  exists w', tB. split; [exact Hm|]. split; [exact Hr|exact Hd].
Defined.

Lemma X18_witness :
  ∃ w' w'' : world (Key:=Z) (T:=Z),
    left_rotate 1 1 demo3 = Ok tt w' ∧
    tree_at (nodes w') None
      (Nd true (Nd false (Nd true Leaf 2%positive (3, 30)%Z Leaf)
                  1%positive (5, 50)%Z Leaf)
          3%positive (8, 80)%Z Leaf) ∧
    right_rotate 1 3 w' = Ok tt w'' ∧ tree_at (nodes w'') None demo_tree.
Proof.
  destruct (X18_rotations demo3 1 3%N [] false true
              (Nd true Leaf 2%positive (3, 30)%Z Leaf) Leaf Leaf
              1%positive 3%positive (5, 50)%Z (8, 80)%Z)
    as (w' & w'' & H1 & _ & H2 & _ & H3 & _ & H4).
  - by vm_compute.
  - exact (proj2 demo3_repr).
  - unfold ptrs. simpl. repeat (apply NoDup_cons_2; [set_solver|]). apply NoDup_nil_2.
  - exists w', w''. split; [exact H1|]. split; [exact H2|].
    split; [exact H3|exact H4].
Defined.

Lemma X12_witness :
  ∃ (e : exn) (w' : world (Key:=Z) (T:=Z)),
    map_erase 1 9 (map_end 1) demo3 = Throw e w' ∧
    e = invalid_iterator ∧ w' = demo3.
Proof.
  assert (map_erase 1 9 (map_end 1) demo3 = Throw invalid_iterator demo3) as H
    by (by vm_compute).
  destruct (X12_exceptions_change_nothing (T:=Z) Z.ltb) as (_ & _ & He & _).
  destruct (He 1%positive 9 (map_end 1) demo3 invalid_iterator demo3 H)
    as (H1 & H2 & _).
  exists invalid_iterator, demo3. split; [exact H|]. split; [exact H1|exact H2].
Defined.

Lemma X13_witness :
  ∃ (r : iterator * bool) (w' : world (Key:=Z) (T:=Z)),
    map_insert Z.ltb 1 9 (7, 70)%Z demo3 = Ok r w' ∧
    ((r.2 = false ∧ w' = demo3) ∨
     (r.2 = true ∧ ∃ z, r.1 = Iter (Some 1%positive) (Some z) ∧
                        z ∉ dom (nodes demo3) ∧
                        dom (nodes w') = {[z]} ∪ dom (nodes demo3))).
Proof.
  destruct (exec_ok (map_insert Z.ltb 1 9 (7, 70)%Z) demo3) as [r Hr];
    [by vm_compute|].
  destruct (X13_nodes_allocated_and_freed Z.ltb 0%Z) as (Hi & _).
  exists r, (exec (map_insert Z.ltb 1 9 (7, 70)%Z) demo3).
  split; [exact Hr|]. exact (Hi 1%positive 9 (7, 70)%Z demo3 r _ Hr).
Defined.

